(** * The parallel CFR engine and its Discounted-CFR trainable

    A shallow embedding of [src/trainable/DiscountedCfrTrainable.cpp] and of
    the utility functions, the isomorphism table and the driver loop of
    [src/solver/PCfrSolver.cpp], with the properties the specification
    states about them; then of the code around them, the constructor with
    [noDuplicateRange] and [setTrainable], [getReachProbs],
    [getAllAbstractionDeal], [actionUtility] and the recursion [cfr] over
    the game tree, with the properties this code shows by itself.

    Conventions of the embedding.
    - [vector<float>] is a [list R]: single-precision arithmetic is idealised
      as exact real arithmetic, with the exceptions named below.  The NaN
      test of [setEv] and [setEquity] depends on a value that is not a real
      number; the EV and equity tables therefore hold IEEE values (Rocq's
      primitive floats), whose [==] is false on NaN.
    - [v[i]] is [v !!! i], [v[i] = x] is [<[i:=x]> v]; the code never indexes
      out of range when the vectors have the lengths its constructor gives
      them, and the theorems assume those lengths.
    - [int] sizes and loop counters that range over [0 .. size) are [nat];
      [int] values that may be negative (offsets, iteration numbers, the
      warmup bound) are [Z]; a deal, which the solver numbers from 0
      upwards, is a [nat]; [uint64_t] board masks are [Z] with [Z.lor],
      [Z.land] and [Z.shiftl].
    - a [for] loop over [0 .. n) is [for_range n body]; a [throw] is the
      [Throw] result, and an exception that leaves the OpenMP parallel
      region of [chanceUtility] is the end of the process, [terminate].
    - two places keep the rounding of [float]: the sign test of the EV
      block of [actionUtility], which follows a cancellation, rounds each
      operation with [round_float]; and the fold node is given a second
      time in single precision, [terminalUtility_binary32], to compare the
      value it returns with the exact one. *)

From Stdlib Require Import Reals Lra Lia ZArith Bool String.
From Stdlib Require Import Floats.PrimFloat Floats.SpecFloat.
From stdpp Require Import base list gmap.

#[local] Open Scope R_scope.

(** ** Vectors and loops *)

#[global] Instance R_inhabited : Inhabited R := populate 0.
#[global] Instance float_inhabited : Inhabited float := populate PrimFloat.zero.

(** [for (int i = 0; i < n; i++) body] *)
Definition for_range {S : Type} (n : nat) (body : nat -> S -> S) (s : S) : S :=
  fold_left (fun acc i => body i acc) (seq 0 n) s.

(** [for (int i = n - 1; i >= 0; i--) body] *)
Definition for_range_down {S : Type} (n : nat) (body : nat -> S -> S) (s : S) : S :=
  fold_left (fun acc i => body i acc) (rev (seq 0 n)) s.

(** [fill(v.begin(), v.end(), x)] *)
Definition fill {A : Type} (v : list A) (x : A) : list A :=
  replicate (length v) x.

(** The sum of a list, first element first, as an accumulation loop
    [acc += x] started at 0 computes it. *)
Definition sumR (l : list R) : R := fold_left Rplus l 0.

Definition prodR (l : list R) : R := fold_left Rmult l 1.

(** What ends a call other than its return: a [runtime_error(msg)] on its
    way to the caller, or the end of the process by [std::terminate], when
    an exception leaves a region that it must not leave. A message stands
    for the [runtime_error] that carries it. *)
Inductive Failure : Type :=
| runtime_error (what : string)
| terminate.
Coercion runtime_error : string >-> Failure.

(** A normal return, or the failure that ended the call. *)
Inductive Result (A : Type) : Type :=
| Ok (a : A)
| Throw (what : Failure).
Arguments Ok {A} a.
Arguments Throw {A} what%_string.

(** ** DiscountedCfrTrainable *)

(** The members of the class; [alpha], [beta], [gamma] and [theta] are
    declared in the header with their tuning values and are read here as
    fields. The reference to the action node and the pointer to the hands
    only give [action_number] and [card_number]. *)
Record DiscountedCfrTrainable : Type := mkTrainable {
  action_number : nat;
  card_number : nat;
  evs : list float;
  equities : list float;
  r_plus : list R;
  r_plus_sum : list R;
  cum_r_plus : list R;
  alpha : R;
  beta : R;
  gamma : R;
  theta : R
}.

(** The constructor: every table zero-filled at its size. *)
Definition newTrainable (A H : nat) (al be ga th : R) : DiscountedCfrTrainable :=
  {| action_number := A;
     card_number := H;
     evs := replicate (A * H) PrimFloat.zero;
     equities := replicate (A * H) PrimFloat.zero;
     r_plus := replicate (A * H) 0;
     r_plus_sum := replicate H 0;
     cum_r_plus := replicate (A * H) 0;
     alpha := al; beta := be; gamma := ga; theta := th |}.

(** [pow(x, y)] of <cmath> for a positive base, which is what every call
    below passes when the iteration number is at least 1. *)
Definition pow (x y : R) : R := Rpower x y.

(** [max(float(0.0), x)] *)
Definition max0 (x : R) : R := Rmax 0 x.

Definition getAverageStrategy (t : DiscountedCfrTrainable) : list R :=
  let A := action_number t in
  let H := card_number t in
  for_range H (fun private_id average_strategy =>
      let r_plus_sum :=
        for_range A (fun action_id s =>
            let index := (action_id * H + private_id)%nat in
            s + cum_r_plus t !!! index) 0 in
      for_range A (fun action_id average_strategy =>
          let index := (action_id * H + private_id)%nat in
          if Req_dec_T r_plus_sum 0
          then <[index := 1 / INR A]> average_strategy
          else <[index := cum_r_plus t !!! index / r_plus_sum]> average_strategy)
        average_strategy)
    (replicate (A * H) 0).

Definition getcurrentStrategyNoCache (t : DiscountedCfrTrainable) : list R :=
  let A := action_number t in
  let H := card_number t in
  let current_strategy := replicate (A * H) 0 in
  match r_plus_sum t with
  | [] => fill current_strategy (1 / INR A)
  | _ =>
      for_range A (fun action_id current_strategy =>
        for_range H (fun private_id current_strategy =>
            let index := (action_id * H + private_id)%nat in
            if Req_dec_T (r_plus_sum t !!! private_id) 0
            then <[index := 1 / INR A]> current_strategy
            else <[index := max0 (r_plus t !!! index) / (r_plus_sum t !!! private_id)]>
                   current_strategy)
          current_strategy)
        current_strategy
  end.

Definition getcurrentStrategy (t : DiscountedCfrTrainable) : list R :=
  getcurrentStrategyNoCache t.

Definition copyStrategy (t other : DiscountedCfrTrainable) : DiscountedCfrTrainable :=
  {| action_number := action_number t;
     card_number := card_number t;
     evs := evs t;
     equities := equities t;
     r_plus := r_plus other;
     r_plus_sum := r_plus_sum t;
     cum_r_plus := cum_r_plus other;
     alpha := alpha t; beta := beta t; gamma := gamma t; theta := theta t |}.

(** The loop shared by [setEv] and [setEquity]:
    [for i: if (in[i] == in[i]) stored[i] = in[i];] *)
Definition store_not_nan (input stored : list float) : list float :=
  for_range (length input) (fun i stored =>
      if PrimFloat.eqb (input !!! i) (input !!! i)
      then <[i := input !!! i]> stored
      else stored)
    stored.

Definition with_evs (t : DiscountedCfrTrainable) (v : list float) : DiscountedCfrTrainable :=
  {| action_number := action_number t;
     card_number := card_number t;
     evs := v;
     equities := equities t;
     r_plus := r_plus t;
     r_plus_sum := r_plus_sum t;
     cum_r_plus := cum_r_plus t;
     alpha := alpha t; beta := beta t; gamma := gamma t; theta := theta t |}.

Definition with_equities (t : DiscountedCfrTrainable) (v : list float) : DiscountedCfrTrainable :=
  {| action_number := action_number t;
     card_number := card_number t;
     evs := evs t;
     equities := v;
     r_plus := r_plus t;
     r_plus_sum := r_plus_sum t;
     cum_r_plus := cum_r_plus t;
     alpha := alpha t; beta := beta t; gamma := gamma t; theta := theta t |}.

Definition setEv (t : DiscountedCfrTrainable) (input : list float)
  : Result DiscountedCfrTrainable :=
  if negb (length input =? length (evs t))%nat
  then Throw "size mismatch in discountcfrtrainable setEV"
  else Ok (with_evs t (store_not_nan input (evs t))).

Definition setEquity (t : DiscountedCfrTrainable) (input : list float)
  : Result DiscountedCfrTrainable :=
  if negb (length input =? length (equities t))%nat
  then Throw "size mismatch in discountcfrtrainable setEquity"
  else Ok (with_equities t (store_not_nan input (equities t))).

(** The first pair of loops of [updateRegrets]: the discounted regrets and
    their clamped per-hand sums, on the pair ([r_plus], [r_plus_sum]). *)
Definition regret_step (H : nat) (regrets : list R) (alpha_coef be : R)
    (action_id private_id : nat) (st : list R * list R) : list R * list R :=
  let '(r_plus, r_plus_sum) := st in
  let index := (action_id * H + private_id)%nat in
  let one_reg := regrets !!! index in
  let r_plus := <[index := one_reg + r_plus !!! index]> r_plus in
  let r_plus :=
    if Rgt_dec (r_plus !!! index) 0
    then <[index := r_plus !!! index * alpha_coef]> r_plus
    else <[index := r_plus !!! index * be]> r_plus in
  let r_plus_sum :=
    <[private_id := r_plus_sum !!! private_id + max0 (r_plus !!! index)]> r_plus_sum in
  (r_plus, r_plus_sum).

Definition updateRegrets (t : DiscountedCfrTrainable) (regrets : list R)
    (iteration_number : Z) : DiscountedCfrTrainable :=
  let A := action_number t in
  let H := card_number t in
  let alpha_coef := pow (IZR iteration_number) (alpha t) in
  let alpha_coef := alpha_coef / (1 + alpha_coef) in
  let r_plus_sum0 := fill (r_plus_sum t) 0 in
  let '(r_plus1, r_plus_sum1) :=
    for_range A (fun action_id st =>
        for_range H (fun private_id st =>
            regret_step H regrets alpha_coef (beta t) action_id private_id st) st)
      (r_plus t, r_plus_sum0) in
  let t1 :=
    {| action_number := A; card_number := H;
       evs := evs t; equities := equities t;
       r_plus := r_plus1; r_plus_sum := r_plus_sum1;
       cum_r_plus := cum_r_plus t;
       alpha := alpha t; beta := beta t; gamma := gamma t; theta := theta t |} in
  let current_strategy := getcurrentStrategyNoCache t1 in
  let strategy_coef :=
    pow (IZR iteration_number / IZR (iteration_number + 1)) (gamma t) in
  let cum_r_plus1 :=
    for_range A (fun action_id cum =>
        for_range H (fun private_id cum =>
            let index := (action_id * H + private_id)%nat in
            let cum := <[index := cum !!! index * theta t]> cum in
            <[index := cum !!! index + current_strategy !!! index * strategy_coef]> cum)
          cum)
      (cum_r_plus t) in
  {| action_number := A; card_number := H;
     evs := evs t; equities := equities t;
     r_plus := r_plus1; r_plus_sum := r_plus_sum1;
     cum_r_plus := cum_r_plus1;
     alpha := alpha t; beta := beta t; gamma := gamma t; theta := theta t |}.

(** [x != x], the test the setters use to recognise NaN. *)
Definition isNaN (x : float) : bool := negb (PrimFloat.eqb x x).

(** The entries of hand [h] in an action-major table, action by action. *)
Definition column (v : list R) (A H h : nat) : list R :=
  map (fun a => v !!! (a * H + h)%nat) (seq 0 A).

(** The discount the specification describes: a positive running regret is
    multiplied by the coefficient [c], any other by [b]. *)
Definition discounted (c b v : R) : R :=
  if Rgt_dec v 0 then v * c else v * b.

(** Boundary scenario 5 of the specification: [updateRegrets] driven with a
    constant regret of 1.0, at the iteration numbers [1 .. n]. *)
Definition driveConstantRegret (t : DiscountedCfrTrainable) (n : nat)
  : DiscountedCfrTrainable :=
  fold_left (fun t k =>
      updateRegrets t (replicate (action_number t * card_number t) 1) (Z.of_nat k))
    (seq 1 n) t.

(** The discount coefficient of iteration [k], as [updateRegrets] computes it. *)
Definition dcfr_coef (al : R) (k : nat) : R :=
  pow (IZR (Z.of_nat k)) al / (1 + pow (IZR (Z.of_nat k)) al).

(** [sum_{k=1..n} prod_{j=k..n} dcfr_coef j]: each unit of regret is
    discounted by the coefficients of all later iterations. *)
Definition dcfr_closed (al : R) (n : nat) : R :=
  sumR (map (fun k => prodR (map (dcfr_coef al) (seq k (S n - k)))) (seq 1 n)).

(** ** Cards, hands and boards *)

(** A hand of two private cards with its weight in the range; the cards are
    the integers of [Card], below 52, and index the per-card sums. *)
Record PrivateCards : Type := mkPrivateCards {
  card1 : nat;
  card2 : nat;
  weight : R
}.

#[global] Instance PrivateCards_inhabited : Inhabited PrivateCards :=
  populate (mkPrivateCards 0 0 0).

(** Modelled from the spec: [Card::boardInt2long]; the class [Card] is
    defined outside the solver's sources. A board is a 52-bit mask of cards,
    a card below 52 is one bit of it and the [uint64_t] never wraps. *)
Definition boardInt2long (card : nat) : Z := Z.shiftl 1 (Z.of_nat card).

(** Modelled from the spec: [Card::boardInts2long], the mask of a list of
    cards. *)
Definition boardInts2long (cards : list nat) : Z :=
  fold_left (fun board card => Z.lor board (boardInt2long card)) cards 0%Z.

(** Modelled from the spec: [Card::boardsHasIntercept], two masks share a
    card. *)
Definition boardsHasIntercept (board1 board2 : Z) : bool :=
  negb (Z.land board1 board2 =? 0)%Z.

(** Modelled from the spec: [Card::long2board], the cards of a mask in
    ascending order. *)
Definition long2board (board : Z) : list nat :=
  filter (fun card => Z.testbit board (Z.of_nat card) = true) (seq 0 52).

(** Modelled from the spec: [PrivateCards::get_hands] and
    [PrivateCards::toBoardLong], the two cards of a hand and their mask. *)
Definition get_hands (h : PrivateCards) : list nat := [card1 h; card2 h].

Definition toBoardLong (h : PrivateCards) : Z := boardInts2long (get_hands h).

(** Two hands are the same unordered pair of cards. *)
Definition same_hand (a b : PrivateCards) : bool :=
  ((card1 a =? card1 b)%nat && (card2 a =? card2 b)%nat)
  || ((card1 a =? card2 b)%nat && (card2 a =? card1 b)%nat).

(** Modelled from the spec: the search behind
    [PrivateCardsManager::indPlayer2Player], a class defined outside the
    solver's sources: the index of the identical hand in the other player's
    range, or -1 when that range does not hold it. *)
Fixpoint find_hand (h : PrivateCards) (range : list PrivateCards) (i : nat) : Z :=
  match range with
  | [] => (-1)%Z
  | x :: rest => if same_hand h x then Z.of_nat i else find_hand h rest (S i)
  end.

(** One entry of the river rank cache. *)
Record RiverCombs : Type := mkRiverCombs {
  private_cards : PrivateCards;
  rank : Z;
  reach_prob_index : nat
}.

#[global] Instance RiverCombs_inhabited : Inhabited RiverCombs :=
  populate (mkRiverCombs inhabitant 0%Z 0).

(** ** The solver object *)

Inductive MonteCarolAlg : Type := NONE | PUBLIC.

Inductive GameRound : Type := PREFLOP | FLOP | TURN | RIVER.

Definition GameRound_eqb (a b : GameRound) : bool :=
  match a, b with
  | PREFLOP, PREFLOP | FLOP, FLOP | TURN, TURN | RIVER, RIVER => true
  | _, _ => false
  end.

(** [CfrResult]: the payoffs and, when equity tracking is on, the equity. *)
Record CfrResult : Type := mkCfrResult {
  payoffs : list R;
  equity : list R
}.

#[global] Instance CfrResult_inhabited : Inhabited CfrResult :=
  populate (mkCfrResult [] []).

(** The members of [PCfrSolver] the modelled functions read.
    [getRiverCombos player board] stands for
    [rrm.getRiverCombos(player, ranges[player], board)]: the river rank cache
    is an external collaborator, taken as given. [color_iso_offset] is the
    table [int[52*52*2][4]], zero-initialised. The constructor sets
    [distributing_task] to false and nothing sets it again. *)
Record PCfrSolver : Type := mkSolver {
  range1 : list PrivateCards;
  range2 : list PrivateCards;
  initial_board_long : Z;
  deck : list nat;
  getRiverCombos : nat -> Z -> list RiverCombs;
  color_iso_offset : nat -> nat -> Z;
  monteCarolAlg : MonteCarolAlg;
  warmup : Z;
  split_round : GameRound;
  distributing_task : bool;
  use_isomorphism : bool;
  enable_equity : bool;
  iteration_number : Z;
  print_interval : Z;
  logfile : string;
  accuracy : R
}.

(** [ranges[player]]: the vector holds [range1] and [range2]. *)
Definition ranges (this : PCfrSolver) (player : nat) : list PrivateCards :=
  match player with
  | 0%nat => range1 this
  | _ => range2 this
  end.

Definition playerHands (this : PCfrSolver) (player : nat)
  : Result (list PrivateCards) :=
  match player with
  | 0%nat => Ok (range1 this)
  | 1%nat => Ok (range2 this)
  | _ => Throw "player not found"
  end.

(** Modelled from the spec: [pcm.indPlayer2Player(from, to, hand_idx)], by
    [find_hand] over the range of [to]. *)
Definition indPlayer2Player (this : PCfrSolver) (from to : nat) (hand_idx : nat) : Z :=
  find_hand (ranges this from !!! hand_idx) (ranges this to) 0.

(** [sums[h.card1] += x; sums[h.card2] += x;] *)
Definition add_card_reach (sums : list R) (h : PrivateCards) (x : R) : list R :=
  let sums := <[card1 h := sums !!! card1 h + x]> sums in
  <[card2 h := sums !!! card2 h + x]> sums.

(** The blocker-corrected opponent reach both utilities use:
    [total - card_sum[h.card1] - card_sum[h.card2]]. *)
Definition minus_blockers (total : R) (card_sum : list R) (h : PrivateCards) : R :=
  total - card_sum !!! card1 h - card_sum !!! card2 h.

(** ** terminalUtility *)

Definition terminalUtility (this : PCfrSolver) (player : nat)
    (node_payoffs : list R) (reach_prob : list R) (current_board : Z)
  : Result CfrResult :=
  let player_payoff := node_payoffs !!! player in
  let oppo := (1 - player)%nat in
  match playerHands this player, playerHands this oppo with
  | Ok player_hand, Ok oppo_hand =>
      let payoffs := replicate (length player_hand) 0 in
      let equity := if enable_equity this
                    then replicate (length player_hand) 0 else [] in
      let '(oppo_sum, oppo_card_sum) :=
        for_range (length oppo_hand) (fun i '(oppo_sum, oppo_card_sum) =>
            (oppo_sum + reach_prob !!! i,
             add_card_reach oppo_card_sum (oppo_hand !!! i) (reach_prob !!! i)))
          (0, replicate 52 0) in
      let '(payoffs, equity) :=
        for_range (length player_hand) (fun i '(payoffs, equity) =>
            let one_player_hand := player_hand !!! i in
            if boardsHasIntercept current_board
                 (boardInts2long (get_hands one_player_hand))
            then (payoffs, equity)
            else
              let oppo_same_card_ind := indPlayer2Player this player oppo i in
              let plus_reach_prob :=
                if (oppo_same_card_ind =? -1)%Z then 0
                else reach_prob !!! Z.to_nat oppo_same_card_ind in
              let effective_oppo_reach :=
                minus_blockers oppo_sum oppo_card_sum one_player_hand
                + plus_reach_prob in
              (<[i := player_payoff * effective_oppo_reach]> payoffs,
               if enable_equity this
               then <[i := if Rgt_dec player_payoff 0
                           then effective_oppo_reach else 0]> equity
               else equity))
          (payoffs, equity) in
      Ok (mkCfrResult payoffs equity)
  | Throw what, _ => Throw what
  | _, Throw what => Throw what
  end.

(** *** Vocabulary of the blocker formulas *)

Definition holds_card (h : PrivateCards) (c : nat) : bool :=
  (card1 h =? c)%nat || (card2 h =? c)%nat.

Definition shares_card (o h : PrivateCards) : bool :=
  holds_card o (card1 h) || holds_card o (card2 h).

(** The reach of the hands of [range] that hold card [c]. *)
Definition reach_holding (range : list PrivateCards) (reach : list R) (c : nat) : R :=
  sumR (map (fun i => if holds_card (range !!! i) c then reach !!! i else 0)
          (seq 0 (length range))).

(** The reach of the identical hand in the other range, 0 when absent. *)
Definition same_hand_reach (this : PCfrSolver) (player i : nat) (reach : list R) : R :=
  let T := indPlayer2Player this player (1 - player) i in
  if (T =? -1)%Z then 0 else reach !!! Z.to_nat T.

(** A hand is two distinct cards of the 52. *)
Definition hand_ok (h : PrivateCards) : Prop :=
  (card1 h < 52)%nat /\ (card2 h < 52)%nat /\ card1 h <> card2 h.

(** A range after construction: well-formed hands, none twice. *)
Definition range_ok (range : list PrivateCards) : Prop :=
  Forall hand_ok range /\
  ForallOrdPairs (fun a b => same_hand a b = false) range.

(** *** A small game for the examples

    Boundary scenario 1 of the specification: two-hand ranges, no board. *)
Definition example_range1 : list PrivateCards :=
  [mkPrivateCards 0 1 1; mkPrivateCards 2 3 1].

Definition example_range2 : list PrivateCards :=
  [mkPrivateCards 0 1 1; mkPrivateCards 4 5 1].

Definition example_solver : PCfrSolver :=
  {| range1 := example_range1;
     range2 := example_range2;
     initial_board_long := 0;
     deck := seq 0 52;
     getRiverCombos := fun _ _ => [];
     color_iso_offset := fun _ _ => 0%Z;
     monteCarolAlg := NONE;
     warmup := 0;
     split_round := TURN;
     distributing_task := false;
     use_isomorphism := true;
     enable_equity := false;
     iteration_number := 10;
     print_interval := 1;
     logfile := "";
     accuracy := 0 |}.

(** ** showdownUtility *)

Inductive ShowDownResult : Type := NOTTIE | TIE.

(** The showdown node as far as the solver reads it:
    [get_payoffs(result, winner, player)]. *)
Record ShowdownNode : Type := mkShowdownNode {
  get_payoffs : ShowDownResult -> nat -> nat -> R
}.

(** The inner [while] of both passes: as long as the next opponent entry is
    beaten, add its reach to the running sum and to the sums of its two
    cards, and move on. [rest] is the part of the opponent's sorted list not
    consumed yet; the counter is the number of entries consumed. *)
Fixpoint scan (beats : RiverCombs -> bool) (reach_probs : list R)
    (rest : list RiverCombs) (st : nat * R * list R) : nat * R * list R :=
  match rest with
  | [] => st
  | one_oppo_comb :: rest' =>
      let '(j, sum, card_sum) := st in
      if beats one_oppo_comb
      then scan beats reach_probs rest'
             (S j,
              sum + reach_probs !!! reach_prob_index one_oppo_comb,
              add_card_reach card_sum (private_cards one_oppo_comb)
                (reach_probs !!! reach_prob_index one_oppo_comb))
      else st
  end.

(** The body of the first [for]: the hands the player beats. *)
Definition showdown_win_body (this : PCfrSolver) (player : nat)
    (reach_probs : list R) (oppo_combs : list RiverCombs) (win_payoff : R)
    (oppo_total : R) (oppo_card_total : list R)
    (one_player_comb : RiverCombs)
    (st : (nat * R * list R) * list R * (list R * list R))
  : (nat * R * list R) * list R * (list R * list R) :=
  let oppo := (1 - player)%nat in
  let '(win_state, payoffs, (effective_winsum_arr, effective_total_arr)) := st in
  let '(j, winsum, card_winsum) :=
    scan (fun one_oppo_comb => (rank one_player_comb <? rank one_oppo_comb)%Z)
      reach_probs (drop (fst (fst win_state)) oppo_combs) win_state in
  let effective_winsum :=
    minus_blockers winsum card_winsum (private_cards one_player_comb) in
  let payoffs :=
    <[reach_prob_index one_player_comb := effective_winsum * win_payoff]> payoffs in
  if enable_equity this
  then
    let effective_winsum_arr :=
      <[reach_prob_index one_player_comb := effective_winsum]> effective_winsum_arr in
    let effective_total :=
      minus_blockers oppo_total oppo_card_total (private_cards one_player_comb) in
    let oppo_same_card_ind :=
      indPlayer2Player this player oppo (reach_prob_index one_player_comb) in
    let effective_total :=
      if negb (oppo_same_card_ind =? -1)%Z
      then effective_total + reach_probs !!! Z.to_nat oppo_same_card_ind
      else effective_total in
    let effective_total_arr :=
      <[reach_prob_index one_player_comb := effective_total]> effective_total_arr in
    ((j, winsum, card_winsum), payoffs, (effective_winsum_arr, effective_total_arr))
  else
    ((j, winsum, card_winsum), payoffs, (effective_winsum_arr, effective_total_arr)).

(** The body of the second [for]: the hands the player loses to. It walks
    the opponent's list from the back, that is, the reversed list from the
    front; the counter of [scan] is then [size - 1 - j]. *)
Definition showdown_loss_body (this : PCfrSolver)
    (reach_probs : list R) (oppo_combs : list RiverCombs) (lose_payoff : R)
    (effective_winsum_arr effective_total_arr : list R)
    (one_player_comb : RiverCombs)
    (st : (nat * R * list R) * list R * list R)
  : (nat * R * list R) * list R * list R :=
  let '(loss_state, payoffs, equity) := st in
  let '(j, losssum, card_losssum) :=
    scan (fun one_oppo_comb => (rank one_oppo_comb <? rank one_player_comb)%Z)
      reach_probs (drop (fst (fst loss_state)) (rev oppo_combs)) loss_state in
  let effective_losssum :=
    minus_blockers losssum card_losssum (private_cards one_player_comb) in
  let payoffs :=
    <[reach_prob_index one_player_comb :=
        payoffs !!! reach_prob_index one_player_comb
        + effective_losssum * lose_payoff]> payoffs in
  if enable_equity this
  then
    let idx := reach_prob_index one_player_comb in
    let effective_winsum := effective_winsum_arr !!! idx in
    let effective_total := effective_total_arr !!! idx in
    let effective_tiesum := effective_total - effective_winsum - effective_losssum in
    let effective_tiesum :=
      if Rlt_dec effective_tiesum 0 then 0 else effective_tiesum in
    ((j, losssum, card_losssum), payoffs,
     <[idx := effective_winsum + 0.5 * effective_tiesum]> equity)
  else ((j, losssum, card_losssum), payoffs, equity).

Definition showdownUtility (this : PCfrSolver) (player : nat)
    (node : ShowdownNode) (reach_probs : list R) (current_board : Z) : CfrResult :=
  let oppo := (1 - player)%nat in
  let win_payoff := get_payoffs node NOTTIE player player in
  let lose_payoff := get_payoffs node NOTTIE oppo player in
  let player_private_cards := ranges this player in
  let player_combs := getRiverCombos this player current_board in
  let oppo_combs := getRiverCombos this oppo current_board in
  let n := length player_private_cards in
  let payoffs := replicate n 0 in
  let equity := if enable_equity this then replicate n 0 else [] in
  let effective_winsum_arr := if enable_equity this then replicate n 0 else [] in
  let effective_total_arr := if enable_equity this then replicate n 0 else [] in
  let '(oppo_total, oppo_card_total) :=
    if enable_equity this
    then for_range (length oppo_combs) (fun i '(oppo_total, oppo_card_total) =>
             let one_oppo_comb := oppo_combs !!! i in
             (oppo_total + reach_probs !!! reach_prob_index one_oppo_comb,
              add_card_reach oppo_card_total (private_cards one_oppo_comb)
                (reach_probs !!! reach_prob_index one_oppo_comb)))
           (0, replicate 52 0)
    else (0, []) in
  let '(_, payoffs, (effective_winsum_arr, effective_total_arr)) :=
    for_range (length player_combs) (fun i st =>
        showdown_win_body this player reach_probs oppo_combs win_payoff
          oppo_total oppo_card_total (player_combs !!! i) st)
      ((0%nat, 0, replicate 52 0), payoffs,
       (effective_winsum_arr, effective_total_arr)) in
  let '(_, payoffs, equity) :=
    for_range_down (length player_combs) (fun i st =>
        showdown_loss_body this reach_probs oppo_combs lose_payoff
          effective_winsum_arr effective_total_arr (player_combs !!! i) st)
      ((0%nat, 0, replicate 52 0), payoffs, equity) in
  mkCfrResult payoffs equity.

(** What either pass does to the scan state and to [payoffs], the equity
    bookkeeping left aside: [f] gives the new payoff of the hand from its
    effective reach and its old payoff. *)
Definition pass_step (beats : RiverCombs -> RiverCombs -> bool)
    (reach_probs : list R) (oppo_combs : list RiverCombs)
    (f : R -> R -> R) (one_player_comb : RiverCombs)
    (st : (nat * R * list R) * list R) : (nat * R * list R) * list R :=
  let '(scan_state, payoffs) := st in
  let '(j, sum, card_sum) :=
    scan (beats one_player_comb) reach_probs
      (drop (fst (fst scan_state)) oppo_combs) scan_state in
  ((j, sum, card_sum),
   <[reach_prob_index one_player_comb :=
       f (minus_blockers sum card_sum (private_cards one_player_comb))
         (payoffs !!! reach_prob_index one_player_comb)]> payoffs).

(** *** Vocabulary of the showdown formulas *)

(** The reach of the entries of [combs], and of those holding card [c]. *)
Definition combs_total (reach : list R) (combs : list RiverCombs) : R :=
  sumR (map (fun o => reach !!! reach_prob_index o) combs).

Definition combs_holding (reach : list R) (combs : list RiverCombs) (c : nat) : R :=
  sumR (map (fun o => if holds_card (private_cards o) c
                      then reach !!! reach_prob_index o else 0) combs).

(** The effective reach of the opponent entries selected by [sel] against
    the hand [h]: their reach minus the blocker sums of [h]'s two cards. *)
Definition effective_reach (reach : list R) (sel : RiverCombs -> bool)
    (combs : list RiverCombs) (h : PrivateCards) : R :=
  combs_total reach (List.filter sel combs)
  - combs_holding reach (List.filter sel combs) (card1 h)
  - combs_holding reach (List.filter sel combs) (card2 h).

(** Both utilities read ranks as "lower is stronger": [o] is strictly worse
    than [p] when its rank is the greater one. *)
Definition worse_than (p o : RiverCombs) : bool := (rank p <? rank o)%Z.
Definition better_than (p o : RiverCombs) : bool := (rank o <? rank p)%Z.

(** The order both passes of [showdownUtility] rely on: the weakest entry
    (greatest rank) first. *)
Definition ranks_descending (combs : list RiverCombs) : Prop :=
  forall i j, (i <= j)%nat -> (j < length combs)%nat ->
    (rank (combs !!! j) <= rank (combs !!! i))%Z.

(** The contract of the river rank cache as [showdownUtility] relies on it:
    the entries of a player are sorted, weakest first, each is a hand of the
    player's range under its index, and no hand comes twice. *)
Definition river_combos_ok (range : list PrivateCards) (combs : list RiverCombs) : Prop :=
  ranks_descending combs /\
  NoDup (map reach_prob_index combs) /\
  Forall (fun p => (reach_prob_index p < length range)%nat /\
                   private_cards p = range !!! reach_prob_index p /\
                   hand_ok (private_cards p)) combs.

(** The cache for a player on a board: the contract above, and every hand
    of the range that does not overlap the board has its entry. *)
Definition river_cache_ok (this : PCfrSolver) (player : nat) (board : Z) : Prop :=
  river_combos_ok (ranges this player) (getRiverCombos this player board) /\
  forall h, (h < length (ranges this player))%nat ->
    boardsHasIntercept board (toBoardLong (ranges this player !!! h)) = false ->
    exists p, In p (getRiverCombos this player board) /\ reach_prob_index p = h.

(** A river for the small game: the shared hand ties, [(2,3)] is the
    weakest hand, [(4,5)] lies between. *)
Definition example_river_solver : PCfrSolver :=
  {| range1 := example_range1;
     range2 := example_range2;
     initial_board_long := 0;
     deck := seq 0 52;
     getRiverCombos := fun player _ =>
       match player with
       | 0%nat => [mkRiverCombs (mkPrivateCards 2 3 1) 5 1;
                   mkRiverCombs (mkPrivateCards 0 1 1) 3 0]
       | _ => [mkRiverCombs (mkPrivateCards 4 5 1) 4 1;
               mkRiverCombs (mkPrivateCards 0 1 1) 3 0]
       end;
     color_iso_offset := fun _ _ => 0%Z;
     monteCarolAlg := NONE;
     warmup := 0;
     split_round := TURN;
     distributing_task := false;
     use_isomorphism := true;
     enable_equity := false;
     iteration_number := 10;
     print_interval := 1;
     logfile := "";
     accuracy := 0 |}.

Definition example_showdown : ShowdownNode :=
  {| get_payoffs := fun _ winner player =>
       if (winner =? player)%nat then 10 else -10 |}.

(** ** findGameSpecificIsomorphisms *)

(** Assignment to a [uint16_t]. *)
Definition u16 (x : Z) : Z := x mod 2 ^ 16.

(** [color_hash[card % 4] |= 1 << (card / 4)] for every card: per suit, the
    set of the ranks present, as a bit mask. (The source calls the suit
    [rankind] and the rank [suitind].) *)
Definition add_color_hash (color_hash : list Z) (one_card : nat) : list Z :=
  let rankind := (one_card mod 4)%nat in
  let suitind := (one_card / 4)%nat in
  <[rankind := u16 (Z.lor (color_hash !!! rankind)
                           (Z.shiftl 1 (Z.of_nat suitind)))]> color_hash.

Definition board_color_hash (board_cards : list nat) : list Z :=
  fold_left add_color_hash board_cards [0; 0; 0; 0]%Z.

(** [color_iso_offset[deal][i] = v] *)
Definition set_offset (table : nat -> nat -> Z) (deal i : nat) (v : Z)
  : nat -> nat -> Z :=
  fun d s => if ((d =? deal) && (s =? i))%nat then v else table d s.

(** The pair of loops that fills the row of one deal:
    [for i < 4: offset[i] = 0; for j < i: if hash[i] == hash[j] then
    { offset[i] = j - i; continue; }] *)
Definition fill_offsets (color_hash : list Z) (deal : nat)
    (table : nat -> nat -> Z) : nat -> nat -> Z :=
  for_range 4 (fun i table =>
      let table := set_offset table deal i 0 in
      for_range i (fun j table =>
          if (color_hash !!! i =? color_hash !!! j)%Z
          then set_offset table deal i (Z.of_nat j - Z.of_nat i)
          else table)
        table)
    table.

(** The chance-node part of [findGameSpecificIsomorphisms]; the hand part
    before it only fills a local array that nothing reads. The result is the
    table [color_iso_offset]. *)
Definition findGameSpecificIsomorphisms (this : PCfrSolver) : nat -> nat -> Z :=
  let board_cards := long2board (initial_board_long this) in
  let color_hash := board_color_hash board_cards in
  let table := fill_offsets color_hash 0 (color_iso_offset this) in
  for_range (length (deck this)) (fun deal table =>
      let color_hash := board_color_hash board_cards in
      let one_card := deck this !!! deal in
      let color_hash := add_color_hash color_hash one_card in
      fill_offsets color_hash (deal + 1) table)
    table.

(** The solver with its table [color_iso_offset] replaced. *)
Definition with_color_iso_offset (this : PCfrSolver) (table : nat -> nat -> Z)
  : PCfrSolver :=
  {| range1 := range1 this; range2 := range2 this;
     initial_board_long := initial_board_long this;
     deck := deck this;
     getRiverCombos := getRiverCombos this;
     color_iso_offset := table;
     monteCarolAlg := monteCarolAlg this;
     warmup := warmup this;
     split_round := split_round this;
     distributing_task := distributing_task this;
     use_isomorphism := use_isomorphism this;
     enable_equity := enable_equity this;
     iteration_number := iteration_number this;
     print_interval := print_interval this;
     logfile := logfile this;
     accuracy := accuracy this |}.

(** *** Vocabulary of the isomorphism claims *)

(** The rank masks the row of [deal] is computed from: the board's, with
    the dealt card added for [deal > 0]. *)
Definition deal_color_hash (this : PCfrSolver) (deal : nat) : list Z :=
  let board := board_color_hash (long2board (initial_board_long this)) in
  match deal with
  | 0%nat => board
  | S d => add_color_hash board (deck this !!! d)
  end.

(** The earlier suits with the same mask as suit [s], in ascending order. *)
Definition equal_earlier (color_hash : list Z) (s : nat) : list nat :=
  List.filter (fun j => (color_hash !!! s =? color_hash !!! j)%Z) (seq 0 s).

(** The offset to the first such suit, as the specification describes it,
    and to the last one. *)
Definition first_equal_offset (color_hash : list Z) (s : nat) : Z :=
  match equal_earlier color_hash s with
  | [] => 0%Z
  | j :: _ => (Z.of_nat j - Z.of_nat s)%Z
  end.

Definition last_equal_offset (color_hash : list Z) (s : nat) : Z :=
  match rev (equal_earlier color_hash s) with
  | [] => 0%Z
  | j :: _ => (Z.of_nat j - Z.of_nat s)%Z
  end.

(** Boundary scenario 4 of the specification: a flop of three cards of one
    suit (ranks 0, 1, 2 of suit 0), the full deck. *)
Definition monotone_flop_solver : PCfrSolver :=
  {| range1 := [];
     range2 := [];
     initial_board_long := boardInts2long [0; 4; 8]%nat;
     deck := seq 0 52;
     getRiverCombos := fun _ _ => [];
     color_iso_offset := fun _ _ => 0%Z;
     monteCarolAlg := NONE;
     warmup := 0;
     split_round := TURN;
     distributing_task := false;
     use_isomorphism := true;
     enable_equity := false;
     iteration_number := 10;
     print_interval := 1;
     logfile := "";
     accuracy := 0 |}.

(** ** train *)

Section Train.

(** The trainables of the tree, whatever they are, as the state the
    iterations work on. [cfr this player iter] stands for the call
    [cfr(player, root, reach_probs[1 - player], iter, initial_board_long, 0)]
    and its effect on the trainables; [printExploitability] for
    [br.printExploitability(root, iter, pot, initial_board_long)] of the
    best-response collaborator, which only reads them. The wall-clock
    time of a log line is left out. *)
Variable State : Type.
Variable cfr : PCfrSolver -> nat -> Z -> State -> State.
Variable printExploitability : State -> Z -> R.

(** What a run of the loop leaves behind: the trainables, the iterations
    whose two [cfr] calls were made, the probes made (iteration and
    exploitability) and the lines written to the log file, all in order. *)
Record TrainRun : Type := mkTrainRun {
  final_state : State;
  iterations : list Z;
  probes : list (Z * R);
  log_lines : list (Z * R)
}.

(** [i % print_interval == 0 && i != 0 && i >= warmup] *)
Definition probe_due (this : PCfrSolver) (i : Z) : bool :=
  (Z.rem i (print_interval this) =? 0)%Z && negb (i =? 0)%Z && (warmup this <=? i)%Z.

(** The [for] loop from iteration [i] on, with [fuel] iterations left
    before [i] reaches [iteration_number]; [break] ends the recursion. *)
Fixpoint train_loop (this : PCfrSolver) (fuel : nat) (i : Z) (st : State)
  : TrainRun :=
  match fuel with
  | O => mkTrainRun st [] [] []
  | S fuel' =>
      let st := cfr this 0 i st in
      let st := cfr this 1 i st in
      if probe_due this i
      then
        let expliotibility := printExploitability st (i + 1) in
        let line := if String.eqb (logfile this) "" then []
                    else [(i, expliotibility)] in
        if Rle_dec expliotibility (accuracy this)
        then mkTrainRun st [i] [(i, expliotibility)] line
        else
          let rest := train_loop this fuel' (i + 1) st in
          mkTrainRun (final_state rest) (i :: iterations rest)
            ((i, expliotibility) :: probes rest) (line ++ log_lines rest)
      else
        let rest := train_loop this fuel' (i + 1) st in
        mkTrainRun (final_state rest) (i :: iterations rest)
          (probes rest) (log_lines rest)
  end.


End Train.

Arguments final_state {State} _.
Arguments iterations {State} _.
Arguments probes {State} _.
Arguments log_lines {State} _.

(** The condition the specification gives for the probe:
    [iter > warmup and iter % print_interval == 0]. *)
Definition probe_due_spec (this : PCfrSolver) (i : Z) : bool :=
  (warmup this <? i)%Z && (Z.rem i (print_interval this) =? 0)%Z.

(** A driver configuration whose warmup bound is a multiple of the print
    interval. *)
Definition warmup_driver : PCfrSolver :=
  {| range1 := example_range1;
     range2 := example_range2;
     initial_board_long := 0;
     deck := seq 0 52;
     getRiverCombos := fun _ _ => [];
     color_iso_offset := fun _ _ => 0%Z;
     monteCarolAlg := NONE;
     warmup := 2;
     split_round := TURN;
     distributing_task := false;
     use_isomorphism := false;
     enable_equity := false;
     iteration_number := 4;
     print_interval := 2;
     logfile := "log.json";
     accuracy := 0 |}.

(** ** chanceUtility *)

(** A card of a chance node: its integer and its position in the deck. *)
Record Card : Type := mkCard {
  getCardInt : nat;
  getNumberInDeckInt : nat
}.

#[global] Instance Card_inhabited : Inhabited Card := populate (mkCard 0 0).

(** The chance node as far as [chanceUtility] reads it; its one child
    comes in through the recursive call. *)
Record ChanceNode : Type := mkChanceNode {
  getCards : list Card;
  getRound : GameRound
}.

(** [x == 0] on floats. *)
Definition is_zero (x : R) : bool := if Req_dec_T x 0 then true else false.

(** A loop whose body may throw: the first throw ends it. *)
Fixpoint for_each {A S : Type} (l : list A) (body : A -> S -> Result S) (s : S)
  : Result S :=
  match l with
  | [] => Ok s
  | x :: rest =>
      match body x s with
      | Ok s' => for_each rest body s'
      | Throw what => Throw what
      end
  end.

(** [#pragma omp parallel for] over the elements of [l]: the iterations,
    run here one after the other in the order of [l]. An exception that an
    iteration throws cannot leave the parallel region; the OpenMP runtime
    ends the process. *)
Definition omp_parallel_for {A S : Type} (l : list A) (body : A -> S -> Result S)
    (s : S) : Result S :=
  match for_each l body s with
  | Ok s' => Ok s'
  | Throw _ => Throw terminate
  end.

(** [for i: acc[i] += weight * v[i]] over the indices of [v]. *)
Definition add_scaled (acc v : list R) (weight : R) : list R :=
  for_range (length v) (fun i acc => <[i := acc !!! i + v !!! i * weight]> acc) acc.

(** [for i: acc[i] += v[i]] over the indices of [v]. *)
Definition add_vector (acc v : list R) : list R :=
  for_range (length v) (fun i acc => <[i := acc !!! i + v !!! i]> acc) acc.

(** [int possible_deals = node->getCards().size()
                          - Card::long2board(current_board).size() - 2] *)
Definition possible_deals (node : ChanceNode) (current_board : Z) : Z :=
  (Z.of_nat (length (getCards node))
   - Z.of_nat (length (long2board current_board)) - 2)%Z.

(** The reach vector handed to the child under the dealt card. *)
Definition new_reach_probs (this : PCfrSolver) (oppo : nat) (card_long : Z)
    (reach_probs : list R) (possible_deals : Z) : list R :=
  let player_hand_len := length (ranges this oppo) in
  for_range player_hand_len (fun player_hand new_reach_probs =>
      let one_private := ranges this oppo !!! player_hand in
      let privateBoardLong := toBoardLong one_private in
      if boardsHasIntercept card_long privateBoardLong
      then <[player_hand := 0]> new_reach_probs
      else <[player_hand := reach_probs !!! player_hand / IZR possible_deals]>
             new_reach_probs)
    (replicate player_hand_len 0).

(** The abstract deal of the child. *)
Definition new_deal (card_num deal card : nat) : Result nat :=
  if (deal =? 0)%nat then Ok (card + 1)%nat
  else if ((0 <? deal) && (deal <=? card_num))%nat
       then Ok (card_num * (deal - 1) + card + (1 + card_num))%nat
       else Throw "deal out of range".

(** The first part of an iteration of the parallel loop: the arguments of
    the recursive call for the card at index [card], or the throw. *)
Definition child_call (this : PCfrSolver) (player : nat) (node : ChanceNode)
    (reach_probs : list R) (current_board : Z) (deal : nat) (card : nat)
  : Result (Z * list R * nat) :=
  let card_num := length (getCards node) in
  let one_card := getCards node !!! card in
  let card_long := boardInt2long (getCardInt one_card) in
  let new_board_long := Z.lor current_board card_long in
  match monteCarolAlg this with
  | PUBLIC => Throw "parallel solver don't support public monte carol"
  | NONE =>
      let oppo := (1 - player)%nat in
      let new_reach_probs :=
        new_reach_probs this oppo card_long reach_probs
          (possible_deals node current_board) in
      match new_deal card_num deal card with
      | Ok new_deal => Ok (new_board_long, new_reach_probs, new_deal)
      | Throw what => Throw what
      end
  end.

(** The cards the loop before the parallel one keeps. During warmup
    ([iter <= warmup]) a card with multiplier 0 is skipped; after it the
    multiplier vector is empty and is not read. *)
Definition valid_cards (this : PCfrSolver) (node : ChanceNode) (iter : Z)
    (multiplier : list R) (current_board : Z) (deal : nat) : list nat :=
  for_range (length (getCards node)) (fun card valid_cards =>
      let one_card := getCards node !!! card in
      let card_long := boardInt2long (getCardInt one_card) in
      if boardsHasIntercept card_long current_board then valid_cards
      else if (iter <=? warmup this)%Z && is_zero (multiplier !!! card) then valid_cards
      else if (color_iso_offset this deal (getCardInt one_card mod 4) <? 0)%Z
           then valid_cards
           else valid_cards ++ [card])
    [].

Section Chance.

(** The trainables of the subtree, as in [train]; the state of the
    generator behind [std::rand()], which is global to the process; the
    colour exchange of [tools/utils.h]; and the recursive call
    [cfr(player, node->getChildren(), new_reach_probs, iter,
    new_board_long, new_deal)], which may update the trainables and draw
    random numbers. The iterations of the parallel loop are run one after
    the other, in the order of [valid_cards]. *)
Variable State : Type.
Variable RandState : Type.
Variable std_rand : RandState -> nat * RandState.
Variable exchange_color : list R -> list PrivateCards -> Z -> Z -> list R.
Variable cfr : Z -> list R -> nat -> State * RandState ->
               Result (CfrResult * (State * RandState)).

(** The warmup block: one representative card per group of four, drawn
    with [std::rand() % 4], weighted by the number of cards of its group
    that are not on the board. *)
Definition draw_multiplier (node : ChanceNode) (current_board : Z)
    (rs : RandState) : list R * RandState :=
  let card_num := length (getCards node) in
  for_range (card_num / 4) (fun card_base '(multiplier, rs) =>
      let '(r, rs) := std_rand rs in
      let cardr := (r mod 4)%nat in
      let card_target := (card_base * 4 + cardr)%nat in
      let multiplier_num :=
        for_range 4 (fun i multiplier_num =>
            let i_card := (card_base * 4 + i)%nat in
            let one_card := getCards node !!! i_card in
            let card_long := boardInt2long (getCardInt one_card) in
            if (i =? cardr)%nat
            then (if negb (boardsHasIntercept card_long current_board)
                  then (multiplier_num + 1)%nat else multiplier_num)
            else (if negb (boardsHasIntercept card_long current_board)
                  then (multiplier_num + 1)%nat else multiplier_num))
          0%nat in
      (<[card_target := INR multiplier_num]> multiplier, rs))
    (replicate card_num 0, rs).

(** The parallel loop: every valid card's child result goes to the slot
    of the card's number in the deck. *)
Definition run_children (this : PCfrSolver) (player : nat) (node : ChanceNode)
    (reach_probs : list R) (current_board : Z) (deal : nat)
    (valid_cards : list nat) (results : list CfrResult) (env : State * RandState)
  : Result (list CfrResult * (State * RandState)) :=
  omp_parallel_for valid_cards (fun card '(results, env) =>
      let one_card := getCards node !!! card in
      match child_call this player node reach_probs current_board deal card with
      | Throw what => Throw what
      | Ok (new_board_long, new_reach_probs, new_deal) =>
          if distributing_task this && GameRound_eqb (getRound node) (split_round this)
          then
            let size := length (ranges this player) in
            Ok (<[getNumberInDeckInt one_card :=
                    mkCfrResult (replicate size 0) (replicate size 0)]> results,
                env)
          else
            match cfr new_board_long new_reach_probs new_deal env with
            | Throw what => Throw what
            | Ok (child_result, env) =>
                Ok (<[getNumberInDeckInt one_card := child_result]> results, env)
            end
      end)
    (results, env).

(** The serial pass over all cards after the children returned. *)
Definition accumulate (this : PCfrSolver) (player : nat) (node : ChanceNode)
    (iter : Z) (deal : nat) (multiplier : list R) (results : list CfrResult)
    (chance_utility chance_equity : list R) : list R * list R :=
  for_range (length (getCards node)) (fun card '(chance_utility, chance_equity) =>
      let one_card := getCards node !!! card in
      let offset := color_iso_offset this deal (getCardInt one_card mod 4) in
      let child_result :=
        if (offset <? 0)%Z
        then
          let rank1 := Z.of_nat (getCardInt one_card mod 4) in
          let rank2 := (rank1 + offset)%Z in
          let child_result :=
            results !!! Z.to_nat (Z.of_nat (getNumberInDeckInt one_card) + offset) in
          mkCfrResult
            (exchange_color (payoffs child_result) (ranges this player) rank1 rank2)
            (if enable_equity this && negb (length (equity child_result) =? 0)%nat
             then exchange_color (equity child_result) (ranges this player) rank1 rank2
             else equity child_result)
        else results !!! getNumberInDeckInt one_card in
      if (length (payoffs child_result) =? 0)%nat
      then (chance_utility, chance_equity)
      else if (warmup this <? iter)%Z
      then
        (add_vector chance_utility (payoffs child_result),
         if enable_equity this && negb (length (equity child_result) =? 0)%nat
         then add_vector chance_equity (equity child_result)
         else chance_equity)
      else
        (add_scaled chance_utility (payoffs child_result) (multiplier !!! card),
         if enable_equity this && negb (length (equity child_result) =? 0)%nat
         then add_scaled chance_equity (equity child_result) (multiplier !!! card)
         else chance_equity))
    (chance_utility, chance_equity).

(** With [MonteCarolAlg::PUBLIC] the source first fixes [random_deal],
    which nothing reads before the parallel loop throws; that draw is left
    out. *)
Definition chanceUtility (this : PCfrSolver) (player : nat) (node : ChanceNode)
    (reach_probs : list R) (iter : Z) (current_board : Z) (deal : nat)
    (env : State * RandState)
  : Result (CfrResult * (State * RandState)) :=
  let card_num := length (getCards node) in
  if negb (card_num mod 4 =? 0)%nat then Throw "card num cannot round 4"
  else
    let chance_utility := replicate (length (ranges this player)) 0 in
    let chance_equity :=
      if enable_equity this then replicate (length (ranges this player)) 0 else [] in
    let results := replicate card_num (mkCfrResult [] []) in
    let '(multiplier, rs) :=
      if (iter <=? warmup this)%Z
      then draw_multiplier node current_board (snd env)
      else ([], snd env) in
    let valid_cards := valid_cards this node iter multiplier current_board deal in
    match run_children this player node reach_probs current_board deal
            valid_cards results (fst env, rs) with
    | Throw what => Throw what
    | Ok (results, env) =>
        let '(chance_utility, chance_equity) :=
          accumulate this player node iter deal multiplier results
            chance_utility chance_equity in
        Ok (mkCfrResult chance_utility chance_equity, env)
    end.

End Chance.

(** *** Vocabulary of the chance-node claims *)

(** The card at index [card] is dealt: it is not on the board, its suit is
    canonical at this deal, and during warmup its multiplier is not zero. *)
Definition dealt (this : PCfrSolver) (node : ChanceNode) (iter : Z)
    (multiplier : list R) (current_board : Z) (deal : nat) (card : nat) : bool :=
  let c := getCardInt (getCards node !!! card) in
  negb (boardsHasIntercept (boardInt2long c) current_board)
  && (0 <=? color_iso_offset this deal (c mod 4))%Z
  && ((warmup this <? iter)%Z || negb (is_zero (multiplier !!! card))).

(** The opponent's reach under the dealt card [c]: 0 for a hand holding
    it, the reach divided by the number of possible deals for the others. *)
Definition dealt_reach (this : PCfrSolver) (oppo : nat) (c : nat)
    (reach_probs : list R) (possible_deals : Z) : list R :=
  map (fun h =>
         if boardsHasIntercept (boardInt2long c) (toBoardLong (ranges this oppo !!! h))
         then 0 else reach_probs !!! h / IZR possible_deals)
    (seq 0 (length (ranges this oppo))).

(** The abstract deal after one more card, as section 3 of the
    specification encodes it. *)
Definition dealt_deal (card_num deal card : nat) : nat :=
  if (deal =? 0)%nat then (card + 1)%nat
  else (card_num * (deal - 1) + card + 1 + card_num)%nat.

(** The chance node over the full deck, each card at its own number. *)
Definition full_deck_chance : ChanceNode :=
  {| getCards := map (fun i => mkCard i i) (seq 0 52);
     getRound := TURN |}.

(** A child that only records the arguments it is called with. *)
Definition record_call {RandState : Type} (new_board_long : Z)
    (new_reach_probs : list R) (new_deal : nat)
    (env : list (Z * list R * nat) * RandState)
  : Result (CfrResult * (list (Z * list R * nat) * RandState)) :=
  Ok (mkCfrResult [] [],
      (fst env ++ [(new_board_long, new_reach_probs, new_deal)], snd env)).

(** *** Vocabulary of the determinism claim *)


(** A generator for the examples: it returns its state and steps to the
    next number. *)
Definition counter_rand (n : nat) : nat * nat := (n, S n).

(** A stand-in for the colour exchange where no suit is exchanged. *)
Definition no_exchange (v : list R) (_ : list PrivateCards) (_ _ : Z) : list R := v.

(** A river of a two-rank deck: the eight cards of ranks 0 and 1. The
    traversing player holds [(2,3)], the opponent [(0,7)], which the cards
    0 and 7 block; wherever both hands are live the player's is the
    stronger one. *)
Definition river_chance : ChanceNode :=
  {| getCards := map (fun i => mkCard i i) (seq 0 8);
     getRound := RIVER |}.

Definition river_solver : PCfrSolver :=
  {| range1 := [mkPrivateCards 2 3 1];
     range2 := [mkPrivateCards 0 7 1];
     initial_board_long := 0;
     deck := seq 0 8;
     getRiverCombos := fun player board =>
       match player with
       | 0%nat => if boardsHasIntercept board (toBoardLong (mkPrivateCards 2 3 1))
                  then []
                  else [mkRiverCombs (mkPrivateCards 2 3 1) 1 0]
       | _ => if boardsHasIntercept board (toBoardLong (mkPrivateCards 0 7 1))
              then []
              else [mkRiverCombs (mkPrivateCards 0 7 1) 2 0]
       end;
     color_iso_offset := fun _ _ => 0%Z;
     monteCarolAlg := NONE;
     warmup := 0;
     split_round := PREFLOP;
     distributing_task := false;
     use_isomorphism := false;
     enable_equity := false;
     iteration_number := 10;
     print_interval := 1;
     logfile := "";
     accuracy := 0 |}.


(** ** terminalUtility in single precision *)

(** The [float] of the source is the IEEE binary32: 24 bits of mantissa,
    infinities at the exponent 128. Its operations round to nearest, ties
    to even. *)
Definition binary32 : Type := spec_float.

#[global] Instance binary32_inhabited : Inhabited binary32 := populate (S754_zero false).

Definition f32_zero : binary32 := S754_zero false.
Definition f32_add (x y : binary32) : binary32 := SFadd 24 128 x y.
Definition f32_sub (x y : binary32) : binary32 := SFsub 24 128 x y.
Definition f32_mul (x y : binary32) : binary32 := SFmul 24 128 x y.
Definition f32_ltb (x y : binary32) : bool := SFltb x y.

(** The number a finite [float] stands for; 0 for the others. *)
Definition binary32_value (x : binary32) : R :=
  match x with
  | S754_finite s m e =>
      let v := if (0 <=? e)%Z then IZR (Z.pos m * 2 ^ e)
               else IZR (Z.pos m) / IZR (2 ^ (- e)) in
      if s then - v else v
  | _ => 0
  end.

(** [sums[h.card1] += x; sums[h.card2] += x;] *)
Definition add_card_reach_binary32 (sums : list binary32) (h : PrivateCards)
    (x : binary32) : list binary32 :=
  let sums := <[card1 h := f32_add (sums !!! card1 h) x]> sums in
  <[card2 h := f32_add (sums !!! card2 h) x]> sums.

(** [terminalUtility] with the arithmetic of the source: every sum and
    product is a [float] operation. [node_payoffs] holds the payoffs of
    the node as the [float player_payoff] they are read into. The result
    is the pair of [payoffs] and [equity]. *)
Definition terminalUtility_binary32 (this : PCfrSolver) (player : nat)
    (node_payoffs : list binary32) (reach_prob : list binary32) (current_board : Z)
  : Result (list binary32 * list binary32) :=
  let player_payoff := node_payoffs !!! player in
  let oppo := (1 - player)%nat in
  match playerHands this player, playerHands this oppo with
  | Ok player_hand, Ok oppo_hand =>
      let payoffs := replicate (length player_hand) f32_zero in
      let equity := if enable_equity this
                    then replicate (length player_hand) f32_zero else [] in
      let '(oppo_sum, oppo_card_sum) :=
        for_range (length oppo_hand) (fun i '(oppo_sum, oppo_card_sum) =>
            (f32_add oppo_sum (reach_prob !!! i),
             add_card_reach_binary32 oppo_card_sum (oppo_hand !!! i) (reach_prob !!! i)))
          (f32_zero, replicate 52 f32_zero) in
      let '(payoffs, equity) :=
        for_range (length player_hand) (fun i '(payoffs, equity) =>
            let one_player_hand := player_hand !!! i in
            if boardsHasIntercept current_board
                 (boardInts2long (get_hands one_player_hand))
            then (payoffs, equity)
            else
              let oppo_same_card_ind := indPlayer2Player this player oppo i in
              let plus_reach_prob :=
                if (oppo_same_card_ind =? -1)%Z then f32_zero
                else reach_prob !!! Z.to_nat oppo_same_card_ind in
              let effective_oppo_reach :=
                f32_add
                  (f32_sub
                     (f32_sub oppo_sum (oppo_card_sum !!! card1 one_player_hand))
                     (oppo_card_sum !!! card2 one_player_hand))
                  plus_reach_prob in
              (<[i := f32_mul player_payoff effective_oppo_reach]> payoffs,
               if enable_equity this
               then <[i := if f32_ltb f32_zero player_payoff
                           then effective_oppo_reach else f32_zero]> equity
               else equity))
          (payoffs, equity) in
      Ok (payoffs, equity)
  | Throw what, _ => Throw what
  | _, Throw what => Throw what
  end.

(** *** Vocabulary of the sums in single precision *)

(** A sum as the code accumulates it: [acc += x] from 0 in the order of
    the list, every addition a [float] addition. *)
Definition binary32_sum (l : list binary32) : binary32 :=
  fold_left f32_add l f32_zero.

(** The sum, accumulated in this way, of the reach of the hands of [range]
    that hold card [c]. *)
Definition binary32_holding (range : list PrivateCards) (reach : list binary32)
    (c : nat) : binary32 :=
  binary32_sum
    (map (fun i => reach !!! i)
       (List.filter (fun i => holds_card (range !!! i) c) (seq 0 (length range)))).

(** The reach of the identical hand in the other range, 0 when absent. *)
Definition same_hand_reach_binary32 (this : PCfrSolver) (player i : nat)
    (reach : list binary32) : binary32 :=
  let T := indPlayer2Player this player (1 - player) i in
  if (T =? -1)%Z then f32_zero else reach !!! Z.to_nat T.

(** *** A fold against ten hands

    The player holds [(0,1)]; the opponent has the ten hands [(2,3)],
    [(4,5)], ..., [(20,21)], none of which shares a card with it. *)
Definition ten_hands_solver : PCfrSolver :=
  {| range1 := [mkPrivateCards 0 1 1];
     range2 := map (fun k => mkPrivateCards (2 * k + 2) (2 * k + 3) 1) (seq 0 10);
     initial_board_long := 0;
     deck := seq 0 52;
     getRiverCombos := fun _ _ => [];
     color_iso_offset := fun _ _ => 0%Z;
     monteCarolAlg := NONE;
     warmup := 0;
     split_round := TURN;
     distributing_task := false;
     use_isomorphism := false;
     enable_equity := false;
     iteration_number := 10;
     print_interval := 1;
     logfile := "";
     accuracy := 0 |}.

(** [1.0f], [-1.0f] and [0.1f], the [float] nearest to one tenth. *)
Definition f32_one : binary32 := S754_finite false 8388608 (-23).
Definition f32_minus_one : binary32 := S754_finite true 8388608 (-23).
Definition f32_tenth : binary32 := S754_finite false 13421773 (-27).

(** * The code around the utilities *)

(** ** The ranges of the constructor *)

Section Ranges.

(** [PrivateCards::hashCode], defined outside the solver's sources: the
    integer key of a hand. *)
Variable hashCode : PrivateCards -> Z.

(** [noDuplicateRange]: [rangekv] is the [unordered_map<int,bool>] of the
    keys met so far. The message of the throw goes on with the text of the
    hand, which a function outside the solver's sources formats. *)
Definition noDuplicateRange (private_range : list PrivateCards) (board_long : Z)
  : Result (list PrivateCards) :=
  match
    for_each private_range (fun one_range '(range_array, rangekv) =>
        if decide (is_Some ((rangekv : gmap Z bool) !! hashCode one_range))
        then Throw "duplicated key"
        else
          let rangekv := <[hashCode one_range := true]> rangekv in
          let hand_long := boardInts2long (get_hands one_range) in
          if negb (boardsHasIntercept hand_long board_long)
          then Ok (range_array ++ [one_range], rangekv)
          else Ok (range_array, rangekv))
      ([], empty)
  with
  | Ok (range_array, _) => Ok range_array
  | Throw what => Throw what
  end.

End Ranges.

(** A key for the examples: the greater card times 52 plus the smaller. *)
Definition example_hashCode (h : PrivateCards) : Z :=
  Z.of_nat (Nat.max (card1 h) (card2 h) * 52 + Nat.min (card1 h) (card2 h)).

(** [getReachProbs]: per player, the weights of the hands of the range. *)
Definition getReachProbs (this : PCfrSolver) : Result (list (list R)) :=
  let player_number := 2%nat in
  for_each (seq 0 player_number) (fun player retval =>
      match playerHands this player with
      | Throw what => Throw what
      | Ok player_cards =>
          let reach_prob :=
            for_range (length player_cards) (fun i reach_prob =>
                <[i := weight (player_cards !!! i)]> reach_prob)
              (replicate (length player_cards) 0) in
          Ok (<[player := reach_prob]> retval)
      end)
    (replicate player_number []).

(** ** getAllAbstractionDeal *)

(** The abstract deals that share their trainable with [deal] during
    warmup: the deals of the same ranks whose cards are not on the initial
    board. [deck this !!! k] is [deck.getCards()[k].getCardInt()]. *)
Definition getAllAbstractionDeal (this : PCfrSolver) (deal : nat) : list nat :=
  let card_num := length (deck this) in
  if (deal =? 0)%nat then [deal]
  else if ((0 <? deal) && (deal <=? card_num))%nat
  then
    let origin_deal := ((deal - 1) / 4 * 4)%nat in
    for_range 4 (fun i all_deal =>
        let one_card := (origin_deal + i + 1)%nat in
        let first_long := boardInt2long (deck this !!! (origin_deal + i)%nat) in
        if boardsHasIntercept first_long (initial_board_long this) then all_deal
        else all_deal ++ [one_card])
      []
  else
    let c_deal := (deal - (1 + card_num))%nat in
    let first_deal := (c_deal / card_num / 4 * 4)%nat in
    let second_deal := (c_deal mod card_num / 4 * 4)%nat in
    for_range 4 (fun i all_deal =>
        for_range 4 (fun j all_deal =>
            if ((first_deal =? second_deal) && (i =? j))%nat then all_deal
            else
              let first_long := boardInt2long (deck this !!! (first_deal + i)%nat) in
              if boardsHasIntercept first_long (initial_board_long this) then all_deal
              else
                let second_long := boardInt2long (deck this !!! (second_deal + j)%nat) in
                if boardsHasIntercept second_long (initial_board_long this) then all_deal
                else
                  all_deal ++ [(card_num * (first_deal + i) + (second_deal + j)
                                + 1 + card_num)%nat])
          all_deal)
      [].

(** *** Vocabulary of the deal classes *)

(** The one-card deal of the deck card at index [a], and the two-card deal
    of the cards at [a] and then [b], as [chanceUtility] numbers them. *)
Definition one_card_deal (a : nat) : nat := (a + 1)%nat.

Definition two_card_deal (card_num a b : nat) : nat :=
  (card_num * a + b + 1 + card_num)%nat.

(** The deck card at index [a] is on the initial board. *)
Definition on_initial_board (this : PCfrSolver) (a : nat) : bool :=
  boardsHasIntercept (boardInt2long (deck this !!! a)) (initial_board_long this).

(** A small deck for the examples: two ranks, the card of index 1 on the
    board. *)
Definition two_rank_solver : PCfrSolver :=
  {| range1 := [];
     range2 := [];
     initial_board_long := boardInts2long [1]%nat;
     deck := seq 0 8;
     getRiverCombos := fun _ _ => [];
     color_iso_offset := fun _ _ => 0%Z;
     monteCarolAlg := NONE;
     warmup := 0;
     split_round := TURN;
     distributing_task := false;
     use_isomorphism := false;
     enable_equity := false;
     iteration_number := 10;
     print_interval := 1;
     logfile := "";
     accuracy := 0 |}.

(** ** actionUtility *)

(** The action node as far as the solver reads it: the player to act, the
    actions (each kept as its text; only their number matters here) and the
    round. Its children come in through the recursive call, its trainables
    through the table below. *)
Record ActionNode : Type := mkActionNode {
  getPlayer : nat;
  getActions : list string;
  action_round : GameRound
}.

(** The trainables of one action node: [table deal] is the object that
    [node->getTrainable(deal)] points to. Slots of different deals hold
    different objects. *)
Definition Trainables : Type := nat -> DiscountedCfrTrainable.

Definition set_trainable (table : Trainables) (deal : nat)
    (t : DiscountedCfrTrainable) : Trainables :=
  fun d => if (d =? deal)%nat then t else table d.

(** [new_reach_prob[hand_id] = reach_probs[hand_id] * strategy_prob] for
    the child of [action_id], at a node of the opponent. *)
Definition action_reach_probs (current_strategy reach_probs : list R)
    (node_player_private_cards_size action_id : nat) : list R :=
  for_range (length reach_probs) (fun hand_id new_reach_prob =>
      let strategy_prob :=
        current_strategy !!! (hand_id + action_id * node_player_private_cards_size)%nat in
      <[hand_id := reach_probs !!! hand_id * strategy_prob]> new_reach_prob)
    (replicate (length reach_probs) 0).

(** The loop after the children returned: the utilities and equities of
    the actions are kept, and added to the node's, weighted by the strategy
    at a node of the traversing player. A child whose payoffs are empty is
    skipped. *)
Definition action_accumulate (this : PCfrSolver) (player : nat) (node : ActionNode)
    (current_strategy : list R) (results : list CfrResult)
    (st : list R * list R * list (list R) * list (list R))
  : list R * list R * list (list R) * list (list R) :=
  let node_player_private_cards_size := length (ranges this (getPlayer node)) in
  for_range (length (getActions node))
    (fun action_id '(payoffs_, total_equity, all_action_utility, all_action_equity) =>
      let action_utilities := payoffs (results !!! action_id) in
      if (length action_utilities =? 0)%nat
      then (payoffs_, total_equity, all_action_utility, all_action_equity)
      else
        let all_action_utility := <[action_id := action_utilities]> all_action_utility in
        let has_equity :=
          enable_equity this && negb (length (equity (results !!! action_id)) =? 0)%nat in
        let all_action_equity :=
          if has_equity
          then <[action_id := equity (results !!! action_id)]> all_action_equity
          else all_action_equity in
        let '(payoffs_, total_equity) :=
          for_range (length action_utilities) (fun hand_id '(payoffs_, total_equity) =>
              if (player =? getPlayer node)%nat
              then
                let strategy_prob :=
                  current_strategy
                    !!! (hand_id + action_id * node_player_private_cards_size)%nat in
                (<[hand_id := payoffs_ !!! hand_id
                              + strategy_prob * action_utilities !!! hand_id]> payoffs_,
                 if has_equity
                 then <[hand_id := total_equity !!! hand_id
                                   + strategy_prob
                                     * equity (results !!! action_id) !!! hand_id]>
                        total_equity
                 else total_equity)
              else
                (<[hand_id := payoffs_ !!! hand_id + action_utilities !!! hand_id]> payoffs_,
                 if has_equity
                 then <[hand_id := total_equity !!! hand_id
                                   + equity (results !!! action_id) !!! hand_id]>
                        total_equity
                 else total_equity))
            (payoffs_, total_equity) in
        (payoffs_, total_equity, all_action_utility, all_action_equity))
    st.

(** [regrets[action_id * H + i] = all_action_utility[action_id][i] - payoffs[i]] *)
Definition action_regrets (node_player_private_cards_size actions_size : nat)
    (all_action_utility : list (list R)) (payoffs_ : list R) : list R :=
  for_range node_player_private_cards_size (fun i regrets =>
      for_range actions_size (fun action_id regrets =>
          <[(action_id * node_player_private_cards_size + i)%nat :=
              (all_action_utility !!! action_id) !!! i - payoffs_ !!! i]> regrets)
        regrets)
    (replicate (actions_size * node_player_private_cards_size) 0).

(** One turn of the loop over the deals of a class, up to the end of
    warmup: the first deal's trainable takes the regrets, the others copy
    its strategy. [standard_trainable] is kept as the deal whose trainable
    it points to. *)
Definition warmup_update_step (regrets : list R) (iter : Z)
    (st : Trainables * option nat) (one_deal : nat) : Trainables * option nat :=
  let '(table, standard_trainable) := st in
  let one_trainable := table one_deal in
  match standard_trainable with
  | None =>
      (set_trainable table one_deal (updateRegrets one_trainable regrets (iter + 1)),
       Some one_deal)
  | Some standard =>
      (set_trainable table one_deal (copyStrategy one_trainable (table standard)),
       Some standard)
  end.

(** The update of the trainables at a node of the traversing player: after
    warmup the trainable of the deal takes the regrets, before that the
    class of the deal is gone through. *)
Definition action_update (this : PCfrSolver) (table : Trainables)
    (regrets : list R) (iter : Z) (deal : nat) : Trainables :=
  if negb (distributing_task this)
  then
    if (warmup this <? iter)%Z
    then set_trainable table deal (updateRegrets (table deal) regrets (iter + 1))
    else
      let deals := getAllAbstractionDeal this deal in
      fst (fold_left (warmup_update_step regrets iter) deals (table, None))
  else table.

(** The sign test [rp_sum > 0] of the EV block comes after a cancellation,
    where the rounding of the float operations decides the branch: the
    operations that lead to it are therefore rounded one by one.
    [round_float x] is the binary32 value that an operation with the exact
    result [x] returns.

    [sums[h.card1] += x; sums[h.card2] += x;] *)
Definition add_card_reach_rounded (round_float : R -> R) (sums : list R)
    (h : PrivateCards) (x : R) : list R :=
  let sums := <[card1 h := round_float (sums !!! card1 h + x)]> sums in
  <[card2 h := round_float (sums !!! card2 h + x)]> sums.

(** The opponent's reach against the hand [hand_id] of the player, the
    hands that share a card with it left out:
    [rp_sum = oppo_sum - oppo_card_sum[card1] - oppo_card_sum[card2]
              + plus_reach_prob]. *)
Definition rp_sum (round_float : R -> R) (this : PCfrSolver) (player : nat)
    (player_hand : list PrivateCards) (reach_probs : list R)
    (oppo_sum : R) (oppo_card_sum : list R) (hand_id : nat) : R :=
  let oppo := (1 - player)%nat in
  let oppo_same_card_ind := indPlayer2Player this player oppo hand_id in
  let one_player_hand := player_hand !!! hand_id in
  let plus_reach_prob :=
    if (oppo_same_card_ind =? -1)%Z then 0
    else reach_probs !!! Z.to_nat oppo_same_card_ind in
  round_float
    (round_float
       (round_float (oppo_sum - oppo_card_sum !!! card1 one_player_hand)
        - oppo_card_sum !!! card2 one_player_hand)
     + plus_reach_prob).

(** The table of normalised values that goes to [setEv] or [setEquity]:
    [table[idx] = (rp_sum > 0) ? values[action_id][hand_id] / rp_sum : 0];
    with [skip_empty], as for the equities, an action without values is
    left at 0. The quotient is rounded when the table is stored. *)
Definition normalised_values (round_float : R -> R) (this : PCfrSolver) (player : nat)
    (node : ActionNode) (player_hand : list PrivateCards) (reach_probs : list R)
    (oppo_sum : R) (oppo_card_sum : list R) (skip_empty : bool)
    (values : list (list R)) : list R :=
  let node_player_private_cards_size := length (ranges this (getPlayer node)) in
  let actions_size := length (getActions node) in
  for_range actions_size (fun action_id evs_ =>
      if skip_empty && (length (values !!! action_id) =? 0)%nat then evs_
      else
        for_range node_player_private_cards_size (fun hand_id evs_ =>
            let one_ev := (values !!! action_id) !!! hand_id in
            let rp_sum :=
              rp_sum round_float this player player_hand reach_probs
                oppo_sum oppo_card_sum hand_id in
            let idx := (hand_id + action_id * node_player_private_cards_size)%nat in
            <[idx := if Rgt_dec rp_sum 0 then one_ev / rp_sum else 0]> evs_)
          evs_)
    (replicate (actions_size * node_player_private_cards_size) 0).

Section Action.

(** The trainables of the subtrees below the node, as in [chanceUtility];
    the rounding of a value to the IEEE single that the EV and equity
    tables hold; the rounding of the operations before the sign test of
    the EV block; and the recursive call
    [cfr(player, children[action_id], reach, iter, current_board, deal)]. *)
Variable State : Type.
Variable to_float : R -> float.
Variable round_float : R -> R.
Variable cfr : nat -> list R -> State -> Result (CfrResult * State).

(** The first loop: one recursive call per action, in order. *)
Definition action_children (this : PCfrSolver) (player : nat) (node : ActionNode)
    (current_strategy reach_probs : list R) (st : State)
  : Result (list CfrResult * State) :=
  let node_player_private_cards_size := length (ranges this (getPlayer node)) in
  let actions_size := length (getActions node) in
  for_each (seq 0 actions_size) (fun action_id '(results, st) =>
      let reach :=
        if negb (getPlayer node =? player)%nat
        then action_reach_probs current_strategy reach_probs
               node_player_private_cards_size action_id
        else reach_probs in
      match cfr action_id reach st with
      | Throw what => Throw what
      | Ok (child_result, st) => Ok (<[action_id := child_result]> results, st)
      end)
    (replicate actions_size (mkCfrResult [] []), st).

(** The EV block, every [print_interval] iterations: the utilities of the
    actions, and their equities when they are tracked, normalised and
    stored in the trainable of the deal. *)
Definition action_store_evs (this : PCfrSolver) (player : nat) (node : ActionNode)
    (table : Trainables) (reach_probs : list R) (deal : nat)
    (all_action_utility all_action_equity : list (list R)) : Result Trainables :=
  let oppo := (1 - player)%nat in
  match playerHands this oppo with
  | Throw what => Throw what
  | Ok oppo_hand =>
      let '(oppo_sum, oppo_card_sum) :=
        for_range (length oppo_hand) (fun i '(oppo_sum, oppo_card_sum) =>
            (round_float (oppo_sum + reach_probs !!! i),
             add_card_reach_rounded round_float oppo_card_sum (oppo_hand !!! i)
               (reach_probs !!! i)))
          (0, replicate 52 0) in
      match playerHands this player with
      | Throw what => Throw what
      | Ok player_hand =>
          let evs_ :=
            normalised_values round_float this player node player_hand reach_probs
              oppo_sum oppo_card_sum false all_action_utility in
          match setEv (table deal) (map to_float evs_) with
          | Throw what => Throw what
          | Ok trainable =>
              let table := set_trainable table deal trainable in
              if enable_equity this && negb (length all_action_equity =? 0)%nat
              then
                let equity_to_store :=
                  normalised_values round_float this player node player_hand reach_probs
                    oppo_sum oppo_card_sum true all_action_equity in
                match setEquity (table deal) (map to_float equity_to_store) with
                | Throw what => Throw what
                | Ok trainable => Ok (set_trainable table deal trainable)
                end
              else Ok table
          end
      end
  end.

Definition actionUtility (this : PCfrSolver) (player : nat) (node : ActionNode)
    (table : Trainables) (reach_probs : list R) (iter : Z) (deal : nat) (st : State)
  : Result (CfrResult * Trainables * State) :=
  let node_player_private_cards_size := length (ranges this (getPlayer node)) in
  let actions_size := length (getActions node) in
  let payoffs_ := replicate (length (ranges this player)) 0 in
  let total_equity :=
    if enable_equity this then replicate (length (ranges this player)) 0 else [] in
  let trainable := table deal in
  let current_strategy := getcurrentStrategy trainable in
  let all_action_utility := replicate actions_size [] in
  let all_action_equity :=
    if enable_equity this then replicate actions_size [] else [] in
  match action_children this player node current_strategy reach_probs st with
  | Throw what => Throw what
  | Ok (results, st) =>
      let '(payoffs_, total_equity, all_action_utility, all_action_equity) :=
        action_accumulate this player node current_strategy results
          (payoffs_, total_equity, all_action_utility, all_action_equity) in
      if (player =? getPlayer node)%nat
      then
        let regrets :=
          action_regrets node_player_private_cards_size actions_size
            all_action_utility payoffs_ in
        let table := action_update this table regrets iter deal in
        if (Z.rem iter (print_interval this) =? 0)%Z
        then
          match action_store_evs this player node table reach_probs deal
                  all_action_utility all_action_equity with
          | Throw what => Throw what
          | Ok table => Ok (mkCfrResult payoffs_ total_equity, table, st)
          end
        else Ok (mkCfrResult payoffs_ total_equity, table, st)
      else Ok (mkCfrResult payoffs_ total_equity, table, st)
  end.

End Action.

(** *** Vocabulary of the action-node properties *)

(** The calls [cfr 0 (reach 0)], [cfr 1 (reach 1)], ... made one after the
    other from the state [st]: their results in order and the last state,
    or the first throw. *)
Fixpoint call_in_order {State : Type}
    (cfr : nat -> list R -> State -> Result (CfrResult * State))
    (reach : nat -> list R) (action_ids : list nat) (st : State)
  : Result (list CfrResult * State) :=
  match action_ids with
  | [] => Ok ([], st)
  | action_id :: rest =>
      match cfr action_id (reach action_id) st with
      | Throw what => Throw what
      | Ok (child_result, st) =>
          match call_in_order cfr reach rest st with
          | Throw what => Throw what
          | Ok (results, st) => Ok (child_result :: results, st)
          end
      end
  end.

(** The opponent's reach into the child of [action_id]. *)
Definition scaled_reach (current_strategy reach_probs : list R) (H action_id : nat)
  : list R :=
  map (fun hand_id =>
         reach_probs !!! hand_id * current_strategy !!! (hand_id + action_id * H)%nat)
    (seq 0 (length reach_probs)).

(** The reach vector the child of [action_id] is called with. *)
Definition child_reach (this : PCfrSolver) (player : nat) (node : ActionNode)
    (current_strategy reach_probs : list R) (action_id : nat) : list R :=
  if negb (getPlayer node =? player)%nat
  then scaled_reach current_strategy reach_probs
         (length (ranges this (getPlayer node))) action_id
  else reach_probs.

(** A sum as the code accumulates it: [acc += x] from 0 in the order of
    the list, every addition rounded. *)
Definition rounded_sum (round_float : R -> R) (l : list R) : R :=
  fold_left (fun acc x => round_float (acc + x)) l 0.

(** The sum, accumulated in this way, of the reach of the hands of [range]
    that hold card [c]. *)
Definition rounded_holding (round_float : R -> R) (range : list PrivateCards)
    (reach : list R) (c : nat) : R :=
  rounded_sum round_float
    (map (fun i => reach !!! i)
       (List.filter (fun i => holds_card (range !!! i) c) (seq 0 (length range)))).

(** The weight of a child's value at the node: the probability the
    strategy gives the action at a node of the traversing player, 1 at a
    node of the opponent, whose strategy is already in the reach. *)
Definition action_weight (player : nat) (node : ActionNode)
    (current_strategy : list R) (H action_id hand_id : nat) : R :=
  if (player =? getPlayer node)%nat
  then current_strategy !!! (hand_id + action_id * H)%nat
  else 1.

(** *** A small action node for the examples *)

(** Two actions; the child of action [a] returns [a] for the first hand and
    1 for the second, whatever the reach, and changes nothing. *)
Definition example_action_node (player : nat) : ActionNode :=
  {| getPlayer := player; getActions := ["CHECK"; "BET"]%string; action_round := FLOP |}.

Definition fixed_children (action_id : nat) (_ : list R) (st : unit)
  : Result (CfrResult * unit) :=
  Ok (mkCfrResult [INR action_id; 1] [], st).

(** Fresh trainables for two actions and two hands. *)
Definition fresh_table : Trainables := fun _ => newTrainable 2 2 1.5 0 2 1.

(** A stand-in for the rounding in the examples: it keeps 0 and takes every
    other value to 1. *)
Definition example_to_float (x : R) : float :=
  if Req_dec_T x 0 then PrimFloat.zero else PrimFloat.one.

(** The operations of the examples are exact: nothing is rounded. *)
Definition example_round (x : R) : R := x.

(** *** Vocabulary of the chance-node sums *)

(** The recursive calls with the arguments of [calls], one after the
    other: their results in order and the last state, or the first throw. *)
Fixpoint deal_in_order {Env : Type}
    (cfr : Z -> list R -> nat -> Env -> Result (CfrResult * Env))
    (calls : list (Z * list R * nat)) (env : Env) : Result (list CfrResult * Env) :=
  match calls with
  | [] => Ok ([], env)
  | (new_board_long, new_reach_probs, new_deal) :: rest =>
      match cfr new_board_long new_reach_probs new_deal env with
      | Throw what => Throw what
      | Ok (child_result, env) =>
          match deal_in_order cfr rest env with
          | Throw what => Throw what
          | Ok (results, env) => Ok (child_result :: results, env)
          end
      end
  end.

(** The arguments of the recursive call for the card at index [card]. *)
Definition chance_call (this : PCfrSolver) (player : nat) (node : ChanceNode)
    (reach_probs : list R) (current_board : Z) (deal card : nat) : Z * list R * nat :=
  let c := getCardInt (getCards node !!! card) in
  (Z.lor current_board (boardInt2long c),
   dealt_reach this (1 - player) c reach_probs (possible_deals node current_board),
   dealt_deal (length (getCards node)) deal card).

(** The cards of the node that are not on the board, by index. *)
Definition off_board_cards (node : ChanceNode) (current_board : Z) : list nat :=
  List.filter
    (fun card => negb (boardsHasIntercept
                         (boardInt2long (getCardInt (getCards node !!! card)))
                         current_board))
    (seq 0 (length (getCards node))).

(** The results of the children, each at the slot of its card. *)
Definition place_results (node : ChanceNode) (cards : list nat)
    (rs results : list CfrResult) : list CfrResult :=
  fold_left (fun results p =>
               <[getNumberInDeckInt (getCards node !!! fst p) := snd p]> results)
    (zip cards rs) results.

(** *** Vocabulary of the warmup sampling *)

(** The numbers the generator gives from the state [rs] on, the first [k]
    of them, and the state after them. *)
Fixpoint draws {RandState : Type} (std_rand : RandState -> nat * RandState)
    (k : nat) (rs : RandState) : list nat * RandState :=
  match k with
  | O => ([], rs)
  | S k' =>
      let '(r, rs) := std_rand rs in
      let '(l, rs) := draws std_rand k' rs in
      (r :: l, rs)
  end.

(** The number of cards of the group of four [card_base] that are not on
    the board. *)
Definition group_off_board (node : ChanceNode) (current_board : Z) (card_base : nat)
  : nat :=
  length (List.filter
            (fun card => negb (boardsHasIntercept
                                 (boardInt2long (getCardInt (getCards node !!! card)))
                                 current_board))
            (seq (card_base * 4) 4)).

(** A child for the examples: it returns 1 for the one hand of the player
    and changes nothing. *)
Definition unit_child (new_board_long : Z) (new_reach_probs : list R) (new_deal : nat)
    (env : unit * nat) : Result (CfrResult * (unit * nat)) :=
  Ok (mkCfrResult [1] [], env).

(** ** The game tree *)

(** The four kinds of node, [GameTreeNode::GameTreeNodeType], each with
    what the solver reads of it; every node has its round. *)
#[warnings="-register-all"]
Inductive GameTreeNode : Type :=
| ACTION (node : ActionNode) (childrens : list GameTreeNode)
| CHANCE (node : ChanceNode) (children : GameTreeNode)
| SHOWDOWN (round : GameRound) (node : ShowdownNode)
| TERMINAL (round : GameRound) (get_payoffs : list R).

(** [node->getRound()] *)
Definition node_round (node : GameTreeNode) : GameRound :=
  match node with
  | ACTION node _ => action_round node
  | CHANCE node _ => getRound node
  | SHOWDOWN round _ => round
  | TERMINAL round _ => round
  end.

(** A loop over the children of a node whose body may throw; it is
    [for_each] with the body fixed outside the recursion, as a recursion
    through the children of a tree needs it. *)
Definition for_each_child {A S : Type} (body : A -> S -> Result S)
  : list A -> S -> Result S :=
  fix go (l : list A) (s : S) : Result S :=
    match l with
    | [] => Ok s
    | x :: rest =>
        match body x s with
        | Ok s' => go rest s'
        | Throw what => Throw what
        end
    end.

(** ** setTrainable and the constructor *)

(** The number of trainables of an action node [gap] rounds below the
    root: one per abstract deal that can reach it. *)
Definition trainable_slots (card_num : nat) (gap : Z) : Result nat :=
  if (gap =? 2)%Z then Ok (card_num * card_num + card_num + 1)%nat
  else if (gap =? 1)%Z then Ok (card_num + 1)%nat
  else if (gap =? 0)%Z then Ok 1%nat
  else Throw "gap not understand".

Section SetTrainable.

(** [GameTreeNode::gameRound2int], defined outside the solver's sources. *)
Variable gameRound2int : GameRound -> Z.

(** [setTrainable(root)]: every action node of the tree gets its empty
    table of trainables, [action_node->setTrainable(vector(num), ...)].
    The result lists these calls in order, each as the node and the size
    of its table. [tree_root] is [this->tree->getRoot()]. *)
Fixpoint setTrainable (this : PCfrSolver) (trainer : string)
    (tree_root root : GameTreeNode) (tables : list (ActionNode * nat)) {struct root}
  : Result (list (ActionNode * nat)) :=
  match root with
  | ACTION action_node childrens =>
      if String.eqb trainer "cfr_plus"
      then Throw ("trainer " ++ trainer ++ " not supported")
      else if String.eqb trainer "discounted_cfr"
      then
        let gr := node_round tree_root in
        let root_round := gameRound2int gr in
        let current_round := gameRound2int (node_round root) in
        let gap := (current_round - root_round)%Z in
        match trainable_slots (length (deck this)) gap with
        | Throw what => Throw what
        | Ok num =>
            for_each_child (fun one_child tables =>
                setTrainable this trainer tree_root one_child tables)
              childrens (tables ++ [(action_node, num)])
        end
      else Throw ("trainer " ++ trainer ++ " not found")
  | CHANCE chance_node children =>
      setTrainable this trainer tree_root children tables
  | TERMINAL _ _ => Ok tables
  | SHOWDOWN _ _ => Ok tables
  end.

Section Constructor.

Variable hashCode : PrivateCards -> Z.

(** The constructor, as far as the members of [PCfrSolver] above go: the
    ranges without the hands on the board, the tables of the action nodes,
    and the round at which tasks would be split. [rrm] is the river rank
    cache built from the hand evaluator. *)
Definition newPCfrSolver (tree_root : GameTreeNode)
    (range1 range2 : list PrivateCards) (initial_board : list nat)
    (rrm : nat -> Z -> list RiverCombs) (deck : list nat)
    (iteration_number print_interval : Z) (logfile trainer : string)
    (monteCarolAlg : MonteCarolAlg) (warmup : Z) (accuracy : R)
    (use_isomorphism enable_equity : bool)
  : Result (PCfrSolver * list (ActionNode * nat)) :=
  let initial_board_long := boardInts2long initial_board in
  match noDuplicateRange hashCode range1 initial_board_long with
  | Throw what => Throw what
  | Ok range1 =>
      match noDuplicateRange hashCode range2 initial_board_long with
      | Throw what => Throw what
      | Ok range2 =>
          let this split_round :=
            {| range1 := range1; range2 := range2;
               initial_board_long := initial_board_long;
               deck := deck;
               getRiverCombos := rrm;
               color_iso_offset := fun _ _ => 0%Z;
               monteCarolAlg := monteCarolAlg;
               warmup := warmup;
               split_round := split_round;
               distributing_task := false;
               use_isomorphism := use_isomorphism;
               enable_equity := enable_equity;
               iteration_number := iteration_number;
               print_interval := print_interval;
               logfile := logfile;
               accuracy := accuracy |} in
          match setTrainable (this PREFLOP) trainer tree_root tree_root [] with
          | Throw what => Throw what
          | Ok tables =>
              let root_round := node_round tree_root in
              let split_round :=
                match root_round with
                | PREFLOP => FLOP
                | FLOP => TURN
                | TURN => RIVER
                | RIVER => PREFLOP
                end in
              Ok (this split_round, tables)
          end
      end
  end.

End Constructor.

End SetTrainable.

(** *** Vocabulary of the tree *)

(** The action nodes of a tree, parents before children, children in
    order. *)
Fixpoint action_nodes (node : GameTreeNode) : list ActionNode :=
  match node with
  | ACTION action_node childrens =>
      action_node :: flat_map action_nodes childrens
  | CHANCE _ children => action_nodes children
  | SHOWDOWN _ _ => []
  | TERMINAL _ _ => []
  end.

(** The tables of a list of action nodes, [gap] giving the distance of a
    node to the root's round; the first unsupported distance is the error. *)
Fixpoint slots_of (card_num : nat) (gap : ActionNode -> Z) (l : list ActionNode)
  : Result (list (ActionNode * nat)) :=
  match l with
  | [] => Ok []
  | a :: rest =>
      match trainable_slots card_num (gap a) with
      | Throw what => Throw what
      | Ok num =>
          match slots_of card_num gap rest with
          | Throw what => Throw what
          | Ok tables => Ok ((a, num) :: tables)
          end
      end
  end.

(** The rounds in playing order, numbered from 0, for the examples. *)
Definition round_number (r : GameRound) : Z :=
  match r with PREFLOP => 0 | FLOP => 1 | TURN => 2 | RIVER => 3 end.

(** A small tree for the examples: the first player checks or bets, a bet
    is folded to, after a check the river card is dealt and the hands are
    shown. *)
Definition example_tree : GameTreeNode :=
  ACTION {| getPlayer := 0; getActions := ["CHECK"; "BET"]%string; action_round := TURN |}
    [CHANCE river_chance (SHOWDOWN RIVER example_showdown);
     TERMINAL TURN [1; -1]].

(** ** cfr *)

(** The trainables of the whole tree: the table of every action node,
    the node given by the indices of the children on the way from the root
    (the child of a chance node has index 0). *)
Definition Store : Type := list nat -> Trainables.

Definition set_table (store : Store) (path : list nat) (table : Trainables) : Store :=
  fun p => if decide (p = path) then table else store p.

Section Cfr.

(** The generator behind [std::rand()], the colour exchange of
    [tools/utils.h] and the rounding to the stored IEEE single, as in
    [chanceUtility] and [actionUtility]. *)
Variable RandState : Type.
Variable std_rand : RandState -> nat * RandState.
Variable exchange_color : list R -> list PrivateCards -> Z -> Z -> list R.
Variable to_float : R -> float.
Variable round_float : R -> R.

(** [cfr]: the utility of the node by its kind. [path] leads from the
    root to [node]. An action without a child would be an access outside
    the vector of children; it is a throw here. *)
Fixpoint cfr (this : PCfrSolver) (player : nat) (node : GameTreeNode)
    (path : list nat) (reach_probs : list R) (iter : Z) (current_board : Z)
    (deal : nat) (env : Store * RandState) {struct node}
  : Result (CfrResult * (Store * RandState)) :=
  match node with
  | ACTION action_node childrens =>
      let calls :=
        map (fun one_child (action_id : nat) reach_probs env =>
               cfr this player one_child (path ++ [action_id]) reach_probs iter
                 current_board deal env)
          childrens in
      match
        actionUtility (Store * RandState) to_float round_float
          (fun action_id reach_probs env =>
             match calls !! action_id with
             | Some call => call action_id reach_probs env
             | None => Throw "no child for the action"
             end)
          this player action_node (fst env path) reach_probs iter deal env
      with
      | Throw what => Throw what
      | Ok (result, table, (store, rs)) => Ok (result, (set_table store path table, rs))
      end
  | SHOWDOWN _ showdown_node =>
      Ok (showdownUtility this player showdown_node reach_probs current_board, env)
  | TERMINAL _ get_payoffs =>
      match terminalUtility this player get_payoffs reach_probs current_board with
      | Throw what => Throw what
      | Ok result => Ok (result, env)
      end
  | CHANCE chance_node children =>
      chanceUtility Store RandState std_rand exchange_color
        (fun new_board_long new_reach_probs new_deal env =>
           cfr this player children (path ++ [0%nat]) new_reach_probs iter
             new_board_long new_deal env)
        this player chance_node reach_probs iter current_board deal env
  end.

End Cfr.

(** *** Vocabulary of the traversal *)

(** A tree as the builder makes it: every action has its child. *)
Fixpoint tree_ok (node : GameTreeNode) : Prop :=
  match node with
  | ACTION action_node childrens =>
      length childrens = length (getActions action_node) /\
      (fix all (l : list GameTreeNode) : Prop :=
         match l with
         | [] => True
         | c :: rest => tree_ok c /\ all rest
         end) childrens
  | CHANCE _ children => tree_ok children
  | SHOWDOWN _ _ => True
  | TERMINAL _ _ => True
  end.

(** The node at the end of a path from [node]. *)
Fixpoint subtree (node : GameTreeNode) (path : list nat) : option GameTreeNode :=
  match path with
  | [] => Some node
  | i :: rest =>
      match node with
      | ACTION _ childrens =>
          match childrens !! i with
          | Some one_child => subtree one_child rest
          | None => None
          end
      | CHANCE _ children =>
          match i with
          | 0%nat => subtree children rest
          | _ => None
          end
      | SHOWDOWN _ _ => None
      | TERMINAL _ _ => None
      end
  end.

(** *** Vocabulary of the determinism claim, for whole traversals *)



(** Two calls end alike: with the same failure, or with returns that [Rel]
    relates. *)
Definition related_outcomes {S : Type} (Rel : S -> S -> Prop) (a b : Result S) : Prop :=
  match a, b with
  | Ok s, Ok t => Rel s t
  | Throw u, Throw v => u = v
  | _, _ => False
  end.







(** *** A traversal for the examples *)

(** Fresh trainables at every place of [example_tree], for the one hand
    that a player of [river_solver] holds. *)
Definition example_store : Store := fun _ _ => newTrainable 2 1 1.5 0 2 1.

(** *** Vocabulary of the showdown equity *)

(** A pass that writes, for every entry, a value that depends on the
    entry, on its effective reach and on the old value of its cell. *)
Definition pass_step_at (beats : RiverCombs -> RiverCombs -> bool)
    (reach_probs : list R) (oppo_combs : list RiverCombs)
    (f : RiverCombs -> R -> R -> R) (one_player_comb : RiverCombs)
    (st : (nat * R * list R) * list R) : (nat * R * list R) * list R :=
  let '(scan_state, cells) := st in
  let '(j, sum, card_sum) :=
    scan (beats one_player_comb) reach_probs
      (drop (fst (fst scan_state)) oppo_combs) scan_state in
  ((j, sum, card_sum),
   <[reach_prob_index one_player_comb :=
       f one_player_comb
         (minus_blockers sum card_sum (private_cards one_player_comb))
         (cells !!! reach_prob_index one_player_comb)]> cells).

(** The reach of all opponent entries against the hand of the entry of
    index [i]: the total, minus the entries holding either card, plus the
    identical hand of the opponent's range. *)
Definition effective_total (this : PCfrSolver) (player : nat) (reach : list R)
    (combs : list RiverCombs) (h : PrivateCards) (i : nat) : R :=
  combs_total reach combs
  - combs_holding reach combs (card1 h)
  - combs_holding reach combs (card2 h)
  + same_hand_reach this player i reach.

(** [max(0, x)] as the source writes it: [if (x < 0) x = 0]. *)
Definition clip_negative (x : R) : R := if Rlt_dec x 0 then 0 else x.

(** The river of the small game with the equities tracked. *)
Definition equity_river_solver : PCfrSolver :=
  {| range1 := range1 example_river_solver;
     range2 := range2 example_river_solver;
     initial_board_long := initial_board_long example_river_solver;
     deck := deck example_river_solver;
     getRiverCombos := getRiverCombos example_river_solver;
     color_iso_offset := color_iso_offset example_river_solver;
     monteCarolAlg := monteCarolAlg example_river_solver;
     warmup := warmup example_river_solver;
     split_round := split_round example_river_solver;
     distributing_task := distributing_task example_river_solver;
     use_isomorphism := use_isomorphism example_river_solver;
     enable_equity := true;
     iteration_number := iteration_number example_river_solver;
     print_interval := print_interval example_river_solver;
     logfile := logfile example_river_solver;
     accuracy := accuracy example_river_solver |}.

(** ** countNodes *)

(** [countNodes]: the number of action nodes that a dump down to
    [max_depth] visits; [depth] grows at the chance nodes only, and below a
    chance node every action node counts once for each card. The
    [long long] count is a [Z]. *)
Fixpoint countNodes (node : GameTreeNode) (depth max_depth : Z) {struct node} : Z :=
  if (depth >=? max_depth)%Z then 0%Z
  else
    match node with
    | ACTION action_node childrens =>
        fold_left (fun count child => (count + countNodes child depth max_depth)%Z)
          childrens 1%Z
    | CHANCE chance_node children =>
        (countNodes children (depth + 1) max_depth
         * Z.of_nat (length (getCards chance_node)))%Z
    | SHOWDOWN _ _ => 0%Z
    | TERMINAL _ _ => 0%Z
    end.

(** *** Vocabulary of the count *)

(** The action nodes of a tree, each with the number of chance nodes above
    it and the product of their numbers of cards. *)
Fixpoint dealt_action_nodes (node : GameTreeNode) : list (ActionNode * (nat * Z)) :=
  match node with
  | ACTION action_node childrens =>
      (action_node, (0%nat, 1%Z)) :: flat_map dealt_action_nodes childrens
  | CHANCE chance_node children =>
      map (fun e => (fst e, (S (fst (snd e)),
                             (snd (snd e) * Z.of_nat (length (getCards chance_node)))%Z)))
        (dealt_action_nodes children)
  | SHOWDOWN _ _ => []
  | TERMINAL _ _ => []
  end.

Definition sumZ (l : list Z) : Z := fold_right Z.add 0%Z l.

(** The weight of the entries less than [budget] chance nodes deep. *)
Definition counted (budget : Z) (entries : list (ActionNode * (nat * Z))) : Z :=
  sumZ (map (fun e => if (Z.of_nat (fst (snd e)) <? budget)%Z then snd (snd e) else 0%Z)
          entries).

(** * Properties *)

(** ** Loops and vector updates *)

Lemma for_range_S {S : Type} (n : nat) (body : nat -> S -> S) (s : S) :
  for_range (Datatypes.S n) body s = body n (for_range n body s).
Proof.
  unfold for_range. rewrite seq_S, fold_left_app. reflexivity.
Qed.

(** Loop invariants: [P i] holds before iteration [i]. *)
Lemma for_range_ind {S : Type} (P : nat -> S -> Prop) (n : nat)
    (body : nat -> S -> S) (s : S) :
  P 0%nat s ->
  (forall i acc, (i < n)%nat -> P i acc -> P (Datatypes.S i) (body i acc)) ->
  P n (for_range n body s).
Proof.
  intros H0 Hstep. induction n as [|n IH].
  - exact H0.
  - rewrite for_range_S. apply Hstep; [lia|].
    apply IH. intros i acc Hi. apply Hstep. lia.
Qed.

Lemma sumR_snoc (l : list R) (x : R) : sumR (l ++ [x]) = sumR l + x.
Proof. unfold sumR. rewrite fold_left_app. reflexivity. Qed.

Lemma prodR_snoc (l : list R) (x : R) : prodR (l ++ [x]) = prodR l * x.
Proof. unfold prodR. rewrite fold_left_app. reflexivity. Qed.

Lemma fold_left_Rplus_acc (l : list R) (a : R) :
  fold_left Rplus l a = a + sumR l.
Proof.
  unfold sumR. revert a. induction l as [|x l IH]; intros a; simpl.
  - lra.
  - rewrite (IH (a + x)), (IH (0 + x)). lra.
Qed.

Lemma sumR_cons (x : R) (l : list R) : sumR (x :: l) = x + sumR l.
Proof. unfold sumR at 1. simpl. rewrite fold_left_Rplus_acc. lra. Qed.

Lemma sumR_app (l k : list R) : sumR (l ++ k) = sumR l + sumR k.
Proof.
  induction l as [|x l IH]; simpl.
  - unfold sumR at 2. simpl. lra.
  - rewrite !sumR_cons, IH. lra.
Qed.

(** The action-major index is injective on [hand < H]. *)
Lemma index_inj (H a h a' h' : nat) :
  (h < H)%nat -> (h' < H)%nat ->
  (a * H + h = a' * H + h')%nat -> a = a' /\ h = h'.
Proof.
  intros Hh Hh' E.
  assert (a = a') as ->.
  { destruct (Nat.lt_trichotomy a a') as [L|[L|L]]; [|exact L|].
    - pose proof (Nat.mul_le_mono_r (Datatypes.S a) a' H L). simpl in *. lia.
    - pose proof (Nat.mul_le_mono_r (Datatypes.S a') a H L). simpl in *. lia. }
  split; [reflexivity|lia].
Qed.

Lemma index_lt (A H a h : nat) :
  (a < A)%nat -> (h < H)%nat -> (a * H + h < A * H)%nat.
Proof.
  intros Ha Hh.
  pose proof (Nat.mul_le_mono_r (Datatypes.S a) A H Ha). simpl in *. lia.
Qed.

(** ** The EV and equity setters *)

Lemma store_not_nan_spec (input stored : list float) :
  length input = length stored ->
  length (store_not_nan input stored) = length stored /\
  forall i, (i < length stored)%nat ->
    store_not_nan input stored !!! i =
      if isNaN (input !!! i) then stored !!! i else input !!! i.
Proof.
  intros Hlen. unfold store_not_nan.
  set (body := fun (i : nat) (stored : list float) => _).
  assert (Inv : (fun k v =>
    length v = length stored /\
    forall i, (i < length stored)%nat ->
      v !!! i = if (i <? k)%nat
                then (if isNaN (input !!! i) then stored !!! i else input !!! i)
                else stored !!! i) (length input) (for_range (length input) body stored)).
  { apply for_range_ind.
    - split; [reflexivity|]. intros i _. reflexivity.
    - intros k v Hk [Hl Hv]. unfold body, isNaN in *.
      destruct (PrimFloat.eqb (input !!! k) (input !!! k)) eqn:E.
      + split; [rewrite length_insert; exact Hl|].
        intros i Hi. destruct (Nat.eq_dec i k) as [->|Hne].
        * rewrite list_lookup_total_insert_eq by lia.
          rewrite (proj2 (Nat.ltb_lt _ _)) by lia. rewrite E. reflexivity.
        * rewrite list_lookup_total_insert_ne by congruence.
          rewrite Hv by exact Hi.
          destruct (Nat.ltb_spec i k), (Nat.ltb_spec i (Datatypes.S k)); try lia; reflexivity.
      + split; [exact Hl|].
        intros i Hi. rewrite Hv by exact Hi.
        destruct (Nat.eq_dec i k) as [->|Hne].
        * rewrite Nat.ltb_irrefl. rewrite (proj2 (Nat.ltb_lt _ _)) by lia.
          rewrite E. reflexivity.
        * destruct (Nat.ltb_spec i k), (Nat.ltb_spec i (Datatypes.S k)); try lia; reflexivity. }
  destruct Inv as [Hl Hv]. split; [exact Hl|].
  intros i Hi. rewrite Hv by exact Hi.
  rewrite (proj2 (Nat.ltb_lt _ _)) by lia. reflexivity.
Qed.

(** C10. [setEv] and [setEquity] throw exactly when the length of the input
    differs from [A * H]; otherwise every index takes the input value when
    that value is not NaN and keeps the stored value when it is, the other
    members are untouched, and tables free of NaN stay free of NaN. *)
Theorem setEv_setEquity_nan_guard (t : DiscountedCfrTrainable) (input : list float) :
  length (evs t) = (action_number t * card_number t)%nat ->
  length (equities t) = (action_number t * card_number t)%nat ->
  let n := (action_number t * card_number t)%nat in
  (length input <> n ->
     (exists m, setEv t input = Throw m) /\ (exists m, setEquity t input = Throw m)) /\
  (length input = n ->
     exists t1 t2,
       setEv t input = Ok t1 /\ setEquity t input = Ok t2 /\
       t1 = with_evs t (evs t1) /\ t2 = with_equities t (equities t2) /\
       length (evs t1) = n /\ length (equities t2) = n /\
       (forall i, (i < n)%nat ->
          evs t1 !!! i = if isNaN (input !!! i) then evs t !!! i else input !!! i) /\
       (forall i, (i < n)%nat ->
          equities t2 !!! i =
            if isNaN (input !!! i) then equities t !!! i else input !!! i) /\
       ((forall i, (i < n)%nat -> isNaN (evs t !!! i) = false) ->
        forall i, (i < n)%nat -> isNaN (evs t1 !!! i) = false) /\
       ((forall i, (i < n)%nat -> isNaN (equities t !!! i) = false) ->
        forall i, (i < n)%nat -> isNaN (equities t2 !!! i) = false)).
Proof.
  intros Hev Heq n. split.
  - intros Hne. unfold setEv, setEquity. rewrite Hev, Heq. fold n.
    destruct (Nat.eqb_spec (length input) n) as [E|_]; [contradiction|].
    simpl. split; eexists; reflexivity.
  - intros Hlen. unfold setEv, setEquity. rewrite Hev, Heq. fold n.
    rewrite (proj2 (Nat.eqb_eq _ _) Hlen). simpl.
    destruct (store_not_nan_spec input (evs t)) as [Hl1 Hv1]; [lia|].
    destruct (store_not_nan_spec input (equities t)) as [Hl2 Hv2]; [lia|].
    do 2 eexists. split; [reflexivity|]. split; [reflexivity|].
    split; [reflexivity|]. split; [reflexivity|]. simpl.
    split; [lia|]. split; [lia|].
    split; [intros i Hi; apply Hv1; lia|].
    split; [intros i Hi; apply Hv2; lia|].
    split.
    + intros Hold i Hi. rewrite Hv1 by lia.
      destruct (isNaN (input !!! i)) eqn:E; [apply Hold; exact Hi|exact E].
    + intros Hold i Hi. rewrite Hv2 by lia.
      destruct (isNaN (input !!! i)) eqn:E; [apply Hold; exact Hi|exact E].
Qed.

Lemma setEv_setEquity_nan_guard_witness :
  exists t1,
    setEv (newTrainable 1 2 1.5 0 2 1) [PrimFloat.nan; PrimFloat.one] = Ok t1 /\
    evs t1 !!! 0%nat = PrimFloat.zero /\ evs t1 !!! 1%nat = PrimFloat.one.
Proof.
  destruct (setEv_setEquity_nan_guard (newTrainable 1 2 1.5 0 2 1)
              [PrimFloat.nan; PrimFloat.one] eq_refl eq_refl) as [_ H].
  destruct (H eq_refl) as (t1 & t2 & E1 & _ & _ & _ & _ & _ & Hv & _).
  exists t1. split; [exact E1|].
  split.
  - rewrite (Hv 0%nat) by (simpl; lia). reflexivity.
  - rewrite (Hv 1%nat) by (simpl; lia). reflexivity.
Defined.

(** ** The average strategy *)

Lemma column_S (v : list R) (A H h : nat) :
  column v (Datatypes.S A) H h = column v A H h ++ [v !!! (A * H + h)%nat].
Proof. unfold column. rewrite seq_S, map_app. reflexivity. Qed.

Lemma column_ext (v w : list R) (A H h : nat) :
  (forall a, (a < A)%nat -> v !!! (a * H + h)%nat = w !!! (a * H + h)%nat) ->
  column v A H h = column w A H h.
Proof.
  intros E. unfold column. apply map_ext_in. intros a Ha.
  apply in_seq in Ha. apply E. lia.
Qed.

Lemma column_sum_loop (v : list R) (A H h : nat) :
  for_range A (fun action_id s => s + v !!! (action_id * H + h)%nat) 0
  = sumR (column v A H h).
Proof.
  induction A as [|A IH].
  - reflexivity.
  - rewrite for_range_S, IH, column_S, sumR_snoc. reflexivity.
Qed.

Lemma sumR_nonneg (l : list R) :
  Forall (fun x => 0 <= x) l -> 0 <= sumR l.
Proof.
  induction 1 as [|x l Hx _ IH].
  - unfold sumR. simpl. lra.
  - rewrite sumR_cons. lra.
Qed.

Lemma sumR_map_div {A : Type} (f : A -> R) (s : R) (l : list A) :
  sumR (map (fun a => f a / s) l) = sumR (map f l) / s.
Proof.
  induction l as [|x l IH]; simpl.
  - unfold sumR. simpl. lra.
  - rewrite !sumR_cons, IH. lra.
Qed.

(** What the two nested loops of [getAverageStrategy] leave in each cell. *)
Lemma getAverageStrategy_lookup (t : DiscountedCfrTrainable) :
  let A := action_number t in
  let H := card_number t in
  length (getAverageStrategy t) = (A * H)%nat /\
  forall a h, (a < A)%nat -> (h < H)%nat ->
    getAverageStrategy t !!! (a * H + h)%nat =
      if Req_dec_T (sumR (column (cum_r_plus t) A H h)) 0
      then 1 / INR A
      else cum_r_plus t !!! (a * H + h)%nat / sumR (column (cum_r_plus t) A H h).
Proof.
  intros A H. unfold getAverageStrategy. fold A H.
  set (F := fun a h : nat =>
      if Req_dec_T (sumR (column (cum_r_plus t) A H h)) 0
      then 1 / INR A
      else cum_r_plus t !!! (a * H + h)%nat / sumR (column (cum_r_plus t) A H h)).
  set (outer := fun (private_id : nat) (average_strategy : list R) => _).
  pose (P := fun (p : nat) (v : list R) => length v = (A * H)%nat /\
      forall a h, (a < A)%nat -> (h < p)%nat -> v !!! (a * H + h)%nat = F a h).
  assert (Inv : P H (for_range H outer (replicate (A * H) 0))).
  { apply (for_range_ind P).
    - split; [apply length_replicate|]. intros a h _ Hh. lia.
    - intros p v Hp [Hl Hv]. unfold outer.
      rewrite column_sum_loop.
      set (inner := fun (action_id : nat) (average_strategy : list R) => _).
      pose (Q := fun (k : nat) (w : list R) => length w = (A * H)%nat /\
          forall a h, (a < A)%nat -> (h < H)%nat ->
            (h < p)%nat \/ (h = p /\ (a < k)%nat) -> w !!! (a * H + h)%nat = F a h).
      assert (Inv : Q A (for_range A inner v)).
      { apply (for_range_ind Q).
        - split; [exact Hl|]. intros a h Ha Hh [L|[_ L]]; [apply Hv; assumption|lia].
        - intros k w Hk [Hlw Hw].
          assert (Hidx : (k * H + p < length w)%nat)
            by (rewrite Hlw; apply index_lt; assumption).
          assert (Hstep : forall x, (forall a h, (a < A)%nat -> (h < H)%nat ->
                    (h < p)%nat \/ (h = p /\ (a < Datatypes.S k)%nat) ->
                    (a = k /\ h = p -> x = F a h) ->
                    <[(k * H + p)%nat := x]> w !!! (a * H + h)%nat = F a h)).
          { intros x a h Ha Hh Hcase Hx.
            destruct (Nat.eq_dec (k * H + p)%nat (a * H + h)%nat) as [E|NE].
            - apply index_inj in E; [|assumption..]. destruct E as [-> ->].
              rewrite list_lookup_total_insert_eq by exact Hidx. apply Hx. split; reflexivity.
            - rewrite list_lookup_total_insert_ne by exact NE.
              apply Hw; [assumption..|].
              destruct Hcase as [L|[-> L]]; [left; exact L|].
              right. split; [reflexivity|].
              assert (a <> k) by (intros ->; apply NE; reflexivity). lia. }
          unfold inner.
          destruct (Req_dec_T (sumR (column (cum_r_plus t) A H p)) 0) as [E0|N0].
          + split; [rewrite length_insert; exact Hlw|].
            intros a h Ha Hh Hcase. apply Hstep; [assumption..|].
            intros [-> ->]. unfold F.
            destruct (Req_dec_T _ 0); [reflexivity|contradiction].
          + split; [rewrite length_insert; exact Hlw|].
            intros a h Ha Hh Hcase. apply Hstep; [assumption..|].
            intros [-> ->]. unfold F.
            destruct (Req_dec_T _ 0); [contradiction|reflexivity]. }
      destruct Inv as [Hlw Hw]. split; [exact Hlw|].
      intros a h Ha Hh. apply Hw; [exact Ha|lia|].
      destruct (Nat.eq_dec h p) as [->|]; [right; split; [reflexivity|exact Ha]|left; lia]. }
  destruct Inv as [Hl Hv]. split; [exact Hl|].
  intros a h Ha Hh. apply Hv; assumption.
Qed.

(** C6. In a state whose [cum_r_plus] entries for hand [h] are nonnegative,
    [getAverageStrategy] gives [cum_r_plus[a,h] / S] with
    [S = sum_a cum_r_plus[a,h]] when [S > 0], and these sum to 1 over the
    actions; otherwise it gives [1 / A] for every action. *)
Theorem getAverageStrategy_normalised (t : DiscountedCfrTrainable) (h : nat) :
  let A := action_number t in
  let H := card_number t in
  let S := sumR (column (cum_r_plus t) A H h) in
  let avg := getAverageStrategy t in
  length (cum_r_plus t) = (A * H)%nat ->
  (h < H)%nat ->
  (forall a, (a < A)%nat -> 0 <= cum_r_plus t !!! (a * H + h)%nat) ->
  (0 < S ->
     (forall a, (a < A)%nat ->
        avg !!! (a * H + h)%nat = cum_r_plus t !!! (a * H + h)%nat / S) /\
     sumR (column avg A H h) = 1) /\
  (~ 0 < S ->
     forall a, (a < A)%nat -> avg !!! (a * H + h)%nat = 1 / INR A).
Proof.
  intros A H S avg _ Hh Hpos.
  destruct (getAverageStrategy_lookup t) as [_ Hv]. fold A H avg in Hv.
  assert (HS : 0 <= S).
  { apply sumR_nonneg. unfold column. apply Forall_forall. intros x Hx.
    apply list_elem_of_In, in_map_iff in Hx. destruct Hx as (a & <- & Ha).
    apply in_seq in Ha. apply Hpos. lia. }
  split.
  - intros HS0.
    assert (Hcell : forall a, (a < A)%nat ->
              avg !!! (a * H + h)%nat = cum_r_plus t !!! (a * H + h)%nat / S).
    { intros a Ha. rewrite Hv by assumption. fold S.
      destruct (Req_dec_T S 0); [lra|reflexivity]. }
    split; [exact Hcell|].
    assert (E : column avg A H h
                = map (fun a => cum_r_plus t !!! (a * H + h)%nat / S) (seq 0 A)).
    { unfold column. apply map_ext_in. intros a Ha. apply in_seq in Ha.
      apply Hcell. lia. }
    rewrite E, sumR_map_div. fold (column (cum_r_plus t) A H h). fold S.
    field. lra.
  - intros HS0 a Ha. rewrite Hv by assumption. fold S.
    destruct (Req_dec_T S 0); [reflexivity|lra].
Qed.

Lemma getAverageStrategy_normalised_witness :
  sumR (column (getAverageStrategy
                  (mkTrainable 2 1 [] [] [0; 0] [0] [1; 3] 1.5 0 2 1)) 2 1 0) = 1.
Proof.
  refine (proj2 (proj1 (getAverageStrategy_normalised
            (mkTrainable 2 1 [] [] [0; 0] [0] [1; 3] 1.5 0 2 1) 0%nat
            eq_refl _ _) _)).
  - simpl. lia.
  - intros a Ha. simpl in *.
    destruct a as [|[|a]]; simpl; [lra|lra|lia].
  - simpl. unfold sumR, column. simpl. lra.
Defined.

(** ** The regret update *)

(** Two nested loops, actions outside and hands inside, whose body rewrites
    the cell of its own index from the value it finds there. *)
Lemma nested_pointwise (A H : nat) (g : nat -> nat -> R -> R)
    (body : nat -> nat -> list R -> list R) (v : list R) :
  (forall a h w, (a < A)%nat -> (h < H)%nat -> length w = (A * H)%nat ->
     length (body a h w) = (A * H)%nat /\
     body a h w !!! (a * H + h)%nat = g a h (w !!! (a * H + h)%nat) /\
     forall j, j <> (a * H + h)%nat -> body a h w !!! j = w !!! j) ->
  length v = (A * H)%nat ->
  let r := for_range A (fun a w => for_range H (fun h w => body a h w) w) v in
  length r = (A * H)%nat /\
  forall a h, (a < A)%nat -> (h < H)%nat ->
    r !!! (a * H + h)%nat = g a h (v !!! (a * H + h)%nat).
Proof.
  intros Hbody Hlen r.
  pose (P := fun (k : nat) (w : list R) => length w = (A * H)%nat /\
      forall a h, (a < A)%nat -> (h < H)%nat ->
        w !!! (a * H + h)%nat =
          if (a <? k)%nat then g a h (v !!! (a * H + h)%nat)
          else v !!! (a * H + h)%nat).
  assert (Inv : P A r).
  { apply (for_range_ind P).
    - split; [exact Hlen|]. intros a h _ _. reflexivity.
    - intros k w Hk [Hlw Hw].
      pose (Q := fun (m : nat) (u : list R) => length u = (A * H)%nat /\
          forall a h, (a < A)%nat -> (h < H)%nat ->
            u !!! (a * H + h)%nat =
              if ((a <? k) || ((a =? k) && (h <? m)))%nat
              then g a h (v !!! (a * H + h)%nat)
              else v !!! (a * H + h)%nat).
      assert (Inv : Q H (for_range H (fun h w => body k h w) w)).
      { apply (for_range_ind Q).
        - split; [exact Hlw|]. intros a h Ha Hh. rewrite Hw by assumption.
          rewrite (proj2 (Nat.ltb_nlt h 0)) by lia. rewrite andb_false_r, orb_false_r. reflexivity.
        - intros m u Hm [Hlu Hu].
          destruct (Hbody k m u Hk Hm Hlu) as (Hl' & Hat & Hoth).
          split; [exact Hl'|]. intros a h Ha Hh.
          destruct (Nat.eq_dec (a * H + h)%nat (k * H + m)%nat) as [E|NE].
          + apply index_inj in E; [|assumption..]. destruct E as [-> ->].
            rewrite Hat, Hu by assumption.
            rewrite Nat.ltb_irrefl, Nat.eqb_refl. simpl.
            rewrite Nat.ltb_irrefl, (proj2 (Nat.ltb_lt _ _)) by lia. reflexivity.
          + rewrite Hoth by exact NE. rewrite Hu by assumption.
            assert (Hc : (a = k -> h <> m)) by (intros -> ->; apply NE; reflexivity).
            destruct (Nat.ltb_spec a k); [reflexivity|]. simpl.
            destruct (Nat.eqb_spec a k); [|reflexivity]. simpl.
            specialize (Hc ltac:(assumption)).
            destruct (Nat.ltb_spec h m), (Nat.ltb_spec h (Datatypes.S m));
              try lia; reflexivity. }
      destruct Inv as [Hlu Hu]. split; [exact Hlu|].
      intros a h Ha Hh. rewrite Hu by assumption.
      destruct (Nat.ltb_spec a k), (Nat.ltb_spec a (Datatypes.S k)); try lia; simpl.
      * reflexivity.
      * assert (a = k) as -> by lia. rewrite Nat.eqb_refl.
        rewrite (proj2 (Nat.ltb_lt _ _)) by lia. reflexivity.
      * destruct (Nat.eqb_spec a k); [lia|reflexivity]. }
  destruct Inv as [Hl Hv]. split; [exact Hl|].
  intros a h Ha Hh. rewrite Hv by assumption.
  rewrite (proj2 (Nat.ltb_lt _ _)) by lia. reflexivity.
Qed.

Lemma regret_step_spec (H : nat) (regrets : list R) (c b : R) (a h : nat)
    (rp rps : list R) :
  let index := (a * H + h)%nat in
  (index < length rp)%nat -> (h < length rps)%nat ->
  exists rp' rps',
    regret_step H regrets c b a h (rp, rps) = (rp', rps') /\
    length rp' = length rp /\ length rps' = length rps /\
    rp' !!! index = discounted c b (regrets !!! index + rp !!! index) /\
    (forall j, j <> index -> rp' !!! j = rp !!! j) /\
    rps' !!! h = rps !!! h + max0 (rp' !!! index) /\
    (forall j, j <> h -> rps' !!! j = rps !!! j).
Proof.
  intros index Hi Hh. unfold regret_step. fold index.
  set (r1 := <[index := regrets !!! index + rp !!! index]> rp).
  assert (Hl1 : length r1 = length rp) by apply length_insert.
  assert (E1 : r1 !!! index = regrets !!! index + rp !!! index)
    by (apply list_lookup_total_insert_eq; exact Hi).
  set (r2 := if Rgt_dec (r1 !!! index) 0
             then <[index := r1 !!! index * c]> r1
             else <[index := r1 !!! index * b]> r1).
  assert (Hl2 : length r2 = length rp).
  { unfold r2. destruct (Rgt_dec _ 0); rewrite length_insert; exact Hl1. }
  assert (E2 : r2 !!! index = discounted c b (regrets !!! index + rp !!! index)).
  { unfold r2, discounted. rewrite <- E1.
    destruct (Rgt_dec (r1 !!! index) 0);
      rewrite list_lookup_total_insert_eq by lia; reflexivity. }
  assert (O2 : forall j, j <> index -> r2 !!! j = rp !!! j).
  { intros j Hj. unfold r2.
    destruct (Rgt_dec _ 0); rewrite list_lookup_total_insert_ne by congruence;
      unfold r1; rewrite list_lookup_total_insert_ne by congruence; reflexivity. }
  exists r2, (<[h := rps !!! h + max0 (r2 !!! index)]> rps).
  split; [reflexivity|]. split; [exact Hl2|]. split; [apply length_insert|].
  split; [exact E2|]. split; [exact O2|].
  split; [apply list_lookup_total_insert_eq; exact Hh|].
  intros j Hj. apply list_lookup_total_insert_ne. congruence.
Qed.

Lemma regret_loops_spec (A H : nat) (regrets : list R) (c b : R)
    (old rps0 : list R) :
  length old = (A * H)%nat -> length rps0 = H ->
  let new := fun i => discounted c b (regrets !!! i + old !!! i) in
  let st := for_range A (fun action_id st =>
                for_range H (fun private_id st =>
                    regret_step H regrets c b action_id private_id st) st)
              (old, fill rps0 0) in
  length (fst st) = (A * H)%nat /\ length (snd st) = H /\
  (forall a h, (a < A)%nat -> (h < H)%nat ->
     fst st !!! (a * H + h)%nat = new (a * H + h)%nat) /\
  (forall h, (h < H)%nat ->
     snd st !!! h = sumR (map (fun a => max0 (new (a * H + h)%nat)) (seq 0 A))).
Proof.
  intros Hold Hrps new st.
  pose (P := fun (k : nat) (s : list R * list R) =>
      length (fst s) = (A * H)%nat /\ length (snd s) = H /\
      (forall a h, (a < A)%nat -> (h < H)%nat ->
         fst s !!! (a * H + h)%nat =
           if (a <? k)%nat then new (a * H + h)%nat else old !!! (a * H + h)%nat) /\
      (forall h, (h < H)%nat ->
         snd s !!! h = sumR (map (fun a => max0 (new (a * H + h)%nat)) (seq 0 k)))).
  assert (Inv : P A st).
  { apply (for_range_ind P).
    - split; [exact Hold|]. split; [unfold fill; simpl; rewrite length_replicate; exact Hrps|].
      split; [intros a h _ _; reflexivity|].
      intros h Hh. simpl. unfold fill. rewrite lookup_total_replicate_2 by lia.
      reflexivity.
    - intros k s Hk (Hl1 & Hl2 & Hrp & Hsum).
      pose (Q := fun (m : nat) (u : list R * list R) =>
          length (fst u) = (A * H)%nat /\ length (snd u) = H /\
          (forall a h, (a < A)%nat -> (h < H)%nat ->
             fst u !!! (a * H + h)%nat =
               if ((a <? k) || ((a =? k) && (h <? m)))%nat
               then new (a * H + h)%nat else old !!! (a * H + h)%nat) /\
          (forall h, (h < H)%nat ->
             snd u !!! h =
               sumR (map (fun a => max0 (new (a * H + h)%nat)) (seq 0 k))
               + if (h <? m)%nat then max0 (new (k * H + h)%nat) else 0)).
      assert (Inv : Q H (for_range H (fun private_id st =>
                           regret_step H regrets c b k private_id st) s)).
      { apply (for_range_ind Q).
        - split; [exact Hl1|]. split; [exact Hl2|]. split.
          + intros a h Ha Hh. rewrite Hrp by assumption.
            rewrite (proj2 (Nat.ltb_nlt h 0)) by lia.
            rewrite andb_false_r, orb_false_r. reflexivity.
          + intros h Hh. rewrite Hsum by assumption.
            rewrite (proj2 (Nat.ltb_nlt h 0)) by lia. lra.
        - intros m [rp rps] Hm (Hu1 & Hu2 & Hurp & Husum).
          cbn [fst snd] in Hu1, Hu2, Hurp, Husum.
          destruct (regret_step_spec H regrets c b k m rp rps)
            as (rp' & rps' & -> & Hl1' & Hl2' & Hat & Hoth & Hsat & Hsoth).
          { rewrite Hu1. apply index_lt; assumption. }
          { rewrite Hu2. exact Hm. }
          unfold Q. cbn [fst snd]. split; [congruence|]. split; [congruence|]. split.
          + intros a h Ha Hh.
            destruct (Nat.eq_dec (a * H + h)%nat (k * H + m)%nat) as [E|NE].
            * rewrite E, Hat. apply index_inj in E; [|assumption..]. destruct E as [-> ->].
              rewrite Hurp by assumption.
              rewrite Nat.ltb_irrefl, Nat.eqb_refl. simpl.
              rewrite Nat.ltb_irrefl, (proj2 (Nat.ltb_lt _ _)) by lia. reflexivity.
            * rewrite Hoth by exact NE. rewrite Hurp by assumption.
              assert (Hc : (a = k -> h <> m)) by (intros -> ->; apply NE; reflexivity).
              destruct (Nat.ltb_spec a k); [reflexivity|]. simpl.
              destruct (Nat.eqb_spec a k); [|reflexivity]. simpl.
              specialize (Hc ltac:(assumption)).
              destruct (Nat.ltb_spec h m), (Nat.ltb_spec h (Datatypes.S m));
                try lia; reflexivity.
          + intros h Hh. destruct (Nat.eq_dec h m) as [->|NE].
            * rewrite Hsat, Hat, Husum by assumption.
              rewrite Hurp by assumption.
              rewrite !Nat.ltb_irrefl, Nat.eqb_refl. simpl.
              rewrite (proj2 (Nat.ltb_lt _ _)) by lia. fold (new (k * H + m)%nat).
              lra.
            * rewrite Hsoth by exact NE. rewrite Husum by assumption.
              destruct (Nat.ltb_spec h m), (Nat.ltb_spec h (Datatypes.S m));
                try lia; reflexivity. }
      destruct Inv as (Hu1 & Hu2 & Hurp & Husum).
      split; [exact Hu1|]. split; [exact Hu2|]. split.
      + intros a h Ha Hh. rewrite Hurp by assumption.
        destruct (Nat.ltb_spec a k), (Nat.ltb_spec a (Datatypes.S k)); try lia; simpl.
        * reflexivity.
        * assert (a = k) as -> by lia. rewrite Nat.eqb_refl.
          rewrite (proj2 (Nat.ltb_lt _ _)) by lia. reflexivity.
        * destruct (Nat.eqb_spec a k); [lia|reflexivity].
      + intros h Hh. rewrite Husum by assumption.
        rewrite (proj2 (Nat.ltb_lt _ _)) by lia.
        rewrite seq_S, map_app. cbn [map Nat.add]. rewrite sumR_snoc. reflexivity. }
  destruct Inv as (Hl1 & Hl2 & Hrp & Hsum).
  split; [exact Hl1|]. split; [exact Hl2|]. split; [|exact Hsum].
  intros a h Ha Hh. rewrite Hrp by assumption.
  rewrite (proj2 (Nat.ltb_lt _ _)) by lia. reflexivity.
Qed.

(** What [getcurrentStrategyNoCache] leaves in each cell. *)
Lemma getcurrentStrategyNoCache_lookup (t : DiscountedCfrTrainable) :
  let A := action_number t in
  let H := card_number t in
  length (r_plus_sum t) = H ->
  length (getcurrentStrategyNoCache t) = (A * H)%nat /\
  forall a h, (a < A)%nat -> (h < H)%nat ->
    getcurrentStrategyNoCache t !!! (a * H + h)%nat =
      if Req_dec_T (r_plus_sum t !!! h) 0
      then 1 / INR A
      else max0 (r_plus t !!! (a * H + h)%nat) / (r_plus_sum t !!! h).
Proof.
  intros A H Hl. unfold getcurrentStrategyNoCache. fold A H.
  destruct (r_plus_sum t) as [|x rps] eqn:E.
  - simpl in Hl. split.
    + unfold fill. rewrite !length_replicate. reflexivity.
    + intros a h _ Hh. lia.
  - rewrite <- E in *. clear E x rps.
    apply (nested_pointwise A H
             (fun a h _ =>
                if Req_dec_T (r_plus_sum t !!! h) 0
                then 1 / INR A
                else max0 (r_plus t !!! (a * H + h)%nat) / (r_plus_sum t !!! h))
             (fun action_id private_id current_strategy =>
                let index := (action_id * H + private_id)%nat in
                if Req_dec_T (r_plus_sum t !!! private_id) 0
                then <[index := 1 / INR A]> current_strategy
                else <[index := max0 (r_plus t !!! index) / (r_plus_sum t !!! private_id)]>
                       current_strategy)).
    + intros a h w Ha Hh Hw. cbv zeta.
      assert ((a * H + h < length w)%nat) by (rewrite Hw; apply index_lt; assumption).
      destruct (Req_dec_T (r_plus_sum t !!! h) 0).
      * split; [rewrite length_insert; exact Hw|].
        split; [apply list_lookup_total_insert_eq; assumption|].
        intros j Hj. apply list_lookup_total_insert_ne. congruence.
      * split; [rewrite length_insert; exact Hw|].
        split; [apply list_lookup_total_insert_eq; assumption|].
        intros j Hj. apply list_lookup_total_insert_ne. congruence.
    + apply length_replicate.
Qed.

(** The three results of [updateRegrets], cell by cell. *)
Lemma updateRegrets_cells (t : DiscountedCfrTrainable) (regrets : list R)
    (iteration_number : Z) :
  let A := action_number t in
  let H := card_number t in
  let t' := updateRegrets t regrets iteration_number in
  let alpha_coef := pow (IZR iteration_number) (alpha t)
                    / (1 + pow (IZR iteration_number) (alpha t)) in
  let strategy_coef :=
    pow (IZR iteration_number / IZR (iteration_number + 1)) (gamma t) in
  length (r_plus t) = (A * H)%nat ->
  length (r_plus_sum t) = H ->
  length (cum_r_plus t) = (A * H)%nat ->
  (action_number t' = A /\ card_number t' = H /\
   alpha t' = alpha t /\ beta t' = beta t /\ gamma t' = gamma t /\ theta t' = theta t /\
   evs t' = evs t /\ equities t' = equities t) /\
  (length (r_plus t') = (A * H)%nat /\ length (r_plus_sum t') = H /\
   length (cum_r_plus t') = (A * H)%nat) /\
  (forall a h, (a < A)%nat -> (h < H)%nat ->
     r_plus t' !!! (a * H + h)%nat =
       discounted alpha_coef (beta t)
         (regrets !!! (a * H + h)%nat + r_plus t !!! (a * H + h)%nat)) /\
  (forall h, (h < H)%nat ->
     r_plus_sum t' !!! h = sumR (map max0 (column (r_plus t') A H h))) /\
  (forall a h, (a < A)%nat -> (h < H)%nat ->
     cum_r_plus t' !!! (a * H + h)%nat =
       cum_r_plus t !!! (a * H + h)%nat * theta t
       + getcurrentStrategyNoCache t' !!! (a * H + h)%nat * strategy_coef).
Proof.
  intros A H t' alpha_coef strategy_coef Hrp Hrps Hcum.
  pose proof (regret_loops_spec A H regrets alpha_coef (beta t)
                (r_plus t) (r_plus_sum t) Hrp Hrps) as Hloops.
  cbv zeta in Hloops.
  unfold t', updateRegrets. fold A H. fold alpha_coef. fold strategy_coef.
  destruct (for_range A _ (r_plus t, fill (r_plus_sum t) 0)) as [rp1 rps1].
  cbn [fst snd] in Hloops. destruct Hloops as (Hl1 & Hl2 & Hcell & Hsum).
  set (t1 := {| action_number := A; card_number := H; evs := evs t;
                equities := equities t; r_plus := rp1; r_plus_sum := rps1;
                cum_r_plus := cum_r_plus t; alpha := alpha t; beta := beta t;
                gamma := gamma t; theta := theta t |}).
  set (cs := getcurrentStrategyNoCache t1).
  destruct (nested_pointwise A H
              (fun a h old => old * theta t + cs !!! (a * H + h)%nat * strategy_coef)
              (fun action_id private_id cum =>
                 let index := (action_id * H + private_id)%nat in
                 let cum := <[index := cum !!! index * theta t]> cum in
                 <[index := cum !!! index + cs !!! index * strategy_coef]> cum)
              (cum_r_plus t)) as [Hl3 Hcumcell].
  { intros a h w Ha Hh Hw. cbv zeta.
    assert ((a * H + h < length w)%nat) by (rewrite Hw; apply index_lt; assumption).
    split; [rewrite !length_insert; exact Hw|]. split.
    - rewrite list_lookup_total_insert_eq by (rewrite length_insert; assumption).
      rewrite list_lookup_total_insert_eq by assumption. reflexivity.
    - intros j Hj. rewrite !list_lookup_total_insert_ne by congruence. reflexivity. }
  { exact Hcum. }
  cbn [action_number card_number alpha beta gamma theta evs equities
       r_plus r_plus_sum cum_r_plus].
  split; [repeat split|]. split; [repeat split; assumption|].
  split; [exact Hcell|]. split.
  - intros h Hh. rewrite Hsum by exact Hh. f_equal. unfold column.
    rewrite map_map. apply map_ext_in. intros a Ha. apply in_seq in Ha.
    rewrite Hcell by (assumption || lia). reflexivity.
  - intros a h Ha Hh. rewrite Hcumcell by assumption. reflexivity.
Qed.

(** ** The regret schedule under a constant regret *)

Lemma pow_pos (x y : R) : 0 < pow x y.
Proof. unfold pow, Rpower. apply exp_pos. Qed.

Lemma pow_2 (x : R) : 0 < x -> pow x 2 = x * x.
Proof.
  intros Hx. unfold pow. replace 2 with (INR 2) by (simpl; lra).
  rewrite Rpower_pow by exact Hx. simpl. lra.
Qed.

Lemma dcfr_coef_bounds (al : R) (k : nat) : 0 < dcfr_coef al k < 1.
Proof.
  unfold dcfr_coef. pose proof (pow_pos (IZR (Z.of_nat k)) al) as Hp.
  split.
  - apply Rdiv_lt_0_compat; lra.
  - apply (Rmult_lt_reg_r (1 + pow (IZR (Z.of_nat k)) al)); [lra|].
    unfold Rdiv. rewrite Rmult_assoc, Rinv_l by lra. lra.
Qed.

Lemma sumR_map_mult {A : Type} (f : A -> R) (s : R) (l : list A) :
  sumR (map (fun a => f a * s) l) = sumR (map f l) * s.
Proof.
  induction l as [|x l IH]; simpl.
  - unfold sumR. simpl. lra.
  - rewrite !sumR_cons, IH. lra.
Qed.

Lemma dcfr_closed_S (al : R) (n : nat) :
  dcfr_closed al (S n) = (dcfr_closed al n + 1) * dcfr_coef al (S n).
Proof.
  unfold dcfr_closed. rewrite seq_S, map_app, sumR_app. cbn [map].
  replace (S (S n) - (1 + n))%nat with 1%nat by lia.
  cbn [seq map Nat.add]. rewrite sumR_cons.
  replace (sumR []) with 0 by reflexivity.
  unfold prodR at 2. cbn [fold_left].
  rewrite (map_ext_in _ (fun k => prodR (map (dcfr_coef al) (seq k (S n - k)))
                                  * dcfr_coef al (S n))).
  - rewrite sumR_map_mult. lra.
  - intros k Hk. apply in_seq in Hk.
    replace (S (S n) - k)%nat with (S (S n - k)) by lia.
    rewrite seq_S, map_app. cbn [map]. rewrite prodR_snoc.
    replace (k + (S n - k))%nat with (S n) by lia. reflexivity.
Qed.

Lemma dcfr_closed_nonneg (al : R) (n : nat) : 0 <= dcfr_closed al n.
Proof.
  induction n as [|n IH].
  - unfold dcfr_closed, sumR. simpl. lra.
  - rewrite dcfr_closed_S. pose proof (dcfr_coef_bounds al (S n)). nra.
Qed.

Lemma driveConstantRegret_S (t : DiscountedCfrTrainable) (n : nat) :
  driveConstantRegret t (S n) =
    let t' := driveConstantRegret t n in
    updateRegrets t' (replicate (action_number t' * card_number t') 1)
      (Z.of_nat (S n)).
Proof.
  unfold driveConstantRegret. rewrite seq_S, fold_left_app. reflexivity.
Qed.

Lemma driveConstantRegret_cells (A H : nat) (al be ga th : R) (n : nat) :
  let t := driveConstantRegret (newTrainable A H al be ga th) n in
  (action_number t = A /\ card_number t = H /\ alpha t = al /\ beta t = be) /\
  (length (r_plus t) = (A * H)%nat /\ length (r_plus_sum t) = H /\
   length (cum_r_plus t) = (A * H)%nat) /\
  forall a h, (a < A)%nat -> (h < H)%nat ->
    r_plus t !!! (a * H + h)%nat = dcfr_closed al n.
Proof.
  induction n as [|n IH]; intros t.
  - unfold t, driveConstantRegret. cbn [seq fold_left newTrainable
      action_number card_number alpha beta r_plus r_plus_sum cum_r_plus].
    rewrite !length_replicate. repeat split.
    intros a h Ha Hh. rewrite lookup_total_replicate_2 by (apply index_lt; assumption).
    unfold dcfr_closed, sumR. reflexivity.
  - cbv zeta in IH. destruct IH as ((EA & EH & Eal & Ebe) & (L1 & L2 & L3) & Hcell).
    unfold t. rewrite driveConstantRegret_S. cbv zeta.
    set (t0 := driveConstantRegret (newTrainable A H al be ga th) n) in *.
    pose proof (updateRegrets_cells t0
                  (replicate (action_number t0 * card_number t0) 1)
                  (Z.of_nat (S n))) as Hupd.
    cbv zeta in Hupd. rewrite EA, EH, Eal, Ebe in Hupd.
    destruct (Hupd L1 L2 L3)
      as ((EA' & EH' & Eal' & Ebe' & _) & (L1' & L2' & L3') & Hrp & _).
    clear Hupd. rewrite EA, EH.
    split; [repeat split; congruence|]. split; [repeat split; assumption|].
    intros a h Ha Hh. rewrite Hrp by assumption.
    rewrite lookup_total_replicate_2 by (apply index_lt; assumption).
    rewrite Hcell by assumption.
    rewrite dcfr_closed_S. unfold discounted.
    pose proof (dcfr_closed_nonneg al n).
    destruct (Rgt_dec (1 + dcfr_closed al n) 0) as [_|N]; [|lra].
    unfold dcfr_coef. lra.
Qed.

(** C1 (amended). After [updateRegrets(regrets, n)], each [r_plus[a,h]] is
    [old r_plus[a,h] + regrets[a,h]] multiplied by
    [n^alpha / (1 + n^alpha)] when that sum is positive and by [beta]
    otherwise, and [r_plus_sum[h]] is the sum over the actions of
    [max(0, new r_plus[a,h])]; driven from a fresh trainable with a constant
    regret of 1.0 at the iteration numbers [1 .. m], every [r_plus] entry is
    [sum_{k=1..m} prod_{j=k..m} j^alpha / (1 + j^alpha)]. *)
Theorem updateRegrets_discounts_regrets (t : DiscountedCfrTrainable)
    (regrets : list R) (iteration_number : Z) :
  let A := action_number t in
  let H := card_number t in
  let t' := updateRegrets t regrets iteration_number in
  let coef := pow (IZR iteration_number) (alpha t)
              / (1 + pow (IZR iteration_number) (alpha t)) in
  length (r_plus t) = (A * H)%nat ->
  length (r_plus_sum t) = H ->
  length (cum_r_plus t) = (A * H)%nat ->
  length regrets = (A * H)%nat ->
  (forall a h, (a < A)%nat -> (h < H)%nat ->
     let s := r_plus t !!! (a * H + h)%nat + regrets !!! (a * H + h)%nat in
     r_plus t' !!! (a * H + h)%nat = if Rgt_dec s 0 then s * coef else s * beta t) /\
  (forall h, (h < H)%nat ->
     r_plus_sum t' !!! h = sumR (map (Rmax 0) (column (r_plus t') A H h))) /\
  (forall m a h, (a < A)%nat -> (h < H)%nat ->
     r_plus (driveConstantRegret
               (newTrainable A H (alpha t) (beta t) (gamma t) (theta t)) m)
       !!! (a * H + h)%nat
     = sumR (map (fun k => prodR (map (dcfr_coef (alpha t)) (seq k (S m - k))))
               (seq 1 m))).
Proof.
  intros A H t' coef L1 L2 L3 _.
  destruct (updateRegrets_cells t regrets iteration_number L1 L2 L3)
    as (_ & _ & Hrp & Hsum & _).
  fold A H t' coef in Hrp, Hsum.
  split; [|split].
  - intros a h Ha Hh s. rewrite Hrp by assumption. unfold discounted.
    rewrite (Rplus_comm (regrets !!! _)). reflexivity.
  - exact Hsum.
  - intros m a h Ha Hh.
    apply (driveConstantRegret_cells A H (alpha t) (beta t) (gamma t) (theta t) m);
      assumption.
Qed.

Lemma updateRegrets_discounts_regrets_witness :
  let t := newTrainable 1 1 1.5 0 2 1 in
  r_plus (updateRegrets t [1] 1) !!! 0%nat =
    if Rgt_dec (r_plus t !!! 0%nat + [1] !!! 0%nat) 0
    then (r_plus t !!! 0%nat + [1] !!! 0%nat) * (pow 1 1.5 / (1 + pow 1 1.5))
    else (r_plus t !!! 0%nat + [1] !!! 0%nat) * 0.
Proof.
  intros t.
  exact (proj1 (updateRegrets_discounts_regrets t [1] 1
                  eq_refl eq_refl eq_refl eq_refl) 0%nat 0%nat
           (Nat.lt_0_succ 0) (Nat.lt_0_succ 0)).
Defined.

(** The claim as the specification words it fails twice: the coefficient is
    not [alpha^(t+1) / (1 + alpha^(t+1))] (here alpha = 1.5 and t + 1 = 2),
    and after two iterations of constant regret the entry is not
    [sum_{k=1..2} k^1.5 / (1 + k^1.5)]. *)
Lemma updateRegrets_discounts_regrets_counterexample :
  let t := newTrainable 1 1 1.5 0 2 1 in
  r_plus (updateRegrets t [1] 2) !!! 0%nat
    <> (r_plus t !!! 0%nat + [1] !!! 0%nat) * (pow 1.5 2 / (1 + pow 1.5 2)) /\
  r_plus (driveConstantRegret t 2) !!! 0%nat
    <> sumR (map (dcfr_coef 1.5) (seq 1 2)).
Proof.
  intros t. split.
  - destruct (updateRegrets_cells t [1] 2 eq_refl eq_refl eq_refl)
      as (_ & _ & Hrp & _).
    specialize (Hrp 0%nat 0%nat (Nat.lt_0_succ 0) (Nat.lt_0_succ 0)).
    cbn [Nat.mul Nat.add] in Hrp. rewrite Hrp. clear Hrp.
    change (r_plus t !!! 0%nat) with 0. change ([1] !!! 0%nat) with 1.
    change (alpha t) with 1.5. change (beta t) with 0.
    unfold discounted. destruct (Rgt_dec (1 + 0) 0) as [_|N]; [|lra].
    set (p := pow 2 1.5). rewrite pow_2 by lra.
    assert (Hp : 0 < p) by apply pow_pos.
    assert (Hpp : p * p = 8).
    { unfold p, pow. rewrite <- Rpower_plus.
      replace (1.5 + 1.5) with (INR 3) by (simpl; lra).
      rewrite Rpower_pow by lra. simpl. lra. }
    intros E.
    assert (E' : p / (1 + p) = 2.25 / 3.25) by lra.
    apply (f_equal (fun x => x * (1 + p) * 3.25)) in E'.
    unfold Rdiv in E'. field_simplify in E'; [|lra..]. nra.
  - pose proof (driveConstantRegret_cells 1 1 1.5 0 2 1 2) as Hd.
    cbv zeta in Hd. destruct Hd as (_ & _ & Hcell).
    specialize (Hcell 0%nat 0%nat (Nat.lt_0_succ 0) (Nat.lt_0_succ 0)).
    cbn [Nat.mul Nat.add] in Hcell. fold t in Hcell. rewrite Hcell.
    rewrite !dcfr_closed_S.
    replace (dcfr_closed 1.5 0) with 0 by reflexivity.
    cbn [seq map]. rewrite !sumR_cons. replace (sumR []) with 0 by reflexivity.
    pose proof (dcfr_coef_bounds 1.5 1). pose proof (dcfr_coef_bounds 1.5 2).
    nra.
Qed.

(** ** The accumulated strategy *)

(** C5 (amended). After the regret update of [updateRegrets(regrets, n)],
    each [cum_r_plus[a,h]] becomes [cum_r_plus[a,h] * theta + sigma(a|h) *
    strategy_coef], where [sigma] is the current strategy derived from the
    updated [r_plus] and [r_plus_sum], and [strategy_coef = (n / (n + 1))^gamma]
    for the iteration number [n] the call passes. *)
Theorem updateRegrets_accumulates_strategy (t : DiscountedCfrTrainable)
    (regrets : list R) (iteration_number : Z) :
  let A := action_number t in
  let H := card_number t in
  let t' := updateRegrets t regrets iteration_number in
  let sigma := getcurrentStrategy t' in
  let strategy_coef :=
    pow (IZR iteration_number / IZR (iteration_number + 1)) (gamma t) in
  length (r_plus t) = (A * H)%nat ->
  length (r_plus_sum t) = H ->
  length (cum_r_plus t) = (A * H)%nat ->
  length regrets = (A * H)%nat ->
  forall a h, (a < A)%nat -> (h < H)%nat ->
    cum_r_plus t' !!! (a * H + h)%nat =
      cum_r_plus t !!! (a * H + h)%nat * theta t
      + sigma !!! (a * H + h)%nat * strategy_coef /\
    sigma !!! (a * H + h)%nat =
      if Req_dec_T (r_plus_sum t' !!! h) 0
      then 1 / INR A
      else Rmax 0 (r_plus t' !!! (a * H + h)%nat) / r_plus_sum t' !!! h.
Proof.
  intros A H t' sigma strategy_coef L1 L2 L3 _ a h Ha Hh.
  destruct (updateRegrets_cells t regrets iteration_number L1 L2 L3)
    as ((EA & EH & _) & (_ & L2' & _) & _ & _ & Hcum).
  fold A H t' in EA, EH, L2', Hcum. split.
  - apply Hcum; assumption.
  - destruct (getcurrentStrategyNoCache_lookup t') as [_ Hcs];
      [rewrite EH; exact L2'|].
    rewrite EA, EH in Hcs. apply Hcs; assumption.
Qed.

Lemma updateRegrets_accumulates_strategy_witness :
  let t := newTrainable 1 1 1.5 0 2 1 in
  let t' := updateRegrets t [1] 1 in
  cum_r_plus t' !!! 0%nat =
    cum_r_plus t !!! 0%nat * 1 + getcurrentStrategy t' !!! 0%nat * pow (1 / 2) 2.
Proof.
  intros t t'.
  exact (proj1 (updateRegrets_accumulates_strategy t [1] 1
                  eq_refl eq_refl eq_refl eq_refl 0%nat 0%nat
                  (Nat.lt_0_succ 0) (Nat.lt_0_succ 0))).
Defined.

(** With the call [updateRegrets(regrets, t + 1)] at [t = 1], the specification's
    [strategy_coef = (t / (t + 1))^gamma = (1/2)^2] is not the weight the code
    uses, which is [(2/3)^2]. *)
Lemma updateRegrets_accumulates_strategy_counterexample :
  let t := newTrainable 1 1 1.5 0 2 1 in
  let t' := updateRegrets t [1] (1 + 1) in
  cum_r_plus t' !!! 0%nat <>
    cum_r_plus t !!! 0%nat * theta t
    + getcurrentStrategy t' !!! 0%nat * pow (IZR 1 / IZR (1 + 1)) (gamma t).
Proof.
  intros t t'.
  destruct (updateRegrets_cells t [1] (1 + 1) eq_refl eq_refl eq_refl)
    as ((EA & EH & _) & (_ & L2' & _) & Hrp & Hsum & Hcum).
  fold t' in EA, EH, L2', Hrp, Hsum, Hcum.
  specialize (Hcum 0%nat 0%nat (Nat.lt_0_succ 0) (Nat.lt_0_succ 0)).
  specialize (Hrp 0%nat 0%nat (Nat.lt_0_succ 0) (Nat.lt_0_succ 0)).
  specialize (Hsum 0%nat (Nat.lt_0_succ 0)).
  destruct (getcurrentStrategyNoCache_lookup t') as [_ Hcs];
    [rewrite EH; exact L2'|].
  rewrite EA, EH in Hcs.
  specialize (Hcs 0%nat 0%nat (Nat.lt_0_succ 0) (Nat.lt_0_succ 0)).
  change (action_number t) with 1%nat in *. change (card_number t) with 1%nat in *.
  cbn [Nat.mul Nat.add] in *.
  unfold getcurrentStrategy. rewrite Hcum.
  change (cum_r_plus t !!! 0%nat) with 0. change (theta t) with 1.
  change (gamma t) with 2.
  assert (Hsigma : getcurrentStrategyNoCache t' !!! 0%nat = 1).
  { rewrite Hcs. destruct (Req_dec_T (r_plus_sum t' !!! 0%nat) 0) as [_|N].
    - simpl. lra.
    - revert N. rewrite Hsum. unfold column. cbn [seq map Nat.mul Nat.add].
      rewrite sumR_cons. replace (sumR []) with 0 by reflexivity.
      intros N. field. lra. }
  rewrite Hsigma.
  change (IZR (1 + 1 + 1)) with 3. change (IZR (1 + 1)) with 2.
  rewrite !pow_2 by lra. lra.
Qed.

(** The hypothesis of the average-strategy property holds along the
    updates: with [theta >= 0], nonnegative [cum_r_plus] entries stay
    nonnegative. *)
Lemma updateRegrets_cum_nonneg (t : DiscountedCfrTrainable) (regrets : list R)
    (iteration_number : Z) :
  let A := action_number t in
  let H := card_number t in
  let t' := updateRegrets t regrets iteration_number in
  length (r_plus t) = (A * H)%nat ->
  length (r_plus_sum t) = H ->
  length (cum_r_plus t) = (A * H)%nat ->
  0 <= theta t ->
  (forall a h, (a < A)%nat -> (h < H)%nat -> 0 <= cum_r_plus t !!! (a * H + h)%nat) ->
  forall a h, (a < A)%nat -> (h < H)%nat -> 0 <= cum_r_plus t' !!! (a * H + h)%nat.
Proof.
  intros A H t' L1 L2 L3 Hth Hcum a h Ha Hh.
  destruct (updateRegrets_cells t regrets iteration_number L1 L2 L3)
    as ((EA & EH & _) & (_ & L2' & _) & _ & Hsum & Hcell).
  fold A H t' in EA, EH, L2', Hsum, Hcell.
  rewrite Hcell by assumption.
  destruct (getcurrentStrategyNoCache_lookup t') as [_ Hcs]; [rewrite EH; exact L2'|].
  rewrite EA, EH in Hcs. rewrite Hcs by assumption.
  assert (Hs : 0 <= r_plus_sum t' !!! h).
  { rewrite Hsum by exact Hh. apply sumR_nonneg, Forall_forall. intros x Hx.
    apply list_elem_of_In, in_map_iff in Hx. destruct Hx as (y & <- & _).
    apply Rmax_l. }
  assert (Hsig : 0 <= (if Req_dec_T (r_plus_sum t' !!! h) 0
                       then 1 / INR A
                       else max0 (r_plus t' !!! (a * H + h)%nat) / r_plus_sum t' !!! h)).
  { destruct (Req_dec_T (r_plus_sum t' !!! h) 0) as [_|N].
    - assert (0 < INR A) by (apply lt_0_INR; lia).
      apply Rlt_le, Rdiv_lt_0_compat; lra.
    - pose proof (Rmax_l 0 (r_plus t' !!! (a * H + h)%nat)).
      unfold Rdiv, max0. apply Rmult_le_pos; [assumption|].
      apply Rlt_le, Rinv_0_lt_compat. lra. }
  pose proof (pow_pos (IZR iteration_number / IZR (iteration_number + 1)) (gamma t)).
  pose proof (Hcum a h Ha Hh). nra.
Qed.

(** ** The fold payoff *)

Lemma add_card_reach_length (sums : list R) (h : PrivateCards) (x : R) :
  length (add_card_reach sums h x) = length sums.
Proof. unfold add_card_reach. rewrite !length_insert. reflexivity. Qed.

Lemma add_card_reach_lookup (sums : list R) (h : PrivateCards) (x : R) (c : nat) :
  (card1 h < length sums)%nat -> (card2 h < length sums)%nat ->
  add_card_reach sums h x !!! c =
    sums !!! c + (if (card1 h =? c)%nat then x else 0)
               + (if (card2 h =? c)%nat then x else 0).
Proof.
  intros H1 H2. unfold add_card_reach.
  destruct (Nat.eqb_spec (card2 h) c) as [E2|N2].
  - subst c. rewrite list_lookup_total_insert_eq by (rewrite length_insert; exact H2).
    destruct (Nat.eqb_spec (card1 h) (card2 h)) as [E1|N1].
    + rewrite E1. rewrite list_lookup_total_insert_eq by exact H2. lra.
    + rewrite list_lookup_total_insert_ne by exact N1. lra.
  - rewrite list_lookup_total_insert_ne by exact N2.
    destruct (Nat.eqb_spec (card1 h) c) as [E1|N1].
    + subst c. rewrite list_lookup_total_insert_eq by exact H1. lra.
    + rewrite list_lookup_total_insert_ne by exact N1. lra.
Qed.

Lemma holds_card_split (h : PrivateCards) (c : nat) (x : R) :
  card1 h <> card2 h ->
  (if (card1 h =? c)%nat then x else 0) + (if (card2 h =? c)%nat then x else 0)
  = if holds_card h c then x else 0.
Proof.
  intros Hd. unfold holds_card.
  destruct (Nat.eqb_spec (card1 h) c), (Nat.eqb_spec (card2 h) c); simpl;
    try lra. congruence.
Qed.

Lemma sumR_lookups (l : list R) :
  sumR (map (fun i => l !!! i) (seq 0 (length l))) = sumR l.
Proof.
  f_equal. apply list_eq. intros i.
  rewrite list_lookup_fmap.
  destruct (Nat.lt_ge_cases i (length l)) as [Hi|Hi].
  - rewrite lookup_seq_lt by exact Hi. simpl.
    rewrite list_lookup_total_alt.
    destruct (l !! i) eqn:E; [reflexivity|].
    apply lookup_ge_None in E. lia.
  - rewrite lookup_seq_ge by exact Hi. simpl. symmetry.
    apply lookup_ge_None. exact Hi.
Qed.

(** The first loop of [terminalUtility] (and of the EV recording): the
    total reach and the reach per card. *)
Lemma card_sum_loop (hands : list PrivateCards) (reach : list R) :
  Forall hand_ok hands ->
  let st := for_range (length hands) (fun i '(oppo_sum, oppo_card_sum) =>
                (oppo_sum + reach !!! i,
                 add_card_reach oppo_card_sum (hands !!! i) (reach !!! i)))
              (0, replicate 52 0) in
  fst st = sumR (map (fun i => reach !!! i) (seq 0 (length hands))) /\
  length (snd st) = 52%nat /\
  forall c, (c < 52)%nat -> snd st !!! c = reach_holding hands reach c.
Proof.
  intros Hok st.
  pose (P := fun (k : nat) (s : R * list R) =>
      fst s = sumR (map (fun i => reach !!! i) (seq 0 k)) /\
      length (snd s) = 52%nat /\
      forall c, (c < 52)%nat ->
        snd s !!! c =
          sumR (map (fun i => if holds_card (hands !!! i) c then reach !!! i else 0)
                  (seq 0 k))).
  assert (Inv : P (length hands) st).
  { apply (for_range_ind P).
    - unfold P. cbn [fst snd seq map]. split; [reflexivity|].
      split; [apply length_replicate|].
      intros c Hc. rewrite lookup_total_replicate_2 by exact Hc. reflexivity.
    - intros k [s cs] Hk (Hs & Hl & Hcs). unfold P in *. cbn [fst snd] in *.
      assert (Hh : hand_ok (hands !!! k)).
      { rewrite Forall_forall in Hok. apply Hok. apply list_elem_of_lookup_total_2.
        exact Hk. }
      destruct Hh as (H1 & H2 & Hd).
      split; [|split].
      + rewrite seq_S, map_app. cbn [map Nat.add]. rewrite sumR_snoc, Hs. reflexivity.
      + rewrite add_card_reach_length. exact Hl.
      + intros c Hc.
        rewrite add_card_reach_lookup by lia.
        rewrite Hcs by exact Hc.
        rewrite seq_S, map_app. cbn [map Nat.add]. rewrite sumR_snoc.
        rewrite <- holds_card_split by exact Hd. lra. }
  exact Inv.
Qed.

Lemma map_lookups {A B : Type} `{Inhabited A} (g : A -> B) (l : list A) :
  map (fun i => g (l !!! i)) (seq 0 (length l)) = map g l.
Proof.
  apply list_eq. intros i. rewrite !list_lookup_fmap.
  destruct (Nat.lt_ge_cases i (length l)) as [Hi|Hi].
  - rewrite lookup_seq_lt by exact Hi. simpl.
    rewrite list_lookup_total_alt.
    destruct (l !! i) eqn:E; [reflexivity|].
    apply lookup_ge_None in E. lia.
  - rewrite lookup_seq_ge by exact Hi.
    rewrite (proj2 (lookup_ge_None l i)) by exact Hi. reflexivity.
Qed.

Lemma sumR_replicate (n : nat) (r : R) : sumR (replicate n r) = INR n * r.
Proof.
  induction n as [|n IH].
  - unfold sumR. simpl. lra.
  - cbn [replicate]. rewrite sumR_cons, IH, S_INR. lra.
Qed.

Lemma sumR_indicator {A : Type} (f : A -> bool) (r : R) (l : list A) :
  sumR (map (fun o => if f o then r else 0) l) = r * INR (length (List.filter f l)).
Proof.
  induction l as [|x l IH].
  - unfold sumR. simpl. lra.
  - cbn [map List.filter]. rewrite sumR_cons, IH.
    destruct (f x); [cbn [length]; rewrite S_INR|]; lra.
Qed.

Lemma reach_holding_uniform (range : list PrivateCards) (r : R) (c : nat) :
  reach_holding range (replicate (length range) r) c =
    r * INR (length (List.filter (fun o => holds_card o c) range)).
Proof.
  unfold reach_holding. rewrite <- sumR_indicator.
  rewrite <- (map_lookups (fun o => if holds_card o c then r else 0) range).
  f_equal. apply map_ext_in. intros i Hi. apply in_seq in Hi.
  rewrite lookup_total_replicate_2 by lia. reflexivity.
Qed.

Lemma same_hand_sym (a b : PrivateCards) : same_hand a b = same_hand b a.
Proof.
  unfold same_hand.
  destruct (Nat.eqb_spec (card1 a) (card1 b)), (Nat.eqb_spec (card2 a) (card2 b)),
    (Nat.eqb_spec (card1 a) (card2 b)), (Nat.eqb_spec (card2 a) (card1 b)),
    (Nat.eqb_spec (card1 b) (card1 a)), (Nat.eqb_spec (card2 b) (card2 a)),
    (Nat.eqb_spec (card1 b) (card2 a)), (Nat.eqb_spec (card2 b) (card1 a));
    simpl; congruence.
Qed.

Lemma same_hand_trans (a b c : PrivateCards) :
  same_hand a b = true -> same_hand b c = true -> same_hand a c = true.
Proof.
  unfold same_hand. intros Hab Hbc.
  apply orb_true_iff in Hab. apply orb_true_iff in Hbc. apply orb_true_iff.
  rewrite !andb_true_iff, !Nat.eqb_eq in *.
  destruct Hab as [[? ?]|[? ?]], Hbc as [[? ?]|[? ?]]; [left|right|right|left];
    split; congruence.
Qed.

(** A hand shares a card with [h] when it holds the first or the second card
    of [h]; it holds both only when it is [h]. *)
Lemma shares_card_count (o h : PrivateCards) :
  hand_ok o -> hand_ok h ->
  (if shares_card o h then 1 else 0) =
    (if holds_card o (card1 h) then 1 else 0)
    + (if holds_card o (card2 h) then 1 else 0)
    - (if same_hand h o then 1 else 0).
Proof.
  intros (_ & _ & Ho) (_ & _ & Hh). unfold shares_card, holds_card, same_hand.
  destruct (Nat.eqb_spec (card1 o) (card1 h)), (Nat.eqb_spec (card2 o) (card1 h)),
    (Nat.eqb_spec (card1 o) (card2 h)), (Nat.eqb_spec (card2 o) (card2 h)),
    (Nat.eqb_spec (card1 h) (card1 o)), (Nat.eqb_spec (card2 h) (card2 o)),
    (Nat.eqb_spec (card1 h) (card2 o)), (Nat.eqb_spec (card2 h) (card1 o));
    simpl; try lra; congruence.
Qed.

Lemma sumR_map_plus {A : Type} (f g : A -> R) (l : list A) :
  sumR (map (fun a => f a + g a) l) = sumR (map f l) + sumR (map g l).
Proof.
  induction l as [|x l IH]; simpl.
  - unfold sumR. simpl. lra.
  - rewrite !sumR_cons, IH. lra.
Qed.

Lemma sumR_map_minus {A : Type} (f g : A -> R) (l : list A) :
  sumR (map (fun a => f a - g a) l) = sumR (map f l) - sumR (map g l).
Proof.
  induction l as [|x l IH]; simpl.
  - unfold sumR. simpl. lra.
  - rewrite !sumR_cons, IH. lra.
Qed.

Lemma shares_card_total (range : list PrivateCards) (h : PrivateCards) :
  Forall hand_ok range -> hand_ok h ->
  INR (length (List.filter (fun o => shares_card o h) range)) =
    INR (length (List.filter (fun o => holds_card o (card1 h)) range))
    + INR (length (List.filter (fun o => holds_card o (card2 h)) range))
    - INR (length (List.filter (fun o => same_hand h o) range)).
Proof.
  intros Hr Hh.
  pose proof (sumR_indicator (fun o => shares_card o h) 1 range) as E0.
  pose proof (sumR_indicator (fun o => holds_card o (card1 h)) 1 range) as E1.
  pose proof (sumR_indicator (fun o => holds_card o (card2 h)) 1 range) as E2.
  pose proof (sumR_indicator (fun o => same_hand h o) 1 range) as E3.
  rewrite (map_ext_in _ (fun o =>
             (if holds_card o (card1 h) then 1 else 0)
             + (if holds_card o (card2 h) then 1 else 0)
             - (if same_hand h o then 1 else 0))) in E0.
  - rewrite sumR_map_minus, sumR_map_plus in E0. lra.
  - intros o Ho. apply shares_card_count; [|exact Hh].
    rewrite Forall_forall in Hr. apply Hr. apply list_elem_of_In. exact Ho.
Qed.

Lemma filter_none {A : Type} (f : A -> bool) (l : list A) :
  (forall o, In o l -> f o = false) -> List.filter f l = [].
Proof.
  induction l as [|x l IH]; intros Hf; [reflexivity|].
  cbn [List.filter]. rewrite (Hf x) by (left; reflexivity).
  apply IH. intros o Ho. apply Hf. right. exact Ho.
Qed.

(** [find_hand] finds the one hand of a duplicate-free range that is [h]. *)
Lemma find_hand_spec (h : PrivateCards) (range : list PrivateCards) (i : nat) :
  ForallOrdPairs (fun a b => same_hand a b = false) range ->
  (find_hand h range i = (-1)%Z /\
   length (List.filter (fun o => same_hand h o) range) = 0%nat) \/
  (exists k, (k < length range)%nat /\ find_hand h range i = Z.of_nat (i + k) /\
     same_hand h (range !!! k) = true /\
     length (List.filter (fun o => same_hand h o) range) = 1%nat).
Proof.
  intros Hu. revert i. induction Hu as [|x l Hx Hl IH]; intros i.
  - left. split; reflexivity.
  - cbn [find_hand List.filter]. destruct (same_hand h x) eqn:E.
    + right. exists 0%nat. cbn [length]. split; [lia|].
      split; [f_equal; lia|]. split; [exact E|].
      f_equal. rewrite filter_none; [reflexivity|].
      intros o Ho. destruct (same_hand h o) eqn:E'; [|reflexivity].
      rewrite List.Forall_forall in Hx. specialize (Hx o Ho).
      rewrite same_hand_sym in E. rewrite (same_hand_trans x h o E E') in Hx.
      discriminate.
    + destruct (IH (S i)) as [[E1 E2]|(k & Hk & E1 & E2 & E3)].
      * left. split; assumption.
      * right. exists (S k). cbn [length]. split; [lia|].
        split; [rewrite E1; f_equal; lia|]. split; assumption.
Qed.

Lemma playerHands_ranges (this : PCfrSolver) (player : nat) :
  (player < 2)%nat -> playerHands this player = Ok (ranges this player).
Proof. intros Hp. destruct player as [|[|p]]; [reflexivity|reflexivity|lia]. Qed.

(** The fold node in exact arithmetic: every hand [h] that does not overlap
    the board gets the payoff [P] times the opponent's total reach, minus
    the reach of the opponent hands holding [h]'s first card, minus that of
    those holding its second card, plus the reach of the identical hand in
    the opponent's range (0 when absent); with a uniform reach [r] this is
    [P * r * (|range[oppo]| - number of opponent hands sharing a card
    with h)]. *)
Lemma terminalUtility_exact_formula (this : PCfrSolver) (player : nat)
    (node_payoffs reach_prob : list R) (current_board : Z) :
  let oppo := (1 - player)%nat in
  let P := node_payoffs !!! player in
  (player < 2)%nat ->
  range_ok (ranges this player) ->
  range_ok (ranges this oppo) ->
  length reach_prob = length (ranges this oppo) ->
  exists res,
    terminalUtility this player node_payoffs reach_prob current_board = Ok res /\
    length (payoffs res) = length (ranges this player) /\
    forall i, (i < length (ranges this player))%nat ->
      let h := ranges this player !!! i in
      boardsHasIntercept current_board (toBoardLong h) = false ->
      payoffs res !!! i =
        P * (sumR reach_prob
             - reach_holding (ranges this oppo) reach_prob (card1 h)
             - reach_holding (ranges this oppo) reach_prob (card2 h)
             + same_hand_reach this player i reach_prob) /\
      forall r, reach_prob = replicate (length (ranges this oppo)) r ->
        payoffs res !!! i =
          P * r * (INR (length (ranges this oppo))
                   - INR (length (List.filter (fun o => shares_card o h)
                                    (ranges this oppo)))).
Proof.
  intros oppo P Hp [Hokp _] [Hoko Huo] Hlen.
  unfold terminalUtility. fold oppo P.
  rewrite (playerHands_ranges this player Hp).
  rewrite (playerHands_ranges this oppo) by (unfold oppo; lia).
  pose proof (card_sum_loop (ranges this oppo) reach_prob Hoko) as Hsum.
  cbv zeta in Hsum.
  destruct (for_range (length (ranges this oppo)) _ (0, replicate 52 0))
    as [oppo_sum oppo_card_sum].
  cbn [fst snd] in Hsum. destruct Hsum as (Hs & Hl & Hcs).
  rewrite <- Hlen, sumR_lookups in Hs.
  set (n := length (ranges this player)).
  set (V := fun i =>
      P * (minus_blockers oppo_sum oppo_card_sum (ranges this player !!! i)
           + (if (indPlayer2Player this player oppo i =? -1)%Z then 0
              else reach_prob !!! Z.to_nat (indPlayer2Player this player oppo i)))).
  set (body := fun (i : nat) (st : list R * list R) => _).
  pose (Inv := fun (k : nat) (st : list R * list R) =>
      length (fst st) = n /\
      forall i, (i < k)%nat ->
        boardsHasIntercept current_board (toBoardLong (ranges this player !!! i)) = false ->
        fst st !!! i = V i).
  assert (HI : Inv n (for_range n body
                        (replicate n 0,
                         if enable_equity this then replicate n 0 else []))).
  { apply (for_range_ind Inv).
    - split; [apply length_replicate|]. intros i Hi. lia.
    - intros k [pay eq] Hk [Hlp Hv]. unfold Inv, body in *. cbn [fst] in *.
      change (boardInts2long (get_hands (ranges this player !!! k)))
        with (toBoardLong (ranges this player !!! k)).
      destruct (boardsHasIntercept current_board
                  (toBoardLong (ranges this player !!! k))) eqn:Eb.
      + cbn [fst]. split; [exact Hlp|]. intros i Hi Hni.
        destruct (Nat.eq_dec i k) as [->|Hne]; [congruence|].
        apply Hv; [lia|exact Hni].
      + cbn [fst]. split; [rewrite length_insert; exact Hlp|]. intros i Hi Hni.
        destruct (Nat.eq_dec i k) as [->|Hne].
        * rewrite list_lookup_total_insert_eq by lia. reflexivity.
        * rewrite list_lookup_total_insert_ne by congruence. apply Hv; [lia|exact Hni]. }
  destruct (for_range n body _) as [pay eq]. destruct HI as [Hlp Hv].
  cbn [fst] in Hlp, Hv.
  exists (mkCfrResult pay eq). split; [reflexivity|]. cbn [payoffs].
  split; [exact Hlp|]. intros i Hi Hni.
  set (h := ranges this player !!! i) in *.
  assert (Hh : hand_ok h).
  { rewrite Forall_forall in Hokp. apply Hokp, list_elem_of_lookup_total_2. exact Hi. }
  assert (Hcell : pay !!! i =
      P * (sumR reach_prob
           - reach_holding (ranges this oppo) reach_prob (card1 h)
           - reach_holding (ranges this oppo) reach_prob (card2 h)
           + same_hand_reach this player i reach_prob)).
  { rewrite Hv by assumption. unfold V, minus_blockers, same_hand_reach. fold oppo h.
    destruct Hh as (H1 & H2 & _). rewrite !Hcs by assumption. rewrite Hs. reflexivity. }
  split; [exact Hcell|]. intros r Hr. rewrite Hcell.
  rewrite Hr at 1 2 3. rewrite sumR_replicate, !reach_holding_uniform.
  rewrite (shares_card_total (ranges this oppo) h Hoko Hh).
  unfold same_hand_reach, indPlayer2Player. fold oppo h.
  destruct (find_hand_spec h (ranges this oppo) 0 Huo)
    as [[E1 E2]|(k & Hk & E1 & _ & E2)]; rewrite E1, E2.
  - rewrite Z.eqb_refl. change (INR 0) with 0. lra.
  - destruct (Z.eqb_spec (Z.of_nat (0 + k)) (-1)) as [E|_]; [lia|].
    rewrite Nat2Z.id, Hr. rewrite lookup_total_replicate_2 by lia.
    change (INR 1) with 1. lra.
Qed.

Lemma example_ranges_ok :
  range_ok example_range1 /\ range_ok example_range2.
Proof.
  split; (split;
    [repeat constructor; cbn; lia
    |repeat (constructor; [repeat constructor|]); constructor]).
Qed.

(** ** The showdown payoff *)

Lemma lookups_id {A : Type} `{Inhabited A} (l : list A) :
  map (fun i => l !!! i) (seq 0 (length l)) = l.
Proof. rewrite (map_lookups (fun x => x) l). apply map_id. Qed.

Lemma fold_left_mapped {A B S : Type} (F : B -> S -> S) (g : A -> B)
    (idx : list A) (s : S) :
  fold_left (fun acc i => F (g i) acc) idx s
  = fold_left (fun acc x => F x acc) (map g idx) s.
Proof.
  revert s. induction idx as [|i idx IH]; intros s; [reflexivity|]. cbn. apply IH.
Qed.

Lemma for_range_lookups {A S : Type} `{Inhabited A} (F : A -> S -> S)
    (l : list A) (s : S) :
  for_range (length l) (fun i acc => F (l !!! i) acc) s
  = fold_left (fun acc x => F x acc) l s.
Proof.
  unfold for_range.
  rewrite (fold_left_mapped F (fun i => l !!! i)), lookups_id. reflexivity.
Qed.

Lemma for_range_down_lookups {A S : Type} `{Inhabited A} (F : A -> S -> S)
    (l : list A) (s : S) :
  for_range_down (length l) (fun i acc => F (l !!! i) acc) s
  = fold_left (fun acc x => F x acc) (rev l) s.
Proof.
  unfold for_range_down.
  rewrite (fold_left_mapped F (fun i => l !!! i)), map_rev, lookups_id. reflexivity.
Qed.

Lemma combs_total_snoc (reach : list R) (l : list RiverCombs) (o : RiverCombs) :
  combs_total reach (l ++ [o]) = combs_total reach l + reach !!! reach_prob_index o.
Proof. unfold combs_total. rewrite map_app. cbn [map]. apply sumR_snoc. Qed.

Lemma combs_holding_snoc (reach : list R) (l : list RiverCombs) (o : RiverCombs)
    (c : nat) :
  combs_holding reach (l ++ [o]) c =
    combs_holding reach l c
    + if holds_card (private_cards o) c then reach !!! reach_prob_index o else 0.
Proof. unfold combs_holding. rewrite map_app. cbn [map]. apply sumR_snoc. Qed.

Lemma filter_all {A : Type} (f : A -> bool) (l : list A) :
  Forall (fun x => f x = true) l -> List.filter f l = l.
Proof.
  induction 1 as [|x l Hx _ IH]; [reflexivity|].
  cbn [List.filter]. rewrite Hx, IH. reflexivity.
Qed.

(** One run of the inner [while]: when the beaten entries form a prefix of
    the opponent's list and the entries consumed so far are among them, the
    scan stops exactly behind the beaten entries, with their reach summed. *)
Lemma scan_spec (beats : RiverCombs -> bool) (reach : list R)
    (O : list RiverCombs) :
  Forall (fun o => hand_ok (private_cards o)) O ->
  (forall i j, (i <= j)%nat -> (j < length O)%nat ->
     beats (O !!! j) = true -> beats (O !!! i) = true) ->
  forall (m k : nat) (s : R) (cs : list R),
    (length O - k = m)%nat -> (k <= length O)%nat ->
    Forall (fun o => beats o = true) (take k O) ->
    s = combs_total reach (take k O) ->
    length cs = 52%nat ->
    (forall c, (c < 52)%nat -> cs !!! c = combs_holding reach (take k O) c) ->
    exists k' s' cs',
      scan beats reach (drop k O) (k, s, cs) = (k', s', cs') /\
      (k <= k' <= length O)%nat /\
      take k' O = List.filter beats O /\
      s' = combs_total reach (take k' O) /\
      length cs' = 52%nat /\
      (forall c, (c < 52)%nat -> cs' !!! c = combs_holding reach (take k' O) c).
Proof.
  intros Hok Hpre m. induction m as [|m IH]; intros k s cs Hm Hk Hall Hs Hl Hcs.
  - assert (k = length O) as -> by lia.
    rewrite drop_ge by lia. exists (length O), s, cs.
    split; [reflexivity|]. split; [lia|].
    rewrite take_ge in * by lia.
    split; [symmetry; apply filter_all; exact Hall|].
    repeat split; assumption.
  - assert (Hlt : (k < length O)%nat) by lia.
    pose proof (list_lookup_lookup_total_lt O k Hlt) as Hlk.
    rewrite (drop_S O (O !!! k) k Hlk). cbn [scan].
    destruct (beats (O !!! k)) eqn:Eb.
    + assert (Hh : hand_ok (private_cards (O !!! k))).
      { rewrite Forall_forall in Hok. apply Hok, list_elem_of_lookup_total_2. exact Hlt. }
      destruct Hh as (H1 & H2 & Hd).
      destruct (IH (S k)
                  (s + reach !!! reach_prob_index (O !!! k))
                  (add_card_reach cs (private_cards (O !!! k))
                     (reach !!! reach_prob_index (O !!! k))))
        as (k' & s' & cs' & E & Hk' & Ht & Hs' & Hl' & Hcs').
      * lia.
      * lia.
      * rewrite (take_S_r O k (O !!! k) Hlk). apply Forall_app. split; [exact Hall|].
        constructor; [exact Eb|constructor].
      * rewrite (take_S_r O k (O !!! k) Hlk), combs_total_snoc, Hs. reflexivity.
      * rewrite add_card_reach_length. exact Hl.
      * intros c Hc. rewrite add_card_reach_lookup by lia.
        rewrite (take_S_r O k (O !!! k) Hlk), combs_holding_snoc, Hcs by exact Hc.
        rewrite <- holds_card_split by exact Hd. lra.
      * exists k', s', cs'. split; [exact E|]. split; [lia|].
        repeat split; assumption.
    + exists k, s, cs. split; [reflexivity|]. split; [lia|].
      split; [|repeat split; assumption].
      rewrite <- (take_drop k O) at 2. rewrite List.filter_app.
      rewrite (filter_all beats (take k O) Hall).
      rewrite (filter_none beats (drop k O)); [rewrite app_nil_r; reflexivity|].
      intros o Ho. apply list_elem_of_In, list_elem_of_lookup_total in Ho.
      destruct Ho as (i & Hi & <-).
      rewrite length_drop in Hi. rewrite lookup_total_drop.
      destruct (beats (O !!! (k + i)%nat)) eqn:E; [|reflexivity].
      rewrite (Hpre k (k + i)%nat) in Eb by (lia || exact E). discriminate.
Qed.

(** A pass over the player's entries [l], in the order it processes them:
    every entry ends with its payoff computed from the reach of exactly
    the opponent entries it beats. *)
Lemma pass_spec (beats : RiverCombs -> RiverCombs -> bool) (reach : list R)
    (O : list RiverCombs) (f : R -> R -> R) :
  Forall (fun o => hand_ok (private_cards o)) O ->
  forall (l : list RiverCombs) (k : nat) (s : R) (cs pay : list R),
    (forall p, In p l ->
       hand_ok (private_cards p) /\ (reach_prob_index p < length pay)%nat /\
       (forall i j, (i <= j)%nat -> (j < length O)%nat ->
          beats p (O !!! j) = true -> beats p (O !!! i) = true) /\
       Forall (fun o => beats p o = true) (take k O)) ->
    (forall i j, (i <= j)%nat -> (j < length l)%nat ->
       forall o, beats (l !!! i) o = true -> beats (l !!! j) o = true) ->
    NoDup (map reach_prob_index l) ->
    (k <= length O)%nat ->
    s = combs_total reach (take k O) ->
    length cs = 52%nat ->
    (forall c, (c < 52)%nat -> cs !!! c = combs_holding reach (take k O) c) ->
    exists sc' pay',
      fold_left (fun st p => pass_step beats reach O f p st) l ((k, s, cs), pay)
        = (sc', pay') /\
      length pay' = length pay /\
      (forall p, In p l ->
         pay' !!! reach_prob_index p =
           f (effective_reach reach (beats p) O (private_cards p))
             (pay !!! reach_prob_index p)) /\
      (forall i, ~ In i (map reach_prob_index l) -> pay' !!! i = pay !!! i).
Proof.
  intros HokO l. induction l as [|p l IH]; intros k s cs pay Hl Hmono Hnd Hk Hs Hlc Hcs.
  - exists (k, s, cs), pay. cbn [fold_left].
    split; [reflexivity|]. split; [reflexivity|].
    split; [intros p []|intros i _; reflexivity].
  - destruct (Hl p (or_introl eq_refl)) as (Hp & Hidx & Hpre & Hall).
    destruct (scan_spec (beats p) reach O HokO Hpre (length O - k) k s cs
                eq_refl Hk Hall Hs Hlc Hcs)
      as (k' & s' & cs' & E & Hk' & Ht & Hs' & Hlc' & Hcs').
    cbn [fold_left]. unfold pass_step at 2. cbn [fst]. rewrite E.
    set (eff := minus_blockers s' cs' (private_cards p)).
    assert (Heff : eff = effective_reach reach (beats p) O (private_cards p)).
    { unfold eff, minus_blockers, effective_reach. destruct Hp as (H1 & H2 & _).
      rewrite !Hcs' by assumption. rewrite Hs', Ht. reflexivity. }
    set (pay1 := <[reach_prob_index p := f eff (pay !!! reach_prob_index p)]> pay).
    apply NoDup_cons in Hnd. destruct Hnd as [Hnotin Hnd'].
    destruct (IH k' s' cs' pay1) as (sc' & pay' & E' & Hlen' & Hcell & Hother).
    + intros p' Hp'. destruct (Hl p' (or_intror Hp')) as (A1 & A2 & A3 & _).
      split; [exact A1|]. split; [unfold pay1; rewrite length_insert; exact A2|].
      split; [exact A3|].
      rewrite Ht. apply Forall_forall. intros o Ho.
      apply list_elem_of_In, filter_In in Ho. destruct Ho as [_ Ho].
      apply list_elem_of_In, list_elem_of_lookup_total in Hp'.
      destruct Hp' as (j & Hj & <-).
      apply (Hmono 0%nat (S j)); [lia|cbn [length]; lia|exact Ho].
    + intros i j Hij Hj o. apply (Hmono (S i) (S j)); [lia|cbn [length]; lia].
    + exact Hnd'.
    + lia.
    + exact Hs'.
    + exact Hlc'.
    + exact Hcs'.
    + exists sc', pay'. split; [exact E'|].
      split; [rewrite Hlen'; unfold pay1; apply length_insert|]. split.
      * intros q [<-|Hq].
        -- rewrite Hother by (intros X; apply Hnotin, list_elem_of_In; exact X).
           unfold pay1. rewrite list_lookup_total_insert_eq by exact Hidx.
           rewrite Heff. reflexivity.
        -- rewrite Hcell by exact Hq. f_equal.
           unfold pay1. apply list_lookup_total_insert_ne.
           intros Eq. apply Hnotin. rewrite Eq.
           apply list_elem_of_In, in_map. exact Hq.
      * intros i Hi. rewrite Hother by (intros X; apply Hi; right; exact X).
        unfold pay1. apply list_lookup_total_insert_ne.
        intros Eq. apply Hi. left. exact Eq.
Qed.

Lemma fold_left_project {A S T : Type} (proj : S -> T) (F : S -> A -> S)
    (G : T -> A -> T) (l : list A) (s : S) :
  (forall s a, proj (F s a) = G (proj s) a) ->
  proj (fold_left F l s) = fold_left G l (proj s).
Proof.
  intros HFG. revert s. induction l as [|a l IH]; intros s; [reflexivity|].
  cbn [fold_left]. rewrite IH, HFG. reflexivity.
Qed.

Lemma showdown_win_body_project (this : PCfrSolver) (player : nat)
    (reach : list R) (O : list RiverCombs) (W tot : R) (ctot : list R)
    (p : RiverCombs) (st : (nat * R * list R) * list R * (list R * list R)) :
  fst (showdown_win_body this player reach O W tot ctot p st)
  = pass_step worse_than reach O (fun eff _ => eff * W) p (fst st).
Proof.
  destruct st as [[sc pay] [ewa eta]]. unfold showdown_win_body, pass_step.
  cbn [fst snd]. change (fun o => (rank p <? rank o)%Z) with (worse_than p).
  destruct (scan (worse_than p) reach (drop (fst (fst sc)) O) sc) as [[j s] cs].
  destruct (enable_equity this); reflexivity.
Qed.

Lemma showdown_loss_body_project (this : PCfrSolver)
    (reach : list R) (O : list RiverCombs) (L : R) (ewa eta : list R)
    (p : RiverCombs) (st : (nat * R * list R) * list R * list R) :
  fst (showdown_loss_body this reach O L ewa eta p st)
  = pass_step better_than reach (rev O) (fun eff old => old + eff * L) p (fst st).
Proof.
  destruct st as [[sc pay] eq]. unfold showdown_loss_body, pass_step.
  cbn [fst snd]. change (fun o => (rank o <? rank p)%Z) with (better_than p).
  destruct (scan (better_than p) reach (drop (fst (fst sc)) (rev O)) sc) as [[j s] cs].
  destruct (enable_equity this); reflexivity.
Qed.

Lemma rev_lookup_total {A : Type} `{Inhabited A} (l : list A) (i : nat) :
  (i < length l)%nat -> rev l !!! i = l !!! (length l - S i)%nat.
Proof.
  intros Hi. rewrite !list_lookup_total_alt, <- !nth_lookup.
  apply rev_nth. exact Hi.
Qed.

Lemma sumR_rev (l : list R) : sumR (rev l) = sumR l.
Proof.
  induction l as [|x l IH]; [reflexivity|].
  cbn [rev]. rewrite sumR_snoc, sumR_cons, IH. lra.
Qed.

Lemma effective_reach_rev (reach : list R) (sel : RiverCombs -> bool)
    (O : list RiverCombs) (h : PrivateCards) :
  effective_reach reach sel (rev O) h = effective_reach reach sel O h.
Proof.
  unfold effective_reach, combs_total, combs_holding.
  rewrite filter_rev, !map_rev, !sumR_rev. reflexivity.
Qed.

Lemma ranks_descending_rev (l : list RiverCombs) :
  ranks_descending l ->
  forall i j, (i <= j)%nat -> (j < length l)%nat ->
    (rank (rev l !!! i) <= rank (rev l !!! j))%Z.
Proof.
  intros Hd i j Hij Hj. rewrite !rev_lookup_total by lia.
  apply Hd; lia.
Qed.

(** The payoff of every entry the cache lists for the traversing player. *)
Lemma showdownUtility_cells (this : PCfrSolver) (player : nat)
    (node : ShowdownNode) (reach_probs : list R) (current_board : Z) :
  let oppo := (1 - player)%nat in
  let W := get_payoffs node NOTTIE player player in
  let L := get_payoffs node NOTTIE oppo player in
  let player_combs := getRiverCombos this player current_board in
  let oppo_combs := getRiverCombos this oppo current_board in
  river_combos_ok (ranges this player) player_combs ->
  river_combos_ok (ranges this oppo) oppo_combs ->
  forall p, In p player_combs ->
    let h := private_cards p in
    payoffs (showdownUtility this player node reach_probs current_board)
      !!! reach_prob_index p
    = effective_reach reach_probs (worse_than p) oppo_combs h * W
      + effective_reach reach_probs (better_than p) oppo_combs h * L /\
    forall o, In o oppo_combs -> rank o = rank p ->
      worse_than p o = false /\ better_than p o = false.
Proof.
  intros oppo W L pc oc (Hdp & Hndp & Hfp) (Hdo & _ & Hfo) p Hp h.
  split; [|intros o _ E; unfold worse_than, better_than; rewrite E, Z.ltb_irrefl;
           split; reflexivity].
  assert (HokO : Forall (fun o => hand_ok (private_cards o)) oc).
  { eapply Forall_impl; [exact Hfo|]. intros o (_ & _ & X). exact X. }
  unfold showdownUtility. fold oppo W L pc oc.
  set (n := length (ranges this player)).
  destruct (if enable_equity this then for_range _ _ _ else (0, []))
    as [oppo_total oppo_card_total].
  rewrite (for_range_lookups
             (showdown_win_body this player reach_probs oc W oppo_total oppo_card_total)).
  set (init1 := ((0%nat, 0, replicate 52 0), replicate n 0,
                 (if enable_equity this then replicate n 0 else [],
                  if enable_equity this then replicate n 0 else []))).
  pose proof (fold_left_project fst
                (fun st q => showdown_win_body this player reach_probs oc W
                               oppo_total oppo_card_total q st)
                (fun st q => pass_step worse_than reach_probs oc
                               (fun eff _ => eff * W) q st)
                pc init1
                (fun s a => showdown_win_body_project this player reach_probs oc W
                              oppo_total oppo_card_total a s)) as Hproj1.
  destruct (pass_spec worse_than reach_probs oc (fun eff _ => eff * W) HokO
              pc 0%nat 0 (replicate 52 0) (replicate n 0))
    as (sc1 & pay1 & E1 & Hl1 & Hcell1 & _).
  { intros q Hq. rewrite Forall_forall in Hfp.
    destruct (Hfp q (proj2 (list_elem_of_In _ _) Hq)) as (A1 & _ & A3).
    split; [exact A3|]. split; [rewrite length_replicate; exact A1|].
    split; [|constructor].
    intros i j Hij Hj. unfold worse_than. rewrite !Z.ltb_lt.
    pose proof (Hdo i j Hij Hj). lia. }
  { intros i j Hij Hj o. unfold worse_than. rewrite !Z.ltb_lt.
    pose proof (Hdp i j Hij Hj). lia. }
  { exact Hndp. }
  { lia. }
  { reflexivity. }
  { apply length_replicate. }
  { intros c Hc. rewrite lookup_total_replicate_2 by exact Hc. reflexivity. }
  cbn [fst] in Hproj1. unfold init1 in Hproj1 at 2. cbn [fst] in Hproj1.
  rewrite E1 in Hproj1.
  destruct (fold_left _ pc init1) as [[sc1' pay1'] [ewa eta]].
  cbn [fst] in Hproj1. injection Hproj1 as -> ->.
  rewrite (for_range_down_lookups
             (showdown_loss_body this reach_probs oc L ewa eta)).
  set (init2 := ((0%nat, 0, replicate 52 0), pay1,
                 if enable_equity this then replicate n 0 else [])).
  pose proof (fold_left_project fst
                (fun st q => showdown_loss_body this reach_probs oc L ewa eta q st)
                (fun st q => pass_step better_than reach_probs (rev oc)
                               (fun eff old => old + eff * L) q st)
                (rev pc) init2
                (fun s a => showdown_loss_body_project this reach_probs oc L
                              ewa eta a s)) as Hproj2.
  destruct (pass_spec better_than reach_probs (rev oc) (fun eff old => old + eff * L)
              (Forall_rev HokO) (rev pc) 0%nat 0 (replicate 52 0) pay1)
    as (sc2 & pay2 & E2 & Hl2 & Hcell2 & _).
  { intros q Hq. apply in_rev in Hq. rewrite Forall_forall in Hfp.
    destruct (Hfp q (proj2 (list_elem_of_In _ _) Hq)) as (A1 & _ & A3).
    split; [exact A3|]. split; [rewrite Hl1, length_replicate; exact A1|].
    split; [|constructor].
    intros i j Hij Hj. unfold better_than. rewrite !Z.ltb_lt.
    rewrite length_rev in Hj.
    pose proof (ranks_descending_rev oc Hdo i j Hij Hj). lia. }
  { intros i j Hij Hj o. unfold better_than. rewrite !Z.ltb_lt.
    rewrite length_rev in Hj.
    pose proof (ranks_descending_rev pc Hdp i j Hij Hj). lia. }
  { rewrite map_rev. apply NoDup_ListNoDup, List.NoDup_rev, NoDup_ListNoDup.
    exact Hndp. }
  { lia. }
  { reflexivity. }
  { apply length_replicate. }
  { intros c Hc. rewrite lookup_total_replicate_2 by exact Hc. reflexivity. }
  cbn [fst] in Hproj2. unfold init2 in Hproj2 at 2. cbn [fst] in Hproj2.
  rewrite E2 in Hproj2.
  destruct (fold_left _ (rev pc) init2) as [[sc2' pay2'] eq2].
  cbn [fst] in Hproj2. injection Hproj2 as -> ->.
  cbn [payoffs].
  rewrite Hcell2 by (apply in_rev; rewrite rev_involutive; exact Hp).
  rewrite Hcell1 by exact Hp.
  rewrite effective_reach_rev. reflexivity.
Qed.

(** C2. With the river cache's lists sorted weakest first,
    [showdownUtility] gives every hand [h] of the traversing player that
    does not overlap the board
    [payoffs[h] = eff_win * W + eff_loss * L]: [eff_win] is the reach of the
    opponent entries ranked strictly worse than [h] minus the blocker sums of
    [h]'s two cards among them, [eff_loss] the same over the entries ranked
    strictly better; an entry of the same rank is in neither selection. *)
Theorem showdownUtility_payoffs (this : PCfrSolver) (player : nat)
    (node : ShowdownNode) (reach_probs : list R) (current_board : Z) :
  let oppo := (1 - player)%nat in
  let W := get_payoffs node NOTTIE player player in
  let L := get_payoffs node NOTTIE oppo player in
  let oppo_combs := getRiverCombos this oppo current_board in
  river_cache_ok this player current_board ->
  river_cache_ok this oppo current_board ->
  forall h, (h < length (ranges this player))%nat ->
    boardsHasIntercept current_board (toBoardLong (ranges this player !!! h)) = false ->
    exists p,
      In p (getRiverCombos this player current_board) /\
      reach_prob_index p = h /\
      private_cards p = ranges this player !!! h /\
      payoffs (showdownUtility this player node reach_probs current_board) !!! h
      = effective_reach reach_probs (worse_than p) oppo_combs (ranges this player !!! h) * W
        + effective_reach reach_probs (better_than p) oppo_combs (ranges this player !!! h) * L /\
      forall o, In o oppo_combs -> rank o = rank p ->
        worse_than p o = false /\ better_than p o = false.
Proof.
  intros oppo W L oc [Hp Hcp] [Ho _] h Hh Hboard.
  destruct (Hcp h Hh Hboard) as (p & Hin & Hidx).
  exists p. split; [exact Hin|]. split; [exact Hidx|].
  assert (Hcards : private_cards p = ranges this player !!! h).
  { destruct Hp as (_ & _ & Hf). rewrite Forall_forall in Hf.
    destruct (Hf p (proj2 (list_elem_of_In _ _) Hin)) as (_ & E & _).
    rewrite E, Hidx. reflexivity. }
  split; [exact Hcards|].
  destruct (showdownUtility_cells this player node reach_probs current_board
              Hp Ho p Hin) as [Hpay Hties].
  rewrite Hidx, Hcards in Hpay. split; [exact Hpay|exact Hties].
Qed.

Lemma example_river_cache_ok (player : nat) :
  river_cache_ok example_river_solver player 0.
Proof.
  destruct player as [|player]; (split; [split; [|split]|]).
  - intros i j Hij Hj. cbn in Hj. destruct i as [|[|i]], j as [|[|j]]; cbn; lia.
  - apply NoDup_ListNoDup. cbn.
    constructor; [cbn; intros [E|[]]; discriminate|].
    constructor; [intros []|constructor].
  - repeat constructor; cbn; lia.
  - intros h Hh _. cbn in Hh. destruct h as [|[|h]]; [| |lia].
    + eexists. split; [right; left; reflexivity|reflexivity].
    + eexists. split; [left; reflexivity|reflexivity].
  - intros i j Hij Hj. cbn in Hj. destruct i as [|[|i]], j as [|[|j]]; cbn; lia.
  - apply NoDup_ListNoDup. cbn.
    constructor; [cbn; intros [E|[]]; discriminate|].
    constructor; [intros []|constructor].
  - repeat constructor; cbn; lia.
  - intros h Hh _. cbn in Hh. destruct h as [|[|h]]; [| |lia].
    + eexists. split; [right; left; reflexivity|reflexivity].
    + eexists. split; [left; reflexivity|reflexivity].
Qed.

Lemma showdownUtility_payoffs_witness :
  exists p,
    In p (getRiverCombos example_river_solver 0 0) /\
    reach_prob_index p = 1%nat /\
    payoffs (showdownUtility example_river_solver 0 example_showdown [1; 1] 0) !!! 1%nat
    = effective_reach [1; 1] (worse_than p) (getRiverCombos example_river_solver 1 0)
        (mkPrivateCards 2 3 1) * 10
      + effective_reach [1; 1] (better_than p) (getRiverCombos example_river_solver 1 0)
          (mkPrivateCards 2 3 1) * -10.
Proof.
  destruct (showdownUtility_payoffs example_river_solver 0 example_showdown [1; 1] 0
              (example_river_cache_ok 0) (example_river_cache_ok 1) 1%nat)
    as (p & Hin & Hidx & _ & Hpay & _).
  - cbn. lia.
  - vm_compute. reflexivity.
  - exists p. split; [exact Hin|]. split; [exact Hidx|exact Hpay].
Defined.

(** ** The isomorphism table *)

(** The row a deal gets: the offset to the last earlier suit with the same
    mask, since a later match overwrites an earlier one. *)
Lemma fill_offsets_spec (color_hash : list Z) (deal : nat)
    (table : nat -> nat -> Z) (d s : nat) :
  fill_offsets color_hash deal table d s =
    if ((d =? deal) && (s <? 4))%nat
    then last_equal_offset color_hash s
    else table d s.
Proof.
  unfold fill_offsets, for_range, last_equal_offset, equal_earlier, set_offset.
  cbn [seq fold_left].
  destruct (color_hash !!! 1%nat =? color_hash !!! 0%nat)%Z eqn:E10,
           (color_hash !!! 2%nat =? color_hash !!! 0%nat)%Z eqn:E20,
           (color_hash !!! 2%nat =? color_hash !!! 1%nat)%Z eqn:E21,
           (color_hash !!! 3%nat =? color_hash !!! 0%nat)%Z eqn:E30,
           (color_hash !!! 3%nat =? color_hash !!! 1%nat)%Z eqn:E31,
           (color_hash !!! 3%nat =? color_hash !!! 2%nat)%Z eqn:E32;
    cbv beta;
    (destruct (Nat.eq_dec d deal) as [->|Hd];
     [rewrite ?Nat.eqb_refl; destruct s as [|[|[|[|s]]]];
      cbn [Nat.eqb Nat.ltb Nat.leb andb seq List.filter];
      rewrite ?E10, ?E20, ?E21, ?E30, ?E31, ?E32; reflexivity
     |rewrite ?(proj2 (Nat.eqb_neq d deal) Hd); reflexivity]).
Qed.

Lemma findGameSpecificIsomorphisms_rows (this : PCfrSolver) (d s : nat) :
  (s < 4)%nat ->
  findGameSpecificIsomorphisms this d s =
    if (d <=? length (deck this))%nat
    then last_equal_offset (deal_color_hash this d) s
    else color_iso_offset this d s.
Proof.
  intros Hs. unfold findGameSpecificIsomorphisms.
  set (board := board_color_hash (long2board (initial_board_long this))).
  pose (P := fun (k : nat) (table : nat -> nat -> Z) =>
      forall d, table d s =
        if (d <=? k)%nat then last_equal_offset (deal_color_hash this d) s
        else color_iso_offset this d s).
  assert (Inv : P (length (deck this))
                  (for_range (length (deck this))
                     (fun deal table =>
                        fill_offsets (add_color_hash board (deck this !!! deal))
                          (deal + 1) table)
                     (fill_offsets board 0 (color_iso_offset this)))).
  { apply (for_range_ind P).
    - intros d'. rewrite fill_offsets_spec.
      rewrite (proj2 (Nat.ltb_lt s 4)) by exact Hs. rewrite andb_true_r.
      destruct d' as [|d']; reflexivity.
    - intros k table Hk Htab d'. rewrite fill_offsets_spec.
      rewrite (proj2 (Nat.ltb_lt s 4)) by exact Hs. rewrite andb_true_r.
      destruct (Nat.eqb_spec d' (k + 1)) as [->|Hne].
      + rewrite (proj2 (Nat.leb_le _ _)) by lia.
        rewrite Nat.add_1_r. reflexivity.
      + rewrite Htab.
        destruct (Nat.leb_spec d' k), (Nat.leb_spec d' (S k)); try lia; reflexivity. }
  apply Inv.
Qed.

Lemma equal_earlier_lt (color_hash : list Z) (s j : nat) :
  In j (equal_earlier color_hash s) -> (j < s)%nat.
Proof.
  unfold equal_earlier. intros Hj. apply filter_In in Hj.
  destruct Hj as [Hj _]. apply in_seq in Hj. lia.
Qed.

Lemma last_equal_offset_range (color_hash : list Z) (s : nat) :
  (- Z.of_nat s <= last_equal_offset color_hash s <= 0)%Z /\
  (last_equal_offset color_hash s = 0%Z <-> equal_earlier color_hash s = []).
Proof.
  unfold last_equal_offset.
  destruct (rev (equal_earlier color_hash s)) as [|j l] eqn:E.
  - split; [lia|]. split; [|reflexivity]. intros _.
    apply (f_equal (@rev nat)) in E. rewrite rev_involutive in E. exact E.
  - assert (Hj : (j < s)%nat).
    { apply (equal_earlier_lt color_hash). apply in_rev. rewrite E. left. reflexivity. }
    split; [lia|]. split; [lia|]. intros E'. rewrite E' in E. discriminate.
Qed.

(** What the code computes for every deal it fills: an offset in
    [-s .. 0], 0 exactly when no earlier suit has the same mask, and
    otherwise the offset to the last such suit. *)
Lemma findGameSpecificIsomorphisms_offsets (this : PCfrSolver) (d s : nat) :
  (d <= length (deck this))%nat -> (s < 4)%nat ->
  let offset := findGameSpecificIsomorphisms this d s in
  let color_hash := deal_color_hash this d in
  (- Z.of_nat s <= offset <= 0)%Z /\
  (offset = 0%Z <-> equal_earlier color_hash s = []) /\
  offset = last_equal_offset color_hash s.
Proof.
  intros Hd Hs offset color_hash. unfold offset.
  rewrite findGameSpecificIsomorphisms_rows by exact Hs.
  rewrite (proj2 (Nat.leb_le _ _)) by exact Hd. fold color_hash.
  destruct (last_equal_offset_range color_hash s) as [H1 H2].
  split; [exact H1|]. split; [exact H2|reflexivity].
Qed.

(** C7 at the monotone flop: suits 1, 2 and 3 have no board card and
    the same (empty) mask. The first suit equal to suit 3 is suit 1, offset
    -2; the code leaves the offset -1 of the last match, suit 2, which is
    itself not canonical. *)
Theorem findGameSpecificIsomorphisms_last_match :
  let table := findGameSpecificIsomorphisms monotone_flop_solver in
  let color_hash := deal_color_hash monotone_flop_solver 0 in
  color_hash = [7; 0; 0; 0]%Z /\
  map (table 0%nat) [0; 1; 2; 3]%nat = [0; 0; -1; -1]%Z /\
  map (first_equal_offset color_hash) [0; 1; 2; 3]%nat = [0; 0; -1; -2]%Z /\
  table 0%nat 3%nat <> first_equal_offset color_hash 3 /\
  table 0%nat 2%nat <> 0%Z.
Proof.
  cbv zeta. split; [vm_compute; reflexivity|].
  split; [vm_compute; reflexivity|].
  split; [vm_compute; reflexivity|].
  split; vm_compute; discriminate.
Qed.

(** What the last-match offset does at the chance node of the monotone
    flop: the card 3 (rank 0 of suit 3) is not dealt and takes its result
    from the slot at offset -1, the slot of the card 2; but suit 2 has a
    negative offset too, so the card 2 is never dealt and nothing fills its
    slot. *)
Lemma monotone_flop_borrows_from_skipped (iter : Z) (multiplier : list R) :
  let this := with_color_iso_offset monotone_flop_solver
                (findGameSpecificIsomorphisms monotone_flop_solver) in
  let board := initial_board_long this in
  dealt this full_deck_chance iter multiplier board 0 3 = false /\
  (Z.of_nat (getNumberInDeckInt (getCards full_deck_chance !!! 3%nat))
   + color_iso_offset this 0 3 = 2)%Z /\
  dealt this full_deck_chance iter multiplier board 0 2 = false.
Proof.
  intros this board. unfold dealt.
  change (getCardInt (getCards full_deck_chance !!! 3%nat)) with 3%nat.
  change (getCardInt (getCards full_deck_chance !!! 2%nat)) with 2%nat.
  change (getNumberInDeckInt (getCards full_deck_chance !!! 3%nat)) with 3%nat.
  replace (color_iso_offset this 0 (3 mod 4)) with (-1)%Z by (vm_compute; reflexivity).
  replace (color_iso_offset this 0 (2 mod 4)) with (-1)%Z by (vm_compute; reflexivity).
  replace (color_iso_offset this 0 3) with (-1)%Z by (vm_compute; reflexivity).
  change (0 <=? -1)%Z with false. rewrite !andb_false_r. cbn [andb].
  split; [reflexivity|]. split; reflexivity.
Qed.

(** The mask of a suit has the bit of rank [r] set exactly when one of the
    cards is the card of that suit and rank: equal masks are equal rank
    sets. *)
Lemma add_color_hash_testbit (color_hash : list Z) (c s : nat) (r : Z) :
  length color_hash = 4%nat -> (s < 4)%nat -> (0 <= r < 16)%Z ->
  Z.testbit (add_color_hash color_hash c !!! s) r =
    Z.testbit (color_hash !!! s) r
    || ((c mod 4 =? s)%nat && (Z.of_nat (c / 4) =? r)%Z).
Proof.
  intros Hl Hs Hr. unfold add_color_hash.
  assert (Hc : (c mod 4 < 4)%nat) by (apply Nat.mod_upper_bound; lia).
  destruct (Nat.eqb_spec (c mod 4) s) as [E|NE].
  - rewrite E. rewrite list_lookup_total_insert_eq by lia.
    unfold u16. rewrite Z.mod_pow2_bits_low by lia.
    rewrite Z.lor_spec, Z.shiftl_1_l, Z.pow2_bits_eqb by lia. reflexivity.
  - rewrite list_lookup_total_insert_ne by exact NE.
    rewrite orb_false_r. reflexivity.
Qed.

Lemma add_color_hash_length (color_hash : list Z) (c : nat) :
  length (add_color_hash color_hash c) = length color_hash.
Proof. unfold add_color_hash. apply length_insert. Qed.

Lemma board_color_hash_testbit (cards : list nat) (s : nat) (r : Z) :
  (s < 4)%nat -> (0 <= r < 16)%Z ->
  Z.testbit (board_color_hash cards !!! s) r =
    existsb (fun c => (c mod 4 =? s)%nat && (Z.of_nat (c / 4) =? r)%Z) cards.
Proof.
  intros Hs Hr. unfold board_color_hash.
  assert (G : forall h, length h = 4%nat ->
            Z.testbit (fold_left add_color_hash cards h !!! s) r =
              Z.testbit (h !!! s) r
              || existsb (fun c => (c mod 4 =? s)%nat && (Z.of_nat (c / 4) =? r)%Z)
                   cards).
  { induction cards as [|c cards IH]; intros h Hh.
    - cbn. rewrite orb_false_r. reflexivity.
    - cbn [fold_left existsb]. rewrite IH by (rewrite add_color_hash_length; exact Hh).
      rewrite add_color_hash_testbit by assumption. rewrite orb_assoc. reflexivity. }
  rewrite G by reflexivity.
  destruct s as [|[|[|[|s]]]]; try lia; cbn; rewrite Z.testbit_0_l; reflexivity.
Qed.

(** ** The driver loop *)

Section TrainProperties.

Variable State : Type.
Variable cfr : PCfrSolver -> nat -> Z -> State -> State.
Variable printExploitability : State -> Z -> R.

Lemma train_loop_schedule (this : PCfrSolver) (fuel : nat) :
  forall (i : Z) (st : State),
    let run := train_loop State cfr printExploitability this fuel i st in
    (exists m, (m <= fuel)%nat /\
       iterations run = map (fun k => (i + Z.of_nat k)%Z) (seq 0 m) /\
       ((m < fuel)%nat ->
        exists pre j e, iterations run = pre ++ [j] /\
          In (j, e) (probes run) /\ e <= accuracy this)) /\
    map fst (probes run) = List.filter (probe_due this) (iterations run) /\
    log_lines run = (if String.eqb (logfile this) "" then [] else probes run) /\
    (forall j e, In (j, e) (probes run) -> e <= accuracy this ->
       exists pre, iterations run = pre ++ [j]).
Proof.
  induction fuel as [|fuel IH]; intros i st run.
  - subst run. cbn. split.
    + exists 0%nat. split; [lia|]. split; [reflexivity|lia].
    + split; [reflexivity|]. split; [destruct (String.eqb _ _); reflexivity|].
      intros j e [].
  - subst run. cbn [train_loop].
    set (st2 := cfr this 1 i (cfr this 0 i st)).
    specialize (IH (i + 1)%Z st2). cbv zeta in IH.
    set (rest := train_loop State cfr printExploitability this fuel (i + 1) st2) in *.
    destruct IH as ((m & Hm & Hits & Hearly) & Hprobes & Hlog & Hstop).
    assert (Hshift : i :: iterations rest
                     = map (fun k => (i + Z.of_nat k)%Z) (seq 0 (S m))).
    { cbn [seq map]. rewrite Z.add_0_r, Hits. f_equal.
      rewrite <- seq_shift, map_map. apply map_ext. intros k. lia. }
    destruct (probe_due this i) eqn:Edue.
    + destruct (Rle_dec (printExploitability st2 (i + 1)) (accuracy this)) as [Hle|Hgt];
        cbn [iterations probes log_lines final_state].
      * split.
        -- exists 1%nat. split; [lia|]. split; [cbn; rewrite Z.add_0_r; reflexivity|].
           intros _. exists [], i, (printExploitability st2 (i + 1)).
           split; [reflexivity|]. split; [left; reflexivity|exact Hle].
        -- split; [cbn; rewrite Edue; reflexivity|].
           split; [destruct (String.eqb _ _); reflexivity|].
           intros j e [E|[]] _. injection E as <- <-. exists []. reflexivity.
      * split.
        -- exists (S m). split; [lia|]. split; [exact Hshift|].
           intros Hlt. destruct Hearly as (pre & j & e & E1 & E2 & E3); [lia|].
           exists (i :: pre), j, e. rewrite E1.
           split; [reflexivity|]. split; [right; exact E2|exact E3].
        -- split; [cbn [map fst List.filter]; rewrite Edue, Hprobes; reflexivity|].
           split; [rewrite Hlog; destruct (String.eqb _ _); reflexivity|].
           intros j e [E|Hin] He.
           ++ injection E as <- <-. lra.
           ++ destruct (Hstop j e Hin He) as (pre & E1).
              exists (i :: pre). rewrite E1. reflexivity.
    + cbn [iterations probes log_lines final_state]. split.
      * exists (S m). split; [lia|]. split; [exact Hshift|].
        intros Hlt. destruct Hearly as (pre & j & e & E1 & E2 & E3); [lia|].
        exists (i :: pre), j, e. rewrite E1.
        split; [reflexivity|]. split; [exact E2|exact E3].
      * split; [cbn [List.filter]; rewrite Edue; exact Hprobes|].
        split; [exact Hlog|].
        intros j e Hin He. destruct (Hstop j e Hin He) as (pre & E1).
        exists (i :: pre). rewrite E1. reflexivity.
Qed.

(** C9 (amended). In the loop of [train()], of the iterations
    [0, 1, .., k-1] it runs, the probe is made (and, with a log file, its
    line written) at exactly those with
    [i % print_interval == 0], [i != 0] and [i >= warmup]; a probe that
    reports an exploitability of at most [accuracy] is the last thing the
    loop does, and nothing else ends the loop before [iteration_number]
    iterations. *)
Theorem train_probe_schedule (this : PCfrSolver) (st : State) :
  print_interval this <> 0%Z ->
  let N := Z.to_nat (iteration_number this) in
  let run := train_loop State cfr printExploitability this N 0 st in
  (exists k, (k <= N)%nat /\
     iterations run = map Z.of_nat (seq 0 k) /\
     ((k < N)%nat ->
      exists pre j e, iterations run = pre ++ [j] /\
        In (j, e) (probes run) /\ e <= accuracy this)) /\
  map fst (probes run) =
    List.filter (fun i => (Z.rem i (print_interval this) =? 0)%Z
                          && negb (i =? 0)%Z && (warmup this <=? i)%Z)
      (iterations run) /\
  log_lines run = (if String.eqb (logfile this) "" then [] else probes run) /\
  (forall j e, In (j, e) (probes run) -> e <= accuracy this ->
     exists pre, iterations run = pre ++ [j]).
Proof.
  intros _ N run.
  destruct (train_loop_schedule this N 0 st)
    as ((m & Hm & Hits & Hearly) & Hprobes & Hlog & Hstop).
  fold run in Hits, Hearly, Hprobes, Hlog, Hstop.
  split; [|split; [exact Hprobes|split; [exact Hlog|exact Hstop]]].
  exists m. split; [exact Hm|]. split; [|exact Hearly].
  rewrite Hits. apply map_ext. intros k. lia.
Qed.

End TrainProperties.

(** The run of the driver with warmup 2 and interval 2 over four
    iterations, on no state at all and with every probe reporting 1. *)
Lemma warmup_driver_run :
  let run := train_loop unit (fun _ _ _ st => st) (fun _ _ => 1) warmup_driver 4 0 tt in
  iterations run = [0; 1; 2; 3]%Z /\ probes run = [(2%Z, 1)] /\
  log_lines run = [(2%Z, 1)].
Proof.
  cbn [train_loop]. unfold probe_due. cbn [warmup_driver print_interval warmup accuracy
    logfile Z.rem Z.eqb Z.leb negb andb].
  change (Z.rem 0 2 =? 0)%Z with true. change (Z.rem (0 + 1) 2 =? 0)%Z with false.
  change (Z.rem (0 + 1 + 1) 2 =? 0)%Z with true.
  change (Z.rem (0 + 1 + 1 + 1) 2 =? 0)%Z with false.
  change (0 =? 0)%Z with true. change (0 + 1 + 1 =? 0)%Z with false.
  change (2 <=? 0 + 1 + 1)%Z with true.
  cbn [negb andb].
  destruct (Rle_dec 1 0) as [H|_]; [lra|].
  cbn. repeat split.
Qed.

Lemma train_probe_schedule_witness :
  let run := train_loop unit (fun _ _ _ st => st) (fun _ _ => 1) warmup_driver 4 0 tt in
  map fst (probes run) =
    List.filter (fun i => (Z.rem i 2 =? 0)%Z && negb (i =? 0)%Z && (2 <=? i)%Z)
      (iterations run).
Proof.
  intros run.
  refine (proj1 (proj2 (train_probe_schedule unit (fun _ _ _ st => st) (fun _ _ => 1)
                          warmup_driver tt _))).
  cbn. lia.
Defined.

(** The specification's condition [iter > warmup] misses the probe the
    code makes at the warmup boundary itself. *)
Lemma train_probe_schedule_counterexample :
  let run := train_loop unit (fun _ _ _ st => st) (fun _ _ => 1) warmup_driver
               (Z.to_nat (iteration_number warmup_driver)) 0 tt in
  map fst (probes run) <> List.filter (probe_due_spec warmup_driver) (iterations run).
Proof.
  intros run. destruct warmup_driver_run as (Hits & Hprobes & _).
  change (Z.to_nat (iteration_number warmup_driver)) with 4%nat in run.
  subst run. rewrite Hits, Hprobes. vm_compute. discriminate.
Qed.

(** ** The chance node *)

Lemma valid_cards_filter (this : PCfrSolver) (node : ChanceNode) (iter : Z)
    (multiplier : list R) (current_board : Z) (deal : nat) :
  valid_cards this node iter multiplier current_board deal =
    List.filter (dealt this node iter multiplier current_board deal)
      (seq 0 (length (getCards node))).
Proof.
  unfold valid_cards, for_range.
  set (body := fun (acc : list nat) (card : nat) => _).
  assert (G : forall l acc,
            fold_left body l acc =
              acc ++ List.filter (dealt this node iter multiplier current_board deal) l).
  { induction l as [|card l IH]; intros acc.
    - cbn. rewrite app_nil_r. reflexivity.
    - cbn [fold_left List.filter]. rewrite IH. unfold body, dealt.
      destruct (boardsHasIntercept _ current_board); cbn [negb andb]; [reflexivity|].
      set (off := color_iso_offset this deal
                    (getCardInt (getCards node !!! card) mod 4)).
      destruct (Z.leb_spec iter (warmup this)), (Z.ltb_spec (warmup this) iter);
        try lia;
        destruct (is_zero (multiplier !!! card));
        destruct (Z.ltb_spec off 0), (Z.leb_spec 0 off); try lia;
        cbn [negb andb orb]; rewrite <- ?app_assoc; reflexivity. }
  rewrite G. reflexivity.
Qed.

Lemma new_reach_probs_dealt (this : PCfrSolver) (oppo c : nat)
    (reach_probs : list R) (pd : Z) :
  new_reach_probs this oppo (boardInt2long c) reach_probs pd =
    dealt_reach this oppo c reach_probs pd.
Proof.
  unfold new_reach_probs, dealt_reach.
  set (n := length (ranges this oppo)).
  set (g := fun h : nat =>
      if boardsHasIntercept (boardInt2long c) (toBoardLong (ranges this oppo !!! h))
      then 0 else reach_probs !!! h / IZR pd).
  set (body := fun (player_hand : nat) (v : list R) => _).
  pose (P := fun (k : nat) (v : list R) =>
      length v = n /\ forall h, (h < k)%nat -> v !!! h = g h).
  assert (Inv : P n (for_range n body (replicate n 0))).
  { apply (for_range_ind P).
    - split; [apply length_replicate|]. intros h Hh. lia.
    - intros k v Hk [Hl Hv].
      assert (E : body k v = <[k := g k]> v).
      { unfold body, g. destruct (boardsHasIntercept _ _); reflexivity. }
      rewrite E. split; [rewrite length_insert; exact Hl|].
      intros h Hh. destruct (Nat.eq_dec h k) as [->|Hne].
      + apply list_lookup_total_insert_eq. lia.
      + rewrite list_lookup_total_insert_ne by congruence. apply Hv. lia. }
  destruct Inv as [Hl Hv].
  apply (list_eq_same_length _ _ n); [rewrite length_map, length_seq; reflexivity|exact Hl|].
  intros i x y Hi Hx Hy.
  apply list_lookup_total_correct in Hx.
  rewrite list_lookup_fmap, lookup_seq_lt in Hy by exact Hi. cbn in Hy.
  injection Hy as <-. rewrite <- Hx. apply Hv. exact Hi.
Qed.

Lemma child_call_dealt (this : PCfrSolver) (player : nat) (node : ChanceNode)
    (reach_probs : list R) (current_board : Z) (deal card : nat) :
  monteCarolAlg this = NONE ->
  (deal <= length (getCards node))%nat ->
  let c := getCardInt (getCards node !!! card) in
  child_call this player node reach_probs current_board deal card =
    Ok (Z.lor current_board (boardInt2long c),
        dealt_reach this (1 - player) c reach_probs (possible_deals node current_board),
        dealt_deal (length (getCards node)) deal card).
Proof.
  intros Hmc Hdeal c. unfold child_call. rewrite Hmc.
  fold c. rewrite new_reach_probs_dealt.
  unfold new_deal, dealt_deal.
  destruct (Nat.eqb_spec deal 0) as [E|NE]; [reflexivity|].
  rewrite (proj2 (Nat.ltb_lt 0 deal)) by lia.
  rewrite (proj2 (Nat.leb_le _ _)) by exact Hdeal. cbn [andb].
  do 2 f_equal. lia.
Qed.

Lemma run_children_record {RandState : Type} (this : PCfrSolver) (player : nat)
    (node : ChanceNode) (reach_probs : list R) (current_board : Z) (deal : nat) :
  monteCarolAlg this = NONE ->
  distributing_task this = false ->
  (deal <= length (getCards node))%nat ->
  forall (cards : list nat) (results : list CfrResult)
         (calls : list (Z * list R * nat)) (rs : RandState),
  exists results',
    run_children (list (Z * list R * nat)) RandState record_call this player node
      reach_probs current_board deal cards results (calls, rs)
    = Ok (results',
          (calls ++ map (fun card =>
                           let c := getCardInt (getCards node !!! card) in
                           (Z.lor current_board (boardInt2long c),
                            dealt_reach this (1 - player) c reach_probs
                              (possible_deals node current_board),
                            dealt_deal (length (getCards node)) deal card)) cards,
           rs)).
Proof.
  intros Hmc Hdt Hdeal cards. unfold run_children, omp_parallel_for.
  set (body := fun (card : nat)
                   (st : list CfrResult * (list (Z * list R * nat) * RandState)) => _).
  enough (G : forall results calls rs, exists results',
            for_each cards body (results, (calls, rs))
            = Ok (results',
                  (calls ++ map (fun card =>
                                   let c := getCardInt (getCards node !!! card) in
                                   (Z.lor current_board (boardInt2long c),
                                    dealt_reach this (1 - player) c reach_probs
                                      (possible_deals node current_board),
                                    dealt_deal (length (getCards node)) deal card))
                              cards,
                   rs))).
  { intros results calls rs. destruct (G results calls rs) as (results' & E).
    exists results'. rewrite E. reflexivity. }
  induction cards as [|card cards IH]; intros results calls rs.
  - exists results. cbn. rewrite app_nil_r. reflexivity.
  - cbn [for_each map].
    assert (E1 : body card (results, (calls, rs)) =
              Ok (<[getNumberInDeckInt (getCards node !!! card) := mkCfrResult [] []]>
                    results,
                  (calls ++ [(Z.lor current_board
                                (boardInt2long (getCardInt (getCards node !!! card))),
                              dealt_reach this (1 - player)
                                (getCardInt (getCards node !!! card)) reach_probs
                                (possible_deals node current_board),
                              dealt_deal (length (getCards node)) deal card)],
                   rs))).
    { unfold body.
      rewrite (child_call_dealt this player node reach_probs current_board deal card
                 Hmc Hdeal).
      cbv zeta. rewrite Hdt. reflexivity. }
    rewrite E1.
    destruct (IH (<[getNumberInDeckInt (getCards node !!! card) := mkCfrResult [] []]>
                    results)
                 (calls ++ [(Z.lor current_board
                               (boardInt2long (getCardInt (getCards node !!! card))),
                             dealt_reach this (1 - player)
                               (getCardInt (getCards node !!! card)) reach_probs
                               (possible_deals node current_board),
                             dealt_deal (length (getCards node)) deal card)])
                 rs) as (results' & E).
    exists results'. rewrite E. rewrite <- app_assoc. reflexivity.
Qed.

(** C4. A chance node reached with deal [d], board [B] and opponent reach
    [reach_probs] recurses, in card order, on exactly the cards of its list
    that are not in [B], whose suit has a non-negative
    [color_iso_offset[d][suit]] and, during warmup, whose multiplier is not
    zero; each call gets the board [B | bit(c)], the reach that is 0 for
    the hands holding [c] and [reach_probs[h] / possible_deals] for the
    others, with [possible_deals = |cards| - |board cards| - 2], and the
    abstract deal of the card. *)
Theorem chanceUtility_recursion (RandState : Type)
    (std_rand : RandState -> nat * RandState)
    (exchange_color : list R -> list PrivateCards -> Z -> Z -> list R)
    (this : PCfrSolver) (player : nat) (node : ChanceNode)
    (reach_probs : list R) (iter : Z) (current_board : Z) (deal : nat)
    (rs : RandState) :
  let card_num := length (getCards node) in
  let multiplier :=
    if (iter <=? warmup this)%Z
    then fst (draw_multiplier RandState std_rand node current_board rs)
    else [] in
  let possible_deals :=
    (Z.of_nat card_num - Z.of_nat (length (long2board current_board)) - 2)%Z in
  monteCarolAlg this = NONE ->
  distributing_task this = false ->
  (card_num mod 4 = 0)%nat ->
  (deal <= card_num)%nat ->
  exists res rs',
    chanceUtility (list (Z * list R * nat)) RandState std_rand exchange_color
      record_call this player node reach_probs iter current_board deal ([], rs)
    = Ok (res,
          (map (fun card =>
                  let c := getCardInt (getCards node !!! card) in
                  (Z.lor current_board (boardInt2long c),
                   map (fun h =>
                          if boardsHasIntercept (boardInt2long c)
                               (toBoardLong (ranges this (1 - player) !!! h))
                          then 0
                          else reach_probs !!! h / IZR possible_deals)
                     (seq 0 (length (ranges this (1 - player)))),
                   if (deal =? 0)%nat then (card + 1)%nat
                   else (card_num * (deal - 1) + card + 1 + card_num)%nat))
             (List.filter
                (fun card =>
                   let c := getCardInt (getCards node !!! card) in
                   negb (boardsHasIntercept (boardInt2long c) current_board)
                   && (0 <=? color_iso_offset this deal (c mod 4))%Z
                   && ((warmup this <? iter)%Z || negb (is_zero (multiplier !!! card))))
                (seq 0 card_num)),
           rs')).
Proof.
  intros card_num multiplier pd Hmc Hdt Hmod Hdeal.
  unfold chanceUtility. fold card_num.
  rewrite (proj2 (Nat.eqb_eq _ _) Hmod). cbn [negb fst snd].
  assert (Hm : exists rs',
            (if (iter <=? warmup this)%Z
             then draw_multiplier RandState std_rand node current_board rs
             else ([], rs)) = (multiplier, rs')).
  { unfold multiplier. destruct (iter <=? warmup this)%Z.
    - destruct (draw_multiplier RandState std_rand node current_board rs) as [m r].
      exists r. reflexivity.
    - exists rs. reflexivity. }
  destruct Hm as (rs' & ->).
  rewrite valid_cards_filter.
  destruct (run_children_record this player node reach_probs current_board deal
              Hmc Hdt Hdeal
              (List.filter (dealt this node iter multiplier current_board deal)
                 (seq 0 card_num))
              (replicate card_num (mkCfrResult [] [])) [] rs') as (results' & E).
  unfold card_num in *. rewrite E. cbn [app].
  destruct (accumulate exchange_color this player node iter deal multiplier results' _ _)
    as [cu ce].
  exists (mkCfrResult cu ce), rs'. reflexivity.
Qed.

Lemma chanceUtility_recursion_witness :
  exists res calls rs',
    chanceUtility (list (Z * list R * nat)) nat counter_rand no_exchange
      record_call river_solver 0 river_chance [1] 1 0 0 ([], 0%nat)
    = Ok (res, (calls, rs')).
Proof.
  destruct (chanceUtility_recursion nat counter_rand no_exchange river_solver 0
              river_chance [1] 1 0 0 0%nat eq_refl eq_refl eq_refl (Nat.le_0_l _))
    as (res & rs' & E).
  exists res. eexists. exists rs'. exact E.
Defined.

(** ** Determinism *)

(** Evaluation of the examples: everything but the arithmetic of R. *)
Ltac evaluate :=
  cbv -[IZR INR Rplus Rmult Rminus Rdiv Rinv Ropp
        Req_dec_T Rlt_dec Rgt_dec Rle_dec is_zero].





(** ** The fold node in single precision *)

Lemma binary32_sum_snoc (l : list binary32) (x : binary32) :
  binary32_sum (l ++ [x]) = f32_add (binary32_sum l) x.
Proof. unfold binary32_sum. rewrite fold_left_app. reflexivity. Qed.

Lemma add_card_reach_binary32_length (sums : list binary32) (h : PrivateCards)
    (x : binary32) :
  length (add_card_reach_binary32 sums h x) = length sums.
Proof. unfold add_card_reach_binary32. rewrite !length_insert. reflexivity. Qed.

Lemma add_card_reach_binary32_lookup (sums : list binary32) (h : PrivateCards)
    (x : binary32) (c : nat) :
  (card1 h < length sums)%nat -> (card2 h < length sums)%nat ->
  card1 h <> card2 h ->
  add_card_reach_binary32 sums h x !!! c
  = if holds_card h c then f32_add (sums !!! c) x else sums !!! c.
Proof.
  intros H1 H2 Hd. unfold add_card_reach_binary32, holds_card.
  destruct (Nat.eqb_spec (card2 h) c) as [E2|N2].
  - subst c. rewrite list_lookup_total_insert_eq by (rewrite length_insert; exact H2).
    rewrite list_lookup_total_insert_ne by exact Hd.
    rewrite orb_true_r. reflexivity.
  - rewrite list_lookup_total_insert_ne by exact N2.
    destruct (Nat.eqb_spec (card1 h) c) as [E1|N1]; cbn [orb].
    + subst c. rewrite list_lookup_total_insert_eq by exact H1. reflexivity.
    + apply list_lookup_total_insert_ne. exact N1.
Qed.

(** The first loop of [terminalUtility] in single precision. *)
Lemma binary32_sum_loop (hands : list PrivateCards) (reach : list binary32) :
  Forall hand_ok hands ->
  let st := for_range (length hands) (fun i '(oppo_sum, oppo_card_sum) =>
                (f32_add oppo_sum (reach !!! i),
                 add_card_reach_binary32 oppo_card_sum (hands !!! i) (reach !!! i)))
              (f32_zero, replicate 52 f32_zero) in
  fst st = binary32_sum (map (fun i => reach !!! i) (seq 0 (length hands))) /\
  length (snd st) = 52%nat /\
  forall c, (c < 52)%nat -> snd st !!! c = binary32_holding hands reach c.
Proof.
  intros Hok st.
  pose (P := fun (k : nat) (s : binary32 * list binary32) =>
      fst s = binary32_sum (map (fun i => reach !!! i) (seq 0 k)) /\
      length (snd s) = 52%nat /\
      forall c, (c < 52)%nat ->
        snd s !!! c =
          binary32_sum
            (map (fun i => reach !!! i)
               (List.filter (fun i => holds_card (hands !!! i) c) (seq 0 k)))).
  assert (Inv : P (length hands) st).
  { apply (for_range_ind P).
    - unfold P. cbn [fst snd seq map List.filter]. split; [reflexivity|].
      split; [apply length_replicate|].
      intros c Hc. rewrite lookup_total_replicate_2 by exact Hc. reflexivity.
    - intros k [s cs] Hk (H1 & H2 & H3). cbn [fst snd] in *.
      assert (Hh : hand_ok (hands !!! k)).
      { rewrite Forall_forall in Hok. apply Hok, list_elem_of_lookup_total_2. exact Hk. }
      destruct Hh as (A1 & A2 & Ad).
      unfold P. cbn [fst snd]. rewrite seq_S. cbn [Nat.add].
      split; [rewrite map_app; cbn [map]; rewrite binary32_sum_snoc, H1; reflexivity|].
      split; [rewrite add_card_reach_binary32_length; exact H2|].
      intros c Hc. rewrite add_card_reach_binary32_lookup by (lia || exact Ad).
      rewrite List.filter_app, map_app. cbn [List.filter].
      destruct (holds_card (hands !!! k) c); cbn [map].
      + rewrite binary32_sum_snoc, H3 by exact Hc. reflexivity.
      + rewrite app_nil_r. apply H3, Hc. }
  exact Inv.
Qed.

(** The fold node in single precision: every hand that does not overlap
    the board gets the payoff times the opponent's reach against it, all
    sums running in the order of the opponent's range. *)
Lemma terminalUtility_binary32_formula (this : PCfrSolver) (player : nat)
    (node_payoffs reach_prob : list binary32) (current_board : Z) :
  let oppo := (1 - player)%nat in
  let P := node_payoffs !!! player in
  (player < 2)%nat ->
  Forall hand_ok (ranges this player) ->
  Forall hand_ok (ranges this oppo) ->
  length reach_prob = length (ranges this oppo) ->
  exists payoffs equity,
    terminalUtility_binary32 this player node_payoffs reach_prob current_board
    = Ok (payoffs, equity) /\
    length payoffs = length (ranges this player) /\
    forall i, (i < length (ranges this player))%nat ->
      let h := ranges this player !!! i in
      boardsHasIntercept current_board (toBoardLong h) = false ->
      payoffs !!! i =
        f32_mul P
          (f32_add
             (f32_sub
                (f32_sub (binary32_sum reach_prob)
                   (binary32_holding (ranges this oppo) reach_prob (card1 h)))
                (binary32_holding (ranges this oppo) reach_prob (card2 h)))
             (same_hand_reach_binary32 this player i reach_prob)).
Proof.
  intros oppo P Hp Hokp Hoko Hlen.
  unfold terminalUtility_binary32. fold oppo P.
  rewrite (playerHands_ranges this player Hp).
  rewrite (playerHands_ranges this oppo) by (unfold oppo; lia).
  pose proof (binary32_sum_loop (ranges this oppo) reach_prob Hoko) as Hsum.
  cbv zeta in Hsum.
  destruct (for_range (length (ranges this oppo)) _ (f32_zero, replicate 52 f32_zero))
    as [oppo_sum oppo_card_sum].
  cbn [fst snd] in Hsum. destruct Hsum as (Hs & Hl & Hcs).
  rewrite <- Hlen, lookups_id in Hs.
  set (n := length (ranges this player)).
  set (V := fun i =>
      f32_mul P
        (f32_add
           (f32_sub
              (f32_sub oppo_sum (oppo_card_sum !!! card1 (ranges this player !!! i)))
              (oppo_card_sum !!! card2 (ranges this player !!! i)))
           (if (indPlayer2Player this player oppo i =? -1)%Z then f32_zero
            else reach_prob !!! Z.to_nat (indPlayer2Player this player oppo i)))).
  set (body := fun (i : nat) (st : list binary32 * list binary32) => _).
  pose (Inv := fun (k : nat) (st : list binary32 * list binary32) =>
      length (fst st) = n /\
      forall i, (i < k)%nat ->
        boardsHasIntercept current_board (toBoardLong (ranges this player !!! i)) = false ->
        fst st !!! i = V i).
  assert (HI : Inv n (for_range n body
                        (replicate n f32_zero,
                         if enable_equity this then replicate n f32_zero else []))).
  { apply (for_range_ind Inv).
    - split; [apply length_replicate|]. intros i Hi. lia.
    - intros k [pay eq] Hk [Hlp Hv]. unfold Inv, body in *. cbn [fst] in *.
      change (boardInts2long (get_hands (ranges this player !!! k)))
        with (toBoardLong (ranges this player !!! k)).
      destruct (boardsHasIntercept current_board
                  (toBoardLong (ranges this player !!! k))) eqn:Eb.
      + cbn [fst]. split; [exact Hlp|]. intros i Hi Hni.
        destruct (Nat.eq_dec i k) as [->|Hne]; [congruence|].
        apply Hv; [lia|exact Hni].
      + cbn [fst]. split; [rewrite length_insert; exact Hlp|]. intros i Hi Hni.
        destruct (Nat.eq_dec i k) as [->|Hne].
        * rewrite list_lookup_total_insert_eq by lia. reflexivity.
        * rewrite list_lookup_total_insert_ne by congruence. apply Hv; [lia|exact Hni]. }
  destruct (for_range n body _) as [pay eq]. destruct HI as [Hlp Hv].
  cbn [fst] in Hlp, Hv.
  exists pay, eq. split; [reflexivity|].
  split; [exact Hlp|]. intros i Hi Hni.
  set (h := ranges this player !!! i) in *.
  assert (Hh : hand_ok h).
  { rewrite Forall_forall in Hokp. apply Hokp, list_elem_of_lookup_total_2. exact Hi. }
  rewrite Hv by assumption. unfold V, same_hand_reach_binary32. fold oppo h.
  destruct Hh as (H1 & H2 & _). rewrite !Hcs by assumption. rewrite Hs. reflexivity.
Qed.

(** C3 (amended). At a fold node with payoff [P] for the traversing
    player, [terminalUtility] returns, for each hand [h] of the player that
    does not overlap the board, [P] times the opponent's reach against [h]:
    the opponent's total reach, minus the reach of the opponent hands
    holding [h]'s first card, minus that of those holding its second card,
    plus the reach of the identical hand in the opponent's range (0 when
    absent). In the single precision of the code the sums run in the order
    of the opponent's range and every operation rounds. In exact
    arithmetic the value is that of the formula with exact sums, and with
    a uniform reach [r] it is [P * r * (|range[oppo]| - number of opponent
    hands sharing a card with h)]; the code returns this last value up to
    the rounding of its operations only. *)
Theorem terminalUtility_blocker_formula (this : PCfrSolver) (player : nat)
    (node_payoffs reach_prob : list R)
    (node_payoffs32 reach_prob32 : list binary32) (current_board : Z) :
  let oppo := (1 - player)%nat in
  (player < 2)%nat ->
  range_ok (ranges this player) ->
  range_ok (ranges this oppo) ->
  length reach_prob32 = length (ranges this oppo) ->
  length reach_prob = length (ranges this oppo) ->
  (exists payoffs32 equity32,
     terminalUtility_binary32 this player node_payoffs32 reach_prob32 current_board
     = Ok (payoffs32, equity32) /\
     length payoffs32 = length (ranges this player) /\
     forall i, (i < length (ranges this player))%nat ->
       let h := ranges this player !!! i in
       boardsHasIntercept current_board (toBoardLong h) = false ->
       payoffs32 !!! i =
         f32_mul (node_payoffs32 !!! player)
           (f32_add
              (f32_sub
                 (f32_sub (binary32_sum reach_prob32)
                    (binary32_holding (ranges this oppo) reach_prob32 (card1 h)))
                 (binary32_holding (ranges this oppo) reach_prob32 (card2 h)))
              (same_hand_reach_binary32 this player i reach_prob32))) /\
  (exists res,
     terminalUtility this player node_payoffs reach_prob current_board = Ok res /\
     length (payoffs res) = length (ranges this player) /\
     forall i, (i < length (ranges this player))%nat ->
       let h := ranges this player !!! i in
       boardsHasIntercept current_board (toBoardLong h) = false ->
       payoffs res !!! i =
         node_payoffs !!! player
         * (sumR reach_prob
            - reach_holding (ranges this oppo) reach_prob (card1 h)
            - reach_holding (ranges this oppo) reach_prob (card2 h)
            + same_hand_reach this player i reach_prob) /\
       forall r, reach_prob = replicate (length (ranges this oppo)) r ->
         payoffs res !!! i =
           node_payoffs !!! player * r
           * (INR (length (ranges this oppo))
              - INR (length (List.filter (fun o => shares_card o h)
                               (ranges this oppo))))).
Proof.
  intros oppo Hp Hokp Hoko Hlen32 Hlen. split.
  - exact (terminalUtility_binary32_formula this player node_payoffs32 reach_prob32
             current_board Hp (proj1 Hokp) (proj1 Hoko) Hlen32).
  - exact (terminalUtility_exact_formula this player node_payoffs reach_prob
             current_board Hp Hokp Hoko Hlen).
Qed.

Lemma terminalUtility_blocker_formula_witness :
  (exists payoffs32 equity32,
     terminalUtility_binary32 example_solver 0 [f32_one; f32_minus_one]
       [f32_one; f32_one] 0 = Ok (payoffs32, equity32) /\
     length payoffs32 = 2%nat) /\
  (exists res,
     terminalUtility example_solver 0 [1; -1] [1; 1] 0 = Ok res /\
     length (payoffs res) = 2%nat).
Proof.
  destruct (terminalUtility_blocker_formula example_solver 0 [1; -1] [1; 1]
              [f32_one; f32_minus_one] [f32_one; f32_one] 0
              (Nat.lt_0_succ 1) (proj1 example_ranges_ok) (proj2 example_ranges_ok)
              eq_refl eq_refl)
    as [(payoffs32 & equity32 & E32 & Hl32 & _) (res & E & Hl & _)].
  split.
  - exists payoffs32, equity32. split; [exact E32|exact Hl32].
  - exists res. split; [exact E|exact Hl].
Defined.

(** The uniform-reach value is not exact in the arithmetic of the
    code. The player's hand [(0,1)] is off the board, none of the ten
    opponent hands shares a card with it, every opponent hand has the reach
    [0.1f] and the player's payoff is [1.0f]: the running sum of the ten
    reaches is [1 + 2^-23], and so is the payoff, while
    [P * r * (10 - 0)] is [1.0000000149...] as a number and [1.0f] as a
    product of [float]s. *)
Lemma terminalUtility_blocker_formula_counterexample :
  exists payoff,
    terminalUtility_binary32 ten_hands_solver 0 [f32_one; f32_minus_one]
      (replicate 10 f32_tenth) 0 = Ok ([payoff], []) /\
    boardsHasIntercept 0 (toBoardLong (ranges ten_hands_solver 0 !!! 0%nat)) = false /\
    payoff = S754_finite false 8388609 (-23) /\
    binary32_value payoff
    <> binary32_value f32_one * binary32_value f32_tenth
       * (INR (length (ranges ten_hands_solver 1))
          - INR (length (List.filter
                           (fun o => shares_card o (ranges ten_hands_solver 0 !!! 0%nat))
                           (ranges ten_hands_solver 1)))) /\
    payoff <> f32_mul (f32_mul f32_one f32_tenth) (S754_finite false 10485760 (-20)).
Proof.
  exists (S754_finite false 8388609 (-23)).
  split; [evaluate; reflexivity|].
  split; [vm_compute; reflexivity|].
  split; [reflexivity|]. split.
  - evaluate. simpl INR. lra.
  - vm_compute. discriminate.
Qed.

(** * Properties of the code around the utilities *)

(** ** Strategies along the updates *)

Lemma sumR_member_le (l : list R) (i : nat) :
  Forall (fun x => 0 <= x) l -> (i < length l)%nat -> l !!! i <= sumR l.
Proof.
  revert i. induction l as [|x l IH]; intros i Hl Hi; [simpl in Hi; lia|].
  apply Forall_cons in Hl as [Hx Hl]. rewrite sumR_cons.
  pose proof (sumR_nonneg l Hl).
  destruct i as [|i]; simpl.
  - lra.
  - specialize (IH i Hl). simpl in Hi. assert (Hi' : (i < length l)%nat) by lia.
    specialize (IH Hi'). lra.
Qed.

Lemma column_lookup (v : list R) (A H h a : nat) :
  (a < A)%nat -> column v A H h !!! a = v !!! (a * H + h)%nat.
Proof.
  intros Ha. unfold column.
  rewrite list_lookup_total_alt, list_lookup_fmap.
  rewrite lookup_seq_lt by exact Ha. reflexivity.
Qed.

Lemma column_length (v : list R) (A H h : nat) : length (column v A H h) = A.
Proof. unfold column. rewrite length_map, length_seq. reflexivity. Qed.

Lemma list_eq_total {A : Type} `{Inhabited A} (l k : list A) :
  length l = length k ->
  (forall i, (i < length l)%nat -> l !!! i = k !!! i) -> l = k.
Proof.
  intros Hlen Hi. apply (list_eq_same_length l k (length l)); [congruence|reflexivity|].
  intros i x y Hlt Hx Hy.
  specialize (Hi i Hlt).
  rewrite (list_lookup_total_correct l i x Hx), (list_lookup_total_correct k i y Hy) in Hi.
  exact Hi.
Qed.

Lemma map_const_seq {B : Type} (x : B) (s n : nat) :
  map (fun _ : nat => x) (seq s n) = replicate n x.
Proof.
  revert s. induction n as [|n IH]; intros s; simpl; [reflexivity|].
  f_equal. apply IH.
Qed.

(** The strategy regret matching forms on the tables [r_plus] and
    [r_plus_sum], hand by hand, when the sums are those of the clamped
    regrets. *)
Lemma regret_matching_distribution (t : DiscountedCfrTrainable) (h : nat) :
  let A := action_number t in
  let H := card_number t in
  let sigma := getcurrentStrategyNoCache t in
  (0 < A)%nat ->
  length (r_plus_sum t) = H ->
  (h < H)%nat ->
  r_plus_sum t !!! h = sumR (map max0 (column (r_plus t) A H h)) ->
  sumR (column sigma A H h) = 1 /\
  (forall a, (a < A)%nat -> 0 <= sigma !!! (a * H + h)%nat <= 1) /\
  (forall a, (a < A)%nat -> 0 < r_plus_sum t !!! h ->
     r_plus t !!! (a * H + h)%nat <= 0 -> sigma !!! (a * H + h)%nat = 0).
Proof.
  intros A H sigma HA L2 Hh Hsum.
  destruct (getcurrentStrategyNoCache_lookup t L2) as [_ Hcs]. fold A H sigma in Hcs.
  assert (HA' : 0 < INR A) by (apply lt_0_INR; exact HA).
  assert (Hnn : Forall (fun x => 0 <= x) (map max0 (column (r_plus t) A H h))).
  { apply Forall_forall. intros x Hx.
    apply list_elem_of_In, in_map_iff in Hx. destruct Hx as (y & <- & _). apply Rmax_l. }
  assert (Hs : 0 <= r_plus_sum t !!! h) by (rewrite Hsum; apply sumR_nonneg, Hnn).
  assert (Hle : forall a, (a < A)%nat ->
            max0 (r_plus t !!! (a * H + h)%nat) <= r_plus_sum t !!! h).
  { intros a Ha. rewrite Hsum.
    pose proof (sumR_member_le (map max0 (column (r_plus t) A H h)) a Hnn) as Hm.
    rewrite length_map, column_length in Hm. specialize (Hm Ha).
    rewrite list_lookup_total_alt, list_lookup_fmap in Hm.
    rewrite <- (column_lookup (r_plus t) A H h a Ha).
    rewrite (list_lookup_total_alt (column _ _ _ _)).
    destruct (column (r_plus t) A H h !! a) eqn:E; simpl in *; [exact Hm|].
    apply lookup_ge_None in E. rewrite column_length in E. lia. }
  split; [|split].
  - destruct (Req_dec_T (r_plus_sum t !!! h) 0) as [Z|N].
    + assert (E : column sigma A H h = map (fun _ => 1 / INR A) (seq 0 A)).
      { unfold column. apply map_ext_in. intros a Ha. apply in_seq in Ha.
        rewrite Hcs by (assumption || lia).
        destruct (Req_dec_T (r_plus_sum t !!! h) 0); [reflexivity|contradiction]. }
      rewrite E.
      replace (map (fun _ : nat => 1 / INR A) (seq 0 A)) with (replicate A (1 / INR A)).
      * rewrite sumR_replicate. field. lra.
      * symmetry. apply map_const_seq.
    + assert (E : column sigma A H h
                  = map (fun a => max0 (r_plus t !!! (a * H + h)%nat)
                                  / r_plus_sum t !!! h) (seq 0 A)).
      { unfold column. apply map_ext_in. intros a Ha. apply in_seq in Ha.
        rewrite Hcs by (assumption || lia).
        destruct (Req_dec_T (r_plus_sum t !!! h) 0); [contradiction|reflexivity]. }
      rewrite E, sumR_map_div.
      replace (map (fun a => max0 (r_plus t !!! (a * H + h)%nat)) (seq 0 A))
        with (map max0 (column (r_plus t) A H h))
        by (unfold column; rewrite map_map; reflexivity).
      rewrite <- Hsum. field. exact N.
  - intros a Ha. rewrite Hcs by assumption.
    destruct (Req_dec_T (r_plus_sum t !!! h) 0) as [Z|N].
    + split.
      * apply Rlt_le, Rdiv_lt_0_compat; lra.
      * assert (1 <= INR A) by (change 1 with (INR 1); apply le_INR; lia).
        apply Rmult_le_reg_r with (INR A); [lra|]. field_simplify; lra.
    + specialize (Hle a Ha).
      pose proof (Rmax_l 0 (r_plus t !!! (a * H + h)%nat)) as Hm. fold (max0 (r_plus t !!! (a * H + h)%nat)) in Hm.
      assert (Hp : 0 < r_plus_sum t !!! h) by lra.
      split.
      * unfold Rdiv. apply Rmult_le_pos; [exact Hm|]. apply Rlt_le, Rinv_0_lt_compat, Hp.
      * apply Rmult_le_reg_r with (r_plus_sum t !!! h); [exact Hp|].
        field_simplify; lra.
  - intros a Ha Hp Hneg. rewrite Hcs by assumption.
    destruct (Req_dec_T (r_plus_sum t !!! h) 0) as [Z|N]; [lra|].
    unfold max0. rewrite Rmax_left by exact Hneg. field. exact N.
Qed.

(** X1 (current strategy after an update). After every [updateRegrets]
    the current strategy is a probability distribution over the actions of
    each hand: the entries lie in [0,1] and sum to 1; and as soon as some
    action of the hand has a positive running regret, every action whose
    running regret is not positive gets probability 0. *)
Theorem updateRegrets_strategy_distribution (t : DiscountedCfrTrainable)
    (regrets : list R) (iteration_number : Z) (h : nat) :
  let A := action_number t in
  let H := card_number t in
  let t' := updateRegrets t regrets iteration_number in
  let sigma := getcurrentStrategy t' in
  (0 < A)%nat ->
  (1 <= iteration_number)%Z ->
  length (r_plus t) = (A * H)%nat ->
  length (r_plus_sum t) = H ->
  length (cum_r_plus t) = (A * H)%nat ->
  (h < H)%nat ->
  sumR (column sigma A H h) = 1 /\
  (forall a, (a < A)%nat -> 0 <= sigma !!! (a * H + h)%nat <= 1) /\
  (forall a b, (a < A)%nat -> (b < A)%nat ->
     0 < r_plus t' !!! (b * H + h)%nat ->
     r_plus t' !!! (a * H + h)%nat <= 0 ->
     sigma !!! (a * H + h)%nat = 0).
Proof.
  intros A H t' sigma HA _ L1 L2 L3 Hh.
  destruct (updateRegrets_cells t regrets iteration_number L1 L2 L3)
    as ((EA & EH & _) & (_ & L2' & _) & _ & Hsum & _).
  fold A H t' in EA, EH, L2', Hsum.
  pose proof (regret_matching_distribution t' h) as D. cbv zeta in D.
  rewrite EA, EH in D.
  specialize (D HA L2' Hh (Hsum h Hh)). destruct D as (D1 & D2 & D3).
  split; [exact D1|]. split; [exact D2|].
  intros a b Ha Hb Hpos Hneg. apply D3; [exact Ha| |exact Hneg].
  rewrite Hsum by exact Hh.
  assert (Hnn : Forall (fun x => 0 <= x) (map max0 (column (r_plus t') A H h))).
  { apply Forall_forall. intros x Hx.
    apply list_elem_of_In, in_map_iff in Hx. destruct Hx as (y & <- & _). apply Rmax_l. }
  pose proof (sumR_member_le _ b Hnn) as Hm.
  rewrite length_map, column_length in Hm. specialize (Hm Hb).
  rewrite list_lookup_total_alt, list_lookup_fmap in Hm.
  pose proof (column_lookup (r_plus t') A H h b Hb) as Hc.
  rewrite list_lookup_total_alt in Hc.
  destruct (column (r_plus t') A H h !! b) eqn:E; simpl in *.
  - subst r. unfold max0 in Hm at 1.
    pose proof (Rmax_r 0 (r_plus t' !!! (b * H + h)%nat)). lra.
  - apply lookup_ge_None in E. rewrite column_length in E. lia.
Qed.

Lemma updateRegrets_strategy_distribution_witness :
  sumR (column (getcurrentStrategy
                  (updateRegrets (newTrainable 2 1 1.5 0 2 1) [1; -1] 1)) 2 1 0) = 1.
Proof.
  refine (proj1 (updateRegrets_strategy_distribution
            (newTrainable 2 1 1.5 0 2 1) [1; -1] 1 0%nat _ _ eq_refl eq_refl eq_refl _));
    simpl; lia.
Defined.

(** X2 (average strategy after an update). When the accumulated strategy
    weights are nonnegative and [theta >= 0], an [updateRegrets] at an
    iteration number of at least 1 leaves, for every hand, a positive sum
    of weights: the average strategy is then the normalised weights, a
    probability distribution, and never the uniform fallback. *)
Theorem updateRegrets_average_distribution (t : DiscountedCfrTrainable)
    (regrets : list R) (iteration_number : Z) (h : nat) :
  let A := action_number t in
  let H := card_number t in
  let t' := updateRegrets t regrets iteration_number in
  let S' := sumR (column (cum_r_plus t') A H h) in
  let avg := getAverageStrategy t' in
  (0 < A)%nat ->
  (1 <= iteration_number)%Z ->
  length (r_plus t) = (A * H)%nat ->
  length (r_plus_sum t) = H ->
  length (cum_r_plus t) = (A * H)%nat ->
  0 <= theta t ->
  (forall a, (a < A)%nat -> 0 <= cum_r_plus t !!! (a * H + h)%nat) ->
  (h < H)%nat ->
  S' = theta t * sumR (column (cum_r_plus t) A H h)
       + pow (IZR iteration_number / IZR (iteration_number + 1)) (gamma t) /\
  0 < S' /\
  sumR (column avg A H h) = 1 /\
  forall a, (a < A)%nat ->
    avg !!! (a * H + h)%nat = cum_r_plus t' !!! (a * H + h)%nat / S' /\
    0 <= avg !!! (a * H + h)%nat.
Proof.
  intros A H t' S' avg HA _ L1 L2 L3 Hth Hcum Hh.
  destruct (updateRegrets_cells t regrets iteration_number L1 L2 L3)
    as ((EA & EH & _) & (_ & L2' & L3') & _ & Hsum & Hcell).
  fold A H t' in EA, EH, L2', L3', Hsum, Hcell.
  pose proof (regret_matching_distribution t' h) as D. cbv zeta in D.
  rewrite EA, EH in D.
  specialize (D HA L2' Hh (Hsum h Hh)). destruct D as (D1 & D2 & _).
  set (coef := pow (IZR iteration_number / IZR (iteration_number + 1)) (gamma t)) in *.
  assert (Hcoef : 0 < coef) by apply pow_pos.
  assert (ES : S' = theta t * sumR (column (cum_r_plus t) A H h) + coef).
  { unfold S'.
    assert (E : column (cum_r_plus t') A H h
                = map (fun a => cum_r_plus t !!! (a * H + h)%nat * theta t
                                + getcurrentStrategyNoCache t' !!! (a * H + h)%nat * coef)
                    (seq 0 A)).
    { unfold column. apply map_ext_in. intros a Ha. apply in_seq in Ha.
      apply Hcell; [lia|exact Hh]. }
    rewrite E.
    rewrite (sumR_map_plus (fun a => cum_r_plus t !!! (a * H + h)%nat * theta t)
               (fun a => getcurrentStrategyNoCache t' !!! (a * H + h)%nat * coef)).
    rewrite (sumR_map_mult (fun a => cum_r_plus t !!! (a * H + h)%nat) (theta t)).
    rewrite (sumR_map_mult (fun a => getcurrentStrategyNoCache t' !!! (a * H + h)%nat) coef).
    fold (column (cum_r_plus t) A H h). fold (column (getcurrentStrategyNoCache t') A H h).
    rewrite D1. lra. }
  assert (HS0 : 0 <= sumR (column (cum_r_plus t) A H h)).
  { apply sumR_nonneg. unfold column. apply Forall_forall. intros x Hx.
    apply list_elem_of_In, in_map_iff in Hx. destruct Hx as (a & <- & Ha).
    apply in_seq in Ha. apply Hcum. lia. }
  assert (HS : 0 < S') by (rewrite ES; nra).
  destruct (getAverageStrategy_lookup t') as [_ Hv]. rewrite EA, EH in Hv.
  fold avg S' in Hv.
  assert (Hc : forall a, (a < A)%nat ->
            avg !!! (a * H + h)%nat = cum_r_plus t' !!! (a * H + h)%nat / S').
  { intros a Ha. rewrite Hv by assumption. fold S'.
    destruct (Req_dec_T S' 0); [lra|reflexivity]. }
  split; [exact ES|]. split; [exact HS|]. split.
  - assert (E : column avg A H h
                = map (fun a => cum_r_plus t' !!! (a * H + h)%nat / S') (seq 0 A)).
    { unfold column. apply map_ext_in. intros a Ha. apply in_seq in Ha. apply Hc. lia. }
    rewrite E, sumR_map_div. fold (column (cum_r_plus t') A H h). fold S'.
    field. lra.
  - intros a Ha. split; [apply Hc, Ha|]. rewrite Hc by exact Ha.
    assert (0 <= cum_r_plus t' !!! (a * H + h)%nat).
    { rewrite Hcell by assumption. destruct (D2 a Ha) as [D2a _].
      pose proof (Hcum a Ha). fold coef. nra. }
    unfold Rdiv. apply Rmult_le_pos; [assumption|].
    apply Rlt_le, Rinv_0_lt_compat, HS.
Qed.

Lemma updateRegrets_average_distribution_witness :
  sumR (column (getAverageStrategy
                  (updateRegrets (newTrainable 2 1 1.5 0 2 1) [1; -1] 1)) 2 1 0) = 1.
Proof.
  refine (proj1 (proj2 (proj2 (updateRegrets_average_distribution
            (newTrainable 2 1 1.5 0 2 1) [1; -1] 1 0%nat _ _ eq_refl eq_refl eq_refl _ _ _)))).
  - simpl. lia.
  - lia.
  - simpl. lra.
  - intros a Ha. simpl in *. destruct a as [|[|a]]; simpl; [lra|lra|lia].
  - simpl. lia.
Defined.

(** ** The constructor and [copyStrategy] *)

(** X3 (fresh trainable). A trainable as its constructor leaves it plays
    every action with probability [1/A] for every hand, as its current and
    as its average strategy. *)
Theorem newTrainable_uniform (A H : nat) (al be ga th : R) :
  getcurrentStrategy (newTrainable A H al be ga th) = replicate (A * H) (1 / INR A) /\
  getAverageStrategy (newTrainable A H al be ga th) = replicate (A * H) (1 / INR A).
Proof.
  set (t := newTrainable A H al be ga th).
  assert (L2 : length (r_plus_sum t) = card_number t)
    by (simpl; apply length_replicate).
  destruct (getcurrentStrategyNoCache_lookup t L2) as [Lc Hc].
  destruct (getAverageStrategy_lookup t) as [La Ha].
  change (action_number t) with A in *. change (card_number t) with H in *.
  assert (Hidx : forall i, (i < A * H)%nat ->
            exists a h, (a < A)%nat /\ (h < H)%nat /\ i = (a * H + h)%nat).
  { intros i Hi. assert (H <> 0)%nat by (intros ->; lia).
    exists (i / H)%nat, (i mod H)%nat. split; [|split].
    - apply Nat.Div0.div_lt_upper_bound; lia.
    - apply Nat.mod_upper_bound; assumption.
    - rewrite (Nat.div_mod_eq i H) at 1. lia. }
  split.
  - apply list_eq_total; [rewrite length_replicate; exact Lc|].
    unfold getcurrentStrategy. rewrite Lc. intros i Hi.
    destruct (Hidx i Hi) as (a & h & Ha' & Hh & ->).
    rewrite Hc by assumption.
    rewrite lookup_total_replicate_2 by (apply index_lt; assumption).
    change (r_plus_sum t) with (replicate H 0).
    rewrite lookup_total_replicate_2 by exact Hh.
    destruct (Req_dec_T 0 0); [reflexivity|lra].
  - apply list_eq_total; [rewrite length_replicate; exact La|].
    rewrite La. intros i Hi.
    destruct (Hidx i Hi) as (a & h & Ha' & Hh & ->).
    rewrite Ha by assumption.
    rewrite lookup_total_replicate_2 by (apply index_lt; assumption).
    assert (E : sumR (column (cum_r_plus t) A H h) = 0).
    { assert (E : column (cum_r_plus t) A H h = replicate A 0).
      { unfold column. rewrite <- (map_const_seq 0 0 A). apply map_ext_in.
        intros b Hb. apply in_seq in Hb. change (cum_r_plus t) with (replicate (A * H) 0).
        apply lookup_total_replicate_2, index_lt; [lia|exact Hh]. }
      rewrite E, sumR_replicate. lra. }
    rewrite E. destruct (Req_dec_T 0 0); [reflexivity|lra].
Qed.

(** X4 ([copyStrategy] and the regret sums). [copyStrategy] takes over
    the other trainable's [r_plus] and [cum_r_plus] and nothing else: the
    average strategy of the copy is the other's, but [r_plus_sum] stays the
    target's own, so the current strategy of the copy divides the other's
    clamped regrets by the target's old sums; a target whose sums are zero
    (a fresh one) keeps the uniform current strategy whatever it copied. *)
Theorem copyStrategy_keeps_regret_sums (t other : DiscountedCfrTrainable) :
  let A := action_number t in
  let H := card_number t in
  let c := copyStrategy t other in
  action_number other = A ->
  card_number other = H ->
  length (r_plus_sum t) = H ->
  getAverageStrategy c = getAverageStrategy other /\
  r_plus_sum c = r_plus_sum t /\ evs c = evs t /\ equities c = equities t /\
  (forall a h, (a < A)%nat -> (h < H)%nat ->
     getcurrentStrategy c !!! (a * H + h)%nat =
       if Req_dec_T (r_plus_sum t !!! h) 0
       then 1 / INR A
       else max0 (r_plus other !!! (a * H + h)%nat) / r_plus_sum t !!! h) /\
  ((forall h, (h < H)%nat -> r_plus_sum t !!! h = 0) ->
   getcurrentStrategy c = replicate (A * H) (1 / INR A)).
Proof.
  intros A H c EA EH L2.
  assert (Hc := getcurrentStrategyNoCache_lookup c L2).
  change (action_number c) with A in Hc. change (card_number c) with H in Hc.
  change (r_plus_sum c) with (r_plus_sum t) in Hc.
  change (r_plus c) with (r_plus other) in Hc.
  destruct Hc as [Lc Hc].
  split; [|split; [reflexivity|split; [reflexivity|split; [reflexivity|split]]]].
  - unfold getAverageStrategy. change (action_number c) with A.
    change (card_number c) with H. change (cum_r_plus c) with (cum_r_plus other).
    rewrite EA, EH. reflexivity.
  - exact Hc.
  - intros Hz. apply list_eq_total; [rewrite length_replicate; exact Lc|].
    unfold getcurrentStrategy. rewrite Lc. intros i Hi.
    assert (H <> 0)%nat by (intros E; rewrite E in Hi; lia).
    assert (Ha : (i / H < A)%nat) by (apply Nat.Div0.div_lt_upper_bound; lia).
    assert (Hh : (i mod H < H)%nat) by (apply Nat.mod_upper_bound; assumption).
    assert (Ei : i = (i / H * H + i mod H)%nat)
      by (rewrite (Nat.div_mod_eq i H) at 1; lia).
    rewrite lookup_total_replicate_2 by exact Hi.
    rewrite Ei, Hc by assumption. rewrite Hz by exact Hh.
    destruct (Req_dec_T 0 0); [reflexivity|lra].
Qed.

Lemma copyStrategy_keeps_regret_sums_witness :
  getcurrentStrategy
    (copyStrategy (newTrainable 2 1 1.5 0 2 1)
       (mkTrainable 2 1 [] [] [3; -1] [3] [1; 1] 1.5 0 2 1))
  = replicate (2 * 1) (1 / INR 2).
Proof.
  refine (proj2 (proj2 (proj2 (proj2 (proj2 (copyStrategy_keeps_regret_sums
            (newTrainable 2 1 1.5 0 2 1)
            (mkTrainable 2 1 [] [] [3; -1] [3] [1; 1] 1.5 0 2 1)
            eq_refl eq_refl eq_refl))))) _).
  intros h Hh. simpl in Hh. destruct h as [|h]; [reflexivity|lia].
Defined.

(** X5 (an update after a copy). [updateRegrets] reads the old
    [r_plus_sum] only for its length, so the sums [copyStrategy] left
    behind do no harm: updating the copy gives the regrets, the regret sums
    and the strategy weights that updating the other trainable gives. *)
Theorem updateRegrets_after_copyStrategy (t other : DiscountedCfrTrainable)
    (regrets : list R) (iteration_number : Z) :
  let c := copyStrategy t other in
  action_number other = action_number t ->
  card_number other = card_number t ->
  length (r_plus_sum other) = length (r_plus_sum t) ->
  alpha other = alpha t -> beta other = beta t ->
  gamma other = gamma t -> theta other = theta t ->
  r_plus (updateRegrets c regrets iteration_number)
    = r_plus (updateRegrets other regrets iteration_number) /\
  r_plus_sum (updateRegrets c regrets iteration_number)
    = r_plus_sum (updateRegrets other regrets iteration_number) /\
  cum_r_plus (updateRegrets c regrets iteration_number)
    = cum_r_plus (updateRegrets other regrets iteration_number) /\
  getcurrentStrategy (updateRegrets c regrets iteration_number)
    = getcurrentStrategy (updateRegrets other regrets iteration_number) /\
  getAverageStrategy (updateRegrets c regrets iteration_number)
    = getAverageStrategy (updateRegrets other regrets iteration_number).
Proof.
  intros c EA EH EL Eal Ebe Ega Eth.
  assert (E : forall t1 t2 : DiscountedCfrTrainable,
            action_number t1 = action_number t2 -> card_number t1 = card_number t2 ->
            r_plus t1 = r_plus t2 -> length (r_plus_sum t1) = length (r_plus_sum t2) ->
            cum_r_plus t1 = cum_r_plus t2 ->
            alpha t1 = alpha t2 -> beta t1 = beta t2 ->
            gamma t1 = gamma t2 -> theta t1 = theta t2 ->
            r_plus (updateRegrets t1 regrets iteration_number)
              = r_plus (updateRegrets t2 regrets iteration_number) /\
            r_plus_sum (updateRegrets t1 regrets iteration_number)
              = r_plus_sum (updateRegrets t2 regrets iteration_number) /\
            cum_r_plus (updateRegrets t1 regrets iteration_number)
              = cum_r_plus (updateRegrets t2 regrets iteration_number) /\
            action_number (updateRegrets t1 regrets iteration_number)
              = action_number (updateRegrets t2 regrets iteration_number) /\
            card_number (updateRegrets t1 regrets iteration_number)
              = card_number (updateRegrets t2 regrets iteration_number)).
  { intros t1 t2 E1 E2 E3 E4 E5 E6 E7 E8 E9. unfold updateRegrets, fill.
    rewrite E1, E2, E3, E4, E5, E6, E7, E8, E9.
    destruct (for_range _ _ _) as [rp rps]. cbn. auto. }
  destruct (E c other) as (R1 & R2 & R3 & R4 & R5); try (symmetry; assumption);
    try reflexivity.
  split; [exact R1|]. split; [exact R2|]. split; [exact R3|]. split.
  - unfold getcurrentStrategy, getcurrentStrategyNoCache. rewrite R1, R2, R4, R5. reflexivity.
  - unfold getAverageStrategy. rewrite R3, R4, R5. reflexivity.
Qed.

Lemma updateRegrets_after_copyStrategy_witness :
  r_plus_sum (updateRegrets
                (copyStrategy (newTrainable 2 1 1.5 0 2 1)
                   (mkTrainable 2 1 [] [] [3; -1] [3] [1; 1] 1.5 0 2 1))
                [1; -1] 2)
  = r_plus_sum (updateRegrets
                  (mkTrainable 2 1 [] [] [3; -1] [3] [1; 1] 1.5 0 2 1) [1; -1] 2).
Proof.
  exact (proj1 (proj2 (updateRegrets_after_copyStrategy
           (newTrainable 2 1 1.5 0 2 1)
           (mkTrainable 2 1 [] [] [3; -1] [3] [1; 1] 1.5 0 2 1) [1; -1] 2
           eq_refl eq_refl eq_refl eq_refl eq_refl eq_refl eq_refl))).
Defined.

(** ** The ranges of the constructor *)

(** A hand is kept when it does not overlap the board. *)
Lemma noDuplicateRange_loop (hashCode : PrivateCards -> Z) (board_long : Z)
    (l range_array : list PrivateCards) (rangekv : gmap Z bool) :
  let keep := fun h => negb (boardsHasIntercept (toBoardLong h) board_long) in
  let fresh := NoDup (map hashCode l) /\
               forall h, In h l -> rangekv !! hashCode h = None in
  match
    for_each l (fun one_range '(range_array, rangekv) =>
        if decide (is_Some ((rangekv : gmap Z bool) !! hashCode one_range))
        then Throw "duplicated key"
        else
          let rangekv := <[hashCode one_range := true]> rangekv in
          let hand_long := boardInts2long (get_hands one_range) in
          if negb (boardsHasIntercept hand_long board_long)
          then Ok (range_array ++ [one_range], rangekv)
          else Ok (range_array, rangekv))
      (range_array, rangekv)
  with
  | Ok (range_array', _) => fresh /\ range_array' = range_array ++ List.filter keep l
  | Throw _ => ~ fresh
  end.
Proof.
  intros keep. revert range_array rangekv.
  induction l as [|x l IH]; intros range_array rangekv fresh.
  - simpl. split; [split; [constructor|intros h []]|]. rewrite app_nil_r. reflexivity.
  - cbn [for_each].
    destruct (decide (is_Some (rangekv !! hashCode x))) as [Hs|Hn].
    + intros [_ Hf]. rewrite (Hf x (or_introl eq_refl)) in Hs.
      destruct Hs as [? ?]. discriminate.
    + assert (Hx : rangekv !! hashCode x = None).
      { destruct (rangekv !! hashCode x) eqn:E; [|reflexivity].
        exfalso. apply Hn. eexists. reflexivity. }
      cbv zeta.
      change (boardInts2long (get_hands x)) with (toBoardLong x).
      fold (keep x).
      assert (Hstep : forall arr,
        match
          for_each l (fun one_range '(range_array, rangekv) =>
              if decide (is_Some ((rangekv : gmap Z bool) !! hashCode one_range))
              then Throw "duplicated key"
              else
                let rangekv := <[hashCode one_range := true]> rangekv in
                let hand_long := boardInts2long (get_hands one_range) in
                if negb (boardsHasIntercept hand_long board_long)
                then Ok (range_array ++ [one_range], rangekv)
                else Ok (range_array, rangekv))
            (arr, <[hashCode x := true]> rangekv)
        with
        | Ok (range_array', _) => fresh /\ range_array' = arr ++ List.filter keep l
        | Throw _ => ~ fresh
        end).
      { intros arr. specialize (IH arr (<[hashCode x := true]> rangekv)).
        cbv zeta in IH. destruct (for_each l _ _) as [[arr' kv']|what].
        - destruct IH as [[Hnd Hf] ->]. split; [|reflexivity]. split.
          + cbn [map]. apply NoDup_cons. split; [|exact Hnd].
            intros Hin. apply list_elem_of_In, in_map_iff in Hin.
            destruct Hin as (h & Eh & Hh). specialize (Hf h Hh).
            rewrite Eh, lookup_insert_eq in Hf. discriminate.
          + intros h [<-|Hh]; [exact Hx|]. specialize (Hf h Hh).
            destruct (decide (hashCode x = hashCode h)) as [E|E].
            * rewrite E, lookup_insert_eq in Hf. discriminate.
            * rewrite lookup_insert_ne in Hf by exact E. exact Hf.
        - intros [Hnd Hf]. apply IH. cbn [map] in Hnd.
          apply NoDup_cons in Hnd as [Hnx Hnd]. split; [exact Hnd|].
          intros h Hh. rewrite lookup_insert_ne; [apply Hf; right; exact Hh|].
          intros E. apply Hnx. rewrite E. apply list_elem_of_In, in_map, Hh. }
      destruct (keep x) eqn:Ek; cbn [negb].
      * specialize (Hstep (range_array ++ [x])).
        destruct (for_each l _ _) as [[arr' kv']|what]; [|exact Hstep].
        destruct Hstep as [Hf ->]. split; [exact Hf|].
        cbn [List.filter]. rewrite Ek, <- app_assoc. reflexivity.
      * specialize (Hstep range_array).
        destruct (for_each l _ _) as [[arr' kv']|what]; [|exact Hstep].
        destruct Hstep as [Hf ->]. split; [exact Hf|].
        cbn [List.filter]. rewrite Ek. reflexivity.
Qed.

(** The two outcomes of [noDuplicateRange]. *)
Lemma noDuplicateRange_cases (hashCode : PrivateCards -> Z)
    (private_range : list PrivateCards) (board_long : Z) :
  let keep := fun h => negb (boardsHasIntercept (toBoardLong h) board_long) in
  (NoDup (map hashCode private_range) ->
     noDuplicateRange hashCode private_range board_long
       = Ok (List.filter keep private_range)) /\
  (~ NoDup (map hashCode private_range) ->
     exists what, noDuplicateRange hashCode private_range board_long = Throw what).
Proof.
  intros keep.
  pose proof (noDuplicateRange_loop hashCode board_long private_range [] empty) as L.
  cbv zeta in L. unfold noDuplicateRange.
  destruct (for_each private_range _ _) as [[arr kv]|what].
  - destruct L as [[Hnd _] ->]. split; [reflexivity|]. intros N. contradiction.
  - split.
    + intros Hnd. exfalso. apply L. split; [exact Hnd|].
      intros h _. apply lookup_empty.
    + intros _. eexists. reflexivity.
Qed.

Lemma filter_sublist {A : Type} (keep : A -> bool) (l : list A) :
  sublist (List.filter keep l) l.
Proof.
  induction l as [|x l IH]; cbn [List.filter]; [constructor|].
  destruct (keep x); [apply sublist_skip, IH|apply sublist_cons, IH].
Qed.

Lemma filter_filter_same {A : Type} (keep : A -> bool) (l : list A) :
  List.filter keep (List.filter keep l) = List.filter keep l.
Proof.
  induction l as [|x l IH]; cbn [List.filter]; [reflexivity|].
  destruct (keep x) eqn:E; cbn [List.filter]; [rewrite E; f_equal|]; exact IH.
Qed.

(** What an accepted range looks like. *)
Lemma noDuplicateRange_accepted (hashCode : PrivateCards -> Z)
    (private_range range_array : list PrivateCards) (board_long : Z) :
  noDuplicateRange hashCode private_range board_long = Ok range_array ->
  range_array
    = List.filter (fun h => negb (boardsHasIntercept (toBoardLong h) board_long))
        private_range /\
  NoDup (map hashCode private_range) /\
  NoDup (map hashCode range_array).
Proof.
  intros HOk.
  destruct (noDuplicateRange_cases hashCode private_range board_long) as [Hyes Hno].
  assert (Hnd : NoDup (map hashCode private_range)).
  { destruct (decide (NoDup (map hashCode private_range))) as [Y|N]; [exact Y|].
    destruct (Hno N) as [what E]. rewrite E in HOk. discriminate. }
  rewrite (Hyes Hnd) in HOk. injection HOk as <-.
  split; [reflexivity|]. split; [exact Hnd|].
  eapply sublist_NoDup; [exact Hnd|apply (fmap_sublist hashCode), filter_sublist].
Qed.

Lemma keys_distinct_hands (hashCode : PrivateCards -> Z) (l : list PrivateCards) :
  (forall a b, same_hand a b = true -> hashCode a = hashCode b) ->
  NoDup (map hashCode l) ->
  ForallOrdPairs (fun a b => same_hand a b = false) l.
Proof.
  intros Hkey. induction l as [|x l IH]; intros Hnd; [constructor|].
  cbn [map] in Hnd. apply NoDup_cons in Hnd as [Hx Hnd].
  constructor; [|apply IH, Hnd].
  apply Forall_forall. intros y Hy.
  destruct (same_hand x y) eqn:E; [|reflexivity].
  exfalso. apply Hx. rewrite (Hkey x y E).
  apply list_elem_of_In, in_map, list_elem_of_In, Hy.
Qed.

(** X6 ([noDuplicateRange]). The range is accepted exactly when no two of
    its hands have the same key, whether they overlap the board or not. An
    accepted range comes back without the hands that overlap the board, the
    others in their order: it holds no hand on the board, its keys are
    different, and filtering it again changes nothing. *)
Theorem noDuplicateRange_filters_board (hashCode : PrivateCards -> Z)
    (private_range : list PrivateCards) (board_long : Z) :
  let keep := fun h => negb (boardsHasIntercept (toBoardLong h) board_long) in
  (NoDup (map hashCode private_range) ->
     noDuplicateRange hashCode private_range board_long
       = Ok (List.filter keep private_range)) /\
  (~ NoDup (map hashCode private_range) ->
     exists what, noDuplicateRange hashCode private_range board_long = Throw what) /\
  (forall range_array,
     noDuplicateRange hashCode private_range board_long = Ok range_array ->
     Forall (fun h => boardsHasIntercept (toBoardLong h) board_long = false)
       range_array /\
     NoDup (map hashCode range_array) /\
     sublist range_array private_range /\
     noDuplicateRange hashCode range_array board_long = Ok range_array).
Proof.
  intros keep.
  destruct (noDuplicateRange_cases hashCode private_range board_long) as [Hyes Hno].
  split; [exact Hyes|]. split; [exact Hno|].
  intros range_array HOk.
  destruct (noDuplicateRange_accepted hashCode private_range range_array board_long HOk)
    as (-> & Hnd & Hnd').
  fold keep in Hnd' |- *.
  split; [|split; [exact Hnd'|split; [apply filter_sublist|]]].
  - apply Forall_forall. intros h Hh.
    apply list_elem_of_In, filter_In in Hh as [_ Hk].
    unfold keep in Hk. apply negb_true_iff in Hk. exact Hk.
  - destruct (noDuplicateRange_cases hashCode (List.filter keep private_range) board_long)
      as [Hyes' _].
    rewrite (Hyes' Hnd'). f_equal. apply filter_filter_same.
Qed.

(** ** The deals that share a trainable *)

(** A loop that appends the image of every index of [l] that is not
    skipped. *)
Lemma append_loop {A B : Type} (skip : A -> bool) (f : A -> B) (l : list A)
    (acc : list B) :
  fold_left (fun acc i => if skip i then acc else acc ++ [f i]) l acc
  = acc ++ map f (List.filter (fun x => negb (skip x)) l).
Proof.
  revert acc. induction l as [|x l IH]; intros acc; cbn [fold_left List.filter map].
  - rewrite app_nil_r. reflexivity.
  - rewrite IH. destruct (skip x); cbn [negb map]; [reflexivity|].
    rewrite <- app_assoc. reflexivity.
Qed.

Lemma fold_left_seq_shift {S : Type} (g : nat -> S -> S) (o n : nat) (s : S) :
  fold_left (fun acc i => g (o + i)%nat acc) (seq 0 n) s
  = fold_left (fun acc i => g i acc) (seq o n) s.
Proof.
  rewrite (fold_left_mapped g (fun i => (o + i)%nat)).
  f_equal. transitivity (seq (o + 0) n); [|f_equal; lia]. generalize 0%nat.
  induction n as [|n IH]; intros k; cbn [seq map]; [reflexivity|].
  f_equal. rewrite <- Nat.add_succ_r. apply IH.
Qed.

Lemma fold_left_ext_in {A S : Type} (F G : S -> A -> S) (l : list A) (s : S) :
  (forall x acc, In x l -> F acc x = G acc x) ->
  fold_left F l s = fold_left G l s.
Proof.
  revert s. induction l as [|x l IH]; intros s E; [reflexivity|].
  cbn [fold_left]. rewrite (E x s (or_introl eq_refl)).
  apply IH. intros y acc Hy. apply E. right. exact Hy.
Qed.

Lemma fold_left_list_prod {S : Type} (G : nat -> nat -> S -> S) (l1 l2 : list nat)
    (s : S) :
  fold_left (fun acc p => G (fst p) (snd p) acc) (list_prod l1 l2) s
  = fold_left (fun acc x => fold_left (fun acc y => G x y acc) l2 acc) l1 s.
Proof.
  revert s. induction l1 as [|x l1 IH]; intros s; [reflexivity|].
  cbn [list_prod fold_left]. rewrite fold_left_app, IH. f_equal.
  rewrite <- (fold_left_mapped (fun p acc => G (fst p) (snd p) acc) (fun y => (x, y))).
  reflexivity.
Qed.

Lemma group_of_four (a x : nat) :
  In x (seq (a / 4 * 4) 4) <-> (x / 4 = a / 4)%nat.
Proof.
  rewrite in_seq. split.
  - intros Hx. symmetry. apply (Nat.div_unique x 4 (a / 4) (x - a / 4 * 4)); lia.
  - intros E. pose proof (Nat.div_mod_eq x 4). pose proof (Nat.mod_upper_bound x 4).
    lia.
Qed.

Lemma group_in_deck (n a x : nat) :
  (n mod 4 = 0)%nat -> (a < n)%nat -> In x (seq (a / 4 * 4) 4) -> (x < n)%nat.
Proof.
  intros Hn Ha Hx. apply in_seq in Hx.
  pose proof (Nat.div_mod_eq n 4). pose proof (Nat.div_mod_eq a 4).
  pose proof (Nat.mod_upper_bound a 4).
  assert (a / 4 < n / 4)%nat by (apply Nat.Div0.div_lt_upper_bound; lia).
  nia.
Qed.

(** The class of a one-card deal. *)
Lemma abstraction_deals_one_card (this : PCfrSolver) (a : nat) :
  let card_num := length (deck this) in
  (card_num mod 4 = 0)%nat ->
  (a < card_num)%nat ->
  getAllAbstractionDeal this (one_card_deal a) =
    map one_card_deal
      (List.filter (fun x => negb (on_initial_board this x)) (seq (a / 4 * 4) 4)).
Proof.
  intros card_num _ Ha. unfold getAllAbstractionDeal, one_card_deal.
  fold card_num.
  replace (a + 1 =? 0)%nat with false by (symmetry; apply Nat.eqb_neq; lia).
  replace ((0 <? a + 1) && (a + 1 <=? card_num))%nat with true
    by (symmetry; apply andb_true_iff; split;
        [apply Nat.ltb_lt|apply Nat.leb_le]; lia).
  replace (a + 1 - 1)%nat with a by lia.
  unfold for_range.
  rewrite (fold_left_seq_shift
             (fun x all_deal =>
                if boardsHasIntercept (boardInt2long (deck this !!! x))
                     (initial_board_long this)
                then all_deal else all_deal ++ [(x + 1)%nat]) (a / 4 * 4) 4).
  rewrite (append_loop (on_initial_board this) (fun x => (x + 1)%nat)).
  reflexivity.
Qed.

Lemma two_card_deal_decode (n a b : nat) :
  (b < n)%nat ->
  ((two_card_deal n a b - (1 + n)) / n = a)%nat /\
  ((two_card_deal n a b - (1 + n)) mod n = b)%nat.
Proof.
  intros Hb. unfold two_card_deal.
  replace (n * a + b + 1 + n - (1 + n))%nat with (a * n + b)%nat by lia.
  split.
  - rewrite Nat.div_add_l by lia. rewrite Nat.div_small by exact Hb. lia.
  - rewrite Nat.add_comm, Nat.Div0.mod_add. apply Nat.mod_small, Hb.
Qed.

(** The class of a two-card deal. *)
Lemma abstraction_deals_two_cards (this : PCfrSolver) (a b : nat) :
  let card_num := length (deck this) in
  (card_num mod 4 = 0)%nat ->
  (a < card_num)%nat ->
  (b < card_num)%nat ->
  getAllAbstractionDeal this (two_card_deal card_num a b) =
    map (fun p => two_card_deal card_num (fst p) (snd p))
      (List.filter
         (fun p => negb (fst p =? snd p)%nat
                   && negb (on_initial_board this (fst p))
                   && negb (on_initial_board this (snd p)))
         (list_prod (seq (a / 4 * 4) 4) (seq (b / 4 * 4) 4))).
Proof.
  intros card_num Hn Ha Hb. unfold getAllAbstractionDeal. fold card_num.
  destruct (two_card_deal_decode card_num a b Hb) as [Ea Eb].
  replace (two_card_deal card_num a b =? 0)%nat with false
    by (symmetry; apply Nat.eqb_neq; unfold two_card_deal; lia).
  replace ((0 <? two_card_deal card_num a b)
           && (two_card_deal card_num a b <=? card_num))%nat with false
    by (symmetry; apply andb_false_iff; right; apply Nat.leb_gt;
        unfold two_card_deal; lia).
  rewrite Ea, Eb.
  set (f := (a / 4 * 4)%nat). set (s := (b / 4 * 4)%nat).
  assert (Hf : (f mod 4 = 0)%nat) by (unfold f; apply Nat.Div0.mod_mul).
  assert (Hs : (s mod 4 = 0)%nat) by (unfold s; apply Nat.Div0.mod_mul).
  assert (Hsame : forall i j, (i < 4)%nat -> (j < 4)%nat ->
            ((f =? s) && (i =? j))%nat = (f + i =? s + j)%nat).
  { intros i j Hi Hj.
    pose proof (Nat.div_mod_eq f 4). pose proof (Nat.div_mod_eq s 4).
    destruct (Nat.eqb_spec f s) as [E|N]; destruct (Nat.eqb_spec i j) as [E'|N'];
      cbn [andb]; symmetry;
      [apply Nat.eqb_eq|apply Nat.eqb_neq|apply Nat.eqb_neq|apply Nat.eqb_neq]; lia. }
  set (skip := fun p : nat * nat =>
                 negb (negb (fst p =? snd p)%nat
                       && negb (on_initial_board this (fst p))
                       && negb (on_initial_board this (snd p)))).
  assert (Hbody : forall i j all_deal, (i < 4)%nat -> (j < 4)%nat ->
    (if ((f =? s) && (i =? j))%nat then all_deal
     else if boardsHasIntercept (boardInt2long (deck this !!! (f + i)%nat))
               (initial_board_long this) then all_deal
     else if boardsHasIntercept (boardInt2long (deck this !!! (s + j)%nat))
               (initial_board_long this) then all_deal
     else all_deal ++ [(card_num * (f + i) + (s + j) + 1 + card_num)%nat])
    = if skip ((f + i)%nat, (s + j)%nat) then all_deal
      else all_deal ++ [two_card_deal card_num (f + i) (s + j)]).
  { intros i j all_deal Hi Hj. rewrite (Hsame i j Hi Hj).
    unfold skip, on_initial_board, two_card_deal. cbn [fst snd].
    destruct (f + i =? s + j)%nat; cbn [negb andb]; [reflexivity|].
    destruct (boardsHasIntercept (boardInt2long (deck this !!! (f + i)%nat)) _);
      cbn [negb andb]; [reflexivity|].
    destruct (boardsHasIntercept (boardInt2long (deck this !!! (s + j)%nat)) _);
      reflexivity. }
  transitivity
    (fold_left (fun acc p => if skip p then acc
                             else acc ++ [two_card_deal card_num (fst p) (snd p)])
       (list_prod (seq f 4) (seq s 4)) []).
  - rewrite (fold_left_list_prod
               (fun x y acc => if skip (x, y) then acc
                               else acc ++ [two_card_deal card_num x y])).
    unfold for_range.
    rewrite <- (fold_left_seq_shift
                  (fun x acc =>
                     fold_left (fun acc y => if skip (x, y) then acc
                                             else acc ++ [two_card_deal card_num x y])
                       (seq s 4) acc) f 4).
    apply fold_left_ext_in. intros i acc Hi. apply in_seq in Hi.
    rewrite <- (fold_left_seq_shift
                  (fun y acc => if skip ((f + i)%nat, y) then acc
                                else acc ++ [two_card_deal card_num (f + i) y]) s 4).
    apply fold_left_ext_in. intros j acc' Hj. apply in_seq in Hj.
    apply Hbody; lia.
  - rewrite (append_loop skip (fun p => two_card_deal card_num (fst p) (snd p))).
    cbn [app]. f_equal. apply filter_ext. intros p. unfold skip.
    apply negb_involutive.
Qed.

(** X7 (the deals of a class). The deals that share a trainable with a
    deal during warmup: the root deal 0 stands alone; for the deal of one
    card they are the deals of the cards of the same group of four in the
    deck, those on the initial board left out, in ascending order; for the
    deal of the cards at [a] and then [b] they are the deals of a card of
    [a]'s group and then a card of [b]'s group, for every pair of two
    different cards that are both off the initial board, ordered by the
    first card and then the second. *)
Theorem getAllAbstractionDeal_same_groups (this : PCfrSolver) (a b : nat) :
  let card_num := length (deck this) in
  (card_num mod 4 = 0)%nat ->
  (a < card_num)%nat ->
  (b < card_num)%nat ->
  getAllAbstractionDeal this 0%nat = [0%nat] /\
  getAllAbstractionDeal this (one_card_deal a) =
    map one_card_deal
      (List.filter (fun x => negb (on_initial_board this x)) (seq (a / 4 * 4) 4)) /\
  getAllAbstractionDeal this (two_card_deal card_num a b) =
    map (fun p => two_card_deal card_num (fst p) (snd p))
      (List.filter
         (fun p => negb (fst p =? snd p)%nat
                   && negb (on_initial_board this (fst p))
                   && negb (on_initial_board this (snd p)))
         (list_prod (seq (a / 4 * 4) 4) (seq (b / 4 * 4) 4))).
Proof.
  intros card_num Hn Ha Hb. split; [reflexivity|]. split.
  - apply abstraction_deals_one_card; assumption.
  - apply abstraction_deals_two_cards; assumption.
Qed.

Lemma getAllAbstractionDeal_same_groups_witness :
  getAllAbstractionDeal two_rank_solver (one_card_deal 2) = [1; 3; 4]%nat.
Proof.
  exact (proj1 (proj2 (getAllAbstractionDeal_same_groups two_rank_solver 2 5
                         eq_refl ltac:(simpl; lia) ltac:(simpl; lia)))).
Defined.

(** Every deal up to the last two-card deal is the root deal, a one-card
    deal or a two-card deal. *)
Lemma deal_cases (n deal : nat) :
  (0 < n)%nat -> (deal <= n + n * n)%nat ->
  deal = 0%nat \/
  (exists a, (a < n)%nat /\ deal = one_card_deal a) \/
  (exists a b, (a < n)%nat /\ (b < n)%nat /\ deal = two_card_deal n a b).
Proof.
  intros Hn Hd. unfold one_card_deal, two_card_deal.
  destruct (Nat.eq_dec deal 0%nat) as [->|N0]; [left; reflexivity|right].
  destruct (le_lt_dec deal n) as [Hle|Hgt].
  - left. exists (deal - 1)%nat. lia.
  - right. exists ((deal - (1 + n)) / n)%nat, ((deal - (1 + n)) mod n)%nat.
    split; [|split].
    + apply Nat.Div0.div_lt_upper_bound. lia.
    + apply Nat.mod_upper_bound. lia.
    + pose proof (Nat.div_mod_eq (deal - (1 + n)) n). lia.
Qed.

Lemma same_group (a x : nat) :
  In x (seq (a / 4 * 4) 4) -> (x / 4 * 4 = a / 4 * 4)%nat.
Proof. intros Hx. apply group_of_four in Hx. rewrite Hx. reflexivity. Qed.

(** X8 (classes are closed). With a deck of a multiple of four cards,
    every deal that [getAllAbstractionDeal] lists for a deal of at most two
    cards is again such a deal and has the same list itself: all the deals
    of a class agree on the class and on its first element. *)
Theorem getAllAbstractionDeal_class_closed (this : PCfrSolver) (deal deal' : nat) :
  let card_num := length (deck this) in
  (0 < card_num)%nat ->
  (card_num mod 4 = 0)%nat ->
  (deal <= card_num + card_num * card_num)%nat ->
  In deal' (getAllAbstractionDeal this deal) ->
  (deal' <= card_num + card_num * card_num)%nat /\
  getAllAbstractionDeal this deal' = getAllAbstractionDeal this deal.
Proof.
  intros card_num. subst card_num. set (card_num := length (deck this)).
  intros Hpos Hn Hd Hin.
  destruct (deal_cases card_num deal Hpos Hd)
    as [->|[(a & Ha & ->)|(a & b & Ha & Hb & ->)]].
  - destruct Hin as [<-|[]]. split; [lia|reflexivity].
  - rewrite (abstraction_deals_one_card this a Hn Ha) in Hin |- *.
    apply in_map_iff in Hin. destruct Hin as (x & <- & Hx).
    apply filter_In in Hx as [Hx _].
    pose proof (group_in_deck card_num a x Hn Ha Hx) as Hxn.
    split; [unfold one_card_deal; nia|].
    rewrite (abstraction_deals_one_card this x Hn Hxn), (same_group a x Hx).
    reflexivity.
  - pose proof (abstraction_deals_two_cards this a b Hn Ha Hb) as E.
    fold card_num in E. rewrite E in Hin |- *. clear E.
    apply in_map_iff in Hin. destruct Hin as ([x y] & <- & Hxy).
    apply filter_In in Hxy as [Hxy _]. apply in_prod_iff in Hxy as [Hx Hy].
    cbn [fst snd].
    pose proof (group_in_deck card_num a x Hn Ha Hx) as Hxn.
    pose proof (group_in_deck card_num b y Hn Hb Hy) as Hyn.
    split; [unfold two_card_deal; nia|].
    pose proof (abstraction_deals_two_cards this x y Hn Hxn Hyn) as E.
    fold card_num in E. rewrite E.
    rewrite (same_group a x Hx), (same_group b y Hy). reflexivity.
Qed.

Lemma getAllAbstractionDeal_class_closed_witness :
  getAllAbstractionDeal two_rank_solver 3 = getAllAbstractionDeal two_rank_solver 1.
Proof.
  refine (proj2 (getAllAbstractionDeal_class_closed two_rank_solver 1 3 _ _ _ _)).
  - simpl. lia.
  - reflexivity.
  - simpl. lia.
  - vm_compute. right. left. reflexivity.
Defined.

(** X9 (a deal is in its own class). The deal of a card that is off the
    initial board belongs to its own class, and so does the deal of two
    different cards that are both off the board: the class of such a deal
    is never empty. *)
Theorem getAllAbstractionDeal_contains_deal (this : PCfrSolver) (a b : nat) :
  let card_num := length (deck this) in
  (card_num mod 4 = 0)%nat ->
  (a < card_num)%nat ->
  (b < card_num)%nat ->
  on_initial_board this a = false ->
  In (one_card_deal a) (getAllAbstractionDeal this (one_card_deal a)) /\
  (a <> b -> on_initial_board this b = false ->
   In (two_card_deal card_num a b)
      (getAllAbstractionDeal this (two_card_deal card_num a b))).
Proof.
  intros card_num Hn Ha Hb Hoa.
  assert (Hg : forall x, In x (seq (x / 4 * 4) 4)).
  { intros x. apply group_of_four. reflexivity. }
  split.
  - rewrite (abstraction_deals_one_card this a Hn Ha).
    apply in_map, filter_In. split; [apply Hg|]. rewrite Hoa. reflexivity.
  - intros Hab Hob.
    pose proof (abstraction_deals_two_cards this a b Hn Ha Hb) as E.
    fold card_num in E. rewrite E.
    apply (in_map (fun p => two_card_deal card_num (fst p) (snd p)) _ (a, b)).
    apply filter_In. split; [apply in_prod; apply Hg|].
    cbn [fst snd]. rewrite Hoa, Hob.
    replace (a =? b)%nat with false by (symmetry; apply Nat.eqb_neq; exact Hab).
    reflexivity.
Qed.

Lemma getAllAbstractionDeal_contains_deal_witness :
  In (one_card_deal 2) (getAllAbstractionDeal two_rank_solver (one_card_deal 2)).
Proof.
  refine (proj1 (getAllAbstractionDeal_contains_deal two_rank_solver 2 5 _ _ _ _)).
  - reflexivity.
  - simpl. lia.
  - simpl. lia.
  - vm_compute. reflexivity.
Defined.

(** ** The action node *)

Lemma map_seq_lookup {A : Type} `{Inhabited A} (g : nat -> A) (n i : nat) :
  (i < n)%nat -> map g (seq 0 n) !!! i = g i.
Proof.
  intros Hi. rewrite list_lookup_total_alt, list_lookup_fmap, lookup_seq_lt by exact Hi.
  reflexivity.
Qed.

(** A loop that writes every cell of a fresh vector once. *)
Lemma for_range_tabulate {A : Type} `{Inhabited A} (n : nat) (g : nat -> A) (d : A) :
  for_range n (fun i v => <[i := g i]> v) (replicate n d) = map g (seq 0 n).
Proof.
  pose (P := fun (k : nat) (v : list A) =>
      length v = n /\ forall h, (h < k)%nat -> v !!! h = g h).
  assert (Inv : P n (for_range n (fun i v => <[i := g i]> v) (replicate n d))).
  { apply (for_range_ind P).
    - split; [apply length_replicate|]. intros h Hh. lia.
    - intros k v Hk [Hl Hv]. split; [rewrite length_insert; exact Hl|].
      intros h Hh. destruct (Nat.eq_dec h k) as [->|Hne].
      + apply list_lookup_total_insert_eq. lia.
      + rewrite list_lookup_total_insert_ne by congruence. apply Hv. lia. }
  destruct Inv as [Hl Hv].
  apply list_eq_total; [rewrite Hl, length_map, length_seq; reflexivity|].
  rewrite Hl. intros i Hi. rewrite Hv, map_seq_lookup by exact Hi. reflexivity.
Qed.

(** X10 ([getReachProbs]). The call never throws: it returns one vector
    per player, the first with the weights of the hands of [range1] in
    their order, the second with those of [range2]. *)
Theorem getReachProbs_weights (this : PCfrSolver) :
  getReachProbs this = Ok [map weight (range1 this); map weight (range2 this)].
Proof.
  unfold getReachProbs. cbn [seq for_each playerHands replicate].
  rewrite !(for_range_tabulate _ (fun i => weight (_ !!! i)) 0), !map_lookups.
  reflexivity.
Qed.

Lemma action_reach_probs_scaled (current_strategy reach_probs : list R) (H a : nat) :
  action_reach_probs current_strategy reach_probs H a
  = scaled_reach current_strategy reach_probs H a.
Proof.
  unfold action_reach_probs, scaled_reach.
  apply (for_range_tabulate (length reach_probs)
           (fun hand_id => reach_probs !!! hand_id
                           * current_strategy !!! (hand_id + a * H)%nat)).
Qed.

Lemma call_in_order_length {State : Type}
    (cfr : nat -> list R -> State -> Result (CfrResult * State))
    (reach : nat -> list R) (ids : list nat) (st st' : State) (rs : list CfrResult) :
  call_in_order cfr reach ids st = Ok (rs, st') -> length rs = length ids.
Proof.
  revert st rs. induction ids as [|a ids IH]; intros st rs E; cbn [call_in_order] in E.
  - injection E as <- _. reflexivity.
  - destruct (cfr a (reach a) st) as [[r st1]|w]; [|discriminate].
    destruct (call_in_order cfr reach ids st1) as [[rs1 st2]|w] eqn:E1; [|discriminate].
    injection E as <- <-. cbn [length]. f_equal. apply (IH st1 rs1 E1).
Qed.

Lemma action_children_in_order {State : Type}
    (cfr : nat -> list R -> State -> Result (CfrResult * State))
    (this : PCfrSolver) (player : nat) (node : ActionNode)
    (current_strategy reach_probs : list R) (st : State) :
  action_children State cfr this player node current_strategy reach_probs st
  = call_in_order cfr (child_reach this player node current_strategy reach_probs)
      (seq 0 (length (getActions node))) st.
Proof.
  unfold action_children.
  set (A := length (getActions node)).
  set (reach := child_reach this player node current_strategy reach_probs).
  set (body := fun (action_id : nat) (x : list CfrResult * State) => _).
  assert (Hbody : forall a results st,
            body a (results, st) =
              match cfr a (reach a) st with
              | Throw what => Throw what
              | Ok (child_result, st) => Ok (<[a := child_result]> results, st)
              end).
  { intros a results st0. unfold body, reach, child_reach.
    rewrite action_reach_probs_scaled. reflexivity. }
  assert (G : forall m k (done : list CfrResult) st,
            length done = k ->
            for_each (seq k m) body (done ++ replicate m (mkCfrResult [] []), st)
            = match call_in_order cfr reach (seq k m) st with
              | Throw what => Throw what
              | Ok (rs, st') => Ok (done ++ rs, st')
              end).
  { induction m as [|m IH]; intros k done st0 Hk.
    - reflexivity.
    - cbn [seq for_each call_in_order]. rewrite Hbody.
      destruct (cfr k (reach k) st0) as [[r st1]|w]; [|reflexivity].
      replace (<[k := r]> (done ++ replicate (S m) (mkCfrResult [] [])))
        with ((done ++ [r]) ++ replicate m (mkCfrResult [] [])).
      + rewrite (IH (S k) (done ++ [r]) st1) by (rewrite length_app; cbn; lia).
        destruct (call_in_order cfr reach (seq (S k) m) st1) as [[rs st2]|w];
          [|reflexivity].
        rewrite <- app_assoc. reflexivity.
      + rewrite insert_app_r_alt by lia. rewrite Hk, Nat.sub_diag.
        rewrite <- app_assoc. reflexivity. }
  specialize (G A 0%nat [] st eq_refl). cbn [app] in G. rewrite G.
  destruct (call_in_order cfr reach (seq 0 A) st) as [[rs st']|w]; reflexivity.
Qed.

(** The inner loop of the accumulation: every hand's cell of [payoffs]
    and, when the child has an equity, of [total_equity] takes its term. *)
Lemma pair_add_loop (n : nat) (c e : nat -> R) (b : bool)
    (body : nat -> list R * list R -> list R * list R) (pay0 eq0 : list R) :
  (forall h pay eq,
     body h (pay, eq) =
       (<[h := pay !!! h + c h]> pay,
        if b then <[h := eq !!! h + e h]> eq else eq)) ->
  (n <= length pay0)%nat ->
  (b = true -> n <= length eq0)%nat ->
  let r := for_range n body (pay0, eq0) in
  length (fst r) = length pay0 /\ length (snd r) = length eq0 /\
  (forall h, fst r !!! h = if (h <? n)%nat then pay0 !!! h + c h else pay0 !!! h) /\
  (forall h, snd r !!! h =
     if b && (h <? n)%nat then eq0 !!! h + e h else eq0 !!! h).
Proof.
  intros Hbody Hn He.
  pose (P := fun (k : nat) (r : list R * list R) =>
      length (fst r) = length pay0 /\ length (snd r) = length eq0 /\
      (forall h, fst r !!! h = if (h <? k)%nat then pay0 !!! h + c h else pay0 !!! h) /\
      (forall h, snd r !!! h =
         if b && (h <? k)%nat then eq0 !!! h + e h else eq0 !!! h)).
  apply (for_range_ind P).
  - unfold P. cbn [fst snd]. split; [reflexivity|]. split; [reflexivity|].
    split; intros h; [reflexivity|]. rewrite andb_false_r. reflexivity.
  - intros k [pay eq] Hk (L1 & L2 & C1 & C2). cbn [fst snd] in *.
    rewrite Hbody. unfold P. cbn [fst snd].
    split; [rewrite length_insert; exact L1|].
    split; [destruct b; [rewrite length_insert|]; exact L2|].
    split.
    + intros h. destruct (Nat.eq_dec h k) as [->|Hne].
      * rewrite list_lookup_total_insert_eq by lia.
        rewrite (proj2 (Nat.ltb_lt k (S k))) by lia.
        rewrite C1, (proj2 (Nat.ltb_ge k k)) by lia. reflexivity.
      * rewrite list_lookup_total_insert_ne by congruence. rewrite C1.
        destruct (Nat.ltb_spec h k), (Nat.ltb_spec h (S k)); try lia; reflexivity.
    + intros h. destruct b; cbn [andb].
      * specialize (He eq_refl).
        destruct (Nat.eq_dec h k) as [->|Hne].
        -- rewrite list_lookup_total_insert_eq by lia.
           rewrite (proj2 (Nat.ltb_lt k (S k))) by lia.
           rewrite C2. cbn [andb]. rewrite (proj2 (Nat.ltb_ge k k)) by lia. reflexivity.
        -- rewrite list_lookup_total_insert_ne by congruence. rewrite C2. cbn [andb].
           destruct (Nat.ltb_spec h k), (Nat.ltb_spec h (S k)); try lia; reflexivity.
      * rewrite C2. reflexivity.
Qed.

Lemma insert_next {A : Type} (done : list A) (x d : A) (m : nat) :
  <[length done := x]> (done ++ replicate (S m) d) = (done ++ [x]) ++ replicate m d.
Proof.
  rewrite insert_app_r_alt by lia. rewrite Nat.sub_diag, <- app_assoc. reflexivity.
Qed.

Lemma take_next {A : Type} `{Inhabited A} (l : list A) (k : nat) :
  (k < length l)%nat -> take (S k) l = take k l ++ [l !!! k].
Proof.
  intros Hk. apply take_S_r, list_lookup_lookup_total_lt, Hk.
Qed.

Lemma length_zero_nil {A : Type} (l : list A) : length l = 0%nat -> l = [].
Proof. destruct l; [reflexivity|discriminate]. Qed.

(** The second loop of [actionUtility], when every child returned a value
    for every hand of the traversing player. *)
Lemma action_accumulate_spec (this : PCfrSolver) (player : nat) (node : ActionNode)
    (sigma : list R) (results : list CfrResult) :
  let A := length (getActions node) in
  let H := length (ranges this (getPlayer node)) in
  let n := length (ranges this player) in
  let w := action_weight player node sigma H in
  length results = A ->
  (forall a, (a < A)%nat -> length (payoffs (results !!! a)) = n) ->
  (enable_equity this = true ->
   forall a, (a < A)%nat -> length (equity (results !!! a)) = n) ->
  exists pay eq aae,
    action_accumulate this player node sigma results
      (replicate n 0, (if enable_equity this then replicate n 0 else []),
       replicate A [], (if enable_equity this then replicate A [] else []))
    = (pay, eq, map payoffs results, aae) /\
    length pay = n /\
    (forall h, (h < n)%nat ->
       pay !!! h = sumR (map (fun a => w a h * payoffs (results !!! a) !!! h) (seq 0 A))) /\
    (enable_equity this = true ->
       length eq = n /\ aae = map equity results /\
       forall h, (h < n)%nat ->
         eq !!! h = sumR (map (fun a => w a h * equity (results !!! a) !!! h) (seq 0 A))) /\
    (enable_equity this = false -> eq = [] /\ aae = []).
Proof.
  intros A H n w HA Hu He. unfold action_accumulate. fold A H.
  set (body := fun (action_id : nat)
                   (x : list R * list R * list (list R) * list (list R)) => _).
  pose (P := fun (k : nat) (x : list R * list R * list (list R) * list (list R)) =>
      let '(pay, eq, aau, aae) := x in
      length pay = n /\
      (forall h, (h < n)%nat ->
         pay !!! h = sumR (map (fun a => w a h * payoffs (results !!! a) !!! h) (seq 0 k))) /\
      aau = map payoffs (take k results) ++ replicate (A - k) [] /\
      (enable_equity this = true ->
         length eq = n /\
         aae = map equity (take k results) ++ replicate (A - k) [] /\
         forall h, (h < n)%nat ->
           eq !!! h = sumR (map (fun a => w a h * equity (results !!! a) !!! h) (seq 0 k))) /\
      (enable_equity this = false -> eq = [] /\ aae = [])).
  assert (Inv : P A (for_range A body
                       (replicate n 0, (if enable_equity this then replicate n 0 else []),
                        replicate A [], (if enable_equity this then replicate A [] else [])))).
  { apply (for_range_ind P).
    - unfold P. split; [apply length_replicate|].
      split; [intros h Hh; rewrite lookup_total_replicate_2 by exact Hh; reflexivity|].
      split; [rewrite take_0, Nat.sub_0_r; reflexivity|]. split.
      + intros E. rewrite E. split; [apply length_replicate|].
        split; [rewrite take_0, Nat.sub_0_r; reflexivity|].
        intros h Hh. rewrite lookup_total_replicate_2 by exact Hh. reflexivity.
      + intros E. rewrite E. split; reflexivity.
    - intros k [[[pay eq] aau] aae] Hk (L1 & C1 & U1 & E1 & E0).
      assert (Ek : (A - k = S (A - S k))%nat) by lia.
      assert (Lk : length (take k results) = k) by (rewrite length_take; lia).
      unfold body. cbv zeta.
      specialize (Hu k Hk).
      destruct (Nat.eqb_spec (length (payoffs (results !!! k))) 0) as [Z|NZ].
      + (* the child is skipped: the player has no hand *)
        assert (n = 0%nat) by lia.
        unfold P. split; [exact L1|]. split; [intros h Hh; lia|].
        split.
        { rewrite U1, Ek, (take_next results k) by lia. rewrite map_app. cbn [map replicate].
          rewrite (length_zero_nil _ Z), <- app_assoc. reflexivity. }
        split; [|exact E0].
        intros E. destruct (E1 E) as (L2 & U2 & C2). split; [exact L2|].
        split; [|intros h Hh; lia].
        rewrite U2, Ek, (take_next results k) by lia. rewrite map_app. cbn [map replicate].
        rewrite (length_zero_nil (equity (results !!! k))) by (rewrite (He E k Hk); lia).
        rewrite <- app_assoc. reflexivity.
      + set (u := payoffs (results !!! k)) in *.
        set (e := equity (results !!! k)) in *.
        set (b := enable_equity this && negb (length e =? 0)%nat).
        set (c := fun h => if (player =? getPlayer node)%nat
                           then sigma !!! (h + k * H)%nat * u !!! h else u !!! h).
        set (ce := fun h => if (player =? getPlayer node)%nat
                            then sigma !!! (h + k * H)%nat * e !!! h else e !!! h).
        set (inner := fun (hand_id : nat) (x : list R * list R) => _).
        assert (Hinner : forall h p q,
                  inner h (p, q) =
                    (<[h := p !!! h + c h]> p, if b then <[h := q !!! h + ce h]> q else q)).
        { intros h p q. unfold inner, c, ce.
          destruct (player =? getPlayer node)%nat; reflexivity. }
        assert (Hb : b = enable_equity this).
        { unfold b. destruct (enable_equity this) eqn:E; [|reflexivity].
          cbn [andb]. unfold e. rewrite (He eq_refl k Hk).
          destruct (Nat.eqb_spec n 0); [lia|reflexivity]. }
        assert (Leq : b = true -> (length u <= length eq)%nat).
        { intros Eb. rewrite Hb in Eb. destruct (E1 Eb) as (L2 & _). lia. }
        pose proof (pair_add_loop (length u) c ce b inner pay eq Hinner
                      ltac:(lia) Leq) as Hloop.
        cbv zeta in Hloop.
        destruct (for_range (length u) inner (pay, eq)) as [pay' eq'].
        cbn [fst snd] in Hloop. destruct Hloop as (L1' & L2' & C1' & C2').
        assert (Hw : forall h, c h = w k h * u !!! h).
        { intros h. unfold c, w, action_weight.
          destruct (player =? getPlayer node)%nat; lra. }
        assert (Hwe : forall h, ce h = w k h * e !!! h).
        { intros h. unfold ce, w, action_weight.
          destruct (player =? getPlayer node)%nat; lra. }
        unfold P. split; [lia|]. split.
        { intros h Hh. rewrite C1'. rewrite (proj2 (Nat.ltb_lt h (length u))) by lia.
          rewrite seq_S, map_app. cbn [Nat.add map]. rewrite sumR_snoc.
          rewrite C1 by exact Hh. rewrite Hw. reflexivity. }
        split.
        { rewrite U1, Ek, (take_next results k) by lia. rewrite map_app. cbn [map].
          rewrite <- Lk at 1. rewrite <- (length_map payoffs (take k results)).
          apply insert_next. }
        split.
        * intros E. destruct (E1 E) as (L2 & U2 & C2). split; [lia|]. split.
          { rewrite Hb, E. rewrite U2, Ek, (take_next results k) by lia.
            rewrite map_app. cbn [map].
            rewrite <- Lk at 1. rewrite <- (length_map equity (take k results)).
            apply insert_next. }
          intros h Hh. rewrite C2'. rewrite Hb, E. cbn [andb].
          rewrite (proj2 (Nat.ltb_lt h (length u))) by lia.
          rewrite seq_S, map_app. cbn [Nat.add map]. rewrite sumR_snoc.
          rewrite C2 by exact Hh. rewrite Hwe. reflexivity.
        * intros E. destruct (E0 E) as [-> ->]. rewrite Hb, E. split; [|reflexivity].
          apply length_zero_nil. rewrite L2'. reflexivity. }
  destruct (for_range A body _) as [[[pay eq] aau] aae].
  unfold P in Inv. destruct Inv as (L1 & C1 & U1 & E1 & E0).
  rewrite Nat.sub_diag, app_nil_r in U1. rewrite take_ge in U1 by lia.
  exists pay, eq, aae. subst aau. split; [reflexivity|]. split; [exact L1|].
  split; [exact C1|]. split; [|exact E0].
  intros E. destruct (E1 E) as (L2 & U2 & C2).
  rewrite Nat.sub_diag, app_nil_r in U2. rewrite take_ge in U2 by lia.
  split; [exact L2|]. split; [exact U2|exact C2].
Qed.

(** The regrets of the actions, hand by hand. *)
Lemma action_regrets_spec (H A : nat) (aau : list (list R)) (pay : list R) :
  let r := action_regrets H A aau pay in
  length r = (A * H)%nat /\
  forall a h, (a < A)%nat -> (h < H)%nat ->
    r !!! (a * H + h)%nat = (aau !!! a) !!! h - pay !!! h.
Proof.
  unfold action_regrets.
  pose (V := fun a h : nat => (aau !!! a) !!! h - pay !!! h).
  pose (P := fun (k : nat) (r : list R) =>
      length r = (A * H)%nat /\
      forall a h, (a < A)%nat -> (h < k)%nat -> r !!! (a * H + h)%nat = V a h).
  assert (Inv : P H (for_range H (fun i regrets =>
                   for_range A (fun action_id regrets =>
                       <[(action_id * H + i)%nat :=
                           (aau !!! action_id) !!! i - pay !!! i]> regrets) regrets)
                   (replicate (A * H) 0))).
  { apply (for_range_ind P).
    - split; [apply length_replicate|]. intros a h _ Hh. lia.
    - intros k r Hk [L C].
      pose (Q := fun (j : nat) (r : list R) =>
          length r = (A * H)%nat /\
          (forall a h, (a < A)%nat -> (h < k)%nat -> r !!! (a * H + h)%nat = V a h) /\
          (forall a, (a < j)%nat -> r !!! (a * H + k)%nat = V a k)).
      assert (InvQ : Q A (for_range A (fun action_id regrets =>
                       <[(action_id * H + k)%nat :=
                           (aau !!! action_id) !!! k - pay !!! k]> regrets) r)).
      { apply (for_range_ind Q).
        - split; [exact L|]. split; [exact C|]. intros a Ha. lia.
        - intros j r' Hj (L' & C' & D'). split; [rewrite length_insert; exact L'|].
          split.
          + intros a h Ha Hh. rewrite list_lookup_total_insert_ne; [apply C'; assumption|].
            intros E. apply index_inj in E; [lia|lia|lia].
          + intros a Ha. destruct (Nat.eq_dec a j) as [->|Hne].
            * rewrite list_lookup_total_insert_eq; [reflexivity|].
              rewrite L'. apply index_lt; assumption.
            * rewrite list_lookup_total_insert_ne; [apply D'; lia|].
              intros E. apply index_inj in E; [lia|lia|lia]. }
      destruct InvQ as (L' & C' & D'). split; [exact L'|].
      intros a h Ha Hh. destruct (Nat.eq_dec h k) as [->|Hne].
      + apply D'. exact Ha.
      + apply C'; [exact Ha|lia]. }
  destruct Inv as [L C]. split; [exact L|]. intros a h Ha Hh. apply C; assumption.
Qed.

Lemma call_in_order_ext {State : Type}
    (cfr : nat -> list R -> State -> Result (CfrResult * State))
    (f g : nat -> list R) (ids : list nat) (st : State) :
  (forall a, f a = g a) -> call_in_order cfr f ids st = call_in_order cfr g ids st.
Proof.
  intros E. revert st. induction ids as [|a ids IH]; intros st; [reflexivity|].
  cbn [call_in_order]. rewrite E. destruct (cfr a (g a) st) as [[r st1]|w]; [|reflexivity].
  rewrite IH. reflexivity.
Qed.

(** [actionUtility] after its first loop. *)
Lemma actionUtility_steps (State : Type) (to_float : R -> float)
    (round_float : R -> R)
    (cfr : nat -> list R -> State -> Result (CfrResult * State))
    (this : PCfrSolver) (player : nat) (node : ActionNode) (table : Trainables)
    (reach_probs : list R) (iter : Z) (deal : nat) (st : State) :
  let A := length (getActions node) in
  let H := length (ranges this (getPlayer node)) in
  let n := length (ranges this player) in
  let sigma := getcurrentStrategy (table deal) in
  let w := action_weight player node sigma H in
  match call_in_order cfr (child_reach this player node sigma reach_probs) (seq 0 A) st with
  | Throw what =>
      actionUtility State to_float round_float cfr this player node table
        reach_probs iter deal st
      = Throw what
  | Ok (results, st') =>
      (forall a, (a < A)%nat -> length (payoffs (results !!! a)) = n) ->
      (enable_equity this = true ->
       forall a, (a < A)%nat -> length (equity (results !!! a)) = n) ->
      exists pay eq aae,
        length pay = n /\
        (forall h, (h < n)%nat ->
           pay !!! h
           = sumR (map (fun a => w a h * payoffs (results !!! a) !!! h) (seq 0 A))) /\
        (enable_equity this = true ->
           length eq = n /\ aae = map equity results /\
           forall h, (h < n)%nat ->
             eq !!! h
             = sumR (map (fun a => w a h * equity (results !!! a) !!! h) (seq 0 A))) /\
        (enable_equity this = false -> eq = [] /\ aae = []) /\
        actionUtility State to_float round_float cfr this player node table
          reach_probs iter deal st
        = if (player =? getPlayer node)%nat
          then
            let regrets := action_regrets H A (map payoffs results) pay in
            let table1 := action_update this table regrets iter deal in
            if (Z.rem iter (print_interval this) =? 0)%Z
            then
              match action_store_evs to_float round_float this player node table1
                reach_probs deal
                      (map payoffs results) aae with
              | Throw what => Throw what
              | Ok table2 => Ok (mkCfrResult pay eq, table2, st')
              end
            else Ok (mkCfrResult pay eq, table1, st')
          else Ok (mkCfrResult pay eq, table, st')
  end.
Proof.
  intros A H n sigma w. unfold actionUtility. fold A H n sigma.
  rewrite action_children_in_order. fold A.
  destruct (call_in_order cfr _ (seq 0 A) st) as [[results st']|what] eqn:E;
    [|reflexivity].
  intros Hu He.
  pose proof (call_in_order_length cfr _ _ _ _ _ E) as HA. rewrite length_seq in HA.
  destruct (action_accumulate_spec this player node sigma results HA Hu He)
    as (pay & eq & aae & Eacc & L1 & C1 & E1 & E0).
  fold A n in Eacc. rewrite Eacc.
  exists pay, eq, aae. split; [exact L1|]. split; [exact C1|]. split; [exact E1|].
  split; [exact E0|]. reflexivity.
Qed.

(** X11 (a node of the opponent). At an action node where the opponent
    acts, [actionUtility] calls the children in the order of the actions,
    the child of action [a] with the reach [reach_probs[h] * sigma(a|h)] of
    every opponent hand [h], where [sigma] is the current strategy of the
    trainable of the deal; a throw of a child is passed on. When every
    child returns a value for every hand of the traversing player, the
    payoff of a hand is the plain sum of the children's payoffs, and so is
    the equity when it is tracked; no trainable of the node is changed. *)
Theorem actionUtility_opponent_node (State : Type) (to_float : R -> float)
    (round_float : R -> R)
    (cfr : nat -> list R -> State -> Result (CfrResult * State))
    (this : PCfrSolver) (player : nat) (node : ActionNode) (table : Trainables)
    (reach_probs : list R) (iter : Z) (deal : nat) (st : State) :
  let A := length (getActions node) in
  let H := length (ranges this (getPlayer node)) in
  let n := length (ranges this player) in
  let sigma := getcurrentStrategy (table deal) in
  getPlayer node <> player ->
  match call_in_order cfr (scaled_reach sigma reach_probs H) (seq 0 A) st with
  | Throw what =>
      actionUtility State to_float round_float cfr this player node table
        reach_probs iter deal st
      = Throw what
  | Ok (results, st') =>
      (forall a, (a < A)%nat -> length (payoffs (results !!! a)) = n) ->
      (enable_equity this = true ->
       forall a, (a < A)%nat -> length (equity (results !!! a)) = n) ->
      exists res,
        actionUtility State to_float round_float cfr this player node table
          reach_probs iter deal st
        = Ok (res, table, st') /\
        length (payoffs res) = n /\
        (forall h, (h < n)%nat ->
           payoffs res !!! h
           = sumR (map (fun a => payoffs (results !!! a) !!! h) (seq 0 A))) /\
        (enable_equity this = true ->
         forall h, (h < n)%nat ->
           equity res !!! h
           = sumR (map (fun a => equity (results !!! a) !!! h) (seq 0 A)))
  end.
Proof.
  intros A H n sigma Hopp.
  pose proof (actionUtility_steps State to_float round_float cfr this player node table
                reach_probs iter deal st) as S.
  cbv zeta in S. fold A H n sigma in S.
  assert (Er : forall a, child_reach this player node sigma reach_probs a
                         = scaled_reach sigma reach_probs H a).
  { intros a. unfold child_reach.
    replace (getPlayer node =? player)%nat with false
      by (symmetry; apply Nat.eqb_neq; exact Hopp).
    reflexivity. }
  rewrite (call_in_order_ext cfr _ _ (seq 0 A) st Er) in S.
  destruct (call_in_order cfr (scaled_reach sigma reach_probs H) (seq 0 A) st)
    as [[results st']|what]; [|exact S].
  intros Hu He. destruct (S Hu He) as (pay & eq & aae & L1 & C1 & E1 & _ & Eact).
  replace (player =? getPlayer node)%nat with false in Eact
    by (symmetry; apply Nat.eqb_neq; congruence).
  assert (Hw : forall a h, action_weight player node sigma H a h = 1).
  { intros a h. unfold action_weight.
    replace (player =? getPlayer node)%nat with false
      by (symmetry; apply Nat.eqb_neq; congruence).
    reflexivity. }
  exists (mkCfrResult pay eq). split; [exact Eact|]. cbn [payoffs equity].
  split; [exact L1|]. split.
  - intros h Hh. rewrite C1 by exact Hh. f_equal. apply map_ext. intros a.
    rewrite Hw. lra.
  - intros E h Hh. destruct (E1 E) as (_ & _ & C2). rewrite C2 by exact Hh.
    f_equal. apply map_ext. intros a. rewrite Hw. lra.
Qed.

Lemma actionUtility_opponent_node_witness :
  exists res,
    actionUtility unit example_to_float example_round fixed_children example_solver 0
      (example_action_node 1) fresh_table [1; 1] 1 0 tt
    = Ok (res, fresh_table, tt) /\
    length (payoffs res) = 2%nat.
Proof.
  pose proof (actionUtility_opponent_node unit example_to_float example_round fixed_children
                example_solver 0 (example_action_node 1) fresh_table [1; 1] 1 0 tt) as S.
  cbv zeta in S. specialize (S ltac:(cbn; lia)).
  cbn [call_in_order seq length getActions example_action_node fixed_children] in S.
  destruct S as (res & E & L & _).
  - intros a Ha. destruct a as [|[|a]]; [reflexivity|reflexivity|lia].
  - discriminate.
  - exists res. split; [exact E|exact L].
Defined.

Lemma updateRegrets_tables_kept (t : DiscountedCfrTrainable) (regrets : list R)
    (iteration_number : Z) :
  evs (updateRegrets t regrets iteration_number) = evs t /\
  equities (updateRegrets t regrets iteration_number) = equities t.
Proof.
  unfold updateRegrets. destruct (for_range _ _ _) as [rp rps]. split; reflexivity.
Qed.

Lemma copyStrategy_idem (t o : DiscountedCfrTrainable) :
  copyStrategy (copyStrategy t o) o = copyStrategy t o.
Proof. reflexivity. Qed.

Lemma copyStrategy_self (t : DiscountedCfrTrainable) : copyStrategy t t = t.
Proof. destruct t. reflexivity. Qed.

(** The warmup branch of the update: the first deal of the class takes the
    regrets, every other deal of the class copies from it. *)
Lemma warmup_update_spec (table : Trainables) (regrets : list R) (iter : Z)
    (d0 : nat) (rest : list nat) :
  let t0 := updateRegrets (table d0) regrets (iter + 1) in
  let table' := fst (fold_left (warmup_update_step regrets iter) (d0 :: rest)
                       (table, None)) in
  table' d0 = t0 /\
  (forall d, d <> d0 -> In d rest -> table' d = copyStrategy (table d) t0) /\
  (forall d, d <> d0 -> ~ In d rest -> table' d = table d).
Proof.
  intros t0. cbn [fold_left].
  change (warmup_update_step regrets iter (table, None) d0)
    with (set_trainable table d0 t0, Some d0).
  assert (G : forall rest (tb : Trainables),
            tb d0 = t0 ->
            let r := fst (fold_left (warmup_update_step regrets iter) rest
                            (tb, Some d0)) in
            r d0 = t0 /\
            (forall d, d <> d0 -> In d rest -> r d = copyStrategy (tb d) t0) /\
            (forall d, d <> d0 -> ~ In d rest -> r d = tb d)).
  { clear rest. induction rest as [|x rest IH]; intros tb H0.
    - cbn [fold_left fst]. split; [exact H0|]. split; [intros d _ []|reflexivity].
    - cbn [fold_left].
      change (warmup_update_step regrets iter (tb, Some d0) x)
        with (set_trainable tb x (copyStrategy (tb x) (tb d0)), Some d0).
      rewrite H0.
      set (tb1 := set_trainable tb x (copyStrategy (tb x) t0)).
      assert (H1 : tb1 d0 = t0).
      { unfold tb1, set_trainable. destruct (Nat.eqb_spec d0 x) as [E|N]; [|exact H0].
        rewrite <- E, H0. apply copyStrategy_self. }
      destruct (IH tb1 H1) as (R0 & R1 & R2). split; [exact R0|]. split.
      + intros d Hd Hin.
        destruct (in_dec Nat.eq_dec d rest) as [Hr|Hr].
        * rewrite (R1 d Hd Hr). unfold tb1, set_trainable.
          destruct (Nat.eqb_spec d x) as [E|N]; [|reflexivity].
          rewrite E. apply copyStrategy_idem.
        * rewrite (R2 d Hd Hr). destruct Hin as [<-|Hin]; [|contradiction].
          unfold tb1, set_trainable. rewrite Nat.eqb_refl. reflexivity.
      + intros d Hd Hin. rewrite (R2 d Hd) by (intros X; apply Hin; right; exact X).
        unfold tb1, set_trainable.
        destruct (Nat.eqb_spec d x) as [E|N]; [|reflexivity].
        exfalso. apply Hin. left. congruence. }
  specialize (G rest (set_trainable table d0 t0)).
  destruct G as (R0 & R1 & R2).
  { unfold set_trainable. rewrite Nat.eqb_refl. reflexivity. }
  split; [exact R0|]. split.
  - intros d Hd Hin. rewrite (R1 d Hd Hin). unfold set_trainable.
    destruct (Nat.eqb_spec d d0); [contradiction|reflexivity].
  - intros d Hd Hin. rewrite (R2 d Hd Hin). unfold set_trainable.
    destruct (Nat.eqb_spec d d0); [contradiction|reflexivity].
Qed.

Lemma action_update_tables_kept (this : PCfrSolver) (table : Trainables)
    (regrets : list R) (iter : Z) (deal d : nat) :
  evs (action_update this table regrets iter deal d) = evs (table d) /\
  equities (action_update this table regrets iter deal d) = equities (table d).
Proof.
  unfold action_update. destruct (distributing_task this); cbn [negb]; [split; reflexivity|].
  destruct (warmup this <? iter)%Z.
  - unfold set_trainable. destruct (d =? deal)%nat eqn:E; [|split; reflexivity].
    apply Nat.eqb_eq in E. subst d. apply updateRegrets_tables_kept.
  - destruct (getAllAbstractionDeal this deal) as [|d0 rest]; [split; reflexivity|].
    destruct (warmup_update_spec table regrets iter d0 rest) as (R0 & R1 & R2).
    cbv zeta in R0, R1, R2.
    destruct (Nat.eq_dec d d0) as [->|Hne].
    + rewrite R0. apply updateRegrets_tables_kept.
    + destruct (in_dec Nat.eq_dec d rest) as [Hr|Hr].
      * rewrite (R1 d Hne Hr). split; reflexivity.
      * rewrite (R2 d Hne Hr). split; reflexivity.
Qed.

(** What [actionUtility] computes at a node of the traversing player
    before it stores anything: the node's value and the regrets. *)
Lemma own_node_values (State : Type) (to_float : R -> float)
    (round_float : R -> R)
    (cfr : nat -> list R -> State -> Result (CfrResult * State))
    (this : PCfrSolver) (player : nat) (node : ActionNode) (table : Trainables)
    (reach_probs : list R) (iter : Z) (deal : nat) (st st' : State)
    (results : list CfrResult) :
  let A := length (getActions node) in
  let H := length (ranges this player) in
  let sigma := getcurrentStrategy (table deal) in
  getPlayer node = player ->
  call_in_order cfr (fun _ => reach_probs) (seq 0 A) st = Ok (results, st') ->
  (forall a, (a < A)%nat -> length (payoffs (results !!! a)) = H) ->
  (enable_equity this = true ->
   forall a, (a < A)%nat -> length (equity (results !!! a)) = H) ->
  exists pay eq aae regrets,
    length pay = H /\
    (forall h, (h < H)%nat ->
       pay !!! h
       = sumR (map (fun a => sigma !!! (a * H + h)%nat * payoffs (results !!! a) !!! h)
                 (seq 0 A))) /\
    (enable_equity this = true ->
       length eq = H /\ aae = map equity results /\
       forall h, (h < H)%nat ->
         eq !!! h
         = sumR (map (fun a => sigma !!! (a * H + h)%nat * equity (results !!! a) !!! h)
                   (seq 0 A))) /\
    (enable_equity this = false -> eq = [] /\ aae = []) /\
    length regrets = (A * H)%nat /\
    (forall a h, (a < A)%nat -> (h < H)%nat ->
       regrets !!! (a * H + h)%nat = payoffs (results !!! a) !!! h - pay !!! h) /\
    actionUtility State to_float round_float cfr this player node table reach_probs iter deal st
    = let table1 := action_update this table regrets iter deal in
      if (Z.rem iter (print_interval this) =? 0)%Z
      then
        match action_store_evs to_float round_float this player node table1 reach_probs deal
                (map payoffs results) aae with
        | Throw what => Throw what
        | Ok table2 => Ok (mkCfrResult pay eq, table2, st')
        end
      else Ok (mkCfrResult pay eq, table1, st').
Proof.
  intros A H sigma Hown Hcall Hu He.
  pose proof (actionUtility_steps State to_float round_float cfr this player node table
                reach_probs iter deal st) as S.
  cbv zeta in S. rewrite Hown in S. fold A H sigma in S.
  assert (Er : forall a, child_reach this player node sigma reach_probs a = reach_probs).
  { intros a. unfold child_reach. rewrite Hown, Nat.eqb_refl. reflexivity. }
  rewrite (call_in_order_ext cfr _ (fun _ => reach_probs) (seq 0 A) st Er), Hcall in S.
  destruct (S Hu He) as (pay & eq & aae & L1 & C1 & E1 & E0 & Eact).
  rewrite <- Hown, Nat.eqb_refl in Eact. rewrite Hown in Eact. fold H in Eact.
  assert (Hw : forall a h, action_weight player node sigma H a h
                           = sigma !!! (a * H + h)%nat).
  { intros a h. unfold action_weight. rewrite Hown, Nat.eqb_refl.
    f_equal. lia. }
  pose proof (call_in_order_length cfr _ _ _ _ _ Hcall) as HA. rewrite length_seq in HA.
  destruct (action_regrets_spec H A (map payoffs results) pay) as [Lr Cr].
  exists pay, eq, aae, (action_regrets H A (map payoffs results) pay).
  split; [exact L1|]. split.
  { intros h Hh. rewrite C1 by exact Hh. f_equal. apply map_ext. intros a.
    rewrite Hw. reflexivity. }
  split.
  { intros E. destruct (E1 E) as (L2 & U2 & C2). split; [exact L2|].
    split; [exact U2|]. intros h Hh. rewrite C2 by exact Hh. f_equal.
    apply map_ext. intros a. rewrite Hw. reflexivity. }
  split; [exact E0|]. split; [exact Lr|]. split; [|exact Eact].
  intros a h Ha Hh. rewrite Cr by assumption.
  rewrite (list_lookup_total_fmap payoffs results a) by lia. reflexivity.
Qed.

(** X12 (a node of the traversing player). At an action node where the
    traversing player acts, every child is called with the unchanged reach
    of the opponent. When every child returns a value for every hand, the
    payoff of a hand is the sum of the children's payoffs weighted by the
    current strategy [sigma] of the trainable of the deal, the regret of an
    action is the child's payoff minus the node's, and the regrets of a
    hand weighted by [sigma] cancel when [sigma] sums to 1. On an iteration
    that stores no EV the trainables are updated with these regrets: after
    warmup the trainable of the deal takes [updateRegrets(regrets, iter+1)]
    and no other trainable changes. *)
Theorem actionUtility_own_node (State : Type) (to_float : R -> float)
    (round_float : R -> R)
    (cfr : nat -> list R -> State -> Result (CfrResult * State))
    (this : PCfrSolver) (player : nat) (node : ActionNode) (table : Trainables)
    (reach_probs : list R) (iter : Z) (deal : nat) (st : State) :
  let A := length (getActions node) in
  let H := length (ranges this player) in
  let sigma := getcurrentStrategy (table deal) in
  getPlayer node = player ->
  Z.rem iter (print_interval this) <> 0%Z ->
  match call_in_order cfr (fun _ => reach_probs) (seq 0 A) st with
  | Throw what =>
      actionUtility State to_float round_float cfr this player node table
        reach_probs iter deal st
      = Throw what
  | Ok (results, st') =>
      (forall a, (a < A)%nat -> length (payoffs (results !!! a)) = H) ->
      (enable_equity this = true ->
       forall a, (a < A)%nat -> length (equity (results !!! a)) = H) ->
      exists res regrets,
        actionUtility State to_float round_float cfr this player node table
          reach_probs iter deal st
        = Ok (res, action_update this table regrets iter deal, st') /\
        length (payoffs res) = H /\
        (forall h, (h < H)%nat ->
           payoffs res !!! h
           = sumR (map (fun a => sigma !!! (a * H + h)%nat
                                 * payoffs (results !!! a) !!! h) (seq 0 A))) /\
        length regrets = (A * H)%nat /\
        (forall a h, (a < A)%nat -> (h < H)%nat ->
           regrets !!! (a * H + h)%nat
           = payoffs (results !!! a) !!! h - payoffs res !!! h) /\
        (forall h, (h < H)%nat -> sumR (column sigma A H h) = 1 ->
           sumR (map (fun a => sigma !!! (a * H + h)%nat * regrets !!! (a * H + h)%nat)
                   (seq 0 A)) = 0) /\
        (distributing_task this = false -> (warmup this < iter)%Z ->
         action_update this table regrets iter deal
         = set_trainable table deal (updateRegrets (table deal) regrets (iter + 1)))
  end.
Proof.
  intros A H sigma Hown Hrem.
  destruct (call_in_order cfr (fun _ => reach_probs) (seq 0 A) st)
    as [[results st']|what] eqn:Hcall.
  - intros Hu He.
    destruct (own_node_values State to_float round_float cfr this player node table reach_probs
                iter deal st st' results Hown Hcall Hu He)
      as (pay & eq & aae & regrets & L1 & C1 & _ & _ & Lr & Cr & Eact).
    fold A H sigma in C1, Lr, Cr.
    replace (Z.rem iter (print_interval this) =? 0)%Z with false in Eact
      by (symmetry; apply Z.eqb_neq; exact Hrem).
    exists (mkCfrResult pay eq), regrets. cbn [payoffs].
    split; [exact Eact|]. split; [exact L1|]. split; [exact C1|].
    split; [exact Lr|]. split; [exact Cr|]. split.
    + intros h Hh Hsum.
      rewrite (map_ext_in _ (fun a => sigma !!! (a * H + h)%nat
                                      * payoffs (results !!! a) !!! h
                                      - sigma !!! (a * H + h)%nat * pay !!! h)).
      * rewrite (sumR_map_minus
                   (fun a => sigma !!! (a * H + h)%nat * payoffs (results !!! a) !!! h)
                   (fun a => sigma !!! (a * H + h)%nat * pay !!! h)).
        rewrite <- C1 by exact Hh.
        rewrite (sumR_map_mult (fun a => sigma !!! (a * H + h)%nat) (pay !!! h)).
        fold (column sigma A H h). rewrite Hsum. lra.
      * intros a Ha. apply in_seq in Ha. rewrite Cr by (lia || exact Hh). lra.
    + intros Hd Hw. unfold action_update. rewrite Hd. cbn [negb].
      rewrite (proj2 (Z.ltb_lt _ _) Hw). reflexivity.
  - pose proof (actionUtility_steps State to_float round_float cfr this player node table
                  reach_probs iter deal st) as S.
    cbv zeta in S. rewrite Hown in S.
    assert (Er : forall a, child_reach this player node
                             (getcurrentStrategy (table deal)) reach_probs a
                           = reach_probs).
    { intros a. unfold child_reach. rewrite Hown, Nat.eqb_refl. reflexivity. }
    rewrite (call_in_order_ext cfr _ (fun _ => reach_probs) _ st Er) in S.
    fold A in S. rewrite Hcall in S. exact S.
Qed.

Lemma actionUtility_own_node_witness :
  exists res regrets,
    actionUtility unit example_to_float example_round fixed_children warmup_driver 0
      (example_action_node 0) fresh_table [1; 1] 3 0 tt
    = Ok (res, set_trainable fresh_table 0
                 (updateRegrets (fresh_table 0%nat) regrets (3 + 1)), tt) /\
    length regrets = (2 * 2)%nat.
Proof.
  pose proof (actionUtility_own_node unit example_to_float example_round fixed_children
                warmup_driver 0 (example_action_node 0) fresh_table [1; 1] 3 0 tt) as S.
  cbv zeta in S. specialize (S eq_refl ltac:(vm_compute; discriminate)).
  cbn [call_in_order seq length getActions example_action_node fixed_children] in S.
  destruct S as (res & regrets & E & _ & _ & L & _ & _ & U).
  - intros a Ha. destruct a as [|[|a]]; [reflexivity|reflexivity|lia].
  - discriminate.
  - exists res, regrets. rewrite <- U by (reflexivity || (cbn; lia)).
    split; [exact E|exact L].
Defined.

(** X13 (the update during warmup). Up to the end of warmup
    ([iter <= warmup]) the regrets of a node go to the trainable of the
    first deal of the class of the deal, at iteration number [iter + 1];
    every other deal of the class then copies that trainable's [r_plus] and
    [cum_r_plus] and keeps its own regret sums; the trainables of the deals
    outside the class are left alone, and so are all of them when the class
    is empty. *)
Theorem action_update_warmup (this : PCfrSolver) (table : Trainables)
    (regrets : list R) (iter : Z) (deal : nat) :
  distributing_task this = false ->
  (iter <= warmup this)%Z ->
  match getAllAbstractionDeal this deal with
  | [] => forall d, action_update this table regrets iter deal d = table d
  | d0 :: rest =>
      let t0 := updateRegrets (table d0) regrets (iter + 1) in
      action_update this table regrets iter deal d0 = t0 /\
      (forall d, d <> d0 -> In d rest ->
         action_update this table regrets iter deal d = copyStrategy (table d) t0 /\
         r_plus_sum (action_update this table regrets iter deal d) = r_plus_sum (table d)) /\
      (forall d, d <> d0 -> ~ In d rest ->
         action_update this table regrets iter deal d = table d)
  end.
Proof.
  intros Hd Hw. unfold action_update. rewrite Hd. cbn [negb].
  rewrite (proj2 (Z.ltb_ge _ _) Hw).
  destruct (getAllAbstractionDeal this deal) as [|d0 rest]; [reflexivity|].
  destruct (warmup_update_spec table regrets iter d0 rest) as (R0 & R1 & R2).
  cbv zeta in R0, R1, R2 |- *. split; [exact R0|]. split; [|exact R2].
  intros d Hne Hin. rewrite (R1 d Hne Hin). split; reflexivity.
Qed.

Lemma action_update_warmup_witness :
  action_update two_rank_solver fresh_table [1; 0; 0; 1] 0 3 1%nat
  = updateRegrets (fresh_table 1%nat) [1; 0; 0; 1] (0 + 1).
Proof.
  exact (proj1 (action_update_warmup two_rank_solver fresh_table [1; 0; 0; 1] 0 3
                  eq_refl ltac:(cbn; lia))).
Defined.

Lemma for_range_ext_in {S : Type} (n : nat) (f g : nat -> S -> S) (s : S) :
  (forall i acc, (i < n)%nat -> f i acc = g i acc) ->
  for_range n f s = for_range n g s.
Proof.
  intros E. unfold for_range. apply fold_left_ext_in.
  intros i acc Hi. apply in_seq in Hi. apply E. lia.
Qed.

(** The table [actionUtility] hands to [setEv] and to [setEquity]. *)
Lemma normalised_values_spec (round_float : R -> R) (this : PCfrSolver)
    (player : nat) (node : ActionNode)
    (player_hand : list PrivateCards) (reach_probs : list R)
    (oppo_sum : R) (oppo_card_sum : list R) (skip_empty : bool)
    (values : list (list R)) :
  let A := length (getActions node) in
  let H := length (ranges this (getPlayer node)) in
  let r := normalised_values round_float this player node player_hand reach_probs
             oppo_sum oppo_card_sum skip_empty values in
  (skip_empty = true -> forall a, (a < A)%nat -> length (values !!! a) = H) ->
  length r = (A * H)%nat /\
  forall a h, (a < A)%nat -> (h < H)%nat ->
    r !!! (a * H + h)%nat =
      if Rgt_dec (rp_sum round_float this player player_hand reach_probs
                    oppo_sum oppo_card_sum h) 0
      then (values !!! a) !!! h
           / rp_sum round_float this player player_hand reach_probs oppo_sum oppo_card_sum h
      else 0.
Proof.
  intros A H r Hskip. unfold r, normalised_values. fold A H.
  pose (V := fun a h : nat =>
      if Rgt_dec (rp_sum round_float this player player_hand reach_probs
                    oppo_sum oppo_card_sum h) 0
      then (values !!! a) !!! h
           / rp_sum round_float this player player_hand reach_probs oppo_sum oppo_card_sum h
      else 0).
  pose (body := fun (a h : nat) (w : list R) => <[(a * H + h)%nat := V a h]> w).
  rewrite (for_range_ext_in A _
             (fun a w => for_range H (fun h w => body a h w) w)).
  - apply (nested_pointwise A H (fun a h _ => V a h) body).
    + intros a h w Ha Hh Lw. unfold body. split; [rewrite length_insert; exact Lw|].
      split.
      * apply list_lookup_total_insert_eq. rewrite Lw. apply index_lt; assumption.
      * intros j Hj. apply list_lookup_total_insert_ne. congruence.
    + apply length_replicate.
  - intros a w Ha.
    assert (Einner : for_range H (fun hand_id evs_ =>
                <[(hand_id + a * H)%nat :=
                    if Rgt_dec (rp_sum round_float this player player_hand reach_probs
                                  oppo_sum oppo_card_sum hand_id) 0
                    then (values !!! a) !!! hand_id
                         / rp_sum round_float this player player_hand reach_probs
                             oppo_sum oppo_card_sum hand_id
                    else 0]> evs_) w
              = for_range H (fun h w => body a h w) w).
    { apply for_range_ext_in. intros h w' Hh. unfold body, V.
      replace (h + a * H)%nat with (a * H + h)%nat by lia. reflexivity. }
    destruct skip_empty; cbn [andb]; [|exact Einner].
    destruct (Nat.eqb_spec (length (values !!! a)) 0) as [Z|NZ]; [|exact Einner].
    rewrite (Hskip eq_refl a Ha) in Z. rewrite Z. reflexivity.
Qed.

Lemma setEv_ok (t : DiscountedCfrTrainable) (input : list float) :
  length input = length (evs t) ->
  setEv t input = Ok (with_evs t (store_not_nan input (evs t))).
Proof.
  intros E. unfold setEv. rewrite E, Nat.eqb_refl. reflexivity.
Qed.

Lemma setEquity_ok (t : DiscountedCfrTrainable) (input : list float) :
  length input = length (equities t) ->
  setEquity t input = Ok (with_equities t (store_not_nan input (equities t))).
Proof.
  intros E. unfold setEquity. rewrite E, Nat.eqb_refl. reflexivity.
Qed.

Lemma rounded_sum_snoc (round_float : R -> R) (l : list R) (x : R) :
  rounded_sum round_float (l ++ [x]) = round_float (rounded_sum round_float l + x).
Proof. unfold rounded_sum. rewrite fold_left_app. reflexivity. Qed.

Lemma add_card_reach_rounded_length (round_float : R -> R) (sums : list R)
    (h : PrivateCards) (x : R) :
  length (add_card_reach_rounded round_float sums h x) = length sums.
Proof. unfold add_card_reach_rounded. rewrite !length_insert. reflexivity. Qed.

Lemma add_card_reach_rounded_lookup (round_float : R -> R) (sums : list R)
    (h : PrivateCards) (x : R) (c : nat) :
  (card1 h < length sums)%nat -> (card2 h < length sums)%nat ->
  card1 h <> card2 h ->
  add_card_reach_rounded round_float sums h x !!! c
  = if holds_card h c then round_float (sums !!! c + x) else sums !!! c.
Proof.
  intros H1 H2 Hd. unfold add_card_reach_rounded, holds_card.
  destruct (Nat.eqb_spec (card2 h) c) as [E2|N2].
  - subst c. rewrite list_lookup_total_insert_eq by (rewrite length_insert; exact H2).
    rewrite list_lookup_total_insert_ne by exact Hd.
    rewrite orb_true_r. reflexivity.
  - rewrite list_lookup_total_insert_ne by exact N2.
    destruct (Nat.eqb_spec (card1 h) c) as [E1|N1]; cbn [orb].
    + subst c. rewrite list_lookup_total_insert_eq by exact H1. reflexivity.
    + apply list_lookup_total_insert_ne. exact N1.
Qed.

(** The loop of the EV block that sums the opponent's reach, in all and
    per card. *)
Lemma rounded_sum_loop (round_float : R -> R) (hands : list PrivateCards)
    (reach : list R) :
  Forall hand_ok hands ->
  let st := for_range (length hands) (fun i '(oppo_sum, oppo_card_sum) =>
                (round_float (oppo_sum + reach !!! i),
                 add_card_reach_rounded round_float oppo_card_sum (hands !!! i)
                   (reach !!! i)))
              (0, replicate 52 0) in
  fst st = rounded_sum round_float (map (fun i => reach !!! i) (seq 0 (length hands))) /\
  length (snd st) = 52%nat /\
  forall c, (c < 52)%nat -> snd st !!! c = rounded_holding round_float hands reach c.
Proof.
  intros Hok st.
  pose (P := fun (k : nat) (s : R * list R) =>
      fst s = rounded_sum round_float (map (fun i => reach !!! i) (seq 0 k)) /\
      length (snd s) = 52%nat /\
      forall c, (c < 52)%nat ->
        snd s !!! c =
          rounded_sum round_float
            (map (fun i => reach !!! i)
               (List.filter (fun i => holds_card (hands !!! i) c) (seq 0 k)))).
  assert (Inv : P (length hands) st).
  { apply (for_range_ind P).
    - unfold P. cbn [fst snd seq map List.filter]. split; [reflexivity|].
      split; [apply length_replicate|].
      intros c Hc. rewrite lookup_total_replicate_2 by exact Hc. reflexivity.
    - intros k [s cs] Hk (H1 & H2 & H3). cbn [fst snd] in *.
      assert (Hh : hand_ok (hands !!! k)).
      { rewrite Forall_forall in Hok. apply Hok, list_elem_of_lookup_total_2. exact Hk. }
      destruct Hh as (A1 & A2 & Ad).
      unfold P. cbn [fst snd]. rewrite seq_S. cbn [Nat.add].
      split; [rewrite map_app; cbn [map]; rewrite rounded_sum_snoc, H1; reflexivity|].
      split; [rewrite add_card_reach_rounded_length; exact H2|].
      intros c Hc. rewrite add_card_reach_rounded_lookup by (lia || exact Ad).
      rewrite List.filter_app, map_app. cbn [List.filter].
      destruct (holds_card (hands !!! k) c); cbn [map].
      + rewrite rounded_sum_snoc, H3 by exact Hc. reflexivity.
      + rewrite app_nil_r. apply H3, Hc. }
  exact Inv.
Qed.

(** The opponent's reach against a hand of the player, as the EV block
    computes it from these sums. *)
Lemma rp_sum_rounded (round_float : R -> R) (this : PCfrSolver) (player : nat)
    (reach_probs : list R) (oppo_sum : R) (oppo_card_sum : list R) (h : nat) :
  let oppo := (1 - player)%nat in
  let hand := ranges this player !!! h in
  oppo_sum = rounded_sum round_float reach_probs ->
  (forall c, (c < 52)%nat ->
     oppo_card_sum !!! c = rounded_holding round_float (ranges this oppo) reach_probs c) ->
  hand_ok hand ->
  rp_sum round_float this player (ranges this player) reach_probs oppo_sum
    oppo_card_sum h
  = round_float
      (round_float
         (round_float
            (rounded_sum round_float reach_probs
             - rounded_holding round_float (ranges this oppo) reach_probs (card1 hand))
          - rounded_holding round_float (ranges this oppo) reach_probs (card2 hand))
       + same_hand_reach this player h reach_probs).
Proof.
  intros oppo hand Hs Hcs (H1 & H2 & _).
  unfold rp_sum, same_hand_reach. fold oppo hand.
  rewrite !Hcs by assumption. rewrite Hs. reflexivity.
Qed.

(** X14 (the EV and equity tables). On an iteration that is a multiple
    of [print_interval], a node of the traversing player stores, for every
    action and hand, the child's payoff divided by [rp_sum], or 0 when
    [rp_sum] is not positive. [rp_sum] is the value the code computes in
    single precision: the running sum of the opponent's reach, minus the
    running sum of the reach of the opponent hands holding the hand's
    first card, minus that of the second card, plus the reach of the
    identical hand, every addition and subtraction rounded; a cancellation
    that leaves a positive rounding residue takes the quotient. The value
    goes through [setEv], so a NaN leaves the old entry. The equities are
    stored in the same way when they are tracked. The regret tables of all
    trainables are those of the update with the node's regrets. *)
Theorem actionUtility_stores_evs (State : Type) (to_float : R -> float)
    (round_float : R -> R)
    (cfr : nat -> list R -> State -> Result (CfrResult * State))
    (this : PCfrSolver) (player : nat) (node : ActionNode) (table : Trainables)
    (reach_probs : list R) (iter : Z) (deal : nat) (st st' : State)
    (results : list CfrResult) :
  let A := length (getActions node) in
  let H := length (ranges this player) in
  let oppo := (1 - player)%nat in
  let rp := fun h =>
    round_float
      (round_float
         (round_float
            (rounded_sum round_float reach_probs
             - rounded_holding round_float (ranges this oppo) reach_probs
                 (card1 (ranges this player !!! h)))
          - rounded_holding round_float (ranges this oppo) reach_probs
              (card2 (ranges this player !!! h)))
       + same_hand_reach this player h reach_probs) in
  let stored := fun (value : R) (h : nat) (old : float) =>
    let v := to_float (if Rgt_dec (rp h) 0 then value / rp h else 0) in
    if isNaN v then old else v in
  getPlayer node = player ->
  (player < 2)%nat ->
  print_interval this <> 0%Z ->
  Z.rem iter (print_interval this) = 0%Z ->
  Forall hand_ok (ranges this player) ->
  Forall hand_ok (ranges this oppo) ->
  length reach_probs = length (ranges this oppo) ->
  length (evs (table deal)) = (A * H)%nat ->
  length (equities (table deal)) = (A * H)%nat ->
  call_in_order cfr (fun _ => reach_probs) (seq 0 A) st = Ok (results, st') ->
  (forall a, (a < A)%nat -> length (payoffs (results !!! a)) = H) ->
  (enable_equity this = true ->
   forall a, (a < A)%nat -> length (equity (results !!! a)) = H) ->
  exists res regrets table',
    actionUtility State to_float round_float cfr this player node table reach_probs iter deal st
    = Ok (res, table', st') /\
    (forall a h, (a < A)%nat -> (h < H)%nat ->
       regrets !!! (a * H + h)%nat
       = payoffs (results !!! a) !!! h - payoffs res !!! h) /\
    (forall d,
       r_plus (table' d) = r_plus (action_update this table regrets iter deal d) /\
       r_plus_sum (table' d) = r_plus_sum (action_update this table regrets iter deal d) /\
       cum_r_plus (table' d) = cum_r_plus (action_update this table regrets iter deal d)) /\
    (forall d, d <> deal -> evs (table' d) = evs (table d) /\
                            equities (table' d) = equities (table d)) /\
    (forall a h, (a < A)%nat -> (h < H)%nat ->
       evs (table' deal) !!! (a * H + h)%nat
       = stored (payoffs (results !!! a) !!! h) h (evs (table deal) !!! (a * H + h)%nat)) /\
    (enable_equity this = true ->
     forall a h, (a < A)%nat -> (h < H)%nat ->
       equities (table' deal) !!! (a * H + h)%nat
       = stored (equity (results !!! a) !!! h) h
           (equities (table deal) !!! (a * H + h)%nat)) /\
    (enable_equity this = false -> equities (table' deal) = equities (table deal)).
Proof.
  intros A H oppo rp stored Hown Hp Hpi Hrem Hokp Hoko Hlen Lev Leq Hcall Hu He.
  destruct (own_node_values State to_float round_float cfr this player node table reach_probs
              iter deal st st' results Hown Hcall Hu He)
    as (pay & eq & aae & regrets & L1 & C1 & E1 & E0 & Lr & Cr & Eact).
  fold A H in Cr.
  pose proof (call_in_order_length cfr _ _ _ _ _ Hcall) as HA. rewrite length_seq in HA.
  rewrite Hrem, Z.eqb_refl in Eact. cbv zeta in Eact.
  set (table1 := action_update this table regrets iter deal) in *.
  assert (K1 : forall d, evs (table1 d) = evs (table d) /\
                         equities (table1 d) = equities (table d)).
  { intros d. apply action_update_tables_kept. }
  (* the EV block *)
  unfold action_store_evs in Eact. fold oppo in Eact.
  rewrite (playerHands_ranges this oppo) in Eact by (unfold oppo; lia).
  rewrite (playerHands_ranges this player Hp) in Eact.
  pose proof (rounded_sum_loop round_float (ranges this oppo) reach_probs Hoko) as Hsum.
  cbv zeta in Hsum.
  destruct (for_range (length (ranges this oppo)) _ (0, replicate 52 0))
    as [oppo_sum oppo_card_sum].
  cbn [fst snd] in Hsum. destruct Hsum as (Hs & _ & Hcs).
  rewrite <- Hlen, lookups_id in Hs.
  assert (Hrp : forall h, (h < H)%nat ->
            rp_sum round_float this player (ranges this player) reach_probs
              oppo_sum oppo_card_sum h
            = rp h).
  { intros h Hh. apply rp_sum_rounded; [exact Hs|exact Hcs|].
    rewrite Forall_forall in Hokp. apply Hokp, list_elem_of_lookup_total_2. exact Hh. }
  (* the table of EVs *)
  destruct (normalised_values_spec round_float this player node (ranges this player) reach_probs
              oppo_sum oppo_card_sum false (map payoffs results))
    as [Lv Cv]; [discriminate|].
  rewrite Hown in Lv, Cv. fold A H in Lv, Cv.
  set (evs_ := normalised_values round_float this player node (ranges this player) reach_probs
                 oppo_sum oppo_card_sum false (map payoffs results)) in *.
  rewrite (setEv_ok (table1 deal) (map to_float evs_)) in Eact
    by (rewrite length_map, Lv, (proj1 (K1 deal)), Lev; reflexivity).
  set (t2 := with_evs (table1 deal)
               (store_not_nan (map to_float evs_) (evs (table1 deal)))) in *.
  destruct (store_not_nan_spec (map to_float evs_) (evs (table1 deal))) as [Ls Cs].
  { rewrite length_map, Lv, (proj1 (K1 deal)), Lev. reflexivity. }
  assert (Cev : forall a h, (a < A)%nat -> (h < H)%nat ->
            evs t2 !!! (a * H + h)%nat
            = stored (payoffs (results !!! a) !!! h) h
                (evs (table deal) !!! (a * H + h)%nat)).
  { intros a h Ha Hh. unfold t2. cbn [evs with_evs].
    rewrite Cs by (rewrite (proj1 (K1 deal)), Lev; apply index_lt; assumption).
    rewrite (list_lookup_total_fmap to_float evs_)
      by (rewrite Lv; apply index_lt; assumption).
    rewrite Cv by assumption. rewrite (Hrp h Hh).
    rewrite (list_lookup_total_fmap payoffs results a) by lia.
    rewrite (proj1 (K1 deal)). reflexivity. }
  set (table2 := set_trainable table1 deal t2) in *.
  assert (T2 : table2 deal = t2) by (unfold table2, set_trainable; rewrite Nat.eqb_refl; reflexivity).
  assert (T2' : forall d, d <> deal -> table2 d = table1 d).
  { intros d Hd. unfold table2, set_trainable.
    destruct (Nat.eqb_spec d deal); [contradiction|reflexivity]. }
  destruct (enable_equity this) eqn:Een.
  - (* equities are tracked *)
    destruct (E1 eq_refl) as (L2 & U2 & C2). subst aae.
    cbn [andb] in Eact. rewrite length_map, HA in Eact.
    destruct (Nat.eqb_spec A 0) as [A0|AN]; cbn [negb] in Eact.
    + exists (mkCfrResult pay eq), regrets, table2. split; [exact Eact|].
      cbn [payoffs]. split; [exact Cr|]. split.
      { intros d. destruct (Nat.eq_dec d deal) as [->|Hd].
        - rewrite T2. repeat split; reflexivity.
        - rewrite (T2' d Hd). repeat split; reflexivity. }
      split.
      { intros d Hd. rewrite (T2' d Hd). apply K1. }
      split; [rewrite T2; exact Cev|]. split; [|discriminate].
      intros _ a h Ha. lia.
    + destruct (normalised_values_spec round_float this player node (ranges this player)
      reach_probs
                  oppo_sum oppo_card_sum true (map equity results))
        as [Lq Cq].
      { intros _ a Ha. rewrite Hown.
        rewrite (list_lookup_total_fmap equity results a) by (fold A in Ha; lia).
        apply (He eq_refl a Ha). }
      rewrite Hown in Lq, Cq. fold A H in Lq, Cq.
      set (eqs := normalised_values round_float this player node (ranges this player)
        reach_probs
                    oppo_sum oppo_card_sum true (map equity results)) in *.
      rewrite T2 in Eact.
      rewrite (setEquity_ok t2 (map to_float eqs)) in Eact
        by (rewrite length_map, Lq; unfold t2; cbn [equities with_evs];
            rewrite (proj2 (K1 deal)), Leq; reflexivity).
      set (t3 := with_equities t2 (store_not_nan (map to_float eqs) (equities t2))) in *.
      destruct (store_not_nan_spec (map to_float eqs) (equities t2)) as [Ls' Cs'].
      { rewrite length_map, Lq. unfold t2. cbn [equities with_evs].
        rewrite (proj2 (K1 deal)), Leq. reflexivity. }
      exists (mkCfrResult pay eq), regrets, (set_trainable table2 deal t3).
      split; [exact Eact|]. cbn [payoffs]. split; [exact Cr|].
      assert (T3 : set_trainable table2 deal t3 deal = t3)
        by (unfold set_trainable; rewrite Nat.eqb_refl; reflexivity).
      assert (T3' : forall d, d <> deal -> set_trainable table2 deal t3 d = table1 d).
      { intros d Hd. unfold set_trainable at 1.
        destruct (Nat.eqb_spec d deal); [contradiction|apply T2'; exact Hd]. }
      split.
      { intros d. destruct (Nat.eq_dec d deal) as [->|Hd].
        - rewrite T3. repeat split; reflexivity.
        - rewrite (T3' d Hd). repeat split; reflexivity. }
      split.
      { intros d Hd. rewrite (T3' d Hd). apply K1. }
      split; [rewrite T3; exact Cev|]. split; [|discriminate].
      intros _ a h Ha Hh. rewrite T3. unfold t3. cbn [equities with_equities].
      assert (Leq2 : equities t2 = equities (table deal)).
      { unfold t2. cbn [equities with_evs]. apply K1. }
      rewrite Cs' by (rewrite Leq2, Leq; apply index_lt; assumption).
      rewrite (list_lookup_total_fmap to_float eqs)
        by (rewrite Lq; apply index_lt; assumption).
      rewrite Cq by assumption. rewrite (Hrp h Hh).
      rewrite (list_lookup_total_fmap equity results a) by lia.
      rewrite Leq2. reflexivity.
  - cbn [andb] in Eact.
    exists (mkCfrResult pay eq), regrets, table2. split; [exact Eact|].
    cbn [payoffs]. split; [exact Cr|]. split.
    { intros d. destruct (Nat.eq_dec d deal) as [->|Hd].
      - rewrite T2. repeat split; reflexivity.
      - rewrite (T2' d Hd). repeat split; reflexivity. }
    split.
    { intros d Hd. rewrite (T2' d Hd). apply K1. }
    split; [rewrite T2; exact Cev|]. split; [discriminate|].
    intros _. rewrite T2. unfold t2. cbn [equities with_evs]. apply K1.
Qed.

Lemma actionUtility_stores_evs_witness :
  exists res table',
    actionUtility unit example_to_float example_round fixed_children warmup_driver 0
      (example_action_node 0) fresh_table [1; 1] 2 0 tt
    = Ok (res, table', tt) /\
    forall d, d <> 0%nat -> evs (table' d) = evs (fresh_table d).
Proof.
  destruct (actionUtility_stores_evs unit example_to_float example_round fixed_children
              warmup_driver 0 (example_action_node 0) fresh_table [1; 1] 2 0 tt tt
              [mkCfrResult [INR 0; 1] []; mkCfrResult [INR 1; 1] []]
              eq_refl ltac:(lia) ltac:(cbn; lia) eq_refl
              (proj1 (proj1 example_ranges_ok)) (proj1 (proj2 example_ranges_ok))
              eq_refl eq_refl eq_refl eq_refl)
    as (res & regrets & table' & E & _ & _ & K & _).
  - intros a Ha. destruct a as [|[|a]]; [reflexivity|reflexivity|cbn in Ha; lia].
  - discriminate.
  - exists res, table'. split; [exact E|]. intros d Hd. apply (K d Hd).
Defined.

(** ** The value of a chance node *)

Lemma add_vector_spec (acc v : list R) :
  (length v <= length acc)%nat ->
  length (add_vector acc v) = length acc /\
  forall h, add_vector acc v !!! h
            = if (h <? length v)%nat then acc !!! h + v !!! h else acc !!! h.
Proof.
  intros Hl. unfold add_vector.
  pose (P := fun (k : nat) (r : list R) =>
      length r = length acc /\
      forall h, r !!! h = if (h <? k)%nat then acc !!! h + v !!! h else acc !!! h).
  apply (for_range_ind P).
  - split; [reflexivity|]. intros h. reflexivity.
  - intros k r Hk [L C]. split; [rewrite length_insert; exact L|].
    intros h. destruct (Nat.eq_dec h k) as [->|Hne].
    + rewrite list_lookup_total_insert_eq by lia.
      rewrite (proj2 (Nat.ltb_lt k (S k))) by lia.
      rewrite C, (proj2 (Nat.ltb_ge k k)) by lia. reflexivity.
    + rewrite list_lookup_total_insert_ne by congruence. rewrite C.
      destruct (Nat.ltb_spec h k), (Nat.ltb_spec h (S k)); try lia; reflexivity.
Qed.

Lemma add_scaled_spec (acc v : list R) (weight : R) :
  (length v <= length acc)%nat ->
  length (add_scaled acc v weight) = length acc /\
  forall h, add_scaled acc v weight !!! h
            = if (h <? length v)%nat then acc !!! h + v !!! h * weight else acc !!! h.
Proof.
  intros Hl. unfold add_scaled.
  pose (P := fun (k : nat) (r : list R) =>
      length r = length acc /\
      forall h, r !!! h
                = if (h <? k)%nat then acc !!! h + v !!! h * weight else acc !!! h).
  apply (for_range_ind P).
  - split; [reflexivity|]. intros h. reflexivity.
  - intros k r Hk [L C]. split; [rewrite length_insert; exact L|].
    intros h. destruct (Nat.eq_dec h k) as [->|Hne].
    + rewrite list_lookup_total_insert_eq by lia.
      rewrite (proj2 (Nat.ltb_lt k (S k))) by lia.
      rewrite C, (proj2 (Nat.ltb_ge k k)) by lia. reflexivity.
    + rewrite list_lookup_total_insert_ne by congruence. rewrite C.
      destruct (Nat.ltb_spec h k), (Nat.ltb_spec h (S k)); try lia; reflexivity.
Qed.

Lemma run_children_in_order {State RandState : Type}
    (cfr : Z -> list R -> nat -> State * RandState ->
           Result (CfrResult * (State * RandState)))
    (this : PCfrSolver) (player : nat) (node : ChanceNode)
    (reach_probs : list R) (current_board : Z) (deal : nat) :
  monteCarolAlg this = NONE ->
  distributing_task this = false ->
  (deal <= length (getCards node))%nat ->
  forall (cards : list nat) (results : list CfrResult) (env : State * RandState),
    run_children State RandState cfr this player node reach_probs current_board deal
      cards results env
    = match deal_in_order cfr
              (map (chance_call this player node reach_probs current_board deal) cards)
              env with
      | Throw _ => Throw terminate
      | Ok (rs, env') => Ok (place_results node cards rs results, env')
      end.
Proof.
  intros Hmc Hdt Hdeal cards. unfold run_children, omp_parallel_for.
  set (body := fun (card : nat) (st : list CfrResult * (State * RandState)) => _).
  enough (G : forall results env,
            for_each cards body (results, env)
            = match deal_in_order cfr
                      (map (chance_call this player node reach_probs current_board deal)
                         cards) env with
              | Throw what => Throw what
              | Ok (rs, env') => Ok (place_results node cards rs results, env')
              end).
  { intros results env. rewrite G.
    destruct (deal_in_order cfr _ env) as [[rs env']|w]; reflexivity. }
  induction cards as [|card cards IH]; intros results env.
  - reflexivity.
  - cbn [for_each map deal_in_order].
    assert (E1 : body card (results, env) =
              match cfr (Z.lor current_board
                           (boardInt2long (getCardInt (getCards node !!! card))))
                      (dealt_reach this (1 - player)
                         (getCardInt (getCards node !!! card)) reach_probs
                         (possible_deals node current_board))
                      (dealt_deal (length (getCards node)) deal card) env with
              | Throw what => Throw what
              | Ok (child_result, env) =>
                  Ok (<[getNumberInDeckInt (getCards node !!! card) := child_result]>
                        results, env)
              end).
    { unfold body.
      rewrite (child_call_dealt this player node reach_probs current_board deal card
                 Hmc Hdeal).
      cbv zeta. rewrite Hdt. reflexivity. }
    rewrite E1. unfold chance_call at 1. cbv zeta.
    destruct (cfr _ _ _ env) as [[r env1]|w]; [|reflexivity].
    rewrite IH.
    destruct (deal_in_order cfr _ env1) as [[rs env2]|w]; reflexivity.
Qed.

Lemma place_results_lookup (node : ChanceNode) (N : nat) :
  forall (cards : list nat) (rs results : list CfrResult),
    NoDup cards ->
    (forall k, In k cards ->
       (k < N)%nat /\ getNumberInDeckInt (getCards node !!! k) = k) ->
    length rs = length cards ->
    length results = N ->
    length (place_results node cards rs results) = N /\
    (forall j, (j < length cards)%nat ->
       place_results node cards rs results !!! (cards !!! j) = rs !!! j) /\
    (forall k, ~ In k cards -> place_results node cards rs results !!! k = results !!! k).
Proof.
  induction cards as [|c cards IH]; intros rs results Hnd Hc Hl HN.
  - destruct rs; [|discriminate]. cbn. split; [exact HN|].
    split; [intros j Hj; lia|reflexivity].
  - destruct rs as [|r rs]; [discriminate|]. injection Hl as Hl.
    apply NoDup_cons in Hnd as [Hnotin Hnd].
    destruct (Hc c (or_introl eq_refl)) as [HcN Hnum].
    unfold place_results. cbn [zip zip_with fold_left fst snd]. rewrite Hnum.
    fold (place_results node cards rs (<[c := r]> results)).
    destruct (IH rs (<[c := r]> results) Hnd) as (L & C & O).
    + intros k Hk. apply Hc. right. exact Hk.
    + exact Hl.
    + rewrite length_insert. exact HN.
    + split; [exact L|]. split.
      * intros [|j] Hj; cbn [lookup_total list_lookup_total].
        -- rewrite O by (intros X; apply Hnotin, list_elem_of_In; exact X).
           apply list_lookup_total_insert_eq. lia.
        -- apply C. cbn [length] in Hj. lia.
      * intros k Hk. rewrite O by (intros X; apply Hk; right; exact X).
        apply list_lookup_total_insert_ne. intros E. apply Hk. left. exact E.
Qed.

Lemma sumR_filter_zero (g : nat -> R) (p : nat -> bool) (l : list nat) :
  (forall k, In k l -> p k = false -> g k = 0) ->
  sumR (map g l) = sumR (map g (List.filter p l)).
Proof.
  induction l as [|x l IH]; intros Hz; [reflexivity|].
  cbn [map List.filter]. rewrite sumR_cons.
  rewrite IH by (intros k Hk; apply Hz; right; exact Hk).
  destruct (p x) eqn:E.
  - cbn [map]. rewrite sumR_cons. reflexivity.
  - rewrite (Hz x (or_introl eq_refl) E). lra.
Qed.

Lemma nil_lookup_zero (h : nat) : (@nil R) !!! h = 0.
Proof. destruct h; reflexivity. Qed.

(** The serial pass after warmup when no suit borrows from another: every
    slot's value is added. *)
Lemma accumulate_sum (exchange_color : list R -> list PrivateCards -> Z -> Z -> list R)
    (this : PCfrSolver) (player : nat) (node : ChanceNode) (iter : Z) (deal : nat)
    (multiplier : list R) (results : list CfrResult) :
  let N := length (getCards node) in
  let n := length (ranges this player) in
  (warmup this < iter)%Z ->
  (forall s, color_iso_offset this deal s = 0%Z) ->
  (forall k, (k < N)%nat -> getNumberInDeckInt (getCards node !!! k) = k) ->
  (forall k, (k < N)%nat ->
     (length (payoffs (results !!! k)) = n /\
      (enable_equity this = true -> length (equity (results !!! k)) = n)) \/
     (payoffs (results !!! k) = [] /\ equity (results !!! k) = [])) ->
  let r := accumulate exchange_color this player node iter deal multiplier results
             (replicate n 0) (if enable_equity this then replicate n 0 else []) in
  length (fst r) = n /\
  (forall h, (h < n)%nat ->
     fst r !!! h = sumR (map (fun k => payoffs (results !!! k) !!! h) (seq 0 N))) /\
  (enable_equity this = true ->
   length (snd r) = n /\
   forall h, (h < n)%nat ->
     snd r !!! h = sumR (map (fun k => equity (results !!! k) !!! h) (seq 0 N))) /\
  (enable_equity this = false -> snd r = []).
Proof.
  intros N n Hw Hoff Hnum Hres. unfold accumulate. fold N.
  set (body := fun (card : nat) (x : list R * list R) => _).
  pose (P := fun (k : nat) (r : list R * list R) =>
      length (fst r) = n /\
      (forall h, (h < n)%nat ->
         fst r !!! h = sumR (map (fun k => payoffs (results !!! k) !!! h) (seq 0 k))) /\
      (enable_equity this = true ->
       length (snd r) = n /\
       forall h, (h < n)%nat ->
         snd r !!! h = sumR (map (fun k => equity (results !!! k) !!! h) (seq 0 k))) /\
      (enable_equity this = false -> snd r = [])).
  apply (for_range_ind P).
  - unfold P. cbn [fst snd]. split; [apply length_replicate|].
    split; [intros h Hh; rewrite lookup_total_replicate_2 by exact Hh; reflexivity|].
    split.
    + intros E. rewrite E. split; [apply length_replicate|].
      intros h Hh. rewrite lookup_total_replicate_2 by exact Hh. reflexivity.
    + intros E. rewrite E. reflexivity.
  - intros k [cu ce] Hk (L1 & C1 & E1 & E0). cbn [fst snd] in *.
    assert (Eb : body k (cu, ce) =
              let child_result := results !!! k in
              if (length (payoffs child_result) =? 0)%nat then (cu, ce)
              else (add_vector cu (payoffs child_result),
                    if enable_equity this
                       && negb (length (equity child_result) =? 0)%nat
                    then add_vector ce (equity child_result) else ce)).
    { unfold body. rewrite Hoff. cbn [Z.ltb Z.compare]. rewrite (Hnum k Hk).
      cbv zeta. rewrite (proj2 (Z.ltb_lt _ _) Hw). reflexivity. }
    rewrite Eb. cbv zeta. clear Eb.
    assert (Hsum : forall (f : CfrResult -> list R) h,
              sumR (map (fun k => f (results !!! k) !!! h) (seq 0 (S k)))
              = sumR (map (fun k => f (results !!! k) !!! h) (seq 0 k))
                + f (results !!! k) !!! h).
    { intros f h. rewrite seq_S, map_app. cbn [map Nat.add]. apply sumR_snoc. }
    destruct (Hres k Hk) as [[Lp Le]|[Ep Ee]].
    + destruct (Nat.eqb_spec (length (payoffs (results !!! k))) 0) as [Z|NZ].
      * assert (n = 0%nat) by lia. unfold P. cbn [fst snd].
        split; [exact L1|]. split; [intros h Hh; lia|]. split; [|exact E0].
        intros E. destruct (E1 E) as [L2 C2]. split; [exact L2|]. intros h Hh. lia.
      * destruct (add_vector_spec cu (payoffs (results !!! k))) as [La Ca]; [lia|].
        unfold P. cbn [fst snd]. split; [lia|]. split.
        { intros h Hh. rewrite Ca, (proj2 (Nat.ltb_lt _ _)) by lia.
          rewrite Hsum, C1 by exact Hh. reflexivity. }
        split.
        -- intros E. destruct (E1 E) as [L2 C2]. rewrite E. cbn [andb].
           specialize (Le E).
           destruct (Nat.eqb_spec (length (equity (results !!! k))) 0) as [Z|NZ'];
             [lia|]. cbn [negb].
           destruct (add_vector_spec ce (equity (results !!! k))) as [La' Ca']; [lia|].
           split; [lia|]. intros h Hh.
           rewrite Ca', (proj2 (Nat.ltb_lt _ _)) by lia.
           rewrite Hsum, C2 by exact Hh. reflexivity.
        -- intros E. rewrite E. cbn [andb]. apply E0, E.
    + rewrite Ep. cbn [length Nat.eqb]. unfold P. cbn [fst snd].
      split; [exact L1|]. split.
      { intros h Hh. rewrite Hsum, C1, Ep, nil_lookup_zero by exact Hh. lra. }
      split; [|exact E0].
      intros E. destruct (E1 E) as [L2 C2]. split; [exact L2|]. intros h Hh.
      rewrite Hsum, C2, Ee, nil_lookup_zero by exact Hh. lra.
Qed.

Lemma deal_in_order_length {Env : Type}
    (cfr : Z -> list R -> nat -> Env -> Result (CfrResult * Env))
    (calls : list (Z * list R * nat)) (env env' : Env) (rs : list CfrResult) :
  deal_in_order cfr calls env = Ok (rs, env') -> length rs = length calls.
Proof.
  revert env rs. induction calls as [|[[b r] d] calls IH]; intros env rs E;
    cbn [deal_in_order] in E.
  - injection E as <- _. reflexivity.
  - destruct (cfr b r d env) as [[x env1]|w]; [|discriminate].
    destruct (deal_in_order cfr calls env1) as [[rs1 env2]|w] eqn:E1; [|discriminate].
    injection E as <- <-. cbn [length]. f_equal. apply (IH env1 rs1 E1).
Qed.

(** X15 (the value of a chance node). After warmup, at a chance node
    whose cards sit at their own numbers in the deck and at a deal where no
    suit borrows from another, [chanceUtility] draws no random number and
    calls its child once for every card that is not on the board, in card
    order; a throw of a call does not reach the caller of [chanceUtility]
    but ends the process, as the calls are made inside the OpenMP parallel
    region. When every call returns a value for every hand of the player,
    the payoff of a hand is the plain sum of the payoffs of the calls (the
    weight [1 / possible_deals] of a card is already in the reach of the
    call), and so is the equity when it is tracked. *)
Theorem chanceUtility_sums_children (State RandState : Type)
    (std_rand : RandState -> nat * RandState)
    (exchange_color : list R -> list PrivateCards -> Z -> Z -> list R)
    (cfr : Z -> list R -> nat -> State * RandState ->
           Result (CfrResult * (State * RandState)))
    (this : PCfrSolver) (player : nat) (node : ChanceNode)
    (reach_probs : list R) (iter : Z) (current_board : Z) (deal : nat)
    (env : State * RandState) :
  let card_num := length (getCards node) in
  let n := length (ranges this player) in
  monteCarolAlg this = NONE ->
  distributing_task this = false ->
  (card_num mod 4 = 0)%nat ->
  (deal <= card_num)%nat ->
  (warmup this < iter)%Z ->
  (forall s, color_iso_offset this deal s = 0%Z) ->
  (forall k, (k < card_num)%nat -> getNumberInDeckInt (getCards node !!! k) = k) ->
  match deal_in_order cfr
          (map (chance_call this player node reach_probs current_board deal)
             (off_board_cards node current_board)) env with
  | Throw _ =>
      chanceUtility State RandState std_rand exchange_color cfr this player node
        reach_probs iter current_board deal env = Throw terminate
  | Ok (results, env') =>
      Forall (fun r => length (payoffs r) = n /\
                       (enable_equity this = true -> length (equity r) = n)) results ->
      exists res,
        chanceUtility State RandState std_rand exchange_color cfr this player node
          reach_probs iter current_board deal env = Ok (res, env') /\
        length (payoffs res) = n /\
        (forall h, (h < n)%nat ->
           payoffs res !!! h = sumR (map (fun r => payoffs r !!! h) results)) /\
        (enable_equity this = true ->
         forall h, (h < n)%nat ->
           equity res !!! h = sumR (map (fun r => equity r !!! h) results))
  end.
Proof.
  intros card_num n Hmc Hdt Hmod Hdeal Hw Hoff Hnum.
  unfold chanceUtility. fold card_num n.
  rewrite (proj2 (Nat.eqb_eq _ _) Hmod). cbn [negb].
  rewrite (proj2 (Z.leb_gt _ _) Hw).
  rewrite valid_cards_filter.
  assert (Ev : List.filter (dealt this node iter [] current_board deal) (seq 0 card_num)
               = off_board_cards node current_board).
  { unfold off_board_cards. fold card_num. apply filter_ext. intros card.
    unfold dealt. rewrite Hoff. rewrite (proj2 (Z.ltb_lt _ _) Hw).
    cbn [Z.leb Z.compare orb]. rewrite !andb_true_r. reflexivity. }
  fold card_num. rewrite Ev. destruct env as [st rs]. cbn [fst snd].
  rewrite (run_children_in_order cfr this player node reach_probs current_board deal
             Hmc Hdt Hdeal).
  set (cards := off_board_cards node current_board) in *.
  destruct (deal_in_order cfr _ (st, rs)) as [[results env']|what] eqn:Ecalls;
    [|reflexivity].
  intros Hres.
  pose proof (deal_in_order_length cfr _ _ _ _ Ecalls) as Lrs.
  rewrite length_map in Lrs.
  assert (Hin : forall k, In k cards -> (k < card_num)%nat).
  { intros k Hk. unfold cards, off_board_cards in Hk.
    apply filter_In in Hk as [Hk _]. apply in_seq in Hk. fold card_num in Hk. lia. }
  assert (Hnd : NoDup cards).
  { unfold cards, off_board_cards. apply NoDup_ListNoDup, List.NoDup_filter, seq_NoDup. }
  destruct (place_results_lookup node card_num cards results
              (replicate card_num (mkCfrResult [] [])) Hnd)
    as (Lp & Cp & Op).
  { intros k Hk. split; [apply Hin, Hk|apply Hnum, Hin, Hk]. }
  { exact Lrs. }
  { apply length_replicate. }
  set (placed := place_results node cards results
                   (replicate card_num (mkCfrResult [] []))) in *.
  assert (Hslot : forall k, (k < card_num)%nat ->
            (length (payoffs (placed !!! k)) = n /\
             (enable_equity this = true -> length (equity (placed !!! k)) = n)) \/
            (payoffs (placed !!! k) = [] /\ equity (placed !!! k) = [])).
  { intros k Hk. destruct (in_dec Nat.eq_dec k cards) as [Hi|Hni].
    - left. apply list_elem_of_In, list_elem_of_lookup_total in Hi.
      destruct Hi as (j & Hj & <-). rewrite Cp by exact Hj.
      rewrite Forall_forall in Hres. apply Hres, list_elem_of_lookup_total_2. lia.
    - right. rewrite (Op k Hni). rewrite lookup_total_replicate_2 by exact Hk.
      split; reflexivity. }
  pose proof (accumulate_sum exchange_color this player node iter deal [] placed
                Hw Hoff Hnum Hslot) as Hacc.
  cbv zeta in Hacc. fold n card_num in Hacc.
  destruct (accumulate exchange_color this player node iter deal [] placed _ _)
    as [cu ce].
  cbn [fst snd] in Hacc. destruct Hacc as (L1 & C1 & E1 & _).
  assert (Hre : forall (f : CfrResult -> list R) h,
            f (mkCfrResult [] []) = [] ->
            (forall k, ~ In k cards -> (k < card_num)%nat ->
               f (placed !!! k) = f (mkCfrResult [] [])) ->
            sumR (map (fun k => f (placed !!! k) !!! h) (seq 0 card_num))
            = sumR (map (fun r => f r !!! h) results)).
  { intros f h Hf0 Hout.
    rewrite (sumR_filter_zero _
               (fun card => negb (boardsHasIntercept
                                    (boardInt2long (getCardInt (getCards node !!! card)))
                                    current_board))).
    - fold card_num. change (List.filter _ (seq 0 card_num)) with cards.
      f_equal. apply list_eq_total; [rewrite !length_map; lia|].
      rewrite length_map. intros j Hj.
      rewrite (list_lookup_total_fmap (fun k => f (placed !!! k) !!! h) cards j)
        by exact Hj.
      rewrite (list_lookup_total_fmap (fun r => f r !!! h) results j) by lia.
      rewrite Cp by exact Hj. reflexivity.
    - intros k Hk Hp. apply in_seq in Hk.
      rewrite Hout, Hf0; [apply nil_lookup_zero| |lia].
      intros Hi. unfold cards, off_board_cards in Hi.
      apply filter_In in Hi as [_ Hi]. rewrite Hp in Hi. discriminate. }
  exists (mkCfrResult cu ce). split; [reflexivity|]. cbn [payoffs equity].
  split; [exact L1|]. split.
  - intros h Hh. rewrite C1 by exact Hh. apply (Hre payoffs h); [reflexivity|].
    intros k Hk HkN. rewrite (Op k Hk), lookup_total_replicate_2 by exact HkN.
    reflexivity.
  - intros E h Hh. destruct (E1 E) as [_ C2]. rewrite C2 by exact Hh.
    apply (Hre equity h); [reflexivity|].
    intros k Hk HkN. rewrite (Op k Hk), lookup_total_replicate_2 by exact HkN.
    reflexivity.
Qed.

Lemma chanceUtility_sums_children_witness :
  exists res,
    chanceUtility unit nat counter_rand no_exchange unit_child river_solver 0
      river_chance [1] 1 0 0 (tt, 0%nat) = Ok (res, (tt, 0%nat)) /\
    length (payoffs res) = 1%nat.
Proof.
  pose proof (chanceUtility_sums_children unit nat counter_rand no_exchange unit_child
                river_solver 0 river_chance [1] 1 0 0 (tt, 0%nat)
                eq_refl eq_refl eq_refl (Nat.le_0_l _) ltac:(cbn; lia)
                (fun _ => eq_refl)) as S.
  cbv zeta in S. specialize (S ltac:(intros k Hk; cbn in Hk;
    do 8 (destruct k as [|k]; [reflexivity|]); lia)).
  vm_compute off_board_cards in S.
  cbn [map deal_in_order unit_child] in S.
  destruct S as (res & E & L & _).
  - repeat constructor; discriminate.
  - exists res. split; [exact E|exact L].
Defined.

(** ** The sampling of warmup *)

Lemma count_loop (p : nat -> bool) (l : list nat) (n0 : nat) :
  fold_left (fun num i => if p i then (num + 1)%nat else num) l n0
  = (n0 + length (List.filter p l))%nat.
Proof.
  revert n0. induction l as [|x l IH]; intros n0; cbn [fold_left List.filter].
  - cbn. lia.
  - rewrite IH. destruct (p x); cbn [length]; lia.
Qed.

Lemma draws_S {RandState : Type} (std_rand : RandState -> nat * RandState)
    (k : nat) (rs : RandState) :
  draws std_rand (S k) rs
  = (fst (draws std_rand k rs) ++ [fst (std_rand (snd (draws std_rand k rs)))],
     snd (std_rand (snd (draws std_rand k rs)))).
Proof.
  revert rs. induction k as [|k IH]; intros rs.
  - cbn [draws fst snd app]. destruct (std_rand rs) as [r rs1]. reflexivity.
  - change (draws std_rand (S (S k)) rs)
      with (let '(r, rs1) := std_rand rs in
            let '(l, rs2) := draws std_rand (S k) rs1 in (r :: l, rs2)).
    destruct (std_rand rs) as [r rs1] eqn:E1. rewrite IH.
    cbn [draws]. rewrite E1.
    destruct (draws std_rand k rs1) as [l rs2]. cbn [fst snd]. reflexivity.
Qed.

Lemma draws_length {RandState : Type} (std_rand : RandState -> nat * RandState)
    (k : nat) (rs : RandState) : length (fst (draws std_rand k rs)) = k.
Proof.
  revert rs. induction k as [|k IH]; intros rs; [reflexivity|].
  cbn [draws]. destruct (std_rand rs) as [r rs1]. specialize (IH rs1).
  destruct (draws std_rand k rs1) as [l rs2]. cbn [fst length] in *. lia.
Qed.

(** X16 (the sampling of warmup). During warmup a chance node draws one
    random number per group of four cards, in order. In every group the
    card at position [draw mod 4] gets as its multiplier the number of
    cards of the group that are not on the board, and the other three
    cards of the group get 0: at most one card of a group is dealt. *)
Theorem draw_multiplier_one_per_group (RandState : Type)
    (std_rand : RandState -> nat * RandState) (node : ChanceNode)
    (current_board : Z) (rs : RandState) :
  let card_num := length (getCards node) in
  let groups := (card_num / 4)%nat in
  let multiplier := fst (draw_multiplier RandState std_rand node current_board rs) in
  (card_num mod 4 = 0)%nat ->
  length multiplier = card_num /\
  snd (draw_multiplier RandState std_rand node current_board rs)
    = snd (draws std_rand groups rs) /\
  forall card_base, (card_base < groups)%nat ->
    let cardr := (fst (draws std_rand groups rs) !!! card_base mod 4)%nat in
    multiplier !!! (card_base * 4 + cardr)%nat
      = INR (group_off_board node current_board card_base) /\
    forall i, (i < 4)%nat -> i <> cardr ->
      multiplier !!! (card_base * 4 + i)%nat = 0.
Proof.
  intros card_num groups multiplier Hmod. unfold multiplier, draw_multiplier.
  fold card_num groups.
  set (body := fun (card_base : nat) (x : list R * RandState) => _).
  assert (Hbody : forall b m s,
            body b (m, s) =
              (<[(b * 4 + fst (std_rand s) mod 4)%nat :=
                   INR (group_off_board node current_board b)]> m,
               snd (std_rand s))).
  { intros b m s. unfold body. destruct (std_rand s) as [r s1]. cbn [fst snd].
    f_equal. f_equal. f_equal. unfold group_off_board, for_range.
    rewrite (fold_left_ext_in _
               (fun num i =>
                  if negb (boardsHasIntercept
                             (boardInt2long (getCardInt (getCards node !!! (b * 4 + i)%nat)))
                             current_board)
                  then (num + 1)%nat else num)).
    - rewrite (fold_left_seq_shift
                 (fun x num =>
                    if negb (boardsHasIntercept
                               (boardInt2long (getCardInt (getCards node !!! x)))
                               current_board)
                    then (num + 1)%nat else num) (b * 4) 4).
      rewrite (count_loop (fun x => negb (boardsHasIntercept
                              (boardInt2long (getCardInt (getCards node !!! x)))
                              current_board))).
      reflexivity.
    - intros i num _. destruct (i =? r mod 4)%nat; reflexivity. }
  assert (Hg : (groups * 4 = card_num)%nat).
  { unfold groups. pose proof (Nat.div_mod_eq card_num 4). lia. }
  pose (P := fun (k : nat) (x : list R * RandState) =>
      length (fst x) = card_num /\
      snd x = snd (draws std_rand k rs) /\
      (forall j, (k * 4 <= j)%nat -> fst x !!! j = 0) /\
      forall b, (b < k)%nat ->
        let cardr := (fst (draws std_rand k rs) !!! b mod 4)%nat in
        fst x !!! (b * 4 + cardr)%nat = INR (group_off_board node current_board b) /\
        forall i, (i < 4)%nat -> i <> cardr -> fst x !!! (b * 4 + i)%nat = 0).
  assert (Inv : P groups (for_range groups body (replicate card_num 0, rs))).
  { apply (for_range_ind P).
    - unfold P. cbn [fst snd draws]. split; [apply length_replicate|].
      split; [reflexivity|]. split; [|intros b Hb; lia].
      intros j _. destruct (le_lt_dec card_num j) as [Hge|Hlt].
      + rewrite list_lookup_total_alt.
        rewrite (proj2 (lookup_ge_None _ _)) by (rewrite length_replicate; exact Hge).
        reflexivity.
      + apply lookup_total_replicate_2. exact Hlt.
    - intros k [m s] Hk (L & Es & Hz & Hd). cbn [fst snd] in *.
      rewrite Hbody. unfold P. cbn [fst snd].
      rewrite draws_S. cbn [fst snd]. rewrite <- Es.
      pose proof (Nat.mod_upper_bound (fst (std_rand s)) 4 ltac:(lia)) as Hr.
      split; [rewrite length_insert; exact L|]. split; [reflexivity|]. split.
      + intros j Hj. rewrite list_lookup_total_insert_ne by lia. apply Hz. lia.
      + intros b Hb. cbv zeta.
        pose proof (draws_length std_rand k rs) as Ld.
        destruct (Nat.eq_dec b k) as [->|Hne].
        * rewrite lookup_total_app_r by lia. rewrite Ld, Nat.sub_diag. cbn [lookup_total list_lookup_total].
          split.
          -- apply list_lookup_total_insert_eq. lia.
          -- intros i Hi Hir. rewrite list_lookup_total_insert_ne by lia.
             apply Hz. lia.
        * rewrite lookup_total_app_l by lia.
          destruct (Hd b ltac:(lia)) as [D1 D2].
          pose proof (Nat.mod_upper_bound (fst (draws std_rand k rs) !!! b) 4
                        ltac:(lia)) as Hrb.
          split.
          -- rewrite list_lookup_total_insert_ne by lia. exact D1.
          -- intros i Hi Hir. rewrite list_lookup_total_insert_ne by lia.
             apply D2; assumption. }
  destruct (for_range groups body (replicate card_num 0, rs)) as [m s].
  destruct Inv as (L & Es & _ & Hd). cbn [fst snd] in *.
  split; [exact L|]. split; [exact Es|]. exact Hd.
Qed.

Lemma draw_multiplier_one_per_group_witness :
  length (fst (draw_multiplier nat counter_rand river_chance 0 0%nat)) = 8%nat.
Proof.
  exact (proj1 (draw_multiplier_one_per_group nat counter_rand river_chance 0 0%nat
                  eq_refl)).
Defined.

(** ** The fold node: equity and blocked hands *)

(** X17 ([terminalUtility], the rest of the result). The payoff and the
    equity of a hand of the player that overlaps the board stay 0. With
    equity tracking, the equity of every other hand is the opponent's
    reach against it (total reach, minus the reach of the opponent hands
    holding either card, plus the reach of the identical hand) when the
    player's payoff at the node is positive, and 0 when it is not; without
    it the equity vector is empty. *)
Theorem terminalUtility_equity (this : PCfrSolver) (player : nat)
    (node_payoffs reach_prob : list R) (current_board : Z) :
  let oppo := (1 - player)%nat in
  let P := node_payoffs !!! player in
  let n := length (ranges this player) in
  (player < 2)%nat ->
  Forall hand_ok (ranges this player) ->
  Forall hand_ok (ranges this oppo) ->
  length reach_prob = length (ranges this oppo) ->
  exists res,
    terminalUtility this player node_payoffs reach_prob current_board = Ok res /\
    length (payoffs res) = n /\
    length (equity res) = (if enable_equity this then n else 0%nat) /\
    forall i, (i < n)%nat ->
      let h := ranges this player !!! i in
      let eff := sumR reach_prob
                 - reach_holding (ranges this oppo) reach_prob (card1 h)
                 - reach_holding (ranges this oppo) reach_prob (card2 h)
                 + same_hand_reach this player i reach_prob in
      (boardsHasIntercept current_board (toBoardLong h) = true ->
       payoffs res !!! i = 0 /\ equity res !!! i = 0) /\
      (boardsHasIntercept current_board (toBoardLong h) = false ->
       enable_equity this = true ->
       equity res !!! i = if Rgt_dec P 0 then eff else 0).
Proof.
  intros oppo P n Hp Hokp Hoko Hlen.
  unfold terminalUtility. fold oppo P.
  rewrite (playerHands_ranges this player Hp).
  rewrite (playerHands_ranges this oppo) by (unfold oppo; lia).
  pose proof (card_sum_loop (ranges this oppo) reach_prob Hoko) as Hsum.
  cbv zeta in Hsum.
  destruct (for_range (length (ranges this oppo)) _ (0, replicate 52 0))
    as [oppo_sum oppo_card_sum].
  cbn [fst snd] in Hsum. destruct Hsum as (Hs & Hl & Hcs).
  rewrite <- Hlen, sumR_lookups in Hs. fold n.
  set (eff := fun i =>
      minus_blockers oppo_sum oppo_card_sum (ranges this player !!! i)
      + (if (indPlayer2Player this player oppo i =? -1)%Z then 0
         else reach_prob !!! Z.to_nat (indPlayer2Player this player oppo i))).
  set (body := fun (i : nat) (st : list R * list R) => _).
  set (blocked := fun i =>
      boardsHasIntercept current_board (toBoardLong (ranges this player !!! i))).
  pose (Inv := fun (k : nat) (st : list R * list R) =>
      length (fst st) = n /\
      length (snd st) = (if enable_equity this then n else 0%nat) /\
      (forall i, (i < n)%nat -> (k <= i)%nat \/ blocked i = true ->
         fst st !!! i = 0 /\ snd st !!! i = 0) /\
      (forall i, (i < k)%nat -> blocked i = false -> enable_equity this = true ->
         snd st !!! i = if Rgt_dec P 0 then eff i else 0)).
  assert (HI : Inv n (for_range n body
                        (replicate n 0,
                         if enable_equity this then replicate n 0 else []))).
  { apply (for_range_ind Inv).
    - unfold Inv. cbn [fst snd]. split; [apply length_replicate|].
      split; [destruct (enable_equity this); [apply length_replicate|reflexivity]|].
      split; [|intros i Hi; lia].
      intros i Hi _. split; [apply lookup_total_replicate_2, Hi|].
      destruct (enable_equity this); [apply lookup_total_replicate_2, Hi|].
      apply nil_lookup_zero.
    - intros k [pay eq] Hk (L1 & L2 & Z & E). unfold Inv, body in *. cbn [fst snd] in *.
      change (boardInts2long (get_hands (ranges this player !!! k)))
        with (toBoardLong (ranges this player !!! k)).
      fold (blocked k). destruct (blocked k) eqn:Eb; cbn [fst snd].
      + split; [exact L1|]. split; [exact L2|]. split.
        * intros i Hi Hc. apply Z; [exact Hi|].
          destruct Hc as [Hc|Hc]; [|right; exact Hc].
          destruct (Nat.eq_dec i k) as [->|Hne]; [right; exact Eb|left; lia].
        * intros i Hi Hb He. destruct (Nat.eq_dec i k) as [->|Hne]; [congruence|].
          apply E; [lia|exact Hb|exact He].
      + split; [rewrite length_insert; exact L1|].
        split; [destruct (enable_equity this); [rewrite length_insert|]; exact L2|].
        split.
        * intros i Hi Hc.
          assert (Hne : i <> k).
          { intros ->. destruct Hc as [Hc|Hc]; [lia|congruence]. }
          rewrite list_lookup_total_insert_ne by congruence.
          assert (Hc' : (k <= i)%nat \/ blocked i = true)
            by (destruct Hc as [Hc|Hc]; [left; lia|right; exact Hc]).
          destruct (Z i Hi Hc') as [Z1 Z2]. split; [exact Z1|].
          destruct (enable_equity this); [|exact Z2].
          rewrite list_lookup_total_insert_ne by congruence. exact Z2.
        * intros i Hi Hb He. rewrite He.
          destruct (Nat.eq_dec i k) as [->|Hne].
          -- rewrite list_lookup_total_insert_eq by (rewrite L2, He; lia).
             reflexivity.
          -- rewrite list_lookup_total_insert_ne by congruence.
             rewrite <- (E i) by (lia || assumption). reflexivity. }
  destruct (for_range n body _) as [pay eq]. destruct HI as (L1 & L2 & Z & E).
  cbn [fst snd] in *.
  exists (mkCfrResult pay eq). split; [reflexivity|]. cbn [payoffs equity].
  split; [exact L1|]. split; [exact L2|].
  intros i Hi. cbv zeta. split.
  - intros Hb. apply Z; [exact Hi|right; exact Hb].
  - intros Hb He. rewrite (E i Hi Hb He).
    assert (Hh : hand_ok (ranges this player !!! i)).
    { rewrite Forall_forall in Hokp. apply Hokp, list_elem_of_lookup_total_2. exact Hi. }
    destruct Hh as (H1 & H2 & _).
    unfold eff, minus_blockers, same_hand_reach. fold oppo.
    rewrite !Hcs by assumption. rewrite Hs. reflexivity.
Qed.

Lemma terminalUtility_equity_witness :
  exists res,
    terminalUtility example_solver 0 [1; -1] [1; 1] (boardInts2long [0%nat]) = Ok res /\
    payoffs res !!! 0%nat = 0.
Proof.
  destruct (terminalUtility_equity example_solver 0 [1; -1] [1; 1]
              (boardInts2long [0%nat]) (Nat.lt_0_succ 1)
              (proj1 (proj1 example_ranges_ok)) (proj1 (proj2 example_ranges_ok))
              eq_refl) as (res & E & _ & _ & C).
  exists res. split; [exact E|].
  exact (proj1 (proj1 (C 0%nat ltac:(cbn; lia)) eq_refl)).
Defined.

(** ** The game tree *)

(** Induction over a tree with the hypothesis for every child of an
    action node. *)
Lemma GameTreeNode_forall_ind (P : GameTreeNode -> Prop) :
  (forall node childrens, Forall P childrens -> P (ACTION node childrens)) ->
  (forall node children, P children -> P (CHANCE node children)) ->
  (forall round node, P (SHOWDOWN round node)) ->
  (forall round get_payoffs, P (TERMINAL round get_payoffs)) ->
  forall node, P node.
Proof.
  intros HA HC HS HT.
  fix IH 1. intros [node childrens|node children|round node|round get_payoffs].
  - apply HA. induction childrens as [|c rest IHl]; constructor; [apply IH|exact IHl].
  - apply HC, IH.
  - apply HS.
  - apply HT.
Qed.

Lemma for_each_child_for_each {A S : Type} (body : A -> S -> Result S)
    (l : list A) (s : S) :
  for_each_child body l s = for_each l body s.
Proof.
  revert s. induction l as [|x l IH]; intros s; cbn; [reflexivity|].
  destruct (body x s); [apply IH|reflexivity].
Qed.

(** ** setTrainable *)

Lemma slots_of_app (card_num : nat) (gap : ActionNode -> Z) (l1 l2 : list ActionNode) :
  slots_of card_num gap (l1 ++ l2)
  = match slots_of card_num gap l1 with
    | Throw what => Throw what
    | Ok t1 =>
        match slots_of card_num gap l2 with
        | Throw what => Throw what
        | Ok t2 => Ok (t1 ++ t2)
        end
    end.
Proof.
  induction l1 as [|a l1 IH]; cbn [slots_of app].
  - destruct (slots_of card_num gap l2); reflexivity.
  - destruct (trainable_slots card_num (gap a)); [|reflexivity].
    rewrite IH. destruct (slots_of card_num gap l1); [|reflexivity].
    destruct (slots_of card_num gap l2); reflexivity.
Qed.

Lemma trainable_slots_cases (card_num : nat) (gap : Z) :
  ((0 <= gap <= 2)%Z /\
   trainable_slots card_num gap
     = Ok (if (gap =? 2)%Z then card_num * card_num + card_num + 1
           else if (gap =? 1)%Z then card_num + 1 else 1)%nat) \/
  (~ (0 <= gap <= 2)%Z /\ trainable_slots card_num gap = Throw "gap not understand").
Proof.
  unfold trainable_slots.
  destruct (Z.eqb_spec gap 2); [left; split; [lia|reflexivity]|].
  destruct (Z.eqb_spec gap 1); [left; split; [lia|reflexivity]|].
  destruct (Z.eqb_spec gap 0); [left; split; [lia|reflexivity]|].
  right. split; [lia|reflexivity].
Qed.

Lemma slots_of_cases (card_num : nat) (gap : ActionNode -> Z) (l : list ActionNode) :
  (Forall (fun a => (0 <= gap a <= 2)%Z) l /\
   slots_of card_num gap l
     = Ok (map (fun a =>
                  (a, if (gap a =? 2)%Z then card_num * card_num + card_num + 1
                      else if (gap a =? 1)%Z then card_num + 1 else 1)%nat) l)) \/
  (~ Forall (fun a => (0 <= gap a <= 2)%Z) l /\
   slots_of card_num gap l = Throw "gap not understand").
Proof.
  induction l as [|a l IH]; cbn [slots_of map].
  - left. split; [constructor|reflexivity].
  - destruct (trainable_slots_cases card_num (gap a)) as [[Hg ->]|[Hg ->]].
    + destruct IH as [[Hl ->]|[Hl ->]].
      * left. split; [constructor; assumption|reflexivity].
      * right. split; [|reflexivity]. intros F. apply Hl.
        apply Forall_cons in F as [_ F]. exact F.
    + right. split; [|reflexivity]. intros F. apply Hg.
      apply Forall_cons in F as [F _]. exact F.
Qed.

Section SetTrainableProperties.

Variable gameRound2int : GameRound -> Z.

Lemma setTrainable_slots (this : PCfrSolver) (tree_root root : GameTreeNode) :
  forall tables,
  setTrainable gameRound2int this "discounted_cfr" tree_root root tables
  = match
      slots_of (length (deck this))
        (fun a => (gameRound2int (action_round a)
                   - gameRound2int (node_round tree_root))%Z)
        (action_nodes root)
    with
    | Throw what => Throw what
    | Ok added => Ok (tables ++ added)
    end.
Proof.
  induction root as [a cs IH|c child IH|r s|r p] using GameTreeNode_forall_ind;
    intros tables; cbn [setTrainable action_nodes slots_of node_round].
  - change (String.eqb "discounted_cfr" "cfr_plus") with false.
    change (String.eqb "discounted_cfr" "discounted_cfr") with true. cbv iota.
    destruct (trainable_slots _ _) as [num|what]; [|reflexivity].
    assert (L : forall t,
      for_each_child (fun one_child tables =>
          setTrainable gameRound2int this "discounted_cfr" tree_root one_child tables) cs t
      = match
          slots_of (length (deck this))
            (fun a => (gameRound2int (action_round a)
                       - gameRound2int (node_round tree_root))%Z)
            (flat_map action_nodes cs)
        with
        | Throw what => Throw what
        | Ok added => Ok (t ++ added)
        end).
    { induction IH as [|c cs Hc _ IHcs]; intros t; cbn [for_each_child flat_map slots_of].
      - rewrite app_nil_r. reflexivity.
      - rewrite Hc, slots_of_app.
        destruct (slots_of _ _ (action_nodes c)) as [t1|what]; [|reflexivity].
        rewrite IHcs.
        destruct (slots_of _ _ (flat_map action_nodes cs)) as [t2|what]; [|reflexivity].
        rewrite app_assoc. reflexivity. }
    rewrite L. destruct (slots_of _ _ (flat_map action_nodes cs)); [|reflexivity].
    rewrite <- app_assoc. reflexivity.
  - apply IH.
  - rewrite app_nil_r. reflexivity.
  - rewrite app_nil_r. reflexivity.
Qed.

Lemma setTrainable_no_action (this : PCfrSolver) (trainer : string)
    (tree_root root : GameTreeNode) (tables : list (ActionNode * nat)) :
  action_nodes root = [] ->
  setTrainable gameRound2int this trainer tree_root root tables = Ok tables.
Proof.
  revert tables.
  induction root as [a cs IH|c child IH|r s|r p] using GameTreeNode_forall_ind;
    intros tables E; cbn [setTrainable action_nodes] in *.
  - discriminate.
  - apply IH, E.
  - reflexivity.
  - reflexivity.
Qed.

Lemma setTrainable_other_trainer (this : PCfrSolver) (trainer : string)
    (tree_root root : GameTreeNode) (tables : list (ActionNode * nat)) :
  trainer <> "discounted_cfr"%string ->
  action_nodes root <> [] ->
  setTrainable gameRound2int this trainer tree_root root tables
  = Throw (if String.eqb trainer "cfr_plus"
           then "trainer " ++ trainer ++ " not supported"
           else "trainer " ++ trainer ++ " not found")%string.
Proof.
  intros Ht. revert tables.
  induction root as [a cs IH|c child IH|r s|r p] using GameTreeNode_forall_ind;
    intros tables E; cbn [setTrainable action_nodes] in *.
  - destruct (String.eqb trainer "cfr_plus"); [reflexivity|].
    destruct (String.eqb_spec trainer "discounted_cfr"); [contradiction|reflexivity].
  - apply IH, E.
  - contradiction.
  - contradiction.
Qed.

(** X18 ([setTrainable]). With the trainer "discounted_cfr" every action
    node of the tree gets a table, parents before their children and the
    children in order: of 1 trainable in the round of the tree's root, of
    n + 1 one round later and of n * n + n + 1 two rounds later, n being
    the size of the deck. An action node before the root's round or three
    rounds after it stops the whole with "gap not understand". Any other
    trainer throws as soon as the tree has an action node, "cfr_plus" as
    not supported and the rest as not found; a tree without action nodes
    passes with every trainer. *)
Theorem setTrainable_tables (this : PCfrSolver) (trainer : string)
    (tree_root root : GameTreeNode) (tables : list (ActionNode * nat)) :
  let n := length (deck this) in
  let gap := fun a =>
    (gameRound2int (action_round a) - gameRound2int (node_round tree_root))%Z in
  let supported := Forall (fun a => (0 <= gap a <= 2)%Z) (action_nodes root) in
  (trainer = "discounted_cfr"%string -> supported ->
     setTrainable gameRound2int this trainer tree_root root tables
     = Ok (tables ++
           map (fun a => (a, if (gap a =? 2)%Z then n * n + n + 1
                             else if (gap a =? 1)%Z then n + 1 else 1)%nat)
             (action_nodes root))) /\
  (trainer = "discounted_cfr"%string -> ~ supported ->
     setTrainable gameRound2int this trainer tree_root root tables
     = Throw "gap not understand") /\
  (trainer <> "discounted_cfr"%string -> action_nodes root <> [] ->
     setTrainable gameRound2int this trainer tree_root root tables
     = Throw (if String.eqb trainer "cfr_plus"
              then "trainer " ++ trainer ++ " not supported"
              else "trainer " ++ trainer ++ " not found")%string) /\
  (action_nodes root = [] ->
     setTrainable gameRound2int this trainer tree_root root tables = Ok tables).
Proof.
  intros n gap supported.
  pose proof (slots_of_cases n gap (action_nodes root)) as C.
  split; [|split; [|split]].
  - intros -> S. rewrite setTrainable_slots. fold n gap.
    destruct C as [[_ ->]|[N _]]; [reflexivity|contradiction].
  - intros -> N. rewrite setTrainable_slots. fold n gap.
    destruct C as [[S _]|[_ ->]]; [contradiction|reflexivity].
  - apply setTrainable_other_trainer.
  - apply setTrainable_no_action.
Qed.

End SetTrainableProperties.

(** X19 (tables and deals). The deals that [chanceUtility] numbers fit
    the tables of [setTrainable]: deal 0 fits the table of the root's
    round, the deal after one card of a deck of n cards the table one
    round later, the deal after a second card the table two rounds later.
    From there nothing goes on: a third card throws, and there is no table
    three rounds after the root. *)
Theorem deals_fit_tables (card_num card1 card2 : nat) :
  (card1 < card_num)%nat -> (card2 < card_num)%nat ->
  exists slots0 slots1 slots2 deal1 deal2,
    trainable_slots card_num 0 = Ok slots0 /\ (0 < slots0)%nat /\
    new_deal card_num 0 card1 = Ok deal1 /\
    trainable_slots card_num 1 = Ok slots1 /\ (deal1 < slots1)%nat /\
    new_deal card_num deal1 card2 = Ok deal2 /\
    trainable_slots card_num 2 = Ok slots2 /\ (deal2 < slots2)%nat /\
    (forall card3, exists what, new_deal card_num deal2 card3 = Throw what) /\
    (exists what, trainable_slots card_num 3 = Throw what).
Proof.
  intros H1 H2.
  exists 1%nat, (card_num + 1)%nat, (card_num * card_num + card_num + 1)%nat.
  unfold new_deal, trainable_slots. cbn [Z.eqb Pos.eqb Nat.eqb].
  eexists. eexists.
  split; [reflexivity|]. split; [lia|]. split; [reflexivity|].
  split; [reflexivity|]. split; [lia|].
  replace (card1 + 1 =? 0)%nat with false by (symmetry; apply Nat.eqb_neq; lia).
  replace ((0 <? card1 + 1) && (card1 + 1 <=? card_num))%nat with true
    by (symmetry; apply andb_true_iff; split;
        [apply Nat.ltb_lt|apply Nat.leb_le]; lia).
  split; [reflexivity|]. split; [reflexivity|].
  split; [nia|]. split; [|eexists; reflexivity].
  intros card3.
  match goal with |- context [(?d =? 0)%nat] =>
    replace (d =? 0)%nat with false by (symmetry; apply Nat.eqb_neq; lia);
    replace (d <=? card_num)%nat with false by (symmetry; apply Nat.leb_gt; nia)
  end.
  rewrite andb_false_r. eexists. reflexivity.
Qed.

Lemma deals_fit_tables_witness :
  exists slots0 slots1 slots2 deal1 deal2,
    trainable_slots 8 0 = Ok slots0 /\ (0 < slots0)%nat /\
    new_deal 8 0 3 = Ok deal1 /\
    trainable_slots 8 1 = Ok slots1 /\ (deal1 < slots1)%nat /\
    new_deal 8 deal1 5 = Ok deal2 /\
    trainable_slots 8 2 = Ok slots2 /\ (deal2 < slots2)%nat /\
    (forall card3, exists what, new_deal 8 deal2 card3 = Throw what) /\
    (exists what, trainable_slots 8 3 = Throw what).
Proof. apply (deals_fit_tables 8 3 5); lia. Defined.

(** ** cfr *)

Lemma fold_left_inv {A S : Type} (Inv : S -> Prop) (f : S -> A -> S) (l : list A) (s : S) :
  Inv s -> (forall acc x, Inv acc -> Inv (f acc x)) -> Inv (fold_left f l s).
Proof.
  intros H0 Hstep. revert s H0. induction l as [|x l IH]; intros s H0; cbn [fold_left].
  - exact H0.
  - apply IH, Hstep, H0.
Qed.

Lemma for_each_inv {A S : Type} (Inv : S -> Prop) (body : A -> S -> Result S)
    (l : list A) :
  (forall x s s', body x s = Ok s' -> Inv s -> Inv s') ->
  forall s s', for_each l body s = Ok s' -> Inv s -> Inv s'.
Proof.
  intros Hstep. induction l as [|x l IH]; intros s s' E H0; cbn [for_each] in E.
  - injection E as <-. exact H0.
  - destruct (body x s) as [s1|what] eqn:E1; [|discriminate].
    apply (IH s1 s' E). apply (Hstep x s s1 E1 H0).
Qed.

Lemma omp_parallel_for_Ok {A S : Type} (l : list A) (body : A -> S -> Result S)
    (s s' : S) :
  omp_parallel_for l body s = Ok s' -> for_each l body s = Ok s'.
Proof.
  unfold omp_parallel_for. destruct (for_each l body s); [intros E; exact E|discriminate].
Qed.

(** *** The size of the result *)

Lemma add_vector_length (acc v : list R) : length (add_vector acc v) = length acc.
Proof.
  unfold add_vector, for_range.
  apply (fold_left_inv (fun a => length a = length acc)); [reflexivity|].
  intros a x Ha. rewrite length_insert. exact Ha.
Qed.

Lemma add_scaled_length (acc v : list R) (weight : R) :
  length (add_scaled acc v weight) = length acc.
Proof.
  unfold add_scaled, for_range.
  apply (fold_left_inv (fun a => length a = length acc)); [reflexivity|].
  intros a x Ha. rewrite length_insert. exact Ha.
Qed.

Lemma terminalUtility_lengths (this : PCfrSolver) (player : nat)
    (node_payoffs reach_prob : list R) (current_board : Z) (result : CfrResult) :
  terminalUtility this player node_payoffs reach_prob current_board = Ok result ->
  length (payoffs result) = length (ranges this player) /\
  length (equity result)
  = if enable_equity this then length (ranges this player) else 0%nat.
Proof.
  unfold terminalUtility.
  destruct (playerHands this player) as [player_hand|what] eqn:Ep; [|discriminate].
  destruct (playerHands this (1 - player)) as [oppo_hand|what]; [|discriminate].
  assert (Hp : player_hand = ranges this player).
  { unfold playerHands in Ep. unfold ranges.
    destruct player as [|[|p]]; [injection Ep as <-; reflexivity
                                |injection Ep as <-; reflexivity|discriminate]. }
  destruct (for_range (length oppo_hand) _ _) as [oppo_sum oppo_card_sum].
  set (n := length player_hand).
  match goal with |- context [for_range n ?body ?init] =>
    assert (L : length (fst (for_range n body init)) = n /\
                length (snd (for_range n body init))
                = if enable_equity this then n else 0%nat)
  end.
  { unfold for_range.
    apply (fold_left_inv (fun st : list R * list R =>
             length (fst st) = n /\
             length (snd st) = if enable_equity this then n else 0%nat)).
    - cbn [fst snd]. rewrite length_replicate.
      split; [reflexivity|]. destruct (enable_equity this);
        [apply length_replicate|reflexivity].
    - intros [pay eq] i [H1 H2]. cbn [fst snd] in *.
      destruct (boardsHasIntercept _ _); cbn [fst snd]; [split; assumption|].
      rewrite length_insert. split; [exact H1|].
      destruct (enable_equity this); [rewrite length_insert|]; exact H2. }
  destruct (for_range n _ _) as [pay eq]. cbn [fst snd] in L.
  intros E. injection E as <-. cbn [payoffs equity].
  unfold n in L. rewrite Hp in L. exact L.
Qed.

Lemma showdownUtility_lengths (this : PCfrSolver) (player : nat)
    (node : ShowdownNode) (reach_probs : list R) (current_board : Z) :
  let result := showdownUtility this player node reach_probs current_board in
  length (payoffs result) = length (ranges this player) /\
  length (equity result)
  = if enable_equity this then length (ranges this player) else 0%nat.
Proof.
  cbv zeta. unfold showdownUtility.
  set (n := length (ranges this player)).
  set (player_combs := getRiverCombos this player current_board).
  set (oppo_combs := getRiverCombos this (1 - player) current_board).
  destruct (if enable_equity this then _ else (0, [])) as [oppo_total oppo_card_total].
  match goal with |- context [for_range (length player_combs) ?body ?init] =>
    assert (L : length (snd (fst (for_range (length player_combs) body init))) = n)
  end.
  { unfold for_range.
    apply (fold_left_inv
             (fun st : (nat * R * list R) * list R * (list R * list R) =>
                length (snd (fst st)) = n)).
    - cbn [fst snd]. apply length_replicate.
    - intros [[ws pay] [wa ta]] i H1. cbn [fst snd] in H1.
      unfold showdown_win_body.
      destruct (scan _ _ _ ws) as [[j winsum] card_winsum].
      destruct (enable_equity this); cbn [fst snd]; rewrite length_insert; exact H1. }
  destruct (for_range (length player_combs) _ _) as [[ws pay] [wa ta]].
  cbn [fst snd] in L.
  match goal with |- context [for_range_down (length player_combs) ?body ?init] =>
    assert (L2 : length (snd (fst (for_range_down (length player_combs) body init))) = n /\
                 length (snd (for_range_down (length player_combs) body init))
                 = if enable_equity this then n else 0%nat)
  end.
  { unfold for_range_down.
    apply (fold_left_inv
             (fun st : (nat * R * list R) * list R * list R =>
                length (snd (fst st)) = n /\
                length (snd st) = if enable_equity this then n else 0%nat)).
    - cbn [fst snd]. split; [exact L|].
      destruct (enable_equity this); [apply length_replicate|reflexivity].
    - intros [[ls pay2] eq] i [H1 H2]. cbn [fst snd] in H1, H2.
      unfold showdown_loss_body.
      destruct (scan _ _ _ ls) as [[j losssum] card_losssum].
      destruct (enable_equity this); cbn [fst snd]; rewrite ?length_insert;
        split; assumption. }
  destruct (for_range_down (length player_combs) _ _) as [[ls pay2] eq].
  cbn [fst snd payoffs equity] in *. exact L2.
Qed.

Lemma accumulate_lengths
    (exchange_color : list R -> list PrivateCards -> Z -> Z -> list R)
    (this : PCfrSolver) (player : nat) (node : ChanceNode) (iter : Z) (deal : nat)
    (multiplier : list R) (results : list CfrResult)
    (chance_utility chance_equity : list R) :
  let out := accumulate exchange_color this player node iter deal multiplier results
               chance_utility chance_equity in
  length (fst out) = length chance_utility /\
  length (snd out) = length chance_equity.
Proof.
  cbv zeta. unfold accumulate, for_range.
  apply (fold_left_inv (fun st : list R * list R =>
           length (fst st) = length chance_utility /\
           length (snd st) = length chance_equity)).
  - split; reflexivity.
  - intros [cu ce] card [H1 H2]. cbn [fst snd] in H1, H2.
    match goal with |- context [length (payoffs ?c) =? 0] => set (child_result := c) end.
    destruct (length (payoffs child_result) =? 0)%nat; [split; assumption|].
    destruct (warmup this <? iter)%Z;
      destruct (enable_equity this && negb (length (equity child_result) =? 0)%nat);
      cbn [fst snd]; rewrite ?add_vector_length, ?add_scaled_length; split; assumption.
Qed.

Lemma chanceUtility_lengths (State RandState : Type)
    (std_rand : RandState -> nat * RandState)
    (exchange_color : list R -> list PrivateCards -> Z -> Z -> list R)
    (cfr : Z -> list R -> nat -> State * RandState ->
           Result (CfrResult * (State * RandState)))
    (this : PCfrSolver) (player : nat) (node : ChanceNode)
    (reach_probs : list R) (iter : Z) (current_board : Z) (deal : nat)
    (env env' : State * RandState) (result : CfrResult) :
  chanceUtility State RandState std_rand exchange_color cfr this player node
    reach_probs iter current_board deal env = Ok (result, env') ->
  length (payoffs result) = length (ranges this player) /\
  length (equity result)
  = if enable_equity this then length (ranges this player) else 0%nat.
Proof.
  unfold chanceUtility.
  destruct (negb _); [discriminate|].
  destruct (if (iter <=? warmup this)%Z then _ else _) as [multiplier rs].
  destruct (run_children _ _ _ _ _ _ _ _ _ _ _ _) as [[results env1]|what]; [|discriminate].
  pose proof (accumulate_lengths exchange_color this player node iter deal multiplier
                results (replicate (length (ranges this player)) 0)
                (if enable_equity this
                 then replicate (length (ranges this player)) 0 else [])) as L.
  cbv zeta in L.
  destruct (accumulate _ _ _ _ _ _ _ _ _ _) as [cu ce]. cbn [fst snd] in L.
  intros E. injection E as <- _. cbn [payoffs equity].
  destruct L as [L1 L2]. rewrite L1, L2, length_replicate.
  split; [reflexivity|]. destruct (enable_equity this);
    [apply length_replicate|reflexivity].
Qed.

Lemma action_accumulate_lengths (this : PCfrSolver) (player : nat) (node : ActionNode)
    (current_strategy : list R) (results : list CfrResult)
    (payoffs_ total_equity : list R) (all_action_utility all_action_equity : list (list R)) :
  let out := action_accumulate this player node current_strategy results
               (payoffs_, total_equity, all_action_utility, all_action_equity) in
  length (fst (fst (fst out))) = length payoffs_ /\
  length (snd (fst (fst out))) = length total_equity.
Proof.
  cbv zeta. unfold action_accumulate, for_range.
  apply (fold_left_inv (fun st : list R * list R * list (list R) * list (list R) =>
           length (fst (fst (fst st))) = length payoffs_ /\
           length (snd (fst (fst st))) = length total_equity)).
  - split; reflexivity.
  - intros [[[pay te] aau] aae] action_id [H1 H2]. cbn [fst snd] in H1, H2.
    destruct (length (payoffs (results !!! action_id)) =? 0)%nat;
      [split; assumption|].
    match goal with |- context [fold_left ?f ?l (pay, te)] =>
      assert (L : length (fst (fold_left f l (pay, te))) = length payoffs_ /\
                  length (snd (fold_left f l (pay, te))) = length total_equity)
    end.
    { apply (fold_left_inv (fun st : list R * list R =>
               length (fst st) = length payoffs_ /\
               length (snd st) = length total_equity)).
      - split; assumption.
      - intros [pay1 te1] hand_id [G1 G2]. cbn [fst snd] in G1, G2.
        destruct (player =? getPlayer node)%nat;
          destruct (enable_equity this
                    && negb (length (equity (results !!! action_id)) =? 0)%nat);
          cbn [fst snd]; rewrite ?length_insert; split; assumption. }
    destruct (fold_left _ _ (pay, te)) as [pay1 te1]. exact L.
Qed.

Lemma actionUtility_lengths (State : Type) (to_float : R -> float)
    (round_float : R -> R)
    (cfr : nat -> list R -> State -> Result (CfrResult * State))
    (this : PCfrSolver) (player : nat) (node : ActionNode) (table table' : Trainables)
    (reach_probs : list R) (iter : Z) (deal : nat) (st st' : State)
    (result : CfrResult) :
  actionUtility State to_float round_float cfr this player node table reach_probs iter deal st
  = Ok (result, table', st') ->
  length (payoffs result) = length (ranges this player) /\
  length (equity result)
  = if enable_equity this then length (ranges this player) else 0%nat.
Proof.
  unfold actionUtility.
  destruct (action_children _ _ _ _ _ _ _ _) as [[results st1]|what]; [|discriminate].
  match goal with |- context [action_accumulate this player node ?cs results
                                (?p, ?e, ?u, ?q)] =>
    pose proof (action_accumulate_lengths this player node cs results p e u q) as L
  end.
  cbv zeta in L.
  destruct (action_accumulate _ _ _ _ _ _) as [[[pay te] aau] aae].
  cbn [fst snd] in L. destruct L as [L1 L2]. rewrite length_replicate in L1.
  assert (L : length pay = length (ranges this player) /\
              length te = if enable_equity this
                          then length (ranges this player) else 0%nat).
  { split; [exact L1|]. rewrite L2.
    destruct (enable_equity this); [apply length_replicate|reflexivity]. }
  destruct (player =? getPlayer node)%nat.
  - destruct (Z.rem iter (print_interval this) =? 0)%Z.
    + destruct (action_store_evs _ _ _ _ _ _ _ _ _ _) as [table2|what]; [|discriminate].
      intros E. injection E as <- _ _. exact L.
    + intros E. injection E as <- _ _. exact L.
  - intros E. injection E as <- _ _. exact L.
Qed.

(** *** What a traversal leaves alone *)

Lemma call_in_order_inv {State : Type} (Inv : State -> Prop)
    (cfr : nat -> list R -> State -> Result (CfrResult * State))
    (reach : nat -> list R) (ids : list nat) :
  (forall a r st res st', cfr a r st = Ok (res, st') -> Inv st -> Inv st') ->
  forall st results st',
    call_in_order cfr reach ids st = Ok (results, st') -> Inv st -> Inv st'.
Proof.
  intros Hstep. induction ids as [|a ids IH]; intros st results st' E H0;
    cbn [call_in_order] in E.
  - injection E as _ <-. exact H0.
  - destruct (cfr a (reach a) st) as [[r st1]|w] eqn:E1; [|discriminate].
    destruct (call_in_order cfr reach ids st1) as [[rs st2]|w] eqn:E2; [|discriminate].
    injection E as _ <-. apply (IH st1 rs st2 E2). apply (Hstep _ _ _ _ _ E1 H0).
Qed.

(** The children of an action node are the only ones to touch the state
    of the subtrees; the table of the node changes only where the
    traversing player acts. *)
Lemma actionUtility_frame (State : Type) (to_float : R -> float)
    (round_float : R -> R) (Inv : State -> Prop)
    (cfr : nat -> list R -> State -> Result (CfrResult * State))
    (this : PCfrSolver) (player : nat) (node : ActionNode) (table table' : Trainables)
    (reach_probs : list R) (iter : Z) (deal : nat) (st st' : State)
    (result : CfrResult) :
  (forall a r st res st', cfr a r st = Ok (res, st') -> Inv st -> Inv st') ->
  actionUtility State to_float round_float cfr this player node table reach_probs iter deal st
  = Ok (result, table', st') ->
  (Inv st -> Inv st') /\ (getPlayer node <> player -> table' = table).
Proof.
  intros Hstep. unfold actionUtility. rewrite action_children_in_order.
  destruct (call_in_order cfr _ _ st) as [[results st1]|what] eqn:E; [|discriminate].
  pose proof (call_in_order_inv Inv cfr _ _ Hstep _ _ _ E) as HI.
  destruct (action_accumulate _ _ _ _ _ _) as [[[pay te] aau] aae].
  destruct (Nat.eqb_spec player (getPlayer node)) as [Hown|Hopp].
  - destruct (Z.rem iter (print_interval this) =? 0)%Z.
    + destruct (action_store_evs _ _ _ _ _ _ _ _ _ _) as [table2|what]; [|discriminate].
      intros E1. injection E1 as _ _ <-. split; [exact HI|]. intros N. congruence.
    + intros E1. injection E1 as _ _ <-. split; [exact HI|]. intros N. congruence.
  - intros E1. injection E1 as _ <- <-. split; [exact HI|]. reflexivity.
Qed.

Lemma chanceUtility_frame (State RandState : Type) (Inv : State -> Prop)
    (std_rand : RandState -> nat * RandState)
    (exchange_color : list R -> list PrivateCards -> Z -> Z -> list R)
    (cfr : Z -> list R -> nat -> State * RandState ->
           Result (CfrResult * (State * RandState)))
    (this : PCfrSolver) (player : nat) (node : ChanceNode)
    (reach_probs : list R) (iter : Z) (current_board : Z) (deal : nat)
    (env env' : State * RandState) (result : CfrResult) :
  (forall b r d e res e', cfr b r d e = Ok (res, e') -> Inv (fst e) -> Inv (fst e')) ->
  chanceUtility State RandState std_rand exchange_color cfr this player node
    reach_probs iter current_board deal env = Ok (result, env') ->
  Inv (fst env) -> Inv (fst env').
Proof.
  intros Hstep. unfold chanceUtility.
  destruct (negb _); [discriminate|].
  destruct (if (iter <=? warmup this)%Z then _ else _) as [multiplier rs].
  destruct (run_children _ _ _ _ _ _ _ _ _ _ _ (fst env, rs))
    as [[results env1]|what] eqn:E; [|discriminate].
  destruct (accumulate _ _ _ _ _ _ _ _ _ _) as [cu ce].
  intros E1 H0. injection E1 as _ <-.
  unfold run_children in E. apply omp_parallel_for_Ok in E.
  apply (for_each_inv (fun st : list CfrResult * (State * RandState) =>
                         Inv (fst (snd st))) _ _) in E; [exact E| |exact H0].
  intros card [rs0 e0] [rs1 e1] Eb H1. cbn [fst snd] in *.
  destruct (child_call _ _ _ _ _ _ _) as [[[b r] d]|what]; [|discriminate].
  destruct (distributing_task this && _).
  - injection Eb as _ <-. exact H1.
  - destruct (cfr b r d e0) as [[cr e2]|what] eqn:Ec; [|discriminate].
    injection Eb as _ <-. apply (Hstep _ _ _ _ _ _ Ec H1).
Qed.

Section CfrProperties.

Variable RandState : Type.
Variable std_rand : RandState -> nat * RandState.
Variable exchange_color : list R -> list PrivateCards -> Z -> Z -> list R.
Variable to_float : R -> float.
Variable round_float : R -> R.

(** X20 (the size of the result). Whatever the node, a call of [cfr] that
    returns gives one payoff for every hand of the traversing player, and
    as many equities when they are tracked and none when they are not. *)
Theorem cfr_result_lengths (this : PCfrSolver) (player : nat) (node : GameTreeNode)
    (path : list nat) (reach_probs : list R) (iter : Z) (current_board : Z)
    (deal : nat) (env env' : Store * RandState) (result : CfrResult) :
  cfr RandState std_rand exchange_color to_float round_float this player node path reach_probs
    iter current_board deal env = Ok (result, env') ->
  length (payoffs result) = length (ranges this player) /\
  length (equity result)
  = if enable_equity this then length (ranges this player) else 0%nat.
Proof.
  destruct node as [a cs|c child|r s|r p]; cbn [cfr].
  - destruct (actionUtility _ _ _ _ _ _ _ _ _ _ _ _)
      as [[[result1 table1] [store1 rs1]]|what] eqn:E; [|discriminate].
    intros E1. injection E1 as <- _.
    apply (actionUtility_lengths _ _ _ _ _ _ _ _ _ _ _ _ _ _ _ E).
  - apply chanceUtility_lengths.
  - intros E. injection E as <- _. apply showdownUtility_lengths.
  - destruct (terminalUtility _ _ _ _ _) as [result1|what] eqn:E; [|discriminate].
    intros E1. injection E1 as <- _.
    apply (terminalUtility_lengths _ _ _ _ _ _ E).
Qed.

(** X21 (what a traversal leaves alone). A traversal for a player changes
    no trainable but those of the action nodes below its node where this
    player acts: the table at any other place of the tree is after the
    call what it was before, that is, at the nodes of the opponent, and
    everywhere outside the subtree. *)
Theorem cfr_changes_own_nodes_only (this : PCfrSolver) (player : nat)
    (node : GameTreeNode) (path : list nat) (reach_probs : list R) (iter : Z)
    (current_board : Z) (deal : nat) (env env' : Store * RandState)
    (result : CfrResult) (place : list nat) :
  cfr RandState std_rand exchange_color to_float round_float this player node path reach_probs
    iter current_board deal env = Ok (result, env') ->
  (forall below action_node childrens,
     place = path ++ below ->
     subtree node below = Some (ACTION action_node childrens) ->
     getPlayer action_node <> player) ->
  fst env' place = fst env place.
Proof.
  revert path reach_probs current_board deal env env' result.
  induction node as [a cs IH|c child IH|r s|r p] using GameTreeNode_forall_ind;
    intros path reach_probs current_board deal env env' result E Hplace;
    cbn [cfr] in E.
  - destruct (actionUtility _ _ _ _ _ _ _ _ _ _ _ _)
      as [[[result1 table1] [store1 rs1]]|what] eqn:Ea; [|discriminate].
    injection E as _ <-. cbn [fst].
    apply (actionUtility_frame _ _ _
             (fun e : Store * RandState => fst e place = fst env place)) in Ea.
    + destruct Ea as [Hinv Htable]. specialize (Hinv eq_refl). cbn [fst] in Hinv.
      unfold set_table. destruct (decide (place = path)) as [->|_]; [|exact Hinv].
      rewrite Htable; [reflexivity|].
      apply (Hplace [] a cs); [rewrite app_nil_r; reflexivity|reflexivity].
    + intros action_id r e res e' Ec Hi. rewrite <- Hi.
      rewrite list_lookup_fmap in Ec.
      destruct (cs !! action_id) as [one_child|] eqn:El; [|discriminate].
      cbn [fmap option_fmap option_map] in Ec.
      rewrite Forall_forall in IH.
      apply (IH one_child (list_elem_of_lookup_2 _ _ _ El) _ _ _ _ _ _ _ Ec).
      intros below action_node childrens Hb Hs.
      apply (Hplace (action_id :: below) action_node childrens).
      * rewrite Hb, <- app_assoc. reflexivity.
      * cbn [subtree]. rewrite El. exact Hs.
  - apply (chanceUtility_frame _ _ (fun st : Store => st place = fst env place)) in E;
      [exact E| |reflexivity].
    intros b r d e res e' Ec Hi. rewrite <- Hi.
    apply (IH _ _ _ _ _ _ _ Ec).
    intros below action_node childrens Hb Hs.
    apply (Hplace (0%nat :: below) action_node childrens).
    + rewrite Hb, <- app_assoc. reflexivity.
    + exact Hs.
  - injection E as _ <-. reflexivity.
  - destruct (terminalUtility _ _ _ _ _); [|discriminate].
    injection E as _ <-. reflexivity.
Qed.

End CfrProperties.

Lemma cfr_result_lengths_witness :
  exists result env',
    cfr nat counter_rand no_exchange example_to_float example_round river_solver 1
      example_tree []
      [1] 1 0 0 (example_store, 0%nat) = Ok (result, env') /\
    length (payoffs result) = 1%nat.
Proof.
  assert (Hrun : exists result env',
            cfr nat counter_rand no_exchange example_to_float example_round river_solver 1
              example_tree [] [1] 1 0 0 (example_store, 0%nat) = Ok (result, env')).
  { evaluate. eexists. eexists. reflexivity. }
  destruct Hrun as (result & env' & E).
  exists result, env'. split; [exact E|].
  exact (proj1 (cfr_result_lengths nat counter_rand no_exchange example_to_float example_round
                  river_solver 1 example_tree [] [1] 1 0 0 (example_store, 0%nat)
                  env' result E)).
Defined.

Lemma cfr_changes_own_nodes_only_witness :
  exists result env',
    cfr nat counter_rand no_exchange example_to_float example_round river_solver 1
      example_tree []
      [1] 2 0 0 (example_store, 0%nat) = Ok (result, env') /\
    fst env' [] = example_store [].
Proof.
  assert (Hrun : exists result env',
            cfr nat counter_rand no_exchange example_to_float example_round river_solver 1
              example_tree [] [1] 2 0 0 (example_store, 0%nat) = Ok (result, env')).
  { evaluate. eexists. eexists. reflexivity. }
  destruct Hrun as (result & env' & E).
  exists result, env'. split; [exact E|].
  apply (cfr_changes_own_nodes_only nat counter_rand no_exchange example_to_float example_round
           river_solver 1 example_tree [] [1] 2 0 0 (example_store, 0%nat)
           env' result [] E).
  intros below action_node childrens Hb Hs. cbn [app] in Hb. subst below.
  cbn [subtree example_tree] in Hs. injection Hs as <- _. cbn [getPlayer]. lia.
Defined.

(** ** Two traversals side by side *)

Lemma related_outcomes_refl {S : Type} (Rel : S -> S -> Prop) (a : Result S) :
  (forall s, Rel s s) -> related_outcomes Rel a a.
Proof. intros H. destruct a; [apply H|reflexivity]. Qed.




Section SideBySide.

Variable RandState : Type.
Variable std_rand : RandState -> nat * RandState.
Variable exchange_color : list R -> list PrivateCards -> Z -> Z -> list R.
Variable G : RandState -> RandState -> Prop.





End SideBySide.

Section Determinism.

Variable RandState : Type.
Variable std_rand : RandState -> nat * RandState.
Variable exchange_color : list R -> list PrivateCards -> Z -> Z -> list R.
Variable to_float : R -> float.
Variable round_float : R -> R.







End Determinism.



(** ** The constructor *)

Lemma Forall_filter_hands (P : PrivateCards -> Prop) (keep : PrivateCards -> bool)
    (l : list PrivateCards) :
  Forall P l -> Forall P (List.filter keep l).
Proof.
  intros F. apply Forall_forall. intros h Hh.
  apply list_elem_of_In, filter_In in Hh as [Hin _].
  rewrite Forall_forall in F. apply F, list_elem_of_In, Hin.
Qed.

Lemma filter_off_board (board_long : Z) (l : list PrivateCards) :
  Forall (fun h => boardsHasIntercept (toBoardLong h) board_long = false)
    (List.filter (fun h => negb (boardsHasIntercept (toBoardLong h) board_long)) l).
Proof.
  apply Forall_forall. intros h Hh.
  apply list_elem_of_In, filter_In in Hh as [_ Hk].
  apply negb_true_iff in Hk. exact Hk.
Qed.

(** X22 (the constructor). A solver that the constructor returns has, for
    ranges of well-formed hands and a key that two equal hands share, the
    ranges the utilities ask for: well-formed hands, none twice, and none
    with a card of the initial board. Its board is the mask of the initial
    board, no task is being distributed, the tasks would be split at a
    round other than the root's, and the trainer was "discounted_cfr"
    unless the tree has no action node. *)
Theorem newPCfrSolver_invariants (gameRound2int : GameRound -> Z)
    (hashCode : PrivateCards -> Z) (tree_root : GameTreeNode)
    (range1_ range2_ : list PrivateCards) (initial_board : list nat)
    (rrm : nat -> Z -> list RiverCombs) (deck_ : list nat)
    (iteration_number_ print_interval_ : Z) (logfile_ trainer : string)
    (monteCarolAlg_ : MonteCarolAlg) (warmup_ : Z) (accuracy_ : R)
    (use_isomorphism_ enable_equity_ : bool)
    (this : PCfrSolver) (tables : list (ActionNode * nat)) :
  (forall a b, same_hand a b = true -> hashCode a = hashCode b) ->
  Forall hand_ok range1_ -> Forall hand_ok range2_ ->
  newPCfrSolver gameRound2int hashCode tree_root range1_ range2_ initial_board rrm
    deck_ iteration_number_ print_interval_ logfile_ trainer monteCarolAlg_ warmup_
    accuracy_ use_isomorphism_ enable_equity_ = Ok (this, tables) ->
  initial_board_long this = boardInts2long initial_board /\
  (forall player,
     range_ok (ranges this player) /\
     sublist (ranges this player) (if (player =? 0)%nat then range1_ else range2_) /\
     Forall (fun h => boardsHasIntercept (toBoardLong h) (initial_board_long this) = false)
       (ranges this player)) /\
  distributing_task this = false /\
  split_round this <> node_round tree_root /\
  (trainer = "discounted_cfr"%string \/ action_nodes tree_root = []).
Proof.
  intros Hkey H1 H2. unfold newPCfrSolver.
  destruct (noDuplicateRange hashCode range1_ _) as [r1|what] eqn:E1; [|discriminate].
  destruct (noDuplicateRange hashCode range2_ _) as [r2|what] eqn:E2; [|discriminate].
  destruct (setTrainable _ _ _ _ _ _) as [tables1|what] eqn:Et; [|discriminate].
  intros E. injection E as <- _. cbn [initial_board_long distributing_task split_round].
  apply noDuplicateRange_accepted in E1 as (-> & _ & N1).
  apply noDuplicateRange_accepted in E2 as (-> & _ & N2).
  split; [reflexivity|]. split; [|split; [reflexivity|split]].
  - intros [|player]; cbn [ranges range1 range2 Nat.eqb].
    + split; [split|split].
      * apply Forall_filter_hands, H1.
      * apply (keys_distinct_hands hashCode); assumption.
      * apply filter_sublist.
      * apply filter_off_board.
    + split; [split|split].
      * apply Forall_filter_hands, H2.
      * apply (keys_distinct_hands hashCode); assumption.
      * apply filter_sublist.
      * apply filter_off_board.
  - destruct (node_round tree_root); discriminate.
  - destruct (String.eqb_spec trainer "discounted_cfr") as [Y|N]; [left; exact Y|].
    right. destruct (action_nodes tree_root) as [|a l] eqn:Ea; [reflexivity|].
    rewrite (setTrainable_other_trainer gameRound2int _ trainer tree_root tree_root []
               N) in Et by (rewrite Ea; discriminate).
    discriminate.
Qed.

Lemma newPCfrSolver_invariants_witness :
  exists this tables,
    newPCfrSolver round_number example_hashCode example_tree
      example_range1 example_range2 [] (fun _ _ => []) (seq 0 52) 10 1 ""
      "discounted_cfr" NONE 0 0 false false = Ok (this, tables) /\
    distributing_task this = false.
Proof.
  assert (Hrun : exists this tables,
            newPCfrSolver round_number example_hashCode example_tree
              example_range1 example_range2 [] (fun _ _ => []) (seq 0 52) 10 1 ""
              "discounted_cfr" NONE 0 0 false false = Ok (this, tables)).
  { evaluate. eexists. eexists. reflexivity. }
  destruct Hrun as (this & tables & E).
  exists this, tables. split; [exact E|].
  refine (proj1 (proj2 (proj2
    (newPCfrSolver_invariants round_number example_hashCode example_tree
       example_range1 example_range2 [] (fun _ _ => []) (seq 0 52) 10 1 ""
       "discounted_cfr" NONE 0 0 false false this tables _
       (proj1 (proj1 example_ranges_ok)) (proj1 (proj2 example_ranges_ok)) E)))).
  intros a b Hs. unfold same_hand in Hs. unfold example_hashCode.
  apply orb_true_iff in Hs as [Hs|Hs]; apply andb_true_iff in Hs as [Ha Hb];
    apply Nat.eqb_eq in Ha, Hb; rewrite Ha, Hb; [reflexivity|].
  rewrite Nat.max_comm, Nat.min_comm. reflexivity.
Defined.

(** ** The showdown equity *)

Lemma pass_spec_at (beats : RiverCombs -> RiverCombs -> bool) (reach : list R)
    (O : list RiverCombs) (f : RiverCombs -> R -> R -> R) :
  Forall (fun o => hand_ok (private_cards o)) O ->
  forall (l : list RiverCombs) (k : nat) (s : R) (cs pay : list R),
    (forall p, In p l ->
       hand_ok (private_cards p) /\ (reach_prob_index p < length pay)%nat /\
       (forall i j, (i <= j)%nat -> (j < length O)%nat ->
          beats p (O !!! j) = true -> beats p (O !!! i) = true) /\
       Forall (fun o => beats p o = true) (take k O)) ->
    (forall i j, (i <= j)%nat -> (j < length l)%nat ->
       forall o, beats (l !!! i) o = true -> beats (l !!! j) o = true) ->
    NoDup (map reach_prob_index l) ->
    (k <= length O)%nat ->
    s = combs_total reach (take k O) ->
    length cs = 52%nat ->
    (forall c, (c < 52)%nat -> cs !!! c = combs_holding reach (take k O) c) ->
    exists sc' pay',
      fold_left (fun st p => pass_step_at beats reach O f p st) l ((k, s, cs), pay)
        = (sc', pay') /\
      length pay' = length pay /\
      (forall p, In p l ->
         pay' !!! reach_prob_index p =
           f p (effective_reach reach (beats p) O (private_cards p))
             (pay !!! reach_prob_index p)) /\
      (forall i, ~ In i (map reach_prob_index l) -> pay' !!! i = pay !!! i).
Proof.
  intros HokO l. induction l as [|p l IH]; intros k s cs pay Hl Hmono Hnd Hk Hs Hlc Hcs.
  - exists (k, s, cs), pay. cbn [fold_left].
    split; [reflexivity|]. split; [reflexivity|].
    split; [intros p []|intros i _; reflexivity].
  - destruct (Hl p (or_introl eq_refl)) as (Hp & Hidx & Hpre & Hall).
    destruct (scan_spec (beats p) reach O HokO Hpre (length O - k) k s cs
                eq_refl Hk Hall Hs Hlc Hcs)
      as (k' & s' & cs' & E & Hk' & Ht & Hs' & Hlc' & Hcs').
    cbn [fold_left]. unfold pass_step_at at 2. cbn [fst]. rewrite E.
    set (eff := minus_blockers s' cs' (private_cards p)).
    assert (Heff : eff = effective_reach reach (beats p) O (private_cards p)).
    { unfold eff, minus_blockers, effective_reach. destruct Hp as (H1 & H2 & _).
      rewrite !Hcs' by assumption. rewrite Hs', Ht. reflexivity. }
    set (pay1 := <[reach_prob_index p := f p eff (pay !!! reach_prob_index p)]> pay).
    apply NoDup_cons in Hnd. destruct Hnd as [Hnotin Hnd'].
    destruct (IH k' s' cs' pay1) as (sc' & pay' & E' & Hlen' & Hcell & Hother).
    + intros p' Hp'. destruct (Hl p' (or_intror Hp')) as (A1 & A2 & A3 & _).
      split; [exact A1|]. split; [unfold pay1; rewrite length_insert; exact A2|].
      split; [exact A3|].
      rewrite Ht. apply Forall_forall. intros o Ho.
      apply list_elem_of_In, filter_In in Ho. destruct Ho as [_ Ho].
      apply list_elem_of_In, list_elem_of_lookup_total in Hp'.
      destruct Hp' as (j & Hj & <-).
      apply (Hmono 0%nat (S j)); [lia|cbn [length]; lia|exact Ho].
    + intros i j Hij Hj o. apply (Hmono (S i) (S j)); [lia|cbn [length]; lia].
    + exact Hnd'.
    + lia.
    + exact Hs'.
    + exact Hlc'.
    + exact Hcs'.
    + exists sc', pay'. split; [exact E'|].
      split; [rewrite Hlen'; unfold pay1; apply length_insert|]. split.
      * intros q [<-|Hq].
        -- rewrite Hother by (intros X; apply Hnotin, list_elem_of_In; exact X).
           unfold pay1. rewrite list_lookup_total_insert_eq by exact Hidx.
           rewrite Heff. reflexivity.
        -- rewrite Hcell by exact Hq. f_equal.
           unfold pay1. apply list_lookup_total_insert_ne.
           intros Eq. apply Hnotin. rewrite Eq.
           apply list_elem_of_In, in_map. exact Hq.
      * intros i Hi. rewrite Hother by (intros X; apply Hi; right; exact X).
        unfold pay1. apply list_lookup_total_insert_ne.
        intros Eq. apply Hi. left. exact Eq.
Qed.

(** The loop that sums the reach of all opponent entries. *)
Lemma combs_sum_loop (reach : list R) (O : list RiverCombs) :
  Forall (fun o => hand_ok (private_cards o)) O ->
  let st := for_range (length O) (fun i '(oppo_total, oppo_card_total) =>
                let one_oppo_comb := O !!! i in
                (oppo_total + reach !!! reach_prob_index one_oppo_comb,
                 add_card_reach oppo_card_total (private_cards one_oppo_comb)
                   (reach !!! reach_prob_index one_oppo_comb)))
              (0, replicate 52 0) in
  fst st = combs_total reach O /\
  length (snd st) = 52%nat /\
  forall c, (c < 52)%nat -> snd st !!! c = combs_holding reach O c.
Proof.
  intros Hok st.
  pose (P := fun (k : nat) (s : R * list R) =>
      fst s = combs_total reach (take k O) /\
      length (snd s) = 52%nat /\
      forall c, (c < 52)%nat -> snd s !!! c = combs_holding reach (take k O) c).
  assert (Inv : P (length O) st).
  { apply (for_range_ind P).
    - unfold P. cbn [fst snd take]. split; [reflexivity|].
      split; [apply length_replicate|].
      intros c Hc. rewrite lookup_total_replicate_2 by exact Hc. reflexivity.
    - intros k [s cs] Hk (H1 & H2 & H3). cbn [fst snd] in *.
      pose proof (list_lookup_lookup_total_lt O k Hk) as Hlk.
      assert (Hh : hand_ok (private_cards (O !!! k))).
      { rewrite Forall_forall in Hok. apply Hok, list_elem_of_lookup_total_2. exact Hk. }
      destruct Hh as (A1 & A2 & Ad).
      unfold P. cbn [fst snd].
      rewrite (take_S_r O k (O !!! k) Hlk).
      split; [rewrite combs_total_snoc, H1; reflexivity|].
      split; [rewrite add_card_reach_length; exact H2|].
      intros c Hc. rewrite add_card_reach_lookup by lia.
      rewrite combs_holding_snoc, H3 by exact Hc.
      rewrite <- holds_card_split by exact Ad. lra. }
  unfold P in Inv. rewrite take_ge in Inv by lia. exact Inv.
Qed.

(** A loop that writes one cell per entry. *)
Lemma write_cells_spec (T : RiverCombs -> R) (l : list RiverCombs) :
  NoDup (map reach_prob_index l) ->
  forall cells,
    (forall p, In p l -> (reach_prob_index p < length cells)%nat) ->
    let cells' :=
      fold_left (fun cells p => <[reach_prob_index p := T p]> cells) l cells in
    length cells' = length cells /\
    (forall p, In p l -> cells' !!! reach_prob_index p = T p) /\
    (forall i, ~ In i (map reach_prob_index l) -> cells' !!! i = cells !!! i).
Proof.
  induction l as [|p l IH]; intros Hnd cells Hlen; cbn [fold_left].
  - split; [reflexivity|]. split; [intros p []|intros i _; reflexivity].
  - cbn [map] in Hnd. apply NoDup_cons in Hnd as [Hnotin Hnd].
    destruct (IH Hnd (<[reach_prob_index p := T p]> cells)) as (L & C & O).
    { intros q Hq. rewrite length_insert. apply Hlen. right. exact Hq. }
    split; [rewrite L; apply length_insert|]. split.
    + intros q [<-|Hq].
      * rewrite O by (intros X; apply Hnotin, list_elem_of_In; exact X).
        apply list_lookup_total_insert_eq. apply Hlen. left. reflexivity.
      * apply C, Hq.
    + intros i Hi. rewrite O by (intros X; apply Hi; right; exact X).
      apply list_lookup_total_insert_ne. intros Eq. apply Hi. left. exact Eq.
Qed.

Section ShowdownEquity.

Variable this : PCfrSolver.
Variable player : nat.
Variable reach : list R.
Variable O : list RiverCombs.
Hypothesis equity_on : enable_equity this = true.

Lemma showdown_win_body_winsum (W tot : R) (ctot : list R) (p : RiverCombs)
    (st : (nat * R * list R) * list R * (list R * list R)) :
  (fst (fst (showdown_win_body this player reach O W tot ctot p st)),
   fst (snd (showdown_win_body this player reach O W tot ctot p st)))
  = pass_step worse_than reach O (fun eff _ => eff) p (fst (fst st), fst (snd st)).
Proof.
  destruct st as [[sc pay] [ewa eta]]. unfold showdown_win_body, pass_step.
  cbn [fst snd]. change (fun o => (rank p <? rank o)%Z) with (worse_than p).
  destruct (scan (worse_than p) reach (drop (fst (fst sc)) O) sc) as [[j s] cs].
  rewrite equity_on. reflexivity.
Qed.

Lemma showdown_win_body_total (W tot : R) (ctot : list R) (p : RiverCombs)
    (st : (nat * R * list R) * list R * (list R * list R)) :
  snd (snd (showdown_win_body this player reach O W tot ctot p st))
  = <[reach_prob_index p :=
        minus_blockers tot ctot (private_cards p)
        + same_hand_reach this player (reach_prob_index p) reach]> (snd (snd st)).
Proof.
  destruct st as [[sc pay] [ewa eta]]. unfold showdown_win_body, same_hand_reach.
  cbn [fst snd].
  destruct (scan _ reach (drop (fst (fst sc)) O) sc) as [[j s] cs].
  rewrite equity_on. cbn [fst snd]. f_equal.
  destruct (indPlayer2Player this player (1 - player) (reach_prob_index p) =? -1)%Z;
    cbn [negb]; lra.
Qed.

Lemma showdown_loss_body_equity (L : R) (ewa eta : list R) (p : RiverCombs)
    (st : (nat * R * list R) * list R * list R) :
  (fst (fst (showdown_loss_body this reach O L ewa eta p st)),
   snd (showdown_loss_body this reach O L ewa eta p st))
  = pass_step_at better_than reach (rev O)
      (fun p eff _ =>
         ewa !!! reach_prob_index p
         + 0.5 * clip_negative (eta !!! reach_prob_index p
                                - ewa !!! reach_prob_index p - eff))
      p (fst (fst st), snd st).
Proof.
  destruct st as [[sc pay] eq]. unfold showdown_loss_body, pass_step_at, clip_negative.
  cbn [fst snd]. change (fun o => (rank o <? rank p)%Z) with (better_than p).
  destruct (scan (better_than p) reach (drop (fst (fst sc)) (rev O)) sc) as [[j s] cs].
  rewrite equity_on. reflexivity.
Qed.

End ShowdownEquity.

Lemma fold_left_const {A S : Type} (l : list A) (s : S) :
  fold_left (fun acc _ => acc) l s = s.
Proof. induction l as [|x l IH]; [reflexivity|exact IH]. Qed.

Lemma replicate_zero_lookup (n i : nat) : replicate n 0 !!! i = 0.
Proof.
  destruct (decide (i < n)%nat) as [Hi|Hi]; [apply lookup_total_replicate_2, Hi|].
  rewrite list_lookup_total_alt, lookup_ge_None_2; [reflexivity|].
  rewrite length_replicate. lia.
Qed.

Section ShowdownPasses.

Variable this : PCfrSolver.
Variable player : nat.
Variable reach_probs : list R.
Variable pc oc : list RiverCombs.
Hypothesis player_combs_ok : river_combos_ok (ranges this player) pc.
Hypothesis oppo_combs_ok : river_combos_ok (ranges this (1 - player)) oc.

Lemma oppo_hands_ok : Forall (fun o => hand_ok (private_cards o)) oc.
Proof.
  destruct oppo_combs_ok as (_ & _ & Hfo).
  eapply Forall_impl; [exact Hfo|]. intros o (_ & _ & X). exact X.
Qed.

Lemma win_pass_entries (cells : list R) :
  length cells = length (ranges this player) ->
  forall q, In q pc ->
    hand_ok (private_cards q) /\ (reach_prob_index q < length cells)%nat /\
    (forall i j, (i <= j)%nat -> (j < length oc)%nat ->
       worse_than q (oc !!! j) = true -> worse_than q (oc !!! i) = true) /\
    Forall (fun o => worse_than q o = true) (take 0 oc).
Proof.
  intros Hlen q Hq.
  destruct player_combs_ok as (_ & _ & Hfp). destruct oppo_combs_ok as (Hdo & _ & _).
  rewrite Forall_forall in Hfp.
  destruct (Hfp q (proj2 (list_elem_of_In _ _) Hq)) as (A1 & _ & A3).
  split; [exact A3|]. split; [rewrite Hlen; exact A1|].
  split; [|constructor].
  intros i j Hij Hj. unfold worse_than. rewrite !Z.ltb_lt.
  pose proof (Hdo i j Hij Hj). lia.
Qed.

Lemma win_pass_order :
  forall i j, (i <= j)%nat -> (j < length pc)%nat ->
    forall o, worse_than (pc !!! i) o = true -> worse_than (pc !!! j) o = true.
Proof.
  destruct player_combs_ok as (Hdp & _ & _).
  intros i j Hij Hj o. unfold worse_than. rewrite !Z.ltb_lt.
  pose proof (Hdp i j Hij Hj). lia.
Qed.

Lemma loss_pass_entries (cells : list R) :
  length cells = length (ranges this player) ->
  forall q, In q (rev pc) ->
    hand_ok (private_cards q) /\ (reach_prob_index q < length cells)%nat /\
    (forall i j, (i <= j)%nat -> (j < length (rev oc))%nat ->
       better_than q (rev oc !!! j) = true -> better_than q (rev oc !!! i) = true) /\
    Forall (fun o => better_than q o = true) (take 0 (rev oc)).
Proof.
  intros Hlen q Hq. apply in_rev in Hq.
  destruct player_combs_ok as (_ & _ & Hfp). destruct oppo_combs_ok as (Hdo & _ & _).
  rewrite Forall_forall in Hfp.
  destruct (Hfp q (proj2 (list_elem_of_In _ _) Hq)) as (A1 & _ & A3).
  split; [exact A3|]. split; [rewrite Hlen; exact A1|].
  split; [|constructor].
  intros i j Hij Hj. unfold better_than. rewrite !Z.ltb_lt.
  rewrite length_rev in Hj.
  pose proof (ranks_descending_rev oc Hdo i j Hij Hj). lia.
Qed.

Lemma loss_pass_order :
  forall i j, (i <= j)%nat -> (j < length (rev pc))%nat ->
    forall o, better_than (rev pc !!! i) o = true -> better_than (rev pc !!! j) o = true.
Proof.
  destruct player_combs_ok as (Hdp & _ & _).
  intros i j Hij Hj o. unfold better_than. rewrite !Z.ltb_lt.
  rewrite length_rev in Hj.
  pose proof (ranks_descending_rev pc Hdp i j Hij Hj). lia.
Qed.

Lemma loss_pass_indices : NoDup (map reach_prob_index (rev pc)).
Proof.
  destruct player_combs_ok as (_ & Hndp & _).
  rewrite map_rev. apply NoDup_ListNoDup, List.NoDup_rev, NoDup_ListNoDup. exact Hndp.
Qed.

(** The first pass over the player's entries. *)
Lemma win_pass_spec (W tot : R) (ctot ewa0 eta0 : list R) :
  let n := length (ranges this player) in
  let out :=
    fold_left (fun st q => showdown_win_body this player reach_probs oc W tot ctot q st)
      pc ((0%nat, 0, replicate 52 0), replicate n 0, (ewa0, eta0)) in
  length (snd (fst out)) = n /\
  (forall i, ~ In i (map reach_prob_index pc) -> snd (fst out) !!! i = 0) /\
  (forall p, In p pc ->
     snd (fst out) !!! reach_prob_index p
     = effective_reach reach_probs (worse_than p) oc (private_cards p) * W) /\
  (enable_equity this = true -> length ewa0 = n -> length eta0 = n ->
   forall p, In p pc ->
     fst (snd out) !!! reach_prob_index p
     = effective_reach reach_probs (worse_than p) oc (private_cards p) /\
     snd (snd out) !!! reach_prob_index p
     = minus_blockers tot ctot (private_cards p)
       + same_hand_reach this player (reach_prob_index p) reach_probs).
Proof.
  intros n out.
  pose proof oppo_hands_ok as HokO.
  destruct player_combs_ok as (_ & Hndp & _).
  assert (Z52 : forall c, (c < 52)%nat ->
            replicate 52 0 !!! c = combs_holding reach_probs (take 0 oc) c).
  { intros c Hc. rewrite lookup_total_replicate_2 by exact Hc. reflexivity. }
  pose proof (fold_left_project fst
                (fun st q => showdown_win_body this player reach_probs oc W tot ctot q st)
                (fun st q => pass_step worse_than reach_probs oc
                               (fun eff _ => eff * W) q st)
                pc ((0%nat, 0, replicate 52 0), replicate n 0, (ewa0, eta0))
                (fun s a => showdown_win_body_project this player reach_probs oc W
                              tot ctot a s)) as Hpay.
  fold out in Hpay. cbn [fst] in Hpay.
  destruct (pass_spec worse_than reach_probs oc (fun eff _ => eff * W) HokO
              pc 0%nat 0 (replicate 52 0) (replicate n 0)
              (win_pass_entries _ (length_replicate _ _)) win_pass_order Hndp
              (Nat.le_0_l _) eq_refl (length_replicate _ _) Z52)
    as (sc1 & pay1 & E1 & Hl1 & Hcell1 & Hother1).
  rewrite E1 in Hpay.
  split; [rewrite Hpay; cbn [snd]; rewrite Hl1; apply length_replicate|].
  split; [intros i Hi; rewrite Hpay; cbn [snd]; rewrite Hother1 by exact Hi;
          apply replicate_zero_lookup|].
  split; [intros p Hp; rewrite Hpay; cbn [snd]; apply Hcell1, Hp|].
  intros Ee Ha Ht p Hp.
  pose proof (fold_left_project (fun st => (fst (fst st), fst (snd st)))
                (fun st q => showdown_win_body this player reach_probs oc W tot ctot q st)
                (fun st q => pass_step worse_than reach_probs oc (fun eff _ => eff) q st)
                pc ((0%nat, 0, replicate 52 0), replicate n 0, (ewa0, eta0))
                (fun s a => showdown_win_body_winsum this player reach_probs oc Ee
                              W tot ctot a s)) as Hwin.
  fold out in Hwin. cbn [fst snd] in Hwin.
  destruct (pass_spec worse_than reach_probs oc (fun eff _ => eff) HokO
              pc 0%nat 0 (replicate 52 0) ewa0
              (win_pass_entries _ Ha) win_pass_order Hndp
              (Nat.le_0_l _) eq_refl (length_replicate _ _) Z52)
    as (sc2 & ewa & E2 & _ & Hcell2 & _).
  rewrite E2 in Hwin.
  pose proof (fold_left_project (fun st => snd (snd st))
                (fun st q => showdown_win_body this player reach_probs oc W tot ctot q st)
                (fun cells q =>
                   <[reach_prob_index q :=
                       minus_blockers tot ctot (private_cards q)
                       + same_hand_reach this player (reach_prob_index q) reach_probs]>
                     cells)
                pc ((0%nat, 0, replicate 52 0), replicate n 0, (ewa0, eta0))
                (fun s a => showdown_win_body_total this player reach_probs oc Ee
                              W tot ctot a s)) as Htot.
  fold out in Htot. cbn [fst snd] in Htot.
  destruct (write_cells_spec
              (fun q => minus_blockers tot ctot (private_cards q)
                        + same_hand_reach this player (reach_prob_index q) reach_probs)
              pc Hndp eta0) as (_ & Hcell3 & _).
  { intros q Hq. apply (win_pass_entries eta0 Ht q Hq). }
  split.
  - injection Hwin as _ ->. apply Hcell2, Hp.
  - rewrite Htot. apply Hcell3, Hp.
Qed.

(** The second pass, from the back. *)
Lemma loss_pass_spec (L : R) (pay1 ewa eta eq0 : list R) :
  let n := length (ranges this player) in
  length pay1 = n ->
  let out :=
    fold_left (fun st q => showdown_loss_body this reach_probs oc L ewa eta q st)
      (rev pc) ((0%nat, 0, replicate 52 0), pay1, eq0) in
  (forall i, ~ In i (map reach_prob_index pc) ->
     snd (fst out) !!! i = pay1 !!! i) /\
  (enable_equity this = false -> snd out = eq0) /\
  (enable_equity this = true -> length eq0 = n ->
   (forall i, ~ In i (map reach_prob_index pc) -> snd out !!! i = eq0 !!! i) /\
   forall p, In p pc ->
     snd out !!! reach_prob_index p
     = ewa !!! reach_prob_index p
       + 0.5 * clip_negative
                 (eta !!! reach_prob_index p - ewa !!! reach_prob_index p
                  - effective_reach reach_probs (better_than p) oc (private_cards p))).
Proof.
  intros n Hl1 out.
  pose proof oppo_hands_ok as HokO.
  assert (Z52 : forall c, (c < 52)%nat ->
            replicate 52 0 !!! c = combs_holding reach_probs (take 0 (rev oc)) c).
  { intros c Hc. rewrite lookup_total_replicate_2 by exact Hc. reflexivity. }
  assert (Hrev : forall i, ~ In i (map reach_prob_index pc) ->
                           ~ In i (map reach_prob_index (rev pc))).
  { intros i Hi X. apply Hi. rewrite map_rev in X. apply in_rev in X. exact X. }
  pose proof (fold_left_project fst
                (fun st q => showdown_loss_body this reach_probs oc L ewa eta q st)
                (fun st q => pass_step better_than reach_probs (rev oc)
                               (fun eff old => old + eff * L) q st)
                (rev pc) ((0%nat, 0, replicate 52 0), pay1, eq0)
                (fun s a => showdown_loss_body_project this reach_probs oc L
                              ewa eta a s)) as Hpay.
  fold out in Hpay. cbn [fst] in Hpay.
  destruct (pass_spec better_than reach_probs (rev oc) (fun eff old => old + eff * L)
              (Forall_rev HokO) (rev pc) 0%nat 0 (replicate 52 0) pay1
              (loss_pass_entries _ Hl1) loss_pass_order loss_pass_indices
              (Nat.le_0_l _) eq_refl (length_replicate _ _) Z52)
    as (sc2 & pay2 & E2 & _ & _ & Hother2).
  rewrite E2 in Hpay.
  split; [intros i Hi; rewrite Hpay; cbn [snd]; apply Hother2, Hrev, Hi|].
  split.
  - intros Ee.
    pose proof (fold_left_project snd
                  (fun st q => showdown_loss_body this reach_probs oc L ewa eta q st)
                  (fun (eq : list R) (_ : RiverCombs) => eq)
                  (rev pc) ((0%nat, 0, replicate 52 0), pay1, eq0)) as Heq.
    fold out in Heq. rewrite Heq; [apply fold_left_const|].
    intros [[sc pay] eq] q. unfold showdown_loss_body. cbn [fst snd].
    destruct (scan _ reach_probs _ sc) as [[j s] cs]. rewrite Ee. reflexivity.
  - intros Ee Hq0.
    pose proof (fold_left_project (fun st => (fst (fst st), snd st))
                  (fun st q => showdown_loss_body this reach_probs oc L ewa eta q st)
                  (fun st q => pass_step_at better_than reach_probs (rev oc)
                     (fun p eff _ =>
                        ewa !!! reach_prob_index p
                        + 0.5 * clip_negative (eta !!! reach_prob_index p
                                               - ewa !!! reach_prob_index p - eff))
                     q st)
                  (rev pc) ((0%nat, 0, replicate 52 0), pay1, eq0)
                  (fun s a => showdown_loss_body_equity this reach_probs oc Ee L
                                ewa eta a s)) as Heq.
    fold out in Heq. cbn [fst snd] in Heq.
    destruct (pass_spec_at better_than reach_probs (rev oc)
                (fun p eff _ =>
                   ewa !!! reach_prob_index p
                   + 0.5 * clip_negative (eta !!! reach_prob_index p
                                          - ewa !!! reach_prob_index p - eff))
                (Forall_rev HokO) (rev pc) 0%nat 0 (replicate 52 0) eq0
                (loss_pass_entries _ Hq0) loss_pass_order loss_pass_indices
                (Nat.le_0_l _) eq_refl (length_replicate _ _) Z52)
      as (sc3 & eq3 & E3 & _ & Hcell3 & Hother3).
    rewrite E3 in Heq. injection Heq as _ ->.
    split; [intros i Hi; apply Hother3, Hrev, Hi|].
    intros p Hp. rewrite Hcell3 by (apply in_rev; rewrite rev_involutive; exact Hp).
    rewrite effective_reach_rev. reflexivity.
Qed.

End ShowdownPasses.

(** X23 ([showdownUtility], the equity and the hands without entry). With
    the river cache's lists sorted weakest first: a hand of the player that
    the cache does not list, as one that overlaps the board, keeps payoff 0
    and equity 0. With equity tracking the equity of a listed hand is
    [eff_win + 0.5 * max(0, eff_total - eff_win - eff_loss)]: [eff_win] and
    [eff_loss] are the effective reach of the opponent entries ranked
    strictly worse and strictly better, [eff_total] that of all opponent
    entries plus the reach of the identical hand in the opponent's range.
    Without equity tracking the equity vector is empty. *)
Theorem showdownUtility_equity (this : PCfrSolver) (player : nat)
    (node : ShowdownNode) (reach_probs : list R) (current_board : Z) :
  let oppo := (1 - player)%nat in
  let player_combs := getRiverCombos this player current_board in
  let oppo_combs := getRiverCombos this oppo current_board in
  let result := showdownUtility this player node reach_probs current_board in
  river_combos_ok (ranges this player) player_combs ->
  river_combos_ok (ranges this oppo) oppo_combs ->
  (forall i, ~ In i (map reach_prob_index player_combs) ->
     payoffs result !!! i = 0 /\ equity result !!! i = 0) /\
  (enable_equity this = false -> equity result = []) /\
  (enable_equity this = true ->
   forall p, In p player_combs ->
     let h := private_cards p in
     let eff_win := effective_reach reach_probs (worse_than p) oppo_combs h in
     let eff_loss := effective_reach reach_probs (better_than p) oppo_combs h in
     let eff_total :=
       effective_total this player reach_probs oppo_combs h (reach_prob_index p) in
     equity result !!! reach_prob_index p
     = eff_win + 0.5 * clip_negative (eff_total - eff_win - eff_loss)).
Proof.
  intros oppo pc oc result Hpc Hoc.
  pose proof (oppo_hands_ok this player oc Hoc) as HokO.
  unfold result, showdownUtility. fold oppo pc oc.
  set (n := length (ranges this player)).
  set (W := get_payoffs node NOTTIE player player).
  set (L := get_payoffs node NOTTIE oppo player).
  pose proof (combs_sum_loop reach_probs oc HokO) as Hsum. cbv zeta in Hsum.
  set (totals := if enable_equity this then for_range (length oc) _ (0, replicate 52 0)
                 else (0, [])).
  assert (Htotals : enable_equity this = true ->
            fst totals = combs_total reach_probs oc /\
            forall c, (c < 52)%nat -> snd totals !!! c = combs_holding reach_probs oc c).
  { intros Ee. unfold totals. rewrite Ee.
    destruct Hsum as (T1 & _ & T3). split; [exact T1|exact T3]. }
  clearbody totals. clear Hsum. destruct totals as [tot ctot]. cbn [fst snd] in Htotals.
  rewrite (for_range_lookups
             (showdown_win_body this player reach_probs oc W tot ctot)).
  set (ewa0 := if enable_equity this then replicate n 0 else []).
  pose proof (win_pass_spec this player reach_probs pc oc Hpc Hoc W tot ctot ewa0 ewa0)
    as Hwin.
  cbv zeta in Hwin. fold n in Hwin.
  destruct (fold_left _ pc _) as [[sc1 pay1] [ewa eta]].
  cbn [fst snd] in Hwin. destruct Hwin as (Hl1 & Hzero1 & _ & Hcells1).
  rewrite (for_range_down_lookups
             (showdown_loss_body this reach_probs oc L ewa eta)).
  pose proof (loss_pass_spec this player reach_probs pc oc Hpc Hoc L pay1 ewa eta ewa0 Hl1)
    as Hloss.
  cbv zeta in Hloss. fold n in Hloss.
  destruct (fold_left _ (rev pc) _) as [[sc2 pay2] eq2].
  cbn [fst snd payoffs equity] in *. destruct Hloss as (Hzero2 & Hoff & Hon).
  assert (Hn0 : enable_equity this = true -> length ewa0 = n).
  { intros Ee. unfold ewa0. rewrite Ee. apply length_replicate. }
  split; [|split].
  - intros i Hi. split; [rewrite Hzero2, Hzero1 by exact Hi; reflexivity|].
    destruct (enable_equity this) eqn:Ee.
    + destruct (Hon eq_refl (Hn0 eq_refl)) as [Hother _].
      rewrite Hother by exact Hi. unfold ewa0. apply replicate_zero_lookup.
    + rewrite (Hoff eq_refl). unfold ewa0. apply nil_lookup_zero.
  - intros Ee. rewrite (Hoff Ee). unfold ewa0. rewrite Ee. reflexivity.
  - intros Ee p Hp. set (h := private_cards p).
    destruct (Hon Ee (Hn0 Ee)) as [_ Hcell]. rewrite (Hcell p Hp).
    destruct (Hcells1 Ee (Hn0 Ee) (Hn0 Ee) p Hp) as [-> ->].
    destruct (Htotals Ee) as [T1 T3].
    assert (Hh : hand_ok h).
    { destruct Hpc as (_ & _ & Hf). rewrite Forall_forall in Hf.
      apply (Hf p (proj2 (list_elem_of_In _ _) Hp)). }
    destruct Hh as (H1 & H2 & _).
    unfold minus_blockers. rewrite T1, !T3 by assumption.
    reflexivity.
Qed.

Lemma equity_river_cache_ok (player : nat) :
  river_combos_ok (ranges equity_river_solver player)
    (getRiverCombos equity_river_solver player 0).
Proof. exact (proj1 (example_river_cache_ok player)). Qed.

Lemma showdownUtility_equity_witness :
  equity (showdownUtility equity_river_solver 0 example_showdown [1; 1] 0) !!! 1%nat
  = effective_reach [1; 1] (worse_than (mkRiverCombs (mkPrivateCards 2 3 1) 5 1))
      (getRiverCombos equity_river_solver 1 0) (mkPrivateCards 2 3 1)
    + 0.5 * clip_negative
              (effective_total equity_river_solver 0 [1; 1]
                 (getRiverCombos equity_river_solver 1 0) (mkPrivateCards 2 3 1) 1
               - effective_reach [1; 1]
                   (worse_than (mkRiverCombs (mkPrivateCards 2 3 1) 5 1))
                   (getRiverCombos equity_river_solver 1 0) (mkPrivateCards 2 3 1)
               - effective_reach [1; 1]
                   (better_than (mkRiverCombs (mkPrivateCards 2 3 1) 5 1))
                   (getRiverCombos equity_river_solver 1 0) (mkPrivateCards 2 3 1)).
Proof.
  exact (proj2 (proj2 (showdownUtility_equity equity_river_solver 0 example_showdown
                         [1; 1] 0 (equity_river_cache_ok 0) (equity_river_cache_ok 1)))
           eq_refl (mkRiverCombs (mkPrivateCards 2 3 1) 5 1) (or_introl eq_refl)).
Defined.

(** ** The count of the dump *)

Lemma sumZ_app (l1 l2 : list Z) : sumZ (l1 ++ l2) = (sumZ l1 + sumZ l2)%Z.
Proof.
  induction l1 as [|x l1 IH]; cbn [app sumZ fold_right]; [reflexivity|].
  fold (sumZ (l1 ++ l2)) (sumZ l1). rewrite IH. lia.
Qed.

Lemma counted_app (budget : Z) (l1 l2 : list (ActionNode * (nat * Z))) :
  counted budget (l1 ++ l2) = (counted budget l1 + counted budget l2)%Z.
Proof. unfold counted. rewrite map_app. apply sumZ_app. Qed.

Lemma counted_cons (budget : Z) (e : ActionNode * (nat * Z))
    (l : list (ActionNode * (nat * Z))) :
  counted budget (e :: l)
  = ((if (Z.of_nat (fst (snd e)) <? budget)%Z then snd (snd e) else 0) + counted budget l)%Z.
Proof. reflexivity. Qed.

Lemma counted_dealt (budget k : Z) (l : list (ActionNode * (nat * Z))) :
  counted budget
    (map (fun e => (fst e, (S (fst (snd e)), (snd (snd e) * k)%Z))) l)
  = (counted (budget - 1) l * k)%Z.
Proof.
  induction l as [|e l IH]; cbn [map]; [reflexivity|].
  rewrite !counted_cons, IH. cbn [fst snd].
  destruct (Z.ltb_spec (Z.of_nat (S (fst (snd e)))) budget);
    destruct (Z.ltb_spec (Z.of_nat (fst (snd e))) (budget - 1)); lia.
Qed.

Lemma counted_no_budget (budget : Z) (l : list (ActionNode * (nat * Z))) :
  (budget <= 0)%Z -> counted budget l = 0%Z.
Proof.
  intros Hb. induction l as [|e l IH]; [reflexivity|].
  rewrite counted_cons, IH.
  destruct (Z.ltb_spec (Z.of_nat (fst (snd e))) budget); lia.
Qed.

Lemma counted_nonneg (budget : Z) (l : list (ActionNode * (nat * Z))) :
  Forall (fun e => (0 <= snd (snd e))%Z) l -> (0 <= counted budget l)%Z.
Proof.
  induction 1 as [|e l He _ IH]; [unfold counted; cbn; lia|].
  rewrite counted_cons.
  destruct (Z.of_nat (fst (snd e)) <? budget)%Z; lia.
Qed.

(** X24 ([countNodes]). The count is the number of action nodes with
    fewer than [max_depth - depth] chance nodes above them, an action node
    counted once for every combination of cards of the chance nodes above
    it; terminal and showdown nodes count nothing, the depth does not grow
    at action nodes, and from [depth >= max_depth] on the count is 0. *)
Theorem countNodes_weighted (node : GameTreeNode) (depth max_depth : Z) :
  countNodes node depth max_depth
  = counted (max_depth - depth) (dealt_action_nodes node) /\
  (0 <= countNodes node depth max_depth)%Z /\
  ((max_depth <= depth)%Z -> countNodes node depth max_depth = 0%Z).
Proof.
  assert (F : forall node depth,
            countNodes node depth max_depth
            = counted (max_depth - depth) (dealt_action_nodes node)).
  { clear node depth.
    induction node as [a cs IH|c child IH|r s|r p] using GameTreeNode_forall_ind;
      intros depth; cbn [countNodes dealt_action_nodes].
    - destruct (Z.geb_spec depth max_depth) as [Hge|Hlt].
      + symmetry. apply counted_no_budget. lia.
      + change ((a, (0%nat, 1%Z)) :: flat_map dealt_action_nodes cs)
          with ([(a, (0%nat, 1%Z))] ++ flat_map dealt_action_nodes cs).
        rewrite counted_app.
        assert (E1 : counted (max_depth - depth) [(a, (0%nat, 1%Z))] = 1%Z).
        { rewrite counted_cons. cbn [fst snd].
          destruct (Z.ltb_spec (Z.of_nat 0) (max_depth - depth)); [reflexivity|lia]. }
        rewrite E1. generalize 1%Z as count.
        induction IH as [|child cs Hc _ IHcs]; intros count;
          cbn [fold_left flat_map].
        * unfold counted. cbn. lia.
        * rewrite IHcs, Hc, counted_app. lia.
    - destruct (Z.geb_spec depth max_depth) as [Hge|Hlt].
      + symmetry. apply counted_no_budget. lia.
      + rewrite IH, counted_dealt. f_equal. f_equal. lia.
    - destruct (depth >=? max_depth)%Z; reflexivity.
    - destruct (depth >=? max_depth)%Z; reflexivity. }
  assert (W : forall node, Forall (fun e => (0 <= snd (snd e))%Z) (dealt_action_nodes node)).
  { clear. intros node.
    induction node as [a cs IH|c child IH|r s|r p] using GameTreeNode_forall_ind;
      cbn [dealt_action_nodes]; [| |constructor|constructor].
    - constructor; [cbn; lia|].
      induction IH as [|child cs Hc _ IHcs]; cbn [flat_map]; [constructor|].
      apply Forall_app. split; assumption.
    - apply Forall_fmap. eapply Forall_impl; [exact IH|].
      intros e He. cbn [fst snd]. apply Z.mul_nonneg_nonneg; [exact He|lia]. }
  split; [apply F|]. split.
  - rewrite F. apply counted_nonneg, W.
  - intros Hd. rewrite F. apply counted_no_budget. lia.
Qed.
